(** * STYML: a shallow embedding of the single-header StrictYAML parser and emitter

    The development follows the layout of [styml.h]:
    exceptions, [Element], Wyhash, [Context] (string arena and the
    map child index), [StringHelper], the two emitters, the [Node] API,
    the tokenizer [getToken] and [parse].

    Conventions of the embedding.
    - [char] is [ascii]; a [const char*] is a list of characters read with
      [at_], which yields the NUL character outside of the list (the model
      covers zero terminated inputs: the C string and [std::string] entry
      points of [parse]).
    - [uint32_t], [uint64_t] and [int] values are integers of [Z]; the
      wrap-around of the hash computations is written with [u32]/[u64].
    - [assert] is compiled out: the project builds in Release mode by
      default ([CMAKE_BUILD_TYPE Release]), so the model follows the
      NDEBUG behaviour.
    - A [while (true)] loop carries a fuel; running out of fuel is reported
      as [Diverge]. *)

From Stdlib Require Import ZArith List Ascii String Lia Bool.
Import ListNotations.
Open Scope list_scope.
Open Scope Z_scope.

(* ====================================================================== *)
(** ** Characters, buffers and machine integers *)
(* ====================================================================== *)

Definition NUL : ascii := "000"%char.
Definition TAB : ascii := "009"%char.
Definition LF : ascii := "010"%char.
Definition CR : ascii := "013"%char.
Definition SP : ascii := " "%char.
Definition DQUOTE : ascii := "034"%char.
Definition SQUOTE : ascii := "039"%char.
Definition BACKSLASH : ascii := "092"%char.

Definition chars (s : string) : list ascii := list_ascii_of_string s.

Definition u32 (x : Z) : Z := x mod 2 ^ 32.
Definition u64 (x : Z) : Z := x mod 2 ^ 64.
Definition UINT_MAX : Z := 4294967295.

(** [text[i]] for a buffer held as a list. *)
Definition at_ (text : list ascii) (i : Z) : ascii :=
  if i <? 0 then NUL else nth (Z.to_nat i) text NUL.

Definition len {A : Type} (l : list A) : Z := Z.of_nat (List.length l).

(** [memcpy] source: [size] characters starting at [text + start]. *)
Definition slice (text : list ascii) (start size : Z) : list ascii :=
  firstn (Z.to_nat size) (skipn (Z.to_nat start) text).

(** The characters of a C string: up to the first NUL. *)
Fixpoint cstr (s : list ascii) : list ascii :=
  match s with
  | [] => []
  | c :: r => if Ascii.eqb c NUL then [] else c :: cstr r
  end.

Definition cstrAt (buf : list ascii) (idx : Z) : list ascii :=
  cstr (skipn (Z.to_nat idx) buf).

(** [vec[i] = x] on a list. *)
Fixpoint setNth {A : Type} (n : nat) (x : A) (l : list A) : list A :=
  match l, n with
  | [], _ => []
  | _ :: r, O => x :: r
  | y :: r, S n' => y :: setNth n' x r
  end.

(** Forward scan: the first position at or after [i] where [stop] holds. *)
Fixpoint scanFwd (fuel : nat) (stop : Z -> bool) (i : Z) : Z :=
  match fuel with
  | O => i
  | S f => if stop i then i else scanFwd f stop (i + 1)
  end.

(** [while (i < endIdx && p(text[i])) ++i;] *)
Definition skipWhile (text : list ascii) (endIdx : Z) (p : ascii -> bool) (i : Z) : Z :=
  scanFwd (Z.to_nat (endIdx - i)) (fun j => (endIdx <=? j) || negb (p (at_ text j))) i.

(** [while (p(text[i])) ++i;] for a [p] that rejects NUL. *)
Definition skipWhileNoBound (text : list ascii) (p : ascii -> bool) (i : Z) : Z :=
  scanFwd (Z.to_nat (len text - i)) (fun j => negb (p (at_ text j))) i.

(* ====================================================================== *)
(** ** Exceptions and the result monad *)
(* ====================================================================== *)

Inductive Exception : Type :=
| ParseException (what : string)
| AccessException (what : string)
| ConvertException (what : string).

Definition what (e : Exception) : string :=
  match e with
  | ParseException w => w
  | AccessException w => w
  | ConvertException w => w
  end.

Inductive outcome (A : Type) : Type :=
| Ret (a : A)
| Throw (e : Exception)
| Diverge.
Arguments Ret {A} a.
Arguments Throw {A} e.
Arguments Diverge {A}.

Definition bind {A B : Type} (m : outcome A) (f : A -> outcome B) : outcome B :=
  match m with
  | Ret a => f a
  | Throw e => Throw e
  | Diverge => Diverge
  end.

Notation "x <- m ;; k" := (bind m (fun x => k))
  (at level 61, m at next level, right associativity).
Notation "' p <- m ;; k" := (bind m (fun x => match x with p => k end))
  (at level 61, p pattern, m at next level, right associativity).

(** Decimal rendering for the [%d] conversions. *)
Fixpoint decDigits (fuel : nat) (n : Z) (acc : list ascii) : list ascii :=
  match fuel with
  | O => acc
  | S f =>
      let d := ascii_of_N (Z.to_N (48 + n mod 10)) in
      if n <? 10 then d :: acc else decDigits f (n / 10) (d :: acc)
  end.

Definition fmtInt (n : Z) : string :=
  if n <? 0
  then String "-" (string_of_list_ascii (decDigits 64 (- n) []))
  else string_of_list_ascii (decDigits 64 n []).

(** [%s] of a C string held in a list. *)
Definition fmtStr (s : list ascii) : string := string_of_list_ascii (cstr s).

Definition truncate (n : nat) (s : string) : string :=
  string_of_list_ascii (firstn n (list_ascii_of_string s)).

(** [throwMessage<E>]: the formatted message is cut at [BufferSize - 1]. *)
Definition throwMessage {A : Type} (E : string -> Exception) (message : string) : outcome A :=
  Throw (E (truncate 511 message)).

(** [throwParsing]: the main message (cut at [BufferSize - LineCopySize -
    ReservedSize - 1] characters), then the footer with the line number and
    a copy of at most [LineCopySize] characters of the offending line. When
    the main message does not fit, the later writes land after the
    terminating zero of the buffer and the message is the cut main
    message. *)
Definition lineCopy (text : list ascii) (lineStart : Z) : list ascii :=
  let isEnd c := Ascii.eqb c NUL || Ascii.eqb c CR || Ascii.eqb c LF in
  let stop := scanFwd 128 (fun j => isEnd (at_ text j)) lineStart in
  slice text lineStart (stop - lineStart).

Definition parsingMessage (lineNbr : Z) (text : list ascii) (lineStart : Z)
    (message : string) : string :=
  let main := truncate 351 message in
  if (351 <? Z.of_nat (String.length message)) then main
  else
    let footer :=
      (main ++ String LF "  In line " ++ fmtInt lineNbr ++ ": " ++ String DQUOTE EmptyString)%string in
    let copy := lineCopy text lineStart in
    let dots := if len copy =? 128 then "..."%string else EmptyString in
    match copy with
    | [] => footer
    | _ => (footer ++ string_of_list_ascii copy ++ dots ++ String DQUOTE EmptyString)%string
    end.

Definition throwParsing {A : Type} (lineNbr : Z) (text : list ascii) (lineStart : Z)
    (message : string) : outcome A :=
  Throw (ParseException (parsingMessage lineNbr text lineStart message)).

(** [std::string::find(chunk) != npos] *)
Fixpoint isPrefix (p s : list ascii) : bool :=
  match p, s with
  | [], _ => true
  | _ :: _, [] => false
  | a :: p', b :: s' => Ascii.eqb a b && isPrefix p' s'
  end.

Fixpoint containsL (chunk s : list ascii) : bool :=
  isPrefix chunk s ||
  match s with
  | [] => false
  | _ :: s' => containsL chunk s'
  end.

Definition contains (s chunk : string) : bool :=
  containsL (list_ascii_of_string chunk) (list_ascii_of_string s).

(* ====================================================================== *)
(** ** Public declarations *)
(* ====================================================================== *)

Inductive NodeType : Type := UNKNOWN | KEY | VALUE | SEQUENCE | MAP | COMMENT.

Definition NodeType_eqb (a b : NodeType) : bool :=
  match a, b with
  | UNKNOWN, UNKNOWN | KEY, KEY | VALUE, VALUE
  | SEQUENCE, SEQUENCE | MAP, MAP | COMMENT, COMMENT => true
  | _, _ => false
  end.

Definition to_string (t : NodeType) : string :=
  match t with
  | UNKNOWN => "Unknown"
  | KEY => "Key"
  | VALUE => "Value"
  | SEQUENCE => "Sequence"
  | MAP => "Map"
  | COMMENT => "Comment"
  end.

(* ====================================================================== *)
(** ** [detail::Element] *)
(* ====================================================================== *)

(** One element of the tree. [d] of the source packs the type (3 bits) and
    the compound (29 bits); the union [typed] is three 32-bit words for the
    key, value, comment and unknown views ([typed0], [typed1], [typed2]).
    The container view [{subQty, subs}] is the list [subs] of the
    initialised children, [subQty] being its length. *)
Record Element : Type := mkElement {
  etype : NodeType;
  compound : Z;
  typed0 : Z;
  typed1 : Z;
  typed2 : Z;
  subs : list Z
}.

Definition CompoundMask : Z := 2 ^ 29 - 1.

Definition Element_kind (kind : NodeType) : Element :=
  mkElement kind 0 0 0 0 [].

Definition Element_string (kind : NodeType) (stringIdx stringSize : Z) : Element :=
  mkElement kind (Z.land stringSize CompoundMask) stringIdx 0 0 [].

Definition Element_key (kind : NodeType) (stringIdx stringSize eltIdx : Z) : Element :=
  mkElement kind (Z.land stringSize CompoundMask) stringIdx eltIdx 0 [].

Definition getType (e : Element) : NodeType := etype e.
Definition getCompound (e : Element) : Z := compound e.
Definition setCompound (value : Z) (e : Element) : Element :=
  mkElement (etype e) (Z.land value CompoundMask) (typed0 e) (typed1 e) (typed2 e) (subs e).

Definition isContainer (e : Element) : bool :=
  match etype e with SEQUENCE | MAP => true | _ => false end.

Definition clearSubs (e : Element) : Element :=
  mkElement (etype e) 0 (typed0 e) (typed1 e) (typed2 e) [].

Definition reset (kind : NodeType) (e : Element) : Element :=
  mkElement kind 0 0 0 0 [].

Definition ensureSpaceForOne (e : Element) : Element :=
  if getCompound e <=? len (subs e)
  then setCompound (Z.max 1 (2 * getCompound e)) e
  else e.

Definition add (eltIdx : Z) (e : Element) : Element :=
  match etype e with
  | KEY => mkElement (etype e) (compound e) (typed0 e) eltIdx (typed2 e) (subs e)
  | _ =>
      let e' := ensureSpaceForOne e in
      mkElement (etype e') (compound e') (typed0 e') (typed1 e') (typed2 e') (subs e' ++ [eltIdx])
  end.

Definition getKeyValue (e : Element) : Z := typed1 e.

Definition insert (idx eltIdx : Z) (e : Element) : Element :=
  let e' := ensureSpaceForOne e in
  mkElement (etype e') (compound e') (typed0 e') (typed1 e') (typed2 e')
    (firstn (Z.to_nat idx) (subs e') ++ eltIdx :: skipn (Z.to_nat idx) (subs e')).

Definition erase (idx : Z) (e : Element) : Element :=
  mkElement (etype e) (compound e) (typed0 e) (typed1 e) (typed2 e)
    (if idx <? len (subs e) - 1
     then firstn (Z.to_nat idx) (subs e) ++ skipn (S (Z.to_nat idx)) (subs e)
     else removelast (subs e)).

Definition replace (idx newEltIdx : Z) (e : Element) : Element :=
  mkElement (etype e) (compound e) (typed0 e) (typed1 e) (typed2 e)
    (setNth (Z.to_nat idx) newEltIdx (subs e)).

Definition setString (stringIdx stringSize : Z) (e : Element) : Element :=
  mkElement (etype e) (Z.land stringSize CompoundMask) stringIdx (typed1 e) (typed2 e) (subs e).

Definition setComment (eltIdx : Z) (e : Element) : Element :=
  match etype e with
  | COMMENT => mkElement (etype e) (compound e) (typed0 e) (typed1 e) eltIdx (subs e)
  | KEY => mkElement (etype e) (compound e) (typed0 e) (typed1 e) eltIdx (subs e)
  | VALUE => mkElement (etype e) (compound e) (typed0 e) eltIdx (typed2 e) (subs e)
  | MAP | SEQUENCE => add eltIdx e
  | UNKNOWN => e
  end.

Definition getNextCommentIndex (e : Element) : Z :=
  match etype e with
  | COMMENT => typed2 e
  | KEY => typed2 e
  | VALUE => typed1 e
  | _ => 0
  end.

Definition setStandalone (e : Element) : Element :=
  mkElement (etype e) (compound e) (typed0 e) 1 (typed2 e) (subs e).

Definition isStandalone (e : Element) : bool := typed1 e =? 1.

Definition getStringSize (e : Element) : Z := getCompound e.
(** [typed.key.stringIdx]; in the container view the same word is [subQty]. *)
Definition getStringIdx (e : Element) : Z :=
  match etype e with
  | SEQUENCE | MAP => len (subs e)
  | _ => typed0 e
  end.

Definition getSubQty (e : Element) : Z :=
  match etype e with
  | KEY => if typed1 e =? 0 then 0 else 1
  | _ => len (subs e)
  end.

Definition getSub (idx : Z) (e : Element) : Z := nth (Z.to_nat idx) (subs e) 0.

Definition getSubs (e : Element) : list Z := subs e.

(* ====================================================================== *)
(** ** Wyhash (the variant embedded in the header, fixed seed) *)
(* ====================================================================== *)

Definition byteAt (key : list ascii) (i : Z) : Z := Z.of_N (N_of_ascii (at_ key i)).

Definition _wymum (A B : Z) : Z * Z :=
  let r := A * B in (u64 r, u64 (Z.shiftr r 64)).

Definition _wymix (A B : Z) : Z :=
  let '(a, b) := _wymum A B in Z.lxor a b.

(** The reads are those of a little-endian host. *)
Definition _wyr4 (key : list ascii) (p : Z) : Z :=
  byteAt key p + Z.shiftl (byteAt key (p + 1)) 8 + Z.shiftl (byteAt key (p + 2)) 16
  + Z.shiftl (byteAt key (p + 3)) 24.

Definition _wyr8 (key : list ascii) (p : Z) : Z :=
  _wyr4 key p + Z.shiftl (_wyr4 key (p + 4)) 32.

Definition _wyr3 (key : list ascii) (p k : Z) : Z :=
  Z.lor (Z.lor (Z.shiftl (byteAt key p) 16) (Z.shiftl (byteAt key (p + Z.shiftr k 1)) 8))
        (byteAt key (p + k - 1)).

Definition secret0 : Z := 0x2d358dccaa6c78a5.
Definition secret1 : Z := 0x8bb84b93962eacc9.
Definition secret2 : Z := 0x4b33a62ed433d4a3.
Definition secret3 : Z := 0x4d5a2da51de1aa47.
Definition wyseed : Z := 0xca813bf4c7abf0a9.

(** [do { ... } while (i >= 48)] *)
Fixpoint wyhash48 (fuel : nat) (key : list ascii) (p i seed see1 see2 : Z)
  : Z * Z * Z * Z * Z :=
  match fuel with
  | O => (p, i, seed, see1, see2)
  | S f =>
      let seed' := _wymix (Z.lxor (_wyr8 key p) secret1) (Z.lxor (_wyr8 key (p + 8)) seed) in
      let see1' := _wymix (Z.lxor (_wyr8 key (p + 16)) secret2) (Z.lxor (_wyr8 key (p + 24)) see1) in
      let see2' := _wymix (Z.lxor (_wyr8 key (p + 32)) secret3) (Z.lxor (_wyr8 key (p + 40)) see2) in
      if 48 <=? i - 48
      then wyhash48 f key (p + 48) (i - 48) seed' see1' see2'
      else (p + 48, i - 48, seed', see1', see2')
  end.

(** [while (i > 16) { ... }] *)
Fixpoint wyhash16 (fuel : nat) (key : list ascii) (p i seed : Z) : Z * Z * Z :=
  match fuel with
  | O => (p, i, seed)
  | S f =>
      if 16 <? i
      then wyhash16 f key (p + 16) (i - 16)
             (_wymix (Z.lxor (_wyr8 key p) secret1) (Z.lxor (_wyr8 key (p + 8)) seed))
      else (p, i, seed)
  end.

Definition wyhash (key : list ascii) (len_ : Z) : Z :=
  let '(a, b, seed) :=
    if len_ <=? 16 then
      if 4 <=? len_ then
        let off := Z.shiftl (Z.shiftr len_ 3) 2 in
        (Z.lor (Z.shiftl (_wyr4 key 0) 32) (_wyr4 key off),
         Z.lor (Z.shiftl (_wyr4 key (len_ - 4)) 32) (_wyr4 key (len_ - 4 - off)),
         wyseed)
      else if 0 <? len_ then (_wyr3 key 0 len_, 0, wyseed)
      else (0, 0, wyseed)
    else
      let '(p, i, seed) :=
        if 48 <=? len_ then
          let '(p, i, seed, see1, see2) :=
            wyhash48 (Z.to_nat len_) key 0 len_ wyseed wyseed wyseed in
          (p, i, Z.lxor seed (Z.lxor see1 see2))
        else (0, len_, wyseed) in
      let '(p, i, seed) := wyhash16 (Z.to_nat len_) key p i seed in
      (_wyr8 key (p + i - 16), _wyr8 key (p + i - 8), seed) in
  let a := Z.lxor a secret1 in
  let b := Z.lxor b seed in
  let '(a, b) := _wymum a b in
  _wymix (Z.lxor (Z.lxor a secret0) len_) (Z.lxor b secret1).

(* ====================================================================== *)
(** ** [detail::Context]: the string arena and the map child index *)
(* ====================================================================== *)

Record Entry : Type := mkEntry { hash : Z; childIndex : Z }.

Definition Empty : Z := 0.
Definition Tombstone : Z := 1.
Definition FirstValid : Z := 2.
(** [(uint64_t)(0.90 * 128)]: the product is 115.2, truncated. *)
Definition _maxLoad128th : Z := 115.
Definition KeyDirAssocQty : Z := 8.
Definition InitMapSize : Z := 16.

Record Context : Type := mkContext {
  elements : list Element;
  arena : list ascii;
  sessionStartIdx : Z;
  _entries : list Entry;
  _entryQty : Z;
  _maxEntryQty : Z
}.

Definition emptyEntry : Entry := mkEntry 0 0.

Definition eltAt (ctx : Context) (i : Z) : Element :=
  nth (Z.to_nat i) (elements ctx) (Element_kind UNKNOWN).

Definition setElt (i : Z) (e : Element) (ctx : Context) : Context :=
  mkContext (setNth (Z.to_nat i) e (elements ctx)) (arena ctx) (sessionStartIdx ctx)
    (_entries ctx) (_entryQty ctx) (_maxEntryQty ctx).

Definition updElt (i : Z) (f : Element -> Element) (ctx : Context) : Context :=
  setElt i (f (eltAt ctx i)) ctx.

(** [elements.emplace_back(...)] *)
Definition emplace_back (e : Element) (ctx : Context) : Context :=
  mkContext (elements ctx ++ [e]) (arena ctx) (sessionStartIdx ctx)
    (_entries ctx) (_entryQty ctx) (_maxEntryQty ctx).

Definition setArena (a : list ascii) (ctx : Context) : Context :=
  mkContext (elements ctx) a (sessionStartIdx ctx)
    (_entries ctx) (_entryQty ctx) (_maxEntryQty ctx).

(** *** String building *)

(** [addString(text, textSize, stringIdx, stringSize)]: [text] holds the
    [textSize] characters to copy. *)
Definition addString (text : list ascii) (ctx : Context) : Z * Z * Context :=
  let stringIdx := u32 (len (arena ctx)) in
  let stringSize := u32 (len text + 1) in
  (stringIdx, stringSize, setArena (arena ctx ++ text ++ [NUL]) ctx).

(** [addString(text, textSize, elt)], the element being [elements[eltIdx]]. *)
Definition addStringElt (text : list ascii) (eltIdx : Z) (ctx : Context) : Context :=
  let '(stringIdx, stringSize, ctx') := addString text ctx in
  updElt eltIdx (setString stringIdx stringSize) ctx'.

Definition startStringSession (ctx : Context) : Context :=
  mkContext (elements ctx) (arena ctx) (u32 (len (arena ctx)))
    (_entries ctx) (_entryQty ctx) (_maxEntryQty ctx).

Definition addToSession (text : list ascii) (ctx : Context) : Context :=
  setArena (arena ctx ++ text) ctx.

Definition commitSession (ctx : Context) : Z * Z * Context :=
  let ctx' := setArena (arena ctx ++ [NUL]) ctx in
  (sessionStartIdx ctx', u32 (len (arena ctx') - sessionStartIdx ctx'), ctx').

(** [getString(stringIdx)] is the pointer [arena.data() + stringIdx]; its
    [i]-th character: *)
Definition getString (ctx : Context) (stringIdx : Z) (i : Z) : ascii :=
  at_ (arena ctx) (stringIdx + i).

(** *** Accelerated map access *)

Definition keyHashOf (parentEltIdx : Z) (key : list ascii) (keySize : Z) : Z :=
  let keyHash := Z.lxor parentEltIdx (u32 (wyhash key keySize)) in
  if keyHash <? FirstValid then u32 (keyHash + FirstValid) else keyHash.

Definition lineMask (maxEntryQty : Z) : Z :=
  Z.land (u32 (maxEntryQty - 1)) (u32 (Z.lnot (KeyDirAssocQty - 1))).

Definition nextLine (idx probeIncr mask : Z) : Z :=
  Z.land (u32 (idx + u32 (probeIncr * KeyDirAssocQty))) mask.

(** [strncmp(s1, s2, n) == 0] *)
Fixpoint strncmpEq (n : nat) (s1 s2 : Z -> ascii) (i : Z) : bool :=
  match n with
  | O => true
  | S n' =>
      if Ascii.eqb (s1 i) (s2 i)
      then (if Ascii.eqb (s1 i) NUL then true else strncmpEq n' s1 s2 (i + 1))
      else false
  end.

(** The test made on a cell whose hash is in range: same hash, child
    position inside the parent, and the child is a key of that name. *)
Definition cellMatches (ctx : Context) (parentElt : Element) (key : list ascii)
    (keySize keyHash : Z) (e : Entry) : bool :=
  if negb (hash e =? keyHash) || (getSubQty parentElt <=? childIndex e) then false
  else
    let childElt := eltAt ctx (getSub (childIndex e) parentElt) in
    NodeType_eqb (getType childElt) KEY
    && (getStringSize childElt =? u32 (keySize + 1))
    && strncmpEq (Z.to_nat keySize) (getString ctx (getStringIdx childElt)) (at_ key) 0.

(** The scan of one cache line, common to the three operations:
    [for (; cellId < KeyDirAssocQty && _entries[idx + cellId].hash >= minHash; ++cellId)]
    with an early return on a matching cell. *)
Inductive LineScan : Type :=
| Matched (cellId : Z)
| Stopped (cellId : Z)
| LineFull.

Fixpoint scanLine (n : nat) (minHash : Z) (isMatch : Entry -> bool)
    (entries : list Entry) (idx cellId : Z) : LineScan :=
  match n with
  | O => LineFull
  | S n' =>
      let e := nth (Z.to_nat (idx + cellId)) entries emptyEntry in
      if minHash <=? hash e then
        if isMatch e then Matched cellId
        else scanLine n' minHash isMatch entries idx (cellId + 1)
      else Stopped cellId
  end.

Definition entryAt (ctx : Context) (i : Z) : Entry :=
  nth (Z.to_nat i) (_entries ctx) emptyEntry.

Definition setEntries (es : list Entry) (ctx : Context) : Context :=
  mkContext (elements ctx) (arena ctx) (sessionStartIdx ctx) es (_entryQty ctx) (_maxEntryQty ctx).

(** The probing loop. The source writes it four times (in
    [getMapChildIndex], [addMapChildIndex], [removeMapChildIndex] and
    [resize]); the copies differ by the least hash that keeps the scan of a
    line going ([Tombstone] or [FirstValid]) and by what is done with the
    cell where the loop ends:
    [while (true) { <scan of the line>; if (cellId < KeyDirAssocQty) break;
                    idx = (idx + (probeIncr * KeyDirAssocQty)) & mask; ++probeIncr; }]
    [Hit] is the [return] from inside the scan, [Free] the [break]. *)
Inductive ProbeResult : Type :=
| Hit (slot : Z)
| Free (slot : Z).

Fixpoint probe (fuel : nat) (minHash : Z) (isMatch : Entry -> bool) (entries : list Entry)
    (mask idx probeIncr : Z) : outcome ProbeResult :=
  match fuel with
  | O => Diverge
  | S f =>
      match scanLine 8 minHash isMatch entries idx 0 with
      | Matched cellId => Ret (Hit (idx + cellId))
      | Stopped cellId => Ret (Free (idx + cellId))
      | LineFull =>
          probe f minHash isMatch entries mask (nextLine idx probeIncr mask) (u32 (probeIncr + 1))
      end
  end.

(** The number of cache lines bounds the probe: the probe sequence visits
    every line once in that many steps (lemma [probe_covers] below), so a
    longer run would cycle for ever. *)
Definition probeFuel (maxEntryQty : Z) : nat := Z.to_nat (maxEntryQty / KeyDirAssocQty).

Definition getMapChildIndex (parentEltIdx : Z) (key : list ascii) (keySize : Z)
    (parentElt : Element) (ctx : Context) : outcome Z :=
  let keyHash := keyHashOf parentEltIdx key keySize in
  let mask := lineMask (_maxEntryQty ctx) in
  r <- probe (probeFuel (_maxEntryQty ctx)) Tombstone
         (cellMatches ctx parentElt key keySize keyHash) (_entries ctx) mask
         (Z.land keyHash mask) 1 ;;
  match r with
  | Hit slot => Ret (childIndex (entryAt ctx slot))
  | Free _ => Ret UINT_MAX   (* Not found *)
  end.

(** [resize]: the transfer of the valid entries of the old table. *)
Fixpoint resize_transfer (fuel : nat) (old : list Entry) (newArray : list Entry) (newMask : Z)
  : outcome (list Entry) :=
  match old with
  | [] => Ret newArray
  | e :: rest =>
      if hash e <? FirstValid then resize_transfer fuel rest newArray newMask
      else
        r <- probe fuel FirstValid (fun _ => false) newArray newMask (Z.land (hash e) newMask) 1 ;;
        match r with
        | Hit slot | Free slot =>
            resize_transfer fuel rest (setNth (Z.to_nat slot) e newArray) newMask
        end
  end.

Definition resize (newMaxSize : Z) (ctx : Context) : outcome Context :=
  let newArray := repeat emptyEntry (Z.to_nat newMaxSize) in
  let newMask := lineMask newMaxSize in
  es <- resize_transfer (probeFuel newMaxSize)
          (firstn (Z.to_nat (_maxEntryQty ctx)) (_entries ctx)) newArray newMask ;;
  Ret (mkContext (elements ctx) (arena ctx) (sessionStartIdx ctx) es (_entryQty ctx) newMaxSize).

(** The end of [addMapChildIndex], after the loop has stopped on the cell
    [slot] ([idx + cellId]):
    [_entries[idx + cellId] = {keyHash, childIndex}; _entryQty += 1;
     if ((uint64_t)128 * _entryQty > _maxLoad128th * _maxEntryQty) resize(2 * _maxEntryQty);
     return true;] *)
Definition addNewEntry (slot keyHash childIndex_ : Z) (ctx : Context) : outcome (bool * Context) :=
  let ctx1 := mkContext (elements ctx) (arena ctx) (sessionStartIdx ctx)
                (setNth (Z.to_nat slot) (mkEntry keyHash childIndex_) (_entries ctx))
                (u32 (_entryQty ctx + 1)) (_maxEntryQty ctx) in
  if _maxLoad128th * _maxEntryQty ctx1 <? 128 * _entryQty ctx1
  then ctx2 <- resize (u32 (2 * _maxEntryQty ctx1)) ctx1 ;; Ret (true, ctx2)
  else Ret (true, ctx1).

Definition addMapChildIndex (parentEltIdx : Z) (key : list ascii) (keySize : Z)
    (parentElt : Element) (childIndex_ : Z) (ctx : Context) : outcome (bool * Context) :=
  let keyHash := keyHashOf parentEltIdx key keySize in
  let mask := lineMask (_maxEntryQty ctx) in
  r <- probe (probeFuel (_maxEntryQty ctx)) FirstValid
         (cellMatches ctx parentElt key keySize keyHash) (_entries ctx) mask
         (Z.land keyHash mask) 1 ;;
  match r with
  | Hit slot =>
      (* Replace previous value *)
      Ret (false, setEntries (setNth (Z.to_nat slot)
                                (mkEntry (hash (entryAt ctx slot)) childIndex_) (_entries ctx)) ctx)
  | Free slot =>
      (* Key not present: add a new entry *)
      addNewEntry slot keyHash childIndex_ ctx
  end.

Definition removeMapChildIndex (parentEltIdx : Z) (key : list ascii) (keySize : Z)
    (parentElt : Element) (ctx : Context) : outcome (Z * Context) :=
  let keyHash := keyHashOf parentEltIdx key keySize in
  let mask := lineMask (_maxEntryQty ctx) in
  r <- probe (probeFuel (_maxEntryQty ctx)) Tombstone
         (cellMatches ctx parentElt key keySize keyHash) (_entries ctx) mask
         (Z.land keyHash mask) 1 ;;
  match r with
  | Hit slot =>
      let oldChildIndex := childIndex (entryAt ctx slot) in
      Ret (oldChildIndex,
           setEntries (setNth (Z.to_nat slot) (mkEntry Tombstone UINT_MAX) (_entries ctx)) ctx)
  | Free _ =>
      (* Key not present (weird in current project) *)
      Ret (UINT_MAX, ctx)
  end.

(** [Context(arenaStartReserveSize)] *)
Definition Context_new : outcome Context :=
  resize InitMapSize (mkContext [] [] 0 [] 0 0).

(* ====================================================================== *)
(** ** [detail::StringHelper] *)
(* ====================================================================== *)

Record LineChunk : Type := mkLineChunk { startIdx : Z; size : Z }.

Record StringHelper : Type := mkStringHelper {
  sh_arena : list ascii;
  chunks : list LineChunk;
  startLineIdx : Z
}.

Definition findFirstOf (text : Z -> ascii) (textSize : Z) (Nchars : list ascii)
    (startPos : Z) : Z :=
  let idx := scanFwd (Z.to_nat (textSize - startPos))
               (fun j => (textSize <=? j) || existsb (Ascii.eqb (text j)) Nchars) startPos in
  if idx <? textSize then idx else UINT_MAX.

Definition findFirstNotOf (text : Z -> ascii) (textSize : Z) (Nchars : list ascii)
    (startPos : Z) : Z :=
  let idx := scanFwd (Z.to_nat (textSize - startPos))
               (fun j => (textSize <=? j) || negb (existsb (Ascii.eqb (text j)) Nchars)) startPos in
  if idx <? textSize then idx else UINT_MAX.

Definition startSession (sh : StringHelper) : StringHelper :=
  mkStringHelper [] [] 0.

Definition addLine (text : list ascii) (sh : StringHelper) : StringHelper :=
  mkStringHelper (sh_arena sh ++ text)
    (chunks sh ++ [mkLineChunk (len (sh_arena sh)) (len text)])
    (len (sh_arena sh ++ text)).

Definition addChar (c : ascii) (sh : StringHelper) : StringHelper :=
  mkStringHelper (sh_arena sh ++ [c]) (chunks sh) (startLineIdx sh).

Definition addChunk (text : list ascii) (sh : StringHelper) : StringHelper :=
  mkStringHelper (sh_arena sh ++ text) (chunks sh) (startLineIdx sh).

(** [while (textSize > 0 && (text[textSize - 1] == ' ' || text[textSize - 1] == '\t')) --textSize;] *)
Fixpoint stripTrail (rtext : list ascii) : list ascii :=
  match rtext with
  | c :: r => if Ascii.eqb c SP || Ascii.eqb c TAB then stripTrail r else rtext
  | [] => []
  end.

Definition addChunkNoTrail (text : list ascii) (sh : StringHelper) : StringHelper :=
  addChunk (rev (stripTrail (rev text))) sh.

Definition endLine (sh : StringHelper) : StringHelper :=
  let newStartLineIdx := len (sh_arena sh) in
  mkStringHelper (sh_arena sh)
    (chunks sh ++ [mkLineChunk (startLineIdx sh) (newStartLineIdx - startLineIdx sh)])
    newStartLineIdx.

Definition blankChars : list ascii := [SP; TAB; CR; LF].

Definition isBlankChunk (a : list ascii) (lc : LineChunk) : bool :=
  findFirstNotOf (at_ a) (startIdx lc + size lc) blankChars (startIdx lc) =? UINT_MAX.

(** [removeTrailingLines], on the chunks in reverse order. *)
Fixpoint dropBlankChunks (a : list ascii) (rchunks : list LineChunk) : list LineChunk :=
  match rchunks with
  | lc :: r => if isBlankChunk a lc then dropBlankChunks a r else rchunks
  | [] => []
  end.

Definition removeTrailingLines (sh : StringHelper) : StringHelper :=
  mkStringHelper (sh_arena sh) (rev (dropBlankChunks (sh_arena sh) (rev (chunks sh))))
    (startLineIdx sh).

Definition empty (sh : StringHelper) : bool :=
  match chunks sh with [] => true | _ => false end.

(** [sh.arena.back()] *)
Definition back (sh : StringHelper) : ascii := last (sh_arena sh) NUL.

(** [indentStr] repeated [indent] times. *)
Fixpoint addIndent (n : nat) (sh : StringHelper) : StringHelper :=
  match n with
  | O => sh
  | S n' => addIndent n' (addChunk [SP; SP] sh)
  end.

(* ====================================================================== *)
(** ** [dumpAsPyStruct] *)
(* ====================================================================== *)

Record PyDumpItem : Type := mkPyDumpItem {
  py_node : Z;            (* index of the element pointed to *)
  py_indent : Z;
  py_isEnd : bool;
  py_withPrefix : bool;
  py_isLast : bool
}.

Definition addPrefix (withPrefix : bool) (indent : Z) (sh : StringHelper) : StringHelper :=
  if withPrefix then addIndent (Z.to_nat indent) (addChar LF sh) else sh.

Definition addComma (isLast : bool) (sh : StringHelper) : StringHelper :=
  if isLast then sh else addChar ","%char sh.

Definition pyEscapes : list ascii := [BACKSLASH; LF; CR; TAB; DQUOTE].

(** The escape written for [text[findPos]], shared by the two emitters. *)
Definition addEscaped (text : Z -> ascii) (textSize findPos : Z) (sh : StringHelper)
  : StringHelper :=
  let c := text findPos in
  if Ascii.eqb c DQUOTE then addChar DQUOTE (addChar BACKSLASH sh)
  else if Ascii.eqb c LF then addChar "n"%char (addChar BACKSLASH sh)
  else if Ascii.eqb c CR then addChar "r"%char (addChar BACKSLASH sh)
  else if Ascii.eqb c TAB then addChar "t"%char (addChar BACKSLASH sh)
  else if Ascii.eqb c BACKSLASH then
    let n := text (findPos + 1) in
    let sh1 := if (textSize <=? findPos + 1)
                  || (negb (Ascii.eqb n "u"%char) && negb (Ascii.eqb n "U"%char)
                      && negb (Ascii.eqb n "x"%char))
               then addChar BACKSLASH sh else sh in
    addChar BACKSLASH sh1
  else sh.

(** [while ((findPos = findFirstOf<5>(...)) != UINT_MAX) { ... }] followed by
    the copy of the tail; [buf] and [base] locate [text] in the arena. *)
Fixpoint escapeLoop (fuel : nat) (buf : list ascii) (base textSize lastPos : Z)
    (sh : StringHelper) : StringHelper :=
  let text := fun i => at_ buf (base + i) in
  match fuel with
  | O => sh
  | S f =>
      let findPos := findFirstOf text textSize pyEscapes lastPos in
      if findPos =? UINT_MAX
      then addChunk (slice buf (base + lastPos) (textSize - lastPos)) sh
      else
        let sh1 := addChunk (slice buf (base + lastPos) (findPos - lastPos)) sh in
        escapeLoop f buf base textSize (findPos + 1) (addEscaped text textSize findPos sh1)
  end.

Definition pushChildren {I : Type} (mk : Z -> Z -> bool -> I) (ctx : Context) (v : Element)
  : list I :=
  let n := getSubQty v in
  map (fun i => mk (getSub i v) i (i =? n - 1))
      (map Z.of_nat (seq 0 (Z.to_nat n))).

Definition dumpPyStep (ctx : Context) (withIndent : bool) (it : PyDumpItem)
    (stack : list PyDumpItem) (sh : StringHelper) : list PyDumpItem * StringHelper :=
  let v := eltAt ctx (py_node it) in
  let indent := py_indent it in
  let isEnd := py_isEnd it in
  let withPrefix := withIndent && py_withPrefix it in
  let isLast := py_isLast it in
  match getType v with
  | KEY =>
      let sh1 :=
        if 1 <? getStringSize v then
          let sh' := addChar SQUOTE (addPrefix withPrefix indent sh) in
          let sh' := addChunk (slice (arena ctx) (getStringIdx v) (getStringSize v - 1)) sh' in
          addChunk (chars "' : ") sh'
        else sh in
      if negb (getSubQty v =? 0)
      then (mkPyDumpItem (getKeyValue v) indent false false isLast :: stack, sh1)
      else (stack, addComma isLast (addChunk (chars "None") sh1))
  | SEQUENCE | MAP =>
      let opening := match getType v with SEQUENCE => "["%char | _ => "{"%char end in
      let closing := match getType v with SEQUENCE => "]"%char | _ => "}"%char end in
      if isEnd
      then (stack, addComma isLast (addChar closing (addPrefix withPrefix indent sh)))
      else
        let isOneLiner := getSubQty v <=? 1 in
        let children :=
          pushChildren (fun sub _ last => mkPyDumpItem sub (indent + 1) false (negb isOneLiner) last)
            ctx v in
        (children ++ mkPyDumpItem (py_node it) indent true (negb isOneLiner) isLast :: stack,
         addChar opening (addPrefix withPrefix indent sh))
  | VALUE =>
      let sh1 := addPrefix withPrefix indent sh in
      if getStringSize v <=? 1
      then (stack, addComma isLast (addChunk (chars "None") sh1))
      else
        let textSize := getStringSize v - 1 in
        let sh2 := escapeLoop (S (Z.to_nat textSize)) (arena ctx) (getStringIdx v) textSize 0
                     (addChar DQUOTE sh1) in
        (stack, addComma isLast (addChar DQUOTE sh2))
  | COMMENT => (stack, sh)
  | UNKNOWN =>
      (stack, addComma isLast (addChunk (chars "None") (addPrefix withPrefix indent sh)))
  end.

Fixpoint dumpPyLoop (fuel : nat) (ctx : Context) (withIndent : bool)
    (stack : list PyDumpItem) (sh : StringHelper) : outcome StringHelper :=
  match stack with
  | [] => Ret sh
  | it :: rest =>
      match fuel with
      | O => Diverge
      | S f =>
          let '(stack', sh') := dumpPyStep ctx withIndent it rest sh in
          dumpPyLoop f ctx withIndent stack' sh'
      end
  end.

(** Enough for every tree: an element is visited at most twice. *)
Definition dumpFuel (ctx : Context) : nat := 2 * List.length (elements ctx) + 2.

Definition dumpAsPyStruct (ctx : Context) (withIndent : bool) : outcome (list ascii) :=
  sh <- dumpPyLoop (dumpFuel ctx) ctx withIndent [mkPyDumpItem 0 0 false false true]
          (startSession (mkStringHelper [] [] 0)) ;;
  let a := sh_arena sh in
  let a := if Ascii.eqb (last a NUL) ","%char then removelast a else a in
  Ret (a ++ [NUL]).

(* ====================================================================== *)
(** ** [dumpAsYaml] *)
(* ====================================================================== *)

Record DumpItem : Type := mkDumpItem {
  node : Z;               (* index of the element pointed to *)
  indent : Z;
  parentType : NodeType
}.

Record DumpState : Type := mkDumpState {
  isFirst : bool;
  lastIsComment : bool;
  lastIsKey : bool;
  out : StringHelper
}.

(** [if (!isFirst) sh.addChar('\n'); for (...) sh.addChunk(indentStr, indentSize);] *)
Definition newLineIndent (isFirst_ : bool) (indent_ : Z) (sh : StringHelper) : StringHelper :=
  addIndent (Z.to_nat indent_) (if isFirst_ then sh else addChar LF sh).

(** *** Scalar style selection *)

Inductive ScalarStyle : Type := Plain | SingleQuoted | DoubleQuoted | LiteralBlock.

(** The analysis loop: [newLineCount] and the two tests that clear [isPlain]. *)
Fixpoint analyzeLoop (fuel : nat) (text : Z -> ascii) (textSize idx : Z)
    (isPlain : bool) (newLineCount : Z) : bool * Z :=
  match fuel with
  | O => (isPlain, newLineCount)
  | S f =>
      if idx <? textSize then
        let c := text idx in
        let newLineCount := if Ascii.eqb c LF then newLineCount + 1 else newLineCount in
        let isPlain :=
          if isPlain && Ascii.eqb c ":"%char && (idx + 1 <? textSize)
             && (Ascii.eqb (text (idx + 1)) SP || Ascii.eqb (text (idx + 1)) CR
                 || Ascii.eqb (text (idx + 1)) LF)
          then false else isPlain in
        let isPlain :=
          if isPlain && Ascii.eqb c "#"%char && ((idx =? 0) || Ascii.eqb (text (idx - 1)) SP)
          then false else isPlain in
        analyzeLoop f text textSize (idx + 1) isPlain newLineCount
      else (isPlain, newLineCount)
  end.

(** [while (text[lastIdx] == '\n') { --newLineCount; --lastIdx; if (text[lastIdx] == '\r') --lastIdx; }] *)
Fixpoint trailingNewLines (fuel : nat) (text : Z -> ascii) (lastIdx newLineCount : Z) : Z :=
  match fuel with
  | O => newLineCount
  | S f =>
      if Ascii.eqb (text lastIdx) LF then
        let lastIdx := lastIdx - 1 in
        let lastIdx := if Ascii.eqb (text lastIdx) CR then lastIdx - 1 else lastIdx in
        trailingNewLines f text lastIdx (newLineCount - 1)
      else newLineCount
  end.

Definition startsPlain (c : ascii) : bool :=
  negb (Ascii.eqb c SP) && negb (Ascii.eqb c ">"%char) && negb (Ascii.eqb c "|"%char)
  && negb (Ascii.eqb c SQUOTE) && negb (Ascii.eqb c DQUOTE).

Definition scalarStyle (text : Z -> ascii) (textSize : Z) : ScalarStyle :=
  let isPlain0 := startsPlain (text 0) && negb (Ascii.eqb (text (textSize - 1)) SP) in
  let '(isPlain, newLineCount) := analyzeLoop (Z.to_nat textSize) text textSize 0 isPlain0 0 in
  let isSingleQuote := newLineCount =? 0 in
  let newLineCount :=
    if negb isPlain && (0 <? newLineCount)
    then trailingNewLines (S (Z.to_nat textSize)) text (textSize - 1) newLineCount
    else newLineCount in
  if isPlain && (newLineCount =? 0) then Plain
  else if isSingleQuote then SingleQuoted
  else if true || (newLineCount =? 0) then DoubleQuoted
  else LiteralBlock.

(** Single quotes are doubled. *)
Fixpoint singleQuoteLoop (fuel : nat) (buf : list ascii) (base textSize lastPos : Z)
    (sh : StringHelper) : StringHelper :=
  let text := fun i => at_ buf (base + i) in
  match fuel with
  | O => sh
  | S f =>
      let findPos := findFirstOf text textSize [SQUOTE] lastPos in
      if findPos =? UINT_MAX
      then addChunk (slice buf (base + lastPos) (textSize - lastPos)) sh
      else
        let sh1 := addChunk (slice buf (base + lastPos) (findPos - lastPos)) sh in
        singleQuoteLoop f buf base textSize (findPos + 1) (addChar SQUOTE (addChar SQUOTE sh1))
  end.

(** The literal branch: line by line, with the indentation as prefix. *)
Fixpoint literalLoop (fuel : nat) (buf : list ascii) (base textSize lastPos indent_ : Z)
    (sh : StringHelper) : StringHelper :=
  let text := fun i => at_ buf (base + i) in
  match fuel with
  | O => sh
  | S f =>
      let findPos := findFirstOf text textSize [LF] lastPos in
      let sh1 := addIndent (Z.to_nat indent_) (addChar LF sh) in
      if findPos =? UINT_MAX
      then addChunk (slice buf (base + lastPos) (textSize - lastPos)) sh1
      else literalLoop f buf base textSize (findPos + 1) indent_
             (addChunk (slice buf (base + lastPos) (findPos - lastPos)) sh1)
  end.

Definition emitScalar (ctx : Context) (v : Element) (indent_ : Z) (lastIsKey_ : bool)
    (sh : StringHelper) : StringHelper :=
  let buf := arena ctx in
  let base := getStringIdx v in
  let text := getString ctx base in
  let textSize := getStringSize v - 1 in
  let spaced := fun s : StringHelper => if lastIsKey_ then addChar SP s else s in
  match scalarStyle text textSize with
  | Plain => addChunk (slice buf base textSize) (spaced sh)
  | SingleQuoted =>
      addChar SQUOTE
        (singleQuoteLoop (S (Z.to_nat textSize)) buf base textSize 0 (addChar SQUOTE (spaced sh)))
  | DoubleQuoted =>
      addChar DQUOTE
        (escapeLoop (S (Z.to_nat textSize)) buf base textSize 0 (addChar DQUOTE (spaced sh)))
  | LiteralBlock =>
      let keep := Ascii.eqb (text (textSize - 1)) LF in
      let sh1 := if 0 <? textSize
                 then addChar (if keep then "+"%char else "-"%char)
                        (addChar "2"%char (addChar "|"%char (addChar SP sh)))
                 else sh in
      let textSize := if (0 <? textSize) && keep then textSize - 1 else textSize in
      literalLoop (S (Z.to_nat textSize)) buf base textSize 0 indent_ sh1
  end.

(** [# comment], on its own line or after the previous construct. *)
Definition emitComment (ctx : Context) (c : Element) (ownLine : bool) (indent_ : Z)
    (st : DumpState) : DumpState :=
  let sh1 := if ownLine then newLineIndent (isFirst st) indent_ (out st)
             else addChar SP (out st) in
  let sh2 := addChunk (slice (arena ctx) (getStringIdx c) (getStringSize c - 1))
               (addChar "#"%char sh1) in
  mkDumpState false true (lastIsKey st) sh2.

(** Comment piggybacking *)
Fixpoint commentChain (fuel : nat) (ctx : Context) (nextCommentEltIdx indent_ : Z)
    (st : DumpState) : outcome DumpState :=
  if nextCommentEltIdx =? 0 then Ret st
  else
    match fuel with
    | O => Diverge
    | S f =>
        let elt := eltAt ctx nextCommentEltIdx in
        commentChain f ctx (getNextCommentIndex elt) indent_
          (emitComment ctx elt (lastIsComment st || isStandalone elt) indent_ st)
    end.

Definition dumpYamlStep (ctx : Context) (it : DumpItem) (stack : list DumpItem)
    (st : DumpState) : outcome (list DumpItem * DumpState) :=
  let v := eltAt ctx (node it) in
  let indent0 := indent it in
  let parentType_ := parentType it in
  let fromSeq := NodeType_eqb parentType_ SEQUENCE in
  let '(stack1, indent1, st1) :=
    match getType v with
    | KEY =>
        let '(indent1, st1) :=
          if 1 <? getStringSize v then
            let '(indent', sh') :=
              if fromSeq then (indent0 + 1, out st)
              else (indent0, newLineIndent (isFirst st) indent0 (out st)) in
            let sh' := addChunk (slice (arena ctx) (getStringIdx v) (getStringSize v - 1)) sh' in
            (indent' + 1, mkDumpState false (lastIsComment st) (lastIsKey st) (addChar ":"%char sh'))
          else (indent0, st) in
        let stack1 := if negb (getSubQty v =? 0)
                      then mkDumpItem (getKeyValue v) indent1 (getType v) :: stack else stack in
        (stack1, indent1, mkDumpState (isFirst st1) (lastIsComment st1) true (out st1))
    | SEQUENCE =>
        let '(indent1, sh1) :=
          if fromSeq
          then (indent0 + 1,
                addChar SP (addChar "-"%char (newLineIndent (isFirst st) indent0 (out st))))
          else (indent0, out st) in
        let children := pushChildren (fun sub _ _ => mkDumpItem sub indent1 SEQUENCE) ctx v in
        (children ++ stack, indent1, mkDumpState false (lastIsComment st) (lastIsKey st) sh1)
    | MAP =>
        let '(indent1, sh1) :=
          if fromSeq
          then (indent0 + 1,
                addChar SP (addChar "-"%char (newLineIndent (isFirst st) indent0 (out st))))
          else (indent0, out st) in
        let children := pushChildren (fun sub _ _ => mkDumpItem sub indent1 MAP) ctx v in
        let stack1 :=
          match children ++ stack with
          | top :: r =>
              if fromSeq then mkDumpItem (node top) (indent top - 1) parentType_ :: r
              else top :: r
          | [] => []
          end in
        (stack1, indent1, mkDumpState (isFirst st) (lastIsComment st) (lastIsKey st) sh1)
    | VALUE =>
        let sh1 :=
          if negb (NodeType_eqb parentType_ KEY) || lastIsComment st then
            let sh' := newLineIndent (isFirst st) indent0 (out st) in
            if fromSeq then addChar SP (addChar "-"%char sh') else sh'
          else out st in
        let indent1 := if fromSeq then indent0 + 1 else indent0 in
        if 1 <? getStringSize v
        then (stack, indent1,
              mkDumpState false (lastIsComment st) (lastIsKey st)
                (emitScalar ctx v indent1 (lastIsKey st) sh1))
        else (stack, indent1, mkDumpState (isFirst st) (lastIsComment st) (lastIsKey st) sh1)
    | COMMENT =>
        (stack, indent0, emitComment ctx v (isStandalone v) indent0 st)
    | UNKNOWN =>
        if negb (NodeType_eqb parentType_ KEY) then
          let sh' := newLineIndent (isFirst st) indent0 (out st) in
          if fromSeq
          then (stack, indent0 + 1,
                mkDumpState (isFirst st) (lastIsComment st) (lastIsKey st)
                  (addChar SP (addChar "-"%char sh')))
          else (stack, indent0, mkDumpState (isFirst st) (lastIsComment st) (lastIsKey st) sh')
        else (stack, indent0, st)
    end in
  let st2 := mkDumpState (isFirst st1)
               (if NodeType_eqb (getType v) COMMENT then lastIsComment st1 else false)
               (if NodeType_eqb (getType v) KEY then lastIsKey st1 else false)
               (out st1) in
  st3 <- commentChain (S (List.length (elements ctx))) ctx (getNextCommentIndex v) indent1 st2 ;;
  Ret (stack1, st3).

Fixpoint dumpYamlLoop (fuel : nat) (ctx : Context) (stack : list DumpItem) (st : DumpState)
  : outcome DumpState :=
  match stack with
  | [] => Ret st
  | it :: rest =>
      match fuel with
      | O => Diverge
      | S f =>
          '(stack', st') <- dumpYamlStep ctx it rest st ;;
          dumpYamlLoop f ctx stack' st'
      end
  end.

Definition dumpAsYaml (ctx : Context) : outcome (list ascii) :=
  st <- dumpYamlLoop (dumpFuel ctx) ctx [mkDumpItem 0 0 (getType (eltAt ctx 0))]
          (mkDumpState true false false (startSession (mkStringHelper [] [] 0))) ;;
  Ret (sh_arena (out st) ++ [NUL]).

(* ====================================================================== *)
(** ** Public manipulation API: [Node] and [Document] *)
(* ====================================================================== *)

(** A node is a handle on an element of a context; the context is passed
    along (it is shared by all the nodes of a document). *)
Record Node : Type := mkNode {
  _eltIdx : Z;
  _nonExistingKey : list ascii  (* if not empty and node is a map: a non-existing key *)
}.

Definition Node_of (eltIdx : Z) : Node := mkNode eltIdx [].

Definition isNil {A : Type} (l : list A) : bool :=
  match l with [] => true | _ => false end.

(** [explicit operator bool() const] *)
Definition Node_bool (ctx : Context) (n : Node) : bool :=
  (_eltIdx n <? len (elements ctx))
  && (negb (NodeType_eqb (getType (eltAt ctx (_eltIdx n))) MAP) || isNil (_nonExistingKey n)).

Definition Node_to_string (ctx : Context) (n : Node) : string :=
  let elt := eltAt ctx (_eltIdx n) in
  let str := fmtStr (skipn (Z.to_nat (getStringIdx elt)) (arena ctx)) in
  match getType elt with
  | UNKNOWN => "[ Unknown ]"
  | KEY => if getStringSize elt <=? 1 then "[ Root ]" else ("[ Key '" ++ str ++ "' ]")%string
  | VALUE => ("[ Value string '" ++ str ++ "' ]")%string
  | SEQUENCE => ("[ Sequence of " ++ fmtInt (getSubQty elt) ++ " elements ]")%string
  | MAP => ("[ Map of " ++ fmtInt (getSubQty elt) ++ " elements ]")%string
  | COMMENT => ("[ Comment '" ++ str ++ "' ]")%string
  end.

Definition isStructural (k : NodeType) : bool :=
  match k with MAP | SEQUENCE => true | _ => false end.

Section Conversion.

(** The codec [convert<T>] and [typeid(T).name()]. *)
Variable T : Type.
Variable encode : T -> outcome (list ascii).
Variable decode : list ascii -> outcome T.
Variable typeName : string.

(** [try { decode } catch (ConvertException& e) { throw AccessException }] *)
Definition decodeValue (ctx : Context) (n : Node) : outcome T :=
  let elt := eltAt ctx (_eltIdx n) in
  let str := match getType elt with
             | VALUE => cstrAt (arena ctx) (getStringIdx elt)
             | _ => []
             end in
  match decode str with
  | Throw (ConvertException w) =>
      throwMessage AccessException
        ("Access error: decoding error when accessing '" ++ Node_to_string ctx n
         ++ "' with 'as()':" ++ String LF "  " ++ w)%string
  | r => r
  end.

Definition notAValue (ctx : Context) (n : Node) : outcome T :=
  throwMessage AccessException
    ("Access error: unable to cast this node as it is not of type 'Value' but "
     ++ Node_to_string ctx n)%string.

(** [template<class T> T as() const] *)
Definition as_ (ctx : Context) (n : Node) : outcome T :=
  let elt := eltAt ctx (_eltIdx n) in
  if NodeType_eqb (getType elt) MAP && negb (isNil (_nonExistingKey n)) then
    throwMessage AccessException
      ("Access error: unable to cast this node into (mangle) type '" ++ typeName
       ++ "'  as the key '" ++ fmtStr (_nonExistingKey n) ++ "' does not exist")%string
  else if negb (NodeType_eqb (getType elt) VALUE) && negb (NodeType_eqb (getType elt) UNKNOWN)
  then notAValue ctx n
  else decodeValue ctx n.

(** [template<class T> T as(const T& defaultValue) const] *)
Definition as_default (ctx : Context) (n : Node) (defaultValue : T) : outcome T :=
  let elt := eltAt ctx (_eltIdx n) in
  if NodeType_eqb (getType elt) MAP && negb (isNil (_nonExistingKey n)) then Ret defaultValue
  else if negb (NodeType_eqb (getType elt) VALUE) && negb (NodeType_eqb (getType elt) UNKNOWN)
  then notAValue ctx n
  else decodeValue ctx n.

Definition encodeValue (ctx : Context) (n : Node) (typedValue : T) (where_ : string)
  : outcome (list ascii) :=
  match encode typedValue with
  | Throw (ConvertException w) =>
      throwMessage AccessException
        ("Access error: encoding error when " ++ where_ ++ String LF "  " ++ w)%string
  | r => r
  end.

Definition duplicatedKey {A : Type} (key : list ascii) : outcome A :=
  throwMessage AccessException
    ("Access error: duplicated key are forbidden and the key '" ++ fmtStr key
     ++ "' is already present")%string.

(** The value element, the key element referring to it, the key added to
    the parent and the update of the hashtable. *)
Definition materialize (ctx : Context) (mapIdx : Z) (key encodedValue : list ascii)
  : outcome Context :=
  let '(stringIdx, stringSize, ctx1) := addString encodedValue ctx in
  let eltIdx := u32 (len (elements ctx1)) in
  let ctx2 := emplace_back (Element_string VALUE stringIdx stringSize) ctx1 in
  let '(stringIdx, stringSize, ctx3) := addString key ctx2 in
  let ctx4 := emplace_back (Element_key KEY stringIdx stringSize eltIdx) ctx3 in
  let ctx5 := updElt mapIdx (add (eltIdx + 1)) ctx4 in
  '(_, ctx6) <- addMapChildIndex mapIdx key (len key) (eltAt ctx5 mapIdx)
                  (getSubQty (eltAt ctx5 mapIdx) - 1) ctx5 ;;
  Ret ctx6.

(** [template<class T> Node& operator=(const T& typedValue)] *)
Definition assign (ctx : Context) (n : Node) (typedValue : T) : outcome (Node * Context) :=
  let elt := eltAt ctx (_eltIdx n) in
  encodedValue <- encodeValue ctx n typedValue
                    ("assigning to '" ++ Node_to_string ctx n ++ "':")%string ;;
  if NodeType_eqb (getType elt) VALUE then
    Ret (n, addStringElt encodedValue (_eltIdx n) ctx)
  else if negb (isNil (_nonExistingKey n)) then
    found <- getMapChildIndex (_eltIdx n) (_nonExistingKey n) (len (_nonExistingKey n)) elt ctx ;;
    if negb (found =? UINT_MAX) then duplicatedKey (_nonExistingKey n)
    else
      ctx' <- materialize ctx (_eltIdx n) (_nonExistingKey n) encodedValue ;;
      Ret (mkNode (_eltIdx n) [], ctx')
  else
    Ret (n, addStringElt encodedValue (_eltIdx n) (updElt (_eltIdx n) (reset VALUE) ctx)).

(** [template<class T> void push_back(const T& typedValue)] *)
Definition push_back (ctx : Context) (n : Node) (typedValue : T) : outcome Context :=
  let elt := eltAt ctx (_eltIdx n) in
  if negb (NodeType_eqb (getType elt) SEQUENCE) then
    throwMessage AccessException
      ("Access error: 'push_back(...)' can only be used on SEQUENCE elements, not '"
       ++ Node_to_string ctx n ++ "'")%string
  else
    encodedValue <- encodeValue ctx n typedValue
                      ("accessing '" ++ Node_to_string ctx n ++ "' with 'push_back(...)':")%string ;;
    let '(stringIdx, stringSize, ctx1) := addString encodedValue ctx in
    let eltIdx := u32 (len (elements ctx1)) in
    let ctx2 := emplace_back (Element_string VALUE stringIdx stringSize) ctx1 in
    Ret (updElt (_eltIdx n) (add eltIdx) ctx2).

Definition emptyKey {A : Type} : outcome A :=
  throwMessage AccessException "Access error: empty key is not allowed to access a MAP element".

Definition notAMap {A : Type} (ctx : Context) (n : Node) (key : list ascii) : outcome A :=
  throwMessage AccessException
    ("Access error: Access by '[" ++ fmtStr key ++ "]' can only be used on MAP elements, not '"
     ++ Node_to_string ctx n ++ "'")%string.

Definition nonExistent {A : Type} (n : Node) : outcome A :=
  throwMessage AccessException
    ("Access error: '" ++ fmtStr (_nonExistingKey n)
     ++ "' is a non-existent key in this MAP elements'")%string.

(** [template<class T> void insert(const std::string& key, const T& typedValue)] *)
Definition insert_key (ctx : Context) (n : Node) (key : list ascii) (typedValue : T)
  : outcome Context :=
  let elt := eltAt ctx (_eltIdx n) in
  if negb (NodeType_eqb (getType elt) MAP) then notAMap ctx n key
  else if isNil key then emptyKey
  else if negb (isNil (_nonExistingKey n)) then nonExistent n
  else
    found <- getMapChildIndex (_eltIdx n) key (len key) elt ctx ;;
    if negb (found =? UINT_MAX) then duplicatedKey key
    else
      encodedValue <- encodeValue ctx n typedValue
                        ("accessing '" ++ Node_to_string ctx n ++ "' with 'insert('"
                         ++ fmtStr key ++ "', ...)':")%string ;;
      materialize ctx (_eltIdx n) key encodedValue.

End Conversion.

Definition onlyStructural {A : Type} (verb : string) (newKind : NodeType) : outcome A :=
  throwMessage AccessException
    ("Access error: only the structural elements MAP and SEQUENCE can be created" ++ verb
     ++ ", not '" ++ to_string newKind ++ "'")%string.

(** [Node& operator=(const NodeType newKind)] *)
Definition assign_kind (ctx : Context) (n : Node) (newKind : NodeType)
  : outcome (Node * Context) :=
  let elt := eltAt ctx (_eltIdx n) in
  if negb (isStructural newKind) then onlyStructural EmptyString newKind
  else if NodeType_eqb (getType elt) MAP && negb (isNil (_nonExistingKey n)) then
    let key := _nonExistingKey n in
    found <- getMapChildIndex (_eltIdx n) key (len key) elt ctx ;;
    if negb (found =? UINT_MAX) then
      throwMessage AccessException
        ("Access error: the key '" ++ fmtStr key ++ "' has already been added in the map")%string
    else
      let eltIdx := u32 (len (elements ctx)) in
      let ctx1 := emplace_back (Element_kind newKind) ctx in
      let '(stringIdx, stringSize, ctx2) := addString key ctx1 in
      let ctx3 := emplace_back (Element_key KEY stringIdx stringSize eltIdx) ctx2 in
      let ctx4 := updElt (_eltIdx n) (add (eltIdx + 1)) ctx3 in
      '(_, ctx5) <- addMapChildIndex (_eltIdx n) key (len key) (eltAt ctx4 (_eltIdx n))
                      (getSubQty (eltAt ctx4 (_eltIdx n)) - 1) ctx4 ;;
      Ret (mkNode (_eltIdx n) [], ctx5)
  else Ret (n, updElt (_eltIdx n) (reset newKind) ctx).

Definition Node_size (ctx : Context) (n : Node) : outcome Z :=
  let elt := eltAt ctx (_eltIdx n) in
  if negb (isStructural (getType elt)) then
    throwMessage AccessException
      ("Access error: 'size()' can only be used on the structural elements MAP and SEQUENCE, not '"
       ++ Node_to_string ctx n ++ "'")%string
  else Ret (getSubQty elt).

Definition Node_type (ctx : Context) (n : Node) : NodeType :=
  match getType (eltAt ctx (_eltIdx n)) with UNKNOWN => VALUE | t => t end.

Definition isValue (ctx : Context) (n : Node) : bool :=
  match getType (eltAt ctx (_eltIdx n)) with VALUE | UNKNOWN => true | _ => false end.
Definition isKey (ctx : Context) (n : Node) : bool :=
  NodeType_eqb (getType (eltAt ctx (_eltIdx n))) KEY.
Definition isSequence (ctx : Context) (n : Node) : bool :=
  NodeType_eqb (getType (eltAt ctx (_eltIdx n))) SEQUENCE.
Definition isMap (ctx : Context) (n : Node) : bool :=
  NodeType_eqb (getType (eltAt ctx (_eltIdx n))) MAP.
Definition isComment (ctx : Context) (n : Node) : bool :=
  NodeType_eqb (getType (eltAt ctx (_eltIdx n))) COMMENT.

Definition keyName (ctx : Context) (n : Node) : outcome (list ascii) :=
  let elt := eltAt ctx (_eltIdx n) in
  if negb (NodeType_eqb (getType elt) KEY) then
    throwMessage AccessException
      ("Access error: 'keyName()' can only be used on KEY elements, not '"
       ++ Node_to_string ctx n ++ "'")%string
  else Ret (cstrAt (arena ctx) (getStringIdx elt)).

Definition Node_value (ctx : Context) (n : Node) : Node :=
  let elt := eltAt ctx (_eltIdx n) in
  if NodeType_eqb (getType elt) KEY then Node_of (getKeyValue elt) else Node_of (_eltIdx n).

(** [Node operator[](uint32_t idx) const] *)
Definition at_index (ctx : Context) (n : Node) (idx : Z) : outcome Node :=
  let elt := eltAt ctx (_eltIdx n) in
  if negb (NodeType_eqb (getType elt) SEQUENCE) then
    throwMessage AccessException
      ("Access error: Access by '[" ++ fmtInt idx ++ "]' can only be used on SEQUENCE elements, not '"
       ++ Node_to_string ctx n ++ "'")%string
  else if getSubQty elt <=? idx then
    throwMessage AccessException
      ("Access error: Access by '[" ++ fmtInt idx ++ "]' is out of array bounds for '"
       ++ Node_to_string ctx n ++ "'")%string
  else Ret (Node_of (getSub idx elt)).

(** [void push_back(const NodeType newKind)] *)
Definition push_back_kind (ctx : Context) (n : Node) (newKind : NodeType) : outcome Context :=
  let elt := eltAt ctx (_eltIdx n) in
  if negb (isStructural newKind) then onlyStructural "-push_backed" newKind
  else if negb (NodeType_eqb (getType elt) SEQUENCE) then
    throwMessage AccessException
      ("Access error: 'push_back(...)' can only be used on SEQUENCE elements, not '"
       ++ Node_to_string ctx n ++ "'")%string
  else
    let eltIdx := u32 (len (elements ctx)) in
    Ret (updElt (_eltIdx n) (add eltIdx) (emplace_back (Element_kind newKind) ctx)).

(** [void remove(uint32_t idx)] *)
Definition remove_index (ctx : Context) (n : Node) (idx : Z) : outcome Context :=
  let elt := eltAt ctx (_eltIdx n) in
  if negb (NodeType_eqb (getType elt) SEQUENCE) then
    throwMessage AccessException
      ("Access error: 'remove(" ++ fmtInt idx ++ ")' can only be used on SEQUENCE elements, not '"
       ++ Node_to_string ctx n ++ "'")%string
  else if getSubQty elt <=? idx then
    throwMessage AccessException
      ("Access error: Access by 'remove(" ++ fmtInt idx ++ ", ...)' is out of array bounds for '"
       ++ Node_to_string ctx n ++ "'")%string
  else Ret (updElt (_eltIdx n) (erase idx) ctx).

Definition pop_back (ctx : Context) (n : Node) : outcome Context :=
  let elt := eltAt ctx (_eltIdx n) in
  if negb (NodeType_eqb (getType elt) SEQUENCE) then
    throwMessage AccessException
      ("Access error: 'pop_back()' can only be used on SEQUENCE elements, not '"
       ++ Node_to_string ctx n ++ "'")%string
  else if getSubQty elt =? 0 then
    throwMessage AccessException "Access error: cannot 'pop_back' because array is empty"
  else Ret (updElt (_eltIdx n) (erase (getSubQty elt - 1)) ctx).

(** *** Map specific *)

Definition hasKey (ctx : Context) (n : Node) (key : list ascii) : outcome bool :=
  let elt := eltAt ctx (_eltIdx n) in
  if negb (NodeType_eqb (getType elt) MAP) then
    throwMessage AccessException
      ("Access error: 'hasKey(" ++ fmtStr key ++ ")' can only be used on MAP elements, not '"
       ++ Node_to_string ctx n ++ "'")%string
  else if isNil key then emptyKey
  else
    found <- getMapChildIndex (_eltIdx n) key (len key) elt ctx ;;
    Ret (negb (found =? UINT_MAX)).

(** [Node operator[](const std::string& key) const] *)
Definition at_key (ctx : Context) (n : Node) (key : list ascii) : outcome Node :=
  let elt := eltAt ctx (_eltIdx n) in
  if negb (NodeType_eqb (getType elt) MAP) then notAMap ctx n key
  else if isNil key then emptyKey
  else if negb (isNil (_nonExistingKey n)) then nonExistent n
  else
    (* Search for the key in the table. If present, return a node pointing on the string value *)
    childIndex_ <- getMapChildIndex (_eltIdx n) key (len key) elt ctx ;;
    if childIndex_ =? UINT_MAX
    then Ret (mkNode (_eltIdx n) key)
    else Ret (Node_of (getKeyValue (eltAt ctx (getSub childIndex_ elt)))).

(** [void insert(const std::string& key, const NodeType newKind)] *)
Definition insert_key_kind (ctx : Context) (n : Node) (key : list ascii) (newKind : NodeType)
  : outcome Context :=
  let elt := eltAt ctx (_eltIdx n) in
  if negb (NodeType_eqb (getType elt) MAP) then notAMap ctx n key
  else if isNil key then emptyKey
  else if negb (isNil (_nonExistingKey n)) then nonExistent n
  else if negb (isStructural newKind) then onlyStructural "-inserted" newKind
  else
    found <- getMapChildIndex (_eltIdx n) key (len key) elt ctx ;;
    if negb (found =? UINT_MAX) then duplicatedKey key
    else
      let eltIdx := u32 (len (elements ctx)) in
      let ctx1 := emplace_back (Element_kind newKind) ctx in
      let ctx2 := updElt (_eltIdx n) (add eltIdx) ctx1 in
      '(_, ctx3) <- addMapChildIndex (_eltIdx n) key (len key) (eltAt ctx2 (_eltIdx n))
                      (getSubQty (eltAt ctx2 (_eltIdx n)) - 1) ctx2 ;;
      Ret ctx3.

(** The name of an element as passed to the index by [remove]:
    [getString(lastElt->getStringIdx()), lastElt->getStringSize() - 1]. *)
Definition nameOf (ctx : Context) (e : Element) : list ascii :=
  slice (arena ctx) (getStringIdx e) (u32 (getStringSize e - 1)).

(** [bool remove(const std::string& key)] *)
Definition remove (ctx : Context) (n : Node) (key : list ascii) : outcome (bool * Context) :=
  let elt := eltAt ctx (_eltIdx n) in
  if negb (NodeType_eqb (getType elt) MAP) then
    throwMessage AccessException
      ("Access error: 'remove(" ++ fmtStr key ++ ")' can only be used on MAP elements, not '"
       ++ Node_to_string ctx n ++ "'")%string
  else
    '(childIndex_, ctx1) <- removeMapChildIndex (_eltIdx n) key (len key) elt ctx ;;
    if childIndex_ =? UINT_MAX then Ret (false, ctx1)
    else
      ctx4 <-
        (if childIndex_ <? u32 (getSubQty elt - 1) then
           (* the last element of the array is swapped with the removed one *)
           let lastElt := eltAt ctx1 (getSub (getSubQty elt - 1) elt) in
           let lastName := nameOf ctx1 lastElt in
           '(_, ctx2) <- removeMapChildIndex (_eltIdx n) lastName (len lastName) elt ctx1 ;;
           let ctx3 := updElt (_eltIdx n) (replace childIndex_ (getSub (getSubQty elt - 1) elt)) ctx2 in
           '(_, ctx4) <- addMapChildIndex (_eltIdx n) lastName (len lastName)
                           (eltAt ctx3 (_eltIdx n)) childIndex_ ctx3 ;;
           Ret ctx4
         else Ret ctx1) ;;
      let elt' := eltAt ctx4 (_eltIdx n) in
      Ret (true, updElt (_eltIdx n) (erase (getSubQty elt' - 1)) ctx4).

(** *** [Document] *)

(** A document is the context it owns and the node of its root. *)
Record Document : Type := mkDocument {
  doc_context : Context;
  doc_root : Node
}.

Definition initFromContext (ctx : Context) : Node :=
  match elements ctx with
  | [] => Node_of 0
  | root :: _ => if 0 <? getSubQty root then Node_of (getKeyValue root) else Node_of 0
  end.

Definition Document_of (ctx : Context) : Document := mkDocument ctx (initFromContext ctx).

(** [explicit Document()] *)
Definition Document_new : outcome Document :=
  ctx <- Context_new ;;
  let ctx1 := emplace_back (Element_kind KEY) ctx in
  let ctx2 := addStringElt [] (len (elements ctx1) - 1) ctx1 in
  Ret (Document_of ctx2).

Definition asPyStruct (d : Document) (withIndent : bool) : outcome (list ascii) :=
  dumpAsPyStruct (doc_context d) withIndent.

Definition asYaml (d : Document) : outcome (list ascii) := dumpAsYaml (doc_context d).

(* ====================================================================== *)
(** ** Parsing: the tokenizer [getToken] *)
(* ====================================================================== *)

Inductive TokenType : Type :=
| TokKey | TokStringValue | TokNewline | TokCaret | TokComment | TokEos.

Record TokenParser : Type := mkToken {
  isValid : bool;
  type : TokenType;
  startColNbr : Z;
  stringIdx : Z;
  stringSize : Z
}.

(** The arguments of [getToken] passed by reference or by pointer. *)
Record TokState : Type := mkTokState {
  ts_context : Context;
  ts_sh : StringHelper;
  ts_colNbr : Z;
  ts_lineNbr : Z;
  ts_idx : Z
}.

Definition isEol (c : ascii) : bool := Ascii.eqb c LF || Ascii.eqb c CR.
Definition isSpace (c : ascii) : bool := Ascii.eqb c SP.
Definition isSpaceOrTab (c : ascii) : bool := Ascii.eqb c SP || Ascii.eqb c TAB.

Definition tabError {A : Type} (lineNbr : Z) (text : list ascii) (lineStart : Z) : outcome A :=
  throwParsing lineNbr text lineStart
    "Parse error: using tabulation is not accepted for indentation".

(** [+ ((i + 1 < endIdx && text[i] == '\r' && text[i + 1] == '\n') ? 2 : 1)] *)
Definition eolSize (text : list ascii) (endIdx i : Z) : Z :=
  if (i + 1 <? endIdx) && Ascii.eqb (at_ text i) CR && Ascii.eqb (at_ text (i + 1)) LF
  then 2 else 1.

(** The result of the processing of one line of a scalar. *)
Record LineResult : Type := mkLineResult {
  lr_sh : StringHelper;
  lr_lineEndIdx : Z;
  lr_isEndOfStringReached : bool;
  lr_indentedFoldedLine : bool
}.

(** *** Single quote case: process one line. Focus on double single quote *)

Fixpoint singleQuoteScan (fuel : nat) (text : list ascii) (endIdx : Z)
    (lineEndIdx chunkStartIdx : Z) (isFirstAdd : bool) (sh : StringHelper)
  : Z * Z * bool * StringHelper * bool :=
  match fuel with
  | O => (lineEndIdx, chunkStartIdx, isFirstAdd, sh, false)
  | S f =>
      if (lineEndIdx <? endIdx) && negb (isEol (at_ text lineEndIdx)) then
        if negb (Ascii.eqb (at_ text lineEndIdx) SQUOTE)
        then singleQuoteScan f text endIdx (lineEndIdx + 1) chunkStartIdx isFirstAdd sh
        else if (lineEndIdx + 1 <? endIdx) && Ascii.eqb (at_ text (lineEndIdx + 1)) SQUOTE then
          let sh1 := if isFirstAdd && negb (Ascii.eqb (back sh) LF) then addChar SP sh else sh in
          let sh2 := addChunk (slice text chunkStartIdx (lineEndIdx + 1 - chunkStartIdx)) sh1 in
          singleQuoteScan f text endIdx (lineEndIdx + 2) (lineEndIdx + 2) false sh2
        else (lineEndIdx, chunkStartIdx, isFirstAdd, sh, true)
      else (lineEndIdx, chunkStartIdx, isFirstAdd, sh, false)
  end.

Definition lineSingleQuote (text : list ascii) (endIdx initIdx lineNbr nonSpaceIdx : Z)
    (sh : StringHelper) : outcome LineResult :=
  let isFirstAdd := negb (empty sh) in
  let '(lineEndIdx, chunkStartIdx, isFirstAdd, sh1, isEnd) :=
    singleQuoteScan (S (Z.to_nat (endIdx - nonSpaceIdx))) text endIdx nonSpaceIdx nonSpaceIdx
      isFirstAdd sh in
  let sh2 := if isFirstAdd && negb (Ascii.eqb (back sh1) LF) then addChar SP sh1 else sh1 in
  let sh3 := if chunkStartIdx <? lineEndIdx
             then addChunk (slice text chunkStartIdx (lineEndIdx - chunkStartIdx)) sh2 else sh2 in
  if endIdx <=? lineEndIdx then
    throwParsing lineNbr text initIdx "Parse error: unfinished single-quote string"
  else
    let '(isEnd, lineEndIdx) :=
      if Ascii.eqb (at_ text lineEndIdx) SQUOTE
      then (true, skipWhileNoBound text isSpaceOrTab (lineEndIdx + 1))
      else (isEnd, lineEndIdx) in
    let sh4 := if negb isEnd && (nonSpaceIdx =? lineEndIdx) then addLine [LF] sh3 else sh3 in
    Ret (mkLineResult sh4 lineEndIdx isEnd false).

(** *** Double quote case: process one line. Focus on backslash escape *)

Fixpoint doubleQuoteScan (fuel : nat) (text : list ascii) (endIdx : Z)
    (lineEndIdx chunkStartIdx : Z) (isFirstAdd : bool) (sh : StringHelper)
  : Z * Z * bool * StringHelper :=
  match fuel with
  | O => (lineEndIdx, chunkStartIdx, isFirstAdd, sh)
  | S f =>
      if (lineEndIdx <? endIdx) && negb (isEol (at_ text lineEndIdx))
         && negb (Ascii.eqb (at_ text lineEndIdx) DQUOTE) then
        if negb (Ascii.eqb (at_ text lineEndIdx) BACKSLASH)
        then doubleQuoteScan f text endIdx (lineEndIdx + 1) chunkStartIdx isFirstAdd sh
        else
          (* Skip this backslash *)
          let '(sh1, isFirstAdd) :=
            if isFirstAdd && negb (Ascii.eqb (back sh) LF) then (addChar SP sh, false)
            else (sh, isFirstAdd) in
          let sh2 := if chunkStartIdx <? lineEndIdx
                     then addChunk (slice text chunkStartIdx (lineEndIdx - chunkStartIdx)) sh1
                     else sh1 in
          let lineEndIdx := lineEndIdx + 1 in
          (* Process next character *)
          if lineEndIdx <? endIdx then
            let c := at_ text lineEndIdx in
            let '(sh3, lineEndIdx) :=
              if Ascii.eqb c "n"%char then (addChar LF sh2, lineEndIdx)
              else if Ascii.eqb c "r"%char then (addChar CR sh2, lineEndIdx)
              else if Ascii.eqb c "t"%char then (addChar TAB sh2, lineEndIdx)
              else if Ascii.eqb c DQUOTE then (addChar DQUOTE sh2, lineEndIdx)
              else if Ascii.eqb c BACKSLASH then (addChar BACKSLASH sh2, lineEndIdx)
              else if isEol c then
                (* Case of escaping the end of line to join it with the next one *)
                let i := if Ascii.eqb (at_ text lineEndIdx) CR then lineEndIdx + 1 else lineEndIdx in
                let i := if Ascii.eqb (at_ text i) LF then i + 1 else i in
                (sh2, skipWhileNoBound text isSpace i - 1)
              else (addChar c (addChar BACKSLASH sh2), lineEndIdx) in
            doubleQuoteScan f text endIdx (lineEndIdx + 1) (lineEndIdx + 1) isFirstAdd sh3
          else doubleQuoteScan f text endIdx lineEndIdx lineEndIdx isFirstAdd sh2
      else (lineEndIdx, chunkStartIdx, isFirstAdd, sh)
  end.

Definition lineDoubleQuote (text : list ascii) (endIdx initIdx lineNbr nonSpaceIdx : Z)
    (sh : StringHelper) : outcome LineResult :=
  let isFirstAdd := negb (empty sh) in
  let '(lineEndIdx, chunkStartIdx, isFirstAdd, sh1) :=
    doubleQuoteScan (S (Z.to_nat (endIdx - nonSpaceIdx))) text endIdx nonSpaceIdx nonSpaceIdx
      isFirstAdd sh in
  let sh2 := if isFirstAdd && negb (Ascii.eqb (back sh1) LF) then addChar SP sh1 else sh1 in
  let sh3 := if chunkStartIdx <? lineEndIdx
             then addChunk (slice text chunkStartIdx (lineEndIdx - chunkStartIdx)) sh2 else sh2 in
  if endIdx <=? lineEndIdx then
    throwParsing lineNbr text initIdx "Parse error: unfinished double-quote string"
  else
    let '(isEnd, lineEndIdx) :=
      if Ascii.eqb (at_ text lineEndIdx) DQUOTE
      then (true, skipWhileNoBound text isSpaceOrTab (lineEndIdx + 1))
      else (false, lineEndIdx) in
    let sh4 := if negb isEnd && (nonSpaceIdx =? lineEndIdx) then addLine [LF] sh3 else sh3 in
    Ret (mkLineResult sh4 lineEndIdx isEnd false).

(** *** Literal and folded *)

Definition lineLiteral (text : list ascii) (endIdx idx nonSpaceIdx colNbr targetIndent : Z)
    (sh : StringHelper) : LineResult :=
  let rollbackLineEndIdx := nonSpaceIdx in
  let lineEndIdx := skipWhile text endIdx (fun c => negb (isEol c)) nonSpaceIdx in
  if negb (lineEndIdx =? nonSpaceIdx) && (colNbr <? targetIndent)
  then mkLineResult sh rollbackLineEndIdx true false
  else
    let sh1 := if negb (empty sh) then addChar LF sh else sh in
    let sh2 := if idx + targetIndent <=? lineEndIdx
               then addChunk (slice text (idx + targetIndent) (lineEndIdx - (idx + targetIndent))) sh1
               else sh1 in
    mkLineResult sh2 lineEndIdx false false.

Definition lineFolded (text : list ascii) (endIdx idx nonSpaceIdx colNbr targetIndent : Z)
    (indentedFoldedLine : bool) (sh : StringHelper) : LineResult :=
  let rollbackLineEndIdx := nonSpaceIdx in
  let lineEndIdx := skipWhile text endIdx (fun c => negb (isEol c)) nonSpaceIdx in
  if negb (lineEndIdx =? nonSpaceIdx) && (colNbr <? targetIndent)
  then mkLineResult sh rollbackLineEndIdx true indentedFoldedLine
  else
    (* Indentation behavior *)
    let isIndented := (lineEndIdx <=? idx + targetIndent)
                      || (negb (empty sh) && Ascii.eqb (at_ text (idx + targetIndent)) SP) in
    let sh1 :=
      if isIndented || indentedFoldedLine then addChar LF sh
      else if (idx + targetIndent <? lineEndIdx) && negb (empty sh)
              && negb (Ascii.eqb (back sh) LF)
           then addChar SP sh else sh in
    let indentedFoldedLine' :=
      (idx + targetIndent <? lineEndIdx) && Ascii.eqb (at_ text (idx + targetIndent)) SP in
    let sh2 := if idx + targetIndent <? lineEndIdx
               then addChunk (slice text (idx + targetIndent) (lineEndIdx - (idx + targetIndent))) sh1
               else sh1 in
    mkLineResult sh2 lineEndIdx false indentedFoldedLine'.

(** *** Plain string *)

Definition plainStop (text : list ascii) (endIdx idx : Z) (j : Z) : bool :=
  let c := at_ text j in
  (endIdx <=? j) || isEol c
  || negb (negb (Ascii.eqb c "#"%char) || (j =? idx) || negb (Ascii.eqb (at_ text (j - 1)) SP))
  || negb (negb (Ascii.eqb c ":"%char)
           || (negb (j + 1 =? endIdx) && negb (Ascii.eqb (at_ text (j + 1)) SP)
               && negb (Ascii.eqb (at_ text (j + 1)) LF)
               && negb (Ascii.eqb (at_ text (j + 1)) CR))).

Definition linePlain (text : list ascii) (endIdx idx nonSpaceIdx colNbr targetIndent : Z)
    (sh : StringHelper) : LineResult :=
  let effectiveIndent := nonSpaceIdx - idx in
  let rollbackLineEndIdx := nonSpaceIdx in
  let lineEndIdx := scanFwd (Z.to_nat (endIdx - nonSpaceIdx)) (plainStop text endIdx idx) nonSpaceIdx in
  let isEnd := (lineEndIdx <? endIdx) && negb (isEol (at_ text lineEndIdx)) in
  let '(sh1, lineEndIdx, isEnd) :=
    if negb (lineEndIdx =? nonSpaceIdx) && (colNbr <? targetIndent)
    then (sh, rollbackLineEndIdx, true)
    else
      let sh' := if negb (empty sh) && negb (Ascii.eqb (back sh) LF) then addChar SP sh else sh in
      (addChunkNoTrail (slice text (idx + effectiveIndent) (lineEndIdx - (idx + effectiveIndent))) sh',
       lineEndIdx, isEnd) in
  let sh2 := if negb isEnd && (nonSpaceIdx =? lineEndIdx) then addLine [LF] sh1 else sh1 in
  mkLineResult sh2 lineEndIdx isEnd false.

(** *** The line loop *)

Record LineLoop : Type := mkLineLoop {
  ll_sh : StringHelper;
  ll_idx : Z;
  ll_colNbr : Z;
  ll_lineNbr : Z;
  ll_targetIndent : Z;
  ll_isKey : bool;
  ll_indentedFoldedLine : bool
}.

(** [text[lineEndIdx] == ':'] followed by a space, an end of line or the end. *)
Definition endsAsKey (text : list ascii) (endIdx lineEndIdx : Z) : bool :=
  Ascii.eqb (at_ text lineEndIdx) ":"%char
  && ((lineEndIdx + 1 =? endIdx) || Ascii.eqb (at_ text (lineEndIdx + 1)) SP
      || Ascii.eqb (at_ text (lineEndIdx + 1)) LF || Ascii.eqb (at_ text (lineEndIdx + 1)) CR).

(** [while (idx < endIdx) { ... }]: "Analyse the string line per line". *)
Fixpoint lineLoop (fuel : nat) (text : list ascii) (endIdx initIdx : Z) (isNewLine : bool)
    (mlType : ascii) (s : LineLoop) : outcome LineLoop :=
  if negb (ll_idx s <? endIdx) then Ret s
  else
    match fuel with
    | O => Diverge
    | S f =>
        let idx := ll_idx s in
        (* Find first non-space character *)
        let nonSpaceIdx := skipWhile text endIdx isSpace idx in
        let colNbr := ll_colNbr s + (nonSpaceIdx - idx) in
        if isNewLine && (nonSpaceIdx <? endIdx) && Ascii.eqb (at_ text nonSpaceIdx) TAB
        then tabError (ll_lineNbr s) text initIdx
        else if (ll_targetIndent s <? 0) && isEol (at_ text nonSpaceIdx) then
          (* Initial empty line case *)
          let sh1 := if empty (ll_sh s) then addLine [] (ll_sh s) else addLine [LF] (ll_sh s) in
          lineLoop f text endIdx initIdx isNewLine mlType
            (mkLineLoop sh1 (nonSpaceIdx + eolSize text endIdx nonSpaceIdx) 0 (ll_lineNbr s + 1)
               (ll_targetIndent s) (ll_isKey s) true)
        else
          (* Set the expected indent *)
          let targetIndent := if ll_targetIndent s <? 0 then colNbr else ll_targetIndent s in
          r <- (if Ascii.eqb mlType SQUOTE
                then lineSingleQuote text endIdx initIdx (ll_lineNbr s) nonSpaceIdx (ll_sh s)
                else if Ascii.eqb mlType DQUOTE
                then lineDoubleQuote text endIdx initIdx (ll_lineNbr s) nonSpaceIdx (ll_sh s)
                else if Ascii.eqb mlType "|"%char
                then Ret (lineLiteral text endIdx idx nonSpaceIdx colNbr targetIndent (ll_sh s))
                else if Ascii.eqb mlType ">"%char
                then Ret (lineFolded text endIdx idx nonSpaceIdx colNbr targetIndent
                            (ll_indentedFoldedLine s) (ll_sh s))
                else Ret (linePlain text endIdx idx nonSpaceIdx colNbr targetIndent (ll_sh s))) ;;
          (* Finalize the line *)
          let lineEndIdx := lr_lineEndIdx r in
          let nextLineStartIdx := lineEndIdx + eolSize text endIdx lineEndIdx in
          let sh1 := endLine (lr_sh r) in
          let indented := if Ascii.eqb mlType ">"%char then lr_indentedFoldedLine r
                          else ll_indentedFoldedLine s in
          let isKey_ := lr_isEndOfStringReached r && endsAsKey text endIdx lineEndIdx in
          if lr_isEndOfStringReached r then
            let lineEndIdx := if isKey_ then lineEndIdx + 1 else lineEndIdx in
            Ret (mkLineLoop sh1 lineEndIdx (colNbr + (lineEndIdx - nonSpaceIdx)) (ll_lineNbr s)
                   targetIndent (ll_isKey s || isKey_) indented)
          else
            (* Next line *)
            let lineNbr := ll_lineNbr s + 1 in
            if (endIdx <=? nextLineStartIdx) && Ascii.eqb mlType DQUOTE then
              throwParsing lineNbr text initIdx "Parse error: unfinished double-quote string"
            else if (endIdx <=? nextLineStartIdx) && Ascii.eqb mlType SQUOTE then
              throwParsing lineNbr text initIdx "Parse error: unfinished single-quote string"
            else
              lineLoop f text endIdx initIdx isNewLine mlType
                (mkLineLoop sh1 nextLineStartIdx 0 lineNbr targetIndent (ll_isKey s) indented)
    end.

(** *** The header of a block scalar: chomp and explicit indentation *)

(** One of the two passes of
    [for (int i = 0; i < 2; ++i) { ... }]; the state is
    [(idx, colNbr, chomp, deltaIndent)]. *)
Definition headerPass (text : list ascii) (endIdx initIdx lineNbr : Z)
    (s : Z * Z * ascii * Z) : outcome (Z * Z * ascii * Z) :=
  let '(idx, colNbr, chomp, deltaIndent) := s in
  if endIdx <=? idx then Ret s
  else
    let c := at_ text idx in
    if Ascii.eqb c "+"%char || Ascii.eqb c "-"%char then
      if negb (Ascii.eqb chomp SP)
      then throwParsing lineNbr text initIdx "Parse error: chomp cannot be provided more than once"
      else Ret (idx + 1, colNbr + 1, c, deltaIndent)
    else if (Z.of_N (N_of_ascii "1"%char) <=? Z.of_N (N_of_ascii c))
            && (Z.of_N (N_of_ascii c) <=? Z.of_N (N_of_ascii "9"%char)) then
      if 0 <=? deltaIndent
      then throwParsing lineNbr text initIdx
             "Parse error: explicit indentation cannot be provided more than once"
      else Ret (idx + 1, colNbr + 1, chomp, Z.of_N (N_of_ascii c) - Z.of_N (N_of_ascii "0"%char))
    else Ret s.

(** "Build the final string from the different lines" *)
Definition chunkText (sh : StringHelper) (lc : LineChunk) : list ascii :=
  slice (sh_arena sh) (startIdx lc) (size lc).

Definition storeChunks (mlType chomp : ascii) (sh : StringHelper) (ctx : Context)
  : Z * Z * Context :=
  let ctx1 := startStringSession ctx in
  let ctx2 := fold_left (fun c lc => addToSession (chunkText sh lc) c) (chunks sh) ctx1 in
  let ctx3 := if (Ascii.eqb mlType "|"%char || Ascii.eqb mlType ">"%char)
                 && (Ascii.eqb chomp SP || Ascii.eqb chomp "+"%char)
              then addToSession [LF] ctx2 else ctx2 in
  commitSession ctx3.

(** "Apply the chomp" *)
Definition applyChomp (mlType chomp : ascii) (sh : StringHelper) : StringHelper :=
  if negb (Ascii.eqb mlType SQUOTE) && negb (Ascii.eqb mlType DQUOTE)
     && (Ascii.eqb chomp "-"%char || Ascii.eqb chomp SP)
  then removeTrailingLines sh else sh.

(** The header of a scalar, as found by the first part of [getToken]:
    [(mlType, chomp, sh, idx, colNbr, lineNbr, isNewLine, targetIndent)]. *)
Definition ScalarHeader : Type := (ascii * ascii * StringHelper * Z * Z * Z * bool * Z)%type.

(** [else if (firstChar == '|' || firstChar == '>') { ... }]: the chomp and
    indentation indicators, and the rest of the line, which is ignored. *)
Definition blockHeader (text : list ascii) (endIdx initIdx parentIndent : Z)
    (firstChar : ascii) (sh : StringHelper) (idx colNbr lineNbr : Z) : outcome ScalarHeader :=
  s1 <- headerPass text endIdx initIdx lineNbr (idx + 1, colNbr + 1, SP, -1) ;;
  '(idx1, _, chomp, deltaIndent) <- headerPass text endIdx initIdx lineNbr s1 ;;
  (* Current behavior is just ignoring the rest of the line *)
  let idx2 := skipWhile text endIdx (fun c => negb (isEol c)) idx1 in
  let idx3 := idx2 + eolSize text endIdx idx2 in
  Ret (firstChar, chomp, sh, idx3, 0, lineNbr + 1, true,
       if 0 <=? deltaIndent then parentIndent + deltaIndent else -1).

(** The second part of [getToken]: the lines of the scalar, the chomp and
    the storage of the string. *)
Definition scalarToken (text : list ascii) (endIdx initIdx startColNbr_ : Z) (context : Context)
    (hdr : ScalarHeader) : outcome (TokenParser * TokState) :=
  let '(mlType, chomp, sh1, idx1, colNbr1, lineNbr1, isNewLine1, targetIndent) := hdr in
  (* Analyse the string line per line *)
  s <- lineLoop (S (Z.to_nat (endIdx - idx1))) text endIdx initIdx isNewLine1 mlType
         (mkLineLoop sh1 idx1 colNbr1 lineNbr1 targetIndent false false) ;;
  let sh2 := applyChomp mlType chomp (ll_sh s) in
  let '(stringIdx_, stringSize_, context1) := storeChunks mlType chomp sh2 context in
  Ret (mkToken true (if ll_isKey s then TokKey else TokStringValue) startColNbr_
         stringIdx_ stringSize_,
       mkTokState context1 sh2 (ll_colNbr s) (ll_lineNbr s) (ll_idx s)).

Definition getToken (text : list ascii) (endIdx parentIndent : Z) (st : TokState)
  : outcome (TokenParser * TokState) :=
  let context := ts_context st in
  let lineNbr := ts_lineNbr st in
  let idx := ts_idx st in
  let isNewLine := ts_colNbr st =? 0 in
  let initIdx := idx in
  (* Go to first non space *)
  let idxFnp := if isNewLine then skipWhile text endIdx isSpace idx
                else skipWhile text endIdx isSpaceOrTab idx in
  if isNewLine && Ascii.eqb (at_ text idxFnp) TAB then tabError lineNbr text idx
  else
    let colNbr := ts_colNbr st + (idxFnp - idx) in
    let idx := idxFnp in
    let startColNbr_ := colNbr in
    (* Case end of input *)
    if endIdx <=? idx
    then Ret (mkToken true TokEos startColNbr_ 0 0, mkTokState context (ts_sh st) colNbr lineNbr idx)
    else
      let firstChar := at_ text idx in
      (* Case end of line *)
      if isEol firstChar then
        let idx1 := if (idx + 1 <? endIdx) && Ascii.eqb firstChar CR
                       && Ascii.eqb (at_ text (idx + 1)) LF then idx + 1 else idx in
        Ret (mkToken true TokNewline startColNbr_ 0 0,
             mkTokState context (ts_sh st) 0 (lineNbr + 1) (idx1 + 1))
      (* Case "-" as first on the line (followed by space or equivalent) *)
      else if Ascii.eqb firstChar "-"%char
              && ((idx + 1 =? endIdx) || Ascii.eqb (at_ text (idx + 1)) SP
                  || Ascii.eqb (at_ text (idx + 1)) CR || Ascii.eqb (at_ text (idx + 1)) LF) then
        Ret (mkToken true TokCaret startColNbr_ 0 0,
             mkTokState context (ts_sh st) (colNbr + 1) lineNbr (idx + 1))
      (* Case "#" (comment) *)
      else if Ascii.eqb firstChar "#"%char then
        let startIdx_ := idx + 1 in
        let idx1 := skipWhile text endIdx (fun c => negb (isEol c)) idx in
        let '(stringIdx_, stringSize_, context1) :=
          addString (slice text startIdx_ (idx1 - startIdx_)) context in
        Ret (mkToken true TokComment startColNbr_ stringIdx_ stringSize_,
             mkTokState context1 (ts_sh st) (colNbr + (idx1 - idx)) lineNbr idx1)
      else
        let sh := startSession (ts_sh st) in
        (* Find the type of string to deal with *)
        hdr <-
          (if Ascii.eqb firstChar SQUOTE || Ascii.eqb firstChar DQUOTE then
             (* Termination is not indent-based but quote based *)
             let nonSpaceIdx := skipWhile text endIdx isSpace (idx + 1) in
             let sh1 := addChunk (repeat SP (Z.to_nat (nonSpaceIdx - (idx + 1)))) sh in
             Ret (firstChar, SP, sh1, idx + 1, colNbr + 1 + (nonSpaceIdx - (idx + 1)), lineNbr,
                  isNewLine, 0)
           else if Ascii.eqb firstChar "|"%char || Ascii.eqb firstChar ">"%char then
             blockHeader text endIdx initIdx parentIndent firstChar sh idx colNbr lineNbr
           else
             (* For plain string, only the parent indent matters *)
             Ret (SP, SP, sh, idx, colNbr, lineNbr, isNewLine,
                  if parentIndent <? colNbr then parentIndent + 1 else colNbr)) ;;
        scalarToken text endIdx initIdx startColNbr_ context hdr.

(* ====================================================================== *)
(** ** Parsing: the tree builder [parse] *)
(* ====================================================================== *)

Record ParseItem : Type := mkParseItem {
  eltIdx : Z;
  pindent : Z;
  childIndent : Z
}.

(** The stack is held with its back first. [stack.back()] of an empty
    stack is not defined by the source; it is only read before the loop
    stops, and the model gives it the value below. *)
Definition noItem : ParseItem := mkParseItem 0 0 (-1).
Definition stackBack (stack : list ParseItem) : ParseItem := hd noItem stack.
(** [stack[stack.size() - 2]] *)
Definition stackPrev (stack : list ParseItem) : ParseItem := nth 1 stack noItem.

Definition setBack (f : ParseItem -> ParseItem) (stack : list ParseItem) : list ParseItem :=
  match stack with
  | it :: r => f it :: r
  | [] => []
  end.

Definition setPrev (f : ParseItem -> ParseItem) (stack : list ParseItem) : list ParseItem :=
  match stack with
  | it :: p :: r => it :: f p :: r
  | _ => stack
  end.

Definition withChildIndent (c : Z) (it : ParseItem) : ParseItem :=
  mkParseItem (eltIdx it) (pindent it) c.

Record ParseState : Type := mkParseState {
  ps_tok : TokState;        (* context, sh, indexColNbr, lineNbr, startIdx *)
  ps_stack : list ParseItem;
  ps_parent : ParseItem;
  ps_mlStringParentIndent : Z;
  ps_tokenLineNbr : Z;
  ps_tokenIdx : Z;
  ps_isEndOfInput : bool
}.

Definition withContext (ctx : Context) (t : TokState) : TokState :=
  mkTokState ctx (ts_sh t) (ts_colNbr t) (ts_lineNbr t) (ts_idx t).

Definition typeAt (ctx : Context) (i : Z) : NodeType := getType (eltAt ctx i).

(** [while ((tmpIdx = elements[parentCommentEltIdx].getNextCommentIndex()) != 0)] *)
Fixpoint lastComment (fuel : nat) (ctx : Context) (i : Z) : outcome Z :=
  let tmpIdx := getNextCommentIndex (eltAt ctx i) in
  if tmpIdx =? 0 then Ret i
  else match fuel with
       | O => Diverge
       | S f => lastComment f ctx tmpIdx
       end.

Definition parseComment (token : TokenParser) (isStartingWithNewLine : bool)
    (stack : list ParseItem) (parent : ParseItem) (ctx : Context) : outcome Context :=
  let eltIdx_ := len (elements ctx) in
  let c := Element_string COMMENT (stringIdx token) (stringSize token) in
  let ctx1 := emplace_back (if isStartingWithNewLine then setStandalone c else c) ctx in
  let parentCommentEltIdx :=
    if NodeType_eqb (typeAt ctx1 (eltIdx parent)) UNKNOWN && (2 <=? len stack)
    then eltIdx (stackPrev stack)   (* the for-last must be a key or sequence *)
    else eltIdx parent in
  if negb (NodeType_eqb (typeAt ctx1 parentCommentEltIdx) UNKNOWN) then
    i <- lastComment (List.length (elements ctx1)) ctx1 parentCommentEltIdx ;;
    Ret (updElt i (setComment eltIdx_) ctx1)
  else Ret ctx1.

(** "Pop stack until caret has the same or higher indent than the parent" *)
Fixpoint caretPop (ctx : Context) (colNbr : Z) (stack : list ParseItem) (parent : ParseItem)
  : list ParseItem * ParseItem :=
  match stack with
  | [] => (stack, parent)
  | _ :: rest =>
      if (negb (NodeType_eqb (typeAt ctx (eltIdx parent)) KEY) || negb (colNbr =? pindent parent))
         && (negb (NodeType_eqb (typeAt ctx (eltIdx parent)) UNKNOWN) || (len stack <? 2)
             || negb (NodeType_eqb (typeAt ctx (eltIdx (stackPrev stack))) KEY)
             || negb (colNbr =? pindent (stackPrev stack)))
         && (colNbr <=? pindent parent)
         && ((childIndent parent <? 0) || (colNbr <? childIndent parent))
      then caretPop ctx colNbr rest (stackBack rest)
      else (stack, parent)
  end.

Definition parseCaret (text : list ascii) (token : TokenParser) (tokenLineNbr tokenIdx : Z)
    (stack0 : list ParseItem) (parent0 : ParseItem) (ctx : Context)
  : outcome (list ParseItem * ParseItem * Context) :=
  let colNbr := startColNbr token in
  let '(stack, parent) := caretPop ctx colNbr stack0 parent0 in
  (* Checks *)
  if isNil stack then
    throwParsing tokenLineNbr text tokenIdx
      ("Parse error: the indentation of the caret (=" ++ fmtInt colNbr
       ++ ") does not match any parent (=" ++ fmtInt (childIndent parent) ++ ")")%string
  else if (0 <=? childIndent parent) && negb (colNbr =? childIndent parent) then
    throwParsing tokenLineNbr text tokenIdx
      ("Parse error: the indentation of the caret (=" ++ fmtInt colNbr
       ++ ") is not aligned with other child elements (=" ++ fmtInt (childIndent parent) ++ ")")%string
  else
    (* Insert a sequence if the parent isn't one *)
    r <-
      (if negb (NodeType_eqb (typeAt ctx (eltIdx parent)) SEQUENCE) then
         let parentElt := eltAt ctx (eltIdx parent) in
         if NodeType_eqb (getType parentElt) UNKNOWN then
           let ctx1 := updElt (eltIdx parent) (reset SEQUENCE) ctx in
           let stack1 := setBack (fun it => mkParseItem (eltIdx it) colNbr colNbr) stack in
           let parent1 := stackBack stack1 in
           let stack2 := if childIndent (stackPrev stack1) <? 0
                         then setPrev (withChildIndent colNbr) stack1 else stack1 in
           Ret (stack2, parent1, ctx1)
         else if NodeType_eqb (getType parentElt) KEY && (0 <? getSubQty parentElt) then
           throwParsing tokenLineNbr text tokenIdx
             ("Parse error: probably bad indentation with caret, as the parent ('"
              ++ to_string KEY ++ "') already has a value")%string
         else
           let eltIdx_ := len (elements ctx) in
           let ctx1 := emplace_back (Element_kind SEQUENCE) ctx in
           let stack1 := mkParseItem eltIdx_ colNbr colNbr :: stack in
           let ctx2 := updElt (eltIdx parent) (add eltIdx_) ctx1 in
           Ret (stack1, stackBack stack1, ctx2)
       else Ret (stack, parent, ctx)) ;;
    let '(stack, parent, ctx) := r in
    (* Create the next node, untyped *)
    let eltIdx_ := len (elements ctx) in
    let ctx1 := emplace_back (Element_kind UNKNOWN) ctx in
    let stack1 := mkParseItem eltIdx_ colNbr (-1) :: stack in
    let ctx2 := updElt (eltIdx parent) (add eltIdx_) ctx1 in
    Ret (stack1, stackBack stack1, ctx2).

(** "Pop stack until the key indent matches the parent's" *)
Fixpoint keyPop (colNbr : Z) (stack : list ParseItem) (parent : ParseItem)
  : list ParseItem * ParseItem :=
  match stack with
  | [] => (stack, parent)
  | _ :: rest =>
      if colNbr <=? pindent parent then keyPop colNbr rest (stackBack rest)
      else (stack, parent)
  end.

(** The first part of the key case: the parent map is found or created. *)
Definition keyParent (text : list ascii) (token : TokenParser) (tokenLineNbr tokenIdx : Z)
    (stack0 : list ParseItem) (parent0 : ParseItem) (ctx : Context)
  : outcome (list ParseItem * ParseItem * Context) :=
  let colNbr := startColNbr token in
  let '(stack, parent) := keyPop colNbr stack0 parent0 in
  (* Checks *)
  if isNil stack then
    throwParsing tokenLineNbr text tokenIdx
      ("Parse error: the indentation of the key (=" ++ fmtInt colNbr
       ++ ") does not match any parent (=" ++ fmtInt (childIndent parent) ++ ")")%string
  else if (0 <=? childIndent parent) && (colNbr <? childIndent parent) then
    throwParsing tokenLineNbr text tokenIdx
      ("Parse error: the indentation of the key (=" ++ fmtInt colNbr
       ++ ") is not aligned with other child elements (=" ++ fmtInt (childIndent parent) ++ ")")%string
  else
    let '(stack, parent) :=
      if childIndent parent <? 0
      then let stack1 := setBack (withChildIndent colNbr) stack in (stack1, stackBack stack1)
      else (stack, parent) in
    (* Insert a map if the parent isn't one *)
    if negb (NodeType_eqb (typeAt ctx (eltIdx parent)) MAP) then
      let parentElt := eltAt ctx (eltIdx parent) in
      if NodeType_eqb (getType parentElt) UNKNOWN
      then Ret (stack, parent, updElt (eltIdx parent) (reset MAP) ctx)
      else if NodeType_eqb (getType parentElt) KEY && (0 <? getSubQty parentElt) then
        throwParsing tokenLineNbr text tokenIdx
          ("Parse error: probably bad indentation, as the parent ('"
           ++ to_string (getType parentElt) ++ "') already has a value")%string
      else
        let eltIdx_ := len (elements ctx) in
        let ctx1 := emplace_back (Element_kind MAP) ctx in
        let stack1 := mkParseItem eltIdx_ (pindent parent) (-1) :: stack in
        let ctx2 := updElt (eltIdx parent) (add eltIdx_) ctx1 in
        Ret (stack1, stackBack stack1, ctx2)
    else Ret (stack, parent, ctx).

(** The second part: "Add key", the update of the map index and the
    untyped node for the value. *)
Definition keyInsert (text : list ascii) (token : TokenParser) (tokenLineNbr tokenIdx : Z)
    (stack : list ParseItem) (parent : ParseItem) (ctx : Context)
  : outcome (list ParseItem * ParseItem * Context) :=
  let colNbr := startColNbr token in
  let stack1 := if childIndent parent <? 0 then setBack (withChildIndent colNbr) stack else stack in
  let eltIdx_ := len (elements ctx) in
  let ctx1 := emplace_back (Element_string KEY (stringIdx token) (stringSize token)) ctx in
  let stack2 := mkParseItem eltIdx_ colNbr (-1) :: stack1 in
  let ctx2 := updElt (eltIdx parent) (add eltIdx_) ctx1 in
  let key := slice (arena ctx2) (stringIdx token) (u32 (stringSize token - 1)) in
  '(isNew, ctx3) <- addMapChildIndex (eltIdx parent) key (u32 (stringSize token - 1))
                      (eltAt ctx2 (eltIdx parent))
                      (getSubQty (eltAt ctx2 (eltIdx parent)) - 1) ctx2 ;;
  if negb isNew then
    throwParsing tokenLineNbr text tokenIdx
      ("Parse error: duplicated key are forbidden and the key '"
       ++ fmtStr (skipn (Z.to_nat (stringIdx token)) (arena ctx3)) ++ "' is already present.")%string
  else
    let parent1 := stackBack stack2 in
    (* Create the next node, untyped *)
    let eltIdx_ := len (elements ctx3) in
    let ctx4 := emplace_back (Element_kind UNKNOWN) ctx3 in
    let stack3 := mkParseItem eltIdx_ colNbr (-1) :: stack2 in
    let ctx5 := updElt (eltIdx parent1) (add eltIdx_) ctx4 in
    Ret (stack3, stackBack stack3, ctx5).

Definition parseKey (text : list ascii) (token : TokenParser) (tokenLineNbr tokenIdx : Z)
    (stack0 : list ParseItem) (parent0 : ParseItem) (ctx : Context)
  : outcome (list ParseItem * ParseItem * Context) :=
  '(stack, parent, ctx1) <- keyParent text token tokenLineNbr tokenIdx stack0 parent0 ctx ;;
  keyInsert text token tokenLineNbr tokenIdx stack parent ctx1.

Definition parseStringValue (text : list ascii) (token : TokenParser) (tokenLineNbr tokenIdx : Z)
    (stack0 : list ParseItem) (parent0 : ParseItem) (ctx : Context)
  : outcome (list ParseItem * ParseItem * Context) :=
  let colNbr := startColNbr token in
  (* Checks *)
  if colNbr <=? pindent parent0 then
    throwParsing tokenLineNbr text tokenIdx
      ("Parse error: the indentation of the value (=" ++ fmtInt colNbr
       ++ ") is not compatible with the parent indentation (=" ++ fmtInt (pindent parent0) ++ ")")%string
  else if (0 <=? childIndent parent0) && (colNbr <? childIndent parent0) then
    throwParsing tokenLineNbr text tokenIdx
      ("Parse error: the indentation of the value (=" ++ fmtInt colNbr
       ++ ") is not aligned with other child elements (=" ++ fmtInt (childIndent parent0) ++ ")")%string
  else if NodeType_eqb (typeAt ctx (eltIdx parent0)) MAP then
    throwParsing tokenLineNbr text tokenIdx
      "Parse error: in a map, a value without a key is forbidden"
  else
    let '(stack, parent) :=
      if childIndent parent0 <? 0
      then let stack1 := setBack (withChildIndent colNbr) stack0 in (stack1, stackBack stack1)
      else (stack0, parent0) in
    (* Create the string value, either by typing an untyped node or creating a new one *)
    let '(stack, parent, ctx) :=
      if NodeType_eqb (typeAt ctx (eltIdx parent)) UNKNOWN then
        let ctx1 := updElt (eltIdx parent) (reset VALUE) ctx in
        let ctx2 := updElt (eltIdx parent) (setString (stringIdx token) (stringSize token)) ctx1 in
        (tl stack, stackBack (tl stack), ctx2)   (* Now the parent is the upper container *)
      else
        let eltIdx_ := u32 (len (elements ctx)) in
        let ctx1 := emplace_back (Element_string VALUE (stringIdx token) (stringSize token)) ctx in
        (stack, parent, updElt (eltIdx parent) (add eltIdx_) ctx1) in
    (* If the parent is a key, pop it from the stack (container with only 1 child) *)
    if NodeType_eqb (typeAt ctx (eltIdx parent)) KEY
    then Ret (tl stack, stackBack (tl stack), ctx)
    else Ret (stack, parent, ctx).

(** One turn of [while (!isEndOfInput && !stack.empty())]. *)
Definition parseStep (text : list ascii) (textSize : Z) (s : ParseState) : outcome ParseState :=
  (* Get the next token *)
  let isStartingWithNewLine := ts_colNbr (ps_tok s) =? 0 in
  '(token, tok) <- getToken text textSize (ps_mlStringParentIndent s) (ps_tok s) ;;
  let ctx := ts_context tok in
  let finish := fun (stack : list ParseItem) (parent : ParseItem) (ctx' : Context)
                    (mlIndent : Z) (isEnd : bool) =>
    mkParseState (withContext ctx' tok) stack parent mlIndent (ts_lineNbr tok) (ts_idx tok) isEnd in
  match type token with
  | TokComment =>
      ctx' <- parseComment token isStartingWithNewLine (ps_stack s) (ps_parent s) ctx ;;
      Ret (finish (ps_stack s) (ps_parent s) ctx' (ps_mlStringParentIndent s) false)
  | TokCaret =>
      '(stack, parent, ctx') <- parseCaret text token (ps_tokenLineNbr s) (ps_tokenIdx s)
                                  (ps_stack s) (ps_parent s) ctx ;;
      Ret (finish stack parent ctx' (startColNbr token) false)
  | TokKey =>
      '(stack, parent, ctx') <- parseKey text token (ps_tokenLineNbr s) (ps_tokenIdx s)
                                  (ps_stack s) (ps_parent s) ctx ;;
      Ret (finish stack parent ctx' (startColNbr token) false)
  | TokStringValue =>
      '(stack, parent, ctx') <- parseStringValue text token (ps_tokenLineNbr s) (ps_tokenIdx s)
                                  (ps_stack s) (ps_parent s) ctx ;;
      Ret (finish stack parent ctx' (ps_mlStringParentIndent s) false)
  | TokNewline =>
      Ret (mkParseState (mkTokState ctx (ts_sh tok) 0 (ts_lineNbr tok) (ts_idx tok))
             (ps_stack s) (ps_parent s) (pindent (ps_parent s)) (ts_lineNbr tok) (ts_idx tok) false)
  | TokEos =>
      Ret (finish (ps_stack s) (ps_parent s) ctx (ps_mlStringParentIndent s) true)
  end.

Fixpoint parseLoop (fuel : nat) (text : list ascii) (textSize : Z) (s : ParseState)
  : outcome ParseState :=
  if ps_isEndOfInput s || isNil (ps_stack s) then Ret s
  else
    match fuel with
    | O => Diverge
    | S f => s' <- parseStep text textSize s ;; parseLoop f text textSize s'
    end.

Definition parseInit (ctx : Context) : ParseState :=
  (* Root is a KEY type, index 0, with an empty key name *)
  let ctx1 := emplace_back (Element_kind KEY) ctx in
  let ctx2 := addStringElt [] (len (elements ctx1) - 1) ctx1 in
  let stack := [mkParseItem 0 (-1) (-1)] in
  mkParseState (mkTokState ctx2 (mkStringHelper [] [] 0) 0 1 0) stack (stackBack stack)
    (-1) 1 0 false.

(** [parse(const char* text, uint32_t textSize)] *)
Definition parse_sized (text : list ascii) (textSize : Z) : outcome Document :=
  ctx <- Context_new ;;
  s <- parseLoop (S (S (Z.to_nat textSize))) text textSize (parseInit ctx) ;;
  Ret (Document_of (ts_context (ps_tok s))).

(** [parse(const char* text)]: the size is [strlen(text)]. *)
Definition parse_cstr (text : list ascii) : outcome Document :=
  parse_sized text (len (cstr text)).

(** [parse(const std::string& text)] *)
Definition parse (text : list ascii) : outcome Document :=
  parse_sized text (len text).

(* ====================================================================== *)
(** * Definitions used by the statements and the proofs *)
(* ====================================================================== *)

(** ** The probe sequence as a list of cells *)

Fixpoint zseq (c : Z) (n : nat) : list Z :=
  match n with
  | O => []
  | S n' => c :: zseq (c + 1) n'
  end.

Definition lineSlots (idx : Z) : list Z := map (fun c => idx + c) (zseq 0 8).

Fixpoint pathFrom (fuel : nat) (mask idx probeIncr : Z) : list Z :=
  match fuel with
  | O => []
  | S f => lineSlots idx ++ pathFrom f mask (nextLine idx probeIncr mask) (u32 (probeIncr + 1))
  end.

(** The linear search that [probe] performs along its path. *)
Fixpoint search (minHash : Z) (isMatch : Entry -> bool) (entries : list Entry)
    (slots : list Z) : outcome ProbeResult :=
  match slots with
  | [] => Diverge
  | s :: r =>
      let e := nth (Z.to_nat s) entries emptyEntry in
      if minHash <=? hash e then
        if isMatch e then Ret (Hit s) else search minHash isMatch entries r
      else Ret (Free s)
  end.

(** *** What a search returns *)

Definition cellAt (entries : list Entry) (s : Z) : Entry := nth (Z.to_nat s) entries emptyEntry.

(** The [n]-th line probed is [n (n + 1) / 2] lines after the first one. *)
Fixpoint tri (n : nat) : Z :=
  match n with
  | O => 0
  | S m => tri m + Z.of_nat (S m)
  end.


(** ** Well-formed tables and the keys of a map *)

(** A table as [resize] builds it: a power of two of cells (at least one
    cache line, at most [2 ^ 31]), with unsigned fields, and with at least
    one empty cell (the load factor keeps the table from filling up). *)
Definition tableOk (ctx : Context) : bool :=
  existsb (fun k => _maxEntryQty ctx =? 2 ^ k) (zseq 3 29)
  && (len (_entries ctx) =? _maxEntryQty ctx)
  && existsb (fun e => hash e =? Empty) (_entries ctx)
  && forallb (fun e => (0 <=? hash e) && (0 <=? childIndex e)) (_entries ctx).

Fixpoint bytes_eqb (a b : list ascii) : bool :=
  match a, b with
  | [], [] => true
  | x :: a', y :: b' => Ascii.eqb x y && bytes_eqb a' b'
  | _, _ => false
  end.

(** The child at position [pos] of [parentElt] is a key named [key]. *)
Definition childNamed (ctx : Context) (parentElt : Element) (key : list ascii) (pos : Z) : bool :=
  let c := eltAt ctx (getSub pos parentElt) in
  NodeType_eqb (getType c) KEY && bytes_eqb (nameOf ctx c) key.

(** The map [parentElt] has a key child named [key]. *)
Definition hasKeyChild (ctx : Context) (parentElt : Element) (key : list ascii) : bool :=
  existsb (childNamed ctx parentElt key) (zseq 0 (Z.to_nat (getSubQty parentElt))).

(** ** Documents built through the API, for the examples *)

(** [convert<std::string>] *)
Definition encodeString (s : list ascii) : outcome (list ascii) := Ret s.
Definition decodeString (s : list ascii) : outcome (list ascii) := Ret s.

(** [Document root; root = MAP;] *)
Definition newMap : outcome (Context * Node) :=
  d <- Document_new ;;
  '(n, ctx) <- assign_kind (doc_context d) (doc_root d) MAP ;;
  Ret (ctx, n).

(** [root[k] = k;] for each of the keys, in order. *)
Fixpoint assignKeys (keys : list (list ascii)) (ctx : Context) (n : Node) : outcome Context :=
  match keys with
  | [] => Ret ctx
  | k :: r =>
      h <- at_key ctx n k ;;
      '(_, ctx') <- assign (list ascii) encodeString ctx h k ;;
      assignKeys r ctx' n
  end.

Definition buildMap (keys : list (list ascii)) : outcome (Context * Node) :=
  '(ctx, n) <- newMap ;;
  ctx' <- assignKeys keys ctx n ;;
  Ret (ctx', n).

(** Two keys of seven characters that start with a NUL character and have
    the same 32-bit hash. *)
Definition nulKey1 : list ascii := NUL :: chars "037302".
Definition nulKey2 : list ascii := NUL :: chars "054143".

Definition twelveKeys : list (list ascii) :=
  map chars ["k01"; "k02"; "k03"; "k04"; "k05"; "k06"; "k07"; "k08"; "k09"; "k10"; "k11"; "k12"]%string.

(** The statement of the resize rule for a call of [addMapChildIndex] that
    took [ctx] to [ctx']. *)
Definition resizeRule (ctx ctx' : Context) (inserted : bool) : Prop :=
  (exists ctx0, Context_new = Ret ctx0 /\ _maxEntryQty ctx0 = 16 /\ _entryQty ctx0 = 0)
  /\ _maxLoad128th = 115
  /\ _entryQty ctx' = (if inserted then u32 (_entryQty ctx + 1) else _entryQty ctx)
  /\ _maxEntryQty ctx'
     = (if inserted && (115 * _maxEntryQty ctx <? 128 * _entryQty ctx')
        then u32 (2 * _maxEntryQty ctx) else _maxEntryQty ctx).

Definition noContext : Context := mkContext [] [] 0 [] 0 0.

(** The context of a map built with the key [a], and the one obtained by
    adding [b] to its index. *)
Definition ctxOneKey : Context :=
  Eval vm_compute in
    match buildMap [chars "a"] with
    | Ret (ctx, _) => ctx
    | _ => noContext
    end.

Definition ctxTwoKeys : Context :=
  Eval vm_compute in
    match addMapChildIndex 0 (chars "b") 1 (eltAt ctxOneKey 0) 1 ctxOneKey with
    | Ret (_, ctx) => ctx
    | _ => noContext
    end.

(** ** The probe sequence of a key and the state of its cells *)

(** The cells that the three operations visit, in order, when they look
    for a key of hash [keyHash] in the table of [ctx]. *)
Definition probePath (ctx : Context) (keyHash : Z) : list Z :=
  pathFrom (probeFuel (_maxEntryQty ctx)) (lineMask (_maxEntryQty ctx))
    (Z.land keyHash (lineMask (_maxEntryQty ctx))) 1.

Definition isEmptyCell (ctx : Context) (s : Z) : bool := hash (entryAt ctx s) =? Empty.
Definition isTombstone (ctx : Context) (s : Z) : bool := hash (entryAt ctx s) =? Tombstone.
Definition isLive (ctx : Context) (s : Z) : bool := FirstValid <=? hash (entryAt ctx s).

(** The cell [s] holds the entry of the key [key] of the map [parentElt]. *)
Definition matchesKey (ctx : Context) (parentEltIdx : Z) (parentElt : Element)
    (key : list ascii) (keySize : Z) (s : Z) : bool :=
  cellMatches ctx parentElt key keySize (keyHashOf parentEltIdx key keySize) (entryAt ctx s).

(** [_entries[slot] = e] *)
Definition putEntry (slot : Z) (e : Entry) (ctx : Context) : Context :=
  setEntries (setNth (Z.to_nat slot) e (_entries ctx)) ctx.

(** The index of a map with the keys [a] and [b] after the entry of [a]
    has been removed: the cell of [a] is a tombstone and comes before the
    cell of [b] in the probe sequence of [b]. *)
Definition ctxTombstone : Context :=
  Eval vm_compute in
    match buildMap [chars "a"; chars "b"] with
    | Ret (ctx, _) =>
        match removeMapChildIndex 0 (chars "a") 1 (eltAt ctx 0) ctx with
        | Ret (_, ctx') => ctx'
        | _ => noContext
        end
    | _ => noContext
    end.

(** ** The parse-emit loop *)

(** The two loops of parsing and emission that the test suite runs:
    [T1 = parse(I)], [Y1 = T1.asYaml()], [T2 = parse(Y1.c_str())],
    [Y2 = T2.asYaml()], with the structural (Python) emissions of [T1] and
    [T2]. The result is [((Y1, S1), (Y2, S2))]. *)
Definition roundTrip (input : list ascii)
  : outcome ((list ascii * list ascii) * (list ascii * list ascii)) :=
  t1 <- parse input ;;
  y1 <- asYaml t1 ;;
  s1 <- asPyStruct t1 false ;;
  t2 <- parse_cstr y1 ;;
  y2 <- asYaml t2 ;;
  s2 <- asPyStruct t2 false ;;
  Ret ((y1, s1), (y2, s2)).

(** The input [k: '- a'], its two YAML emissions and its two structural
    emissions (the emitters end their output with a NUL character). *)
Definition quotedCaret : list ascii := chars "k: '- a'".
Definition quotedCaretY1 : list ascii := chars "k: - a" ++ [NUL].
Definition quotedCaretY2 : list ascii := chars "k:" ++ LF :: chars "  - a" ++ [NUL].
Definition quotedCaretS1 : list ascii :=
  chars "{'k' : " ++ DQUOTE :: chars "- a" ++ DQUOTE :: chars "}" ++ [NUL].
Definition quotedCaretS2 : list ascii :=
  chars "{'k' : [" ++ DQUOTE :: chars "a" ++ DQUOTE :: chars "]}" ++ [NUL].

(** A map with the keys [a] and [b], followed by a comment whose text is
    [b]. *)
Definition mapWithComment : list ascii :=
  chars "a: 1" ++ LF :: chars "b: 2" ++ LF :: chars "#b".

(** ** The style of a scalar, on the string itself *)

Definition startsWithAny (cs : list ascii) (s : list ascii) : bool :=
  match s with
  | c :: _ => existsb (Ascii.eqb c) cs
  | [] => false
  end.

Definition endsWith (c : ascii) (s : list ascii) : bool :=
  match rev s with
  | x :: _ => Ascii.eqb x c
  | [] => false
  end.

Definition hasChar (c : ascii) (s : list ascii) : bool := existsb (Ascii.eqb c) s.

(** A [':'] at the end of a segment: before a line break, or as the last
    character of the string. *)
Definition colonEndsSegment (s : list ascii) : bool :=
  containsL [":"%char; LF] s || containsL [":"%char; CR] s || endsWith ":"%char s.

(** The conditions of the plain style as the specification lists them. *)
Definition plainBySpec (s : list ascii) : bool :=
  negb (startsWithAny [SP; ">"%char; "|"%char; SQUOTE; DQUOTE] s)
  && negb (endsWith SP s)
  && negb (containsL [":"%char; SP] s)
  && negb (colonEndsSegment s)
  && negb (containsL [SP; "#"%char] s)
  && negb (hasChar TAB s) && negb (hasChar CR s) && negb (hasChar LF s).

Definition styleBySpec (s : list ascii) : ScalarStyle :=
  if plainBySpec s then Plain
  else if negb (hasChar LF s) then SingleQuoted
  else DoubleQuoted.

(** The same with one more condition for the plain style: the string does
    not start with ['#']. *)
Definition styleOf (s : list ascii) : ScalarStyle :=
  if plainBySpec s && negb (startsWithAny ["#"%char] s) then Plain
  else if negb (hasChar LF s) then SingleQuoted
  else DoubleQuoted.

(** What the analysis loop computes on the rest [s] of the string, [prev]
    being the character before it. *)
Fixpoint colonScan (s : list ascii) : bool :=
  match s with
  | c :: (d :: _) as r =>
      (Ascii.eqb c ":"%char && (Ascii.eqb d SP || Ascii.eqb d CR || Ascii.eqb d LF))
      || colonScan r
  | _ => false
  end.

Fixpoint hashScan (prev : option ascii) (s : list ascii) : bool :=
  match s with
  | c :: r =>
      (Ascii.eqb c "#"%char && match prev with None => true | Some p => Ascii.eqb p SP end)
      || hashScan (Some c) r
  | [] => false
  end.

Fixpoint countLF (s : list ascii) : Z :=
  match s with
  | c :: r => (if Ascii.eqb c LF then 1 else 0) + countLF r
  | [] => 0
  end.

Definition lastOf (s : list ascii) : option ascii :=
  match rev s with
  | x :: _ => Some x
  | [] => None
  end.

(** ** Documents with a tab character at the start of a line *)

(** The quoted scalar ['x<LF><TAB>y'] as the value of the key [a], and as
    the root of the document. *)
Definition tabUnderKey : list ascii := chars "a: 'x" ++ LF :: TAB :: chars "y'".
Definition tabAtRoot : list ascii := chars "'x" ++ LF :: TAB :: chars "y'".

Definition tabMessage : string := "using tabulation is not accepted for indentation".

(** The structural emission of a parsed document. *)
Definition parsedStruct (input : list ascii) : outcome (list ascii) :=
  d <- parse input ;; asPyStruct d false.

(** ** The lines of a block scalar *)

(** The chunks of the lines [texts] laid out one after the other from the
    offset [off]. *)
Fixpoint layout (off : Z) (texts : list (list ascii)) : list LineChunk :=
  match texts with
  | [] => []
  | t :: r => mkLineChunk off (len t) :: layout (off + len t) r
  end.

(** The helper holds the finished lines [texts] and the characters [cur]
    of the line in progress. *)
Definition lined (texts : list (list ascii)) (cur : list ascii) (sh : StringHelper) : Prop :=
  sh_arena sh = List.concat texts ++ cur
  /\ chunks sh = layout 0 texts
  /\ startLineIdx sh = len (List.concat texts).

(** The text of the lines of the helper. *)
Definition lineTexts (sh : StringHelper) : list (list ascii) :=
  map (chunkText sh) (chunks sh).

Definition isBlankChar (c : ascii) : bool := existsb (Ascii.eqb c) blankChars.
Definition isBlankText (t : list ascii) : bool := forallb isBlankChar t.


(** The string of a token, without its terminating NUL character. *)
Definition tokenText (ctx : Context) (tok : TokenParser) : list ascii :=
  slice (arena ctx) (stringIdx tok) (stringSize tok - 1).




(** A literal block scalar with the chomp indicator ['-'], a line [a] and
    two blank lines, and the state of the tokenizer at its start. *)
Definition stripBlock : list ascii := chars "|-" ++ LF :: chars "  a" ++ [LF; SP; SP; LF; LF].

Definition tokenizerStart : TokState := mkTokState noContext (mkStringHelper [] [] 0) 0 1 0.

Definition noToken : TokenParser * TokState := (mkToken false TokEos (-1) 0 0, tokenizerStart).

Definition stripBlockToken : TokenParser * TokState :=
  Eval vm_compute in
    match getToken stripBlock (len stripBlock) (-1) tokenizerStart with
    | Ret r => r
    | _ => noToken
    end.

(** ** The keys of the maps and their entries in the index *)

(** The number of cells of the table that are not empty. *)
Definition occupied (es : list Entry) : Z :=
  len (filter (fun e => negb (hash e =? Empty)) es).

(** The probe sequence of the hash [h] in a table of [cap] cells. *)
Definition homePath (cap h : Z) : list Z :=
  pathFrom (probeFuel cap) (lineMask cap) (Z.land h (lineMask cap)) 1.

(** The table holds the entry [(h, c)] in a cell of the probe sequence of
    [h], and no cell before it in the sequence is free. *)
Definition indexedIn (es : list Entry) (cap h c : Z) : Prop :=
  exists pre slot post,
    homePath cap h = pre ++ slot :: post
    /\ cellAt es slot = mkEntry h c
    /\ forall x, In x pre -> FirstValid <= hash (cellAt es x).

(** The child at the position [c] of the map [elements[pi]] is a key
    named [name]. *)
Definition keyAt (ctx : Context) (pi c : Z) (name : list ascii) : Prop :=
  0 <= pi /\ getType (eltAt ctx pi) = MAP
  /\ 0 <= c < getSubQty (eltAt ctx pi)
  /\ getType (eltAt ctx (getSub c (eltAt ctx pi))) = KEY
  /\ nameOf ctx (eltAt ctx (getSub c (eltAt ctx pi))) = name.

(** Every key of every map has its entry in the index. *)
Definition indexComplete (ctx : Context) : Prop :=
  forall pi c name,
    keyAt ctx pi c name ->
    indexedIn (_entries ctx) (_maxEntryQty ctx) (keyHashOf pi name (len name)) c.

(** The table as the parser keeps it: a power of two of cells, without
    tombstone, loaded under the limit. *)
Definition tableInv (ctx : Context) : Prop :=
  (exists k, 4 <= k <= 31 /\ _maxEntryQty ctx = 2 ^ k)
  /\ len (_entries ctx) = _maxEntryQty ctx
  /\ (forall s, hash (cellAt (_entries ctx) s) = Empty
                \/ FirstValid <= hash (cellAt (_entries ctx) s))
  /\ occupied (_entries ctx) <= _entryQty ctx
  /\ 128 * _entryQty ctx <= _maxLoad128th * _maxEntryQty ctx
  /\ (_maxEntryQty ctx = InitMapSize
      \/ _maxLoad128th * _maxEntryQty ctx < 256 * _entryQty ctx)
  /\ _entryQty ctx <= len (elements ctx).

(** The string of a key element lies in the arena. *)
Definition keyStringOk (ctx : Context) (e : Element) : Prop :=
  0 <= typed0 e /\ 1 <= compound e /\ typed0 e + compound e <= len (arena ctx).

(** The children of the maps are elements of the context, and the keys
    have their string in the arena. *)
Definition wfElements (ctx : Context) : Prop :=
  (forall j x, getType (eltAt ctx j) = MAP -> In x (subs (eltAt ctx j)) ->
               0 <= x < len (elements ctx))
  /\ (forall j, getType (eltAt ctx j) = KEY -> keyStringOk ctx (eltAt ctx j)).

(** The invariant of the context during parsing. *)
Definition parseInv (ctx : Context) : Prop :=
  tableInv ctx /\ indexComplete ctx /\ wfElements ctx.

(** The sizes fit the fields of the elements and of the table. *)
Definition sizes (ctx : Context) : Prop :=
  len (elements ctx) <= 2 ^ 28 /\ len (arena ctx) <= 2 ^ 28.

Definition grows (ctx ctx' : Context) : Prop :=
  len (elements ctx) <= len (elements ctx') /\ len (arena ctx) <= len (arena ctx').

(** A step of the parser on the context: it only grows, and keeps the
    invariant as long as the sizes fit. *)
Definition safeStep (ctx ctx' : Context) : Prop :=
  grows ctx ctx' /\ (sizes ctx' -> parseInv ctx -> parseInv ctx').

(** The context [ctx'] is [ctx] with more characters in the arena. *)
Definition sameButArena (ctx ctx' : Context) : Prop :=
  elements ctx' = elements ctx /\ _entries ctx' = _entries ctx
  /\ _entryQty ctx' = _entryQty ctx /\ _maxEntryQty ctx' = _maxEntryQty ctx
  /\ exists suffix, arena ctx' = arena ctx ++ suffix.

(** The string of the token is the one added to the arena of [ctx]. *)
Definition tokenStored (ctx ctx' : Context) (tok : TokenParser) : Prop :=
  exists body,
    arena ctx' = arena ctx ++ body ++ [NUL]
    /\ stringIdx tok = u32 (len (arena ctx))
    /\ stringSize tok = u32 (len (arena ctx') - u32 (len (arena ctx))).

(** The string of the token lies in the arena of [ctx]. *)
Definition tokenInArena (ctx : Context) (tok : TokenParser) : Prop :=
  0 <= stringIdx tok /\ 1 <= stringSize tok <= 2 ^ 28
  /\ stringIdx tok + stringSize tok <= len (arena ctx).

(** The items of the stack designate elements by an unsigned index. *)
Definition stackOk (stack : list ParseItem) (parent : ParseItem) : Prop :=
  Forall (fun it => 0 <= eltIdx it) stack /\ 0 <= eltIdx parent.




(** The context of a state of the parser. *)
Definition ps_context (s : ParseState) : Context := ts_context (ps_tok s).

(** The state of [parse] before the first turn of its loop. *)
Definition parseStart : ParseState :=
  parseInit (mkContext [] [] 0 (repeat emptyEntry 16) 0 16).


(* ====================================================================== *)
(** * The rest of the manipulation API *)
(* ====================================================================== *)

(** ** [Node::insert] on a sequence *)

Definition insertOutOfBounds {A : Type} (ctx : Context) (n : Node) (idx : Z) : outcome A :=
  throwMessage AccessException
    ("Access error: Access by 'insert(" ++ fmtInt idx ++ ", ...)' is out of array bounds for '"
     ++ Node_to_string ctx n ++ "'")%string.

Section SequenceInsert.

Variable T : Type.
Variable encode : T -> outcome (list ascii).

(** [template<class T> void insert(uint32_t idx, const T& typedValue)] *)
Definition insert_at (ctx : Context) (n : Node) (idx : Z) (typedValue : T) : outcome Context :=
  let elt := eltAt ctx (_eltIdx n) in
  if negb (NodeType_eqb (getType elt) SEQUENCE) then
    throwMessage AccessException
      ("Access error: 'insert()' can only be used on SEQUENCE elements, not '"
       ++ Node_to_string ctx n ++ "'")%string
  else if getSubQty elt <? idx then insertOutOfBounds ctx n idx
  else
    encodedValue <- encodeValue T encode ctx n typedValue
                      ("accessing '" ++ Node_to_string ctx n ++ "' with 'insert("
                       ++ fmtInt idx ++ ", ...)':")%string ;;
    let '(stringIdx, stringSize, ctx1) := addString encodedValue ctx in
    let eltIdx := u32 (len (elements ctx1)) in
    let ctx2 := emplace_back (Element_string VALUE stringIdx stringSize) ctx1 in
    Ret (updElt (_eltIdx n) (insert idx eltIdx) ctx2).

End SequenceInsert.

(** [void insert(uint32_t idx, const NodeType newKind)] *)
Definition insert_at_kind (ctx : Context) (n : Node) (idx : Z) (newKind : NodeType)
  : outcome Context :=
  let elt := eltAt ctx (_eltIdx n) in
  if negb (isStructural newKind) then onlyStructural "-inserted" newKind
  else if negb (NodeType_eqb (getType elt) SEQUENCE) then
    throwMessage AccessException
      ("Access error: 'insert(...)' can only be used on SEQUENCE elements, not '"
       ++ Node_to_string ctx n ++ "'")%string
  else if getSubQty elt <? idx then insertOutOfBounds ctx n idx
  else
    let eltIdx := u32 (len (elements ctx)) in
    Ret (updElt (_eltIdx n) (insert idx eltIdx) (emplace_back (Element_kind newKind) ctx)).

(** ** The iteration over the children: [begin()], [end()] and the
    iterator *)

(** The nodes that [for (auto it = n.begin(); it != n.end(); ++it)] goes
    through: the iterator walks the array of the children, from
    [getSubs()] to [getSubs() + getSubQty()]. *)
Definition children (ctx : Context) (n : Node) : outcome (list Node) :=
  let elt := eltAt ctx (_eltIdx n) in
  if negb (isStructural (getType elt)) then
    throwMessage AccessException
      ("Access error: only the structural elements MAP and SEQUENCE can be iterated, not type '"
       ++ to_string (getType elt) ++ "'.")%string
  else Ret (map Node_of (firstn (Z.to_nat (getSubQty elt)) (getSubs elt))).

(** The sequence of a new document: [Document root; root = SEQUENCE;] *)
Definition newSequence : outcome (Context * Node) :=
  d <- Document_new ;;
  '(n, ctx) <- assign_kind (doc_context d) (doc_root d) SEQUENCE ;;
  Ret (ctx, n).

(** A sequence without child, and a sequence of a map and a sequence,
    for the examples. *)
Definition emptySequence : Context :=
  Eval vm_compute in
    match newSequence with
    | Ret (ctx, _) => ctx
    | _ => noContext
    end.

Definition sequenceOfTwo : Context :=
  Eval vm_compute in
    match (ctx1 <- push_back_kind emptySequence (Node_of 0) MAP ;;
           push_back_kind ctx1 (Node_of 0) SEQUENCE) with
    | Ret ctx => ctx
    | _ => noContext
    end.

(** A document with one key, for the examples. *)
Definition mapExample : list ascii := chars "a: b".

Definition mapExampleDoc : Document :=
  Eval vm_compute in
    match parse mapExample with
    | Ret d => d
    | _ => Document_of noContext
    end.

(** ** Maps without two keys of the same name *)

(** At most one child of the map [parentElt] is a key named [key]. *)
Definition uniqueKey (ctx : Context) (parentElt : Element) (key : list ascii) : Prop :=
  forall c1 c2,
    0 <= c1 < getSubQty parentElt -> 0 <= c2 < getSubQty parentElt ->
    childNamed ctx parentElt key c1 = true -> childNamed ctx parentElt key c2 = true ->
    c1 = c2.

(** ** The index once keys have been removed *)

(** The fields of the cells are unsigned. *)
Definition cellsUnsigned (ctx : Context) : bool :=
  forallb (fun e => (0 <=? hash e) && (0 <=? childIndex e)) (_entries ctx).

(** The table holds the entry [(h, c)] in a cell of the probe sequence of
    [h], and no cell before it in the sequence is empty: a lookup, which
    goes through the tombstones, reaches it. *)
Definition reachableIn (es : list Entry) (cap h c : Z) : Prop :=
  exists pre slot post,
    homePath cap h = pre ++ slot :: post
    /\ cellAt es slot = mkEntry h c
    /\ forall x, In x pre -> Tombstone <= hash (cellAt es x).

(** Every key of every map has an entry that the lookups reach. *)
Definition indexReaches (ctx : Context) : Prop :=
  forall pi c name,
    keyAt ctx pi c name ->
    reachableIn (_entries ctx) (_maxEntryQty ctx) (keyHashOf pi name (len name)) c.

(** The table in general: a power of two of cells with unsigned fields,
    loaded under the limit; the cells that are not empty (entries and
    tombstones) are not more than the entries counted. *)
Definition tableShape (ctx : Context) : Prop :=
  (exists k, 4 <= k <= 31 /\ _maxEntryQty ctx = 2 ^ k)
  /\ len (_entries ctx) = _maxEntryQty ctx
  /\ (forall s, 0 <= hash (cellAt (_entries ctx) s) /\ 0 <= childIndex (cellAt (_entries ctx) s))
  /\ occupied (_entries ctx) <= _entryQty ctx
  /\ 128 * _entryQty ctx <= _maxLoad128th * _maxEntryQty ctx
  /\ (_maxEntryQty ctx = InitMapSize
      \/ _maxLoad128th * _maxEntryQty ctx < 256 * _entryQty ctx).

(** The invariant of the documents under insertions and removals. *)
Definition indexInv (ctx : Context) : Prop :=
  tableShape ctx /\ indexReaches ctx /\ wfElements ctx.

(** The names of the children of a map. *)
Definition childNames (ctx : Context) (elt : Element) : list (list ascii) :=
  map (fun x => nameOf ctx (eltAt ctx x)) (subs elt).

Fixpoint distinctNames (names : list (list ascii)) : bool :=
  match names with
  | [] => true
  | a :: r => negb (existsb (bytes_eqb a) r) && distinctNames r
  end.

(** A map whose children are all keys, with names that differ and hold
    no NUL character (no comment among the children). *)
Definition plainMap (ctx : Context) (elt : Element) : bool :=
  forallb (fun x => NodeType_eqb (getType (eltAt ctx x)) KEY) (subs elt)
  && forallb (fun name => negb (hasChar NUL name)) (childNames ctx elt)
  && distinctNames (childNames ctx elt).

(** No key of another map has the hash of a key of the map [p]: the two
    keys could share one cell of the index. *)
Definition ownEntries (ctx : Context) (p : Z) : Prop :=
  forall c name pi c' name',
    keyAt ctx p c name -> keyAt ctx pi c' name' ->
    keyHashOf pi name' (len name') = keyHashOf p name (len name) -> pi = p.

(** The element [x] is a key named [name]. *)
Definition isKeyNamed (ctx : Context) (x : Z) (name : list ascii) : bool :=
  NodeType_eqb (getType (eltAt ctx x)) KEY && bytes_eqb (nameOf ctx (eltAt ctx x)) name.

(** The element [p] is the only map of the document. *)
Definition onlyMap (ctx : Context) (p : Z) : bool :=
  forallb (fun i => negb (NodeType_eqb (getType (eltAt ctx i)) MAP) || (i =? p))
    (zseq 0 (List.length (elements ctx))).

(** A map of two keys, for the examples. *)
Definition twoKeys : list ascii := chars "a: b" ++ LF :: chars "c: d".

Definition twoKeysDoc : Document :=
  Eval vm_compute in
    match parse twoKeys with
    | Ret d => d
    | _ => Document_of noContext
    end.

(** The map of two keys once the key [a] has been removed. *)
Definition afterRemoval : Context :=
  Eval vm_compute in
    match remove (doc_context twoKeysDoc) (doc_root twoKeysDoc) (chars "a") with
    | Ret (_, ctx) => ctx
    | _ => noContext
    end.

(** The characters of [s] with every single quote written twice. *)
Definition doubled (s : list ascii) : list ascii :=
  flat_map (fun c => if Ascii.eqb c SQUOTE then [SQUOTE; SQUOTE] else [c]) s.

(** The first character of [s] that is not a space is a tabulation. *)
Fixpoint tabAfterSpaces (s : list ascii) : bool :=
  match s with
  | c :: r => if Ascii.eqb c SP then tabAfterSpaces r else Ascii.eqb c TAB
  | [] => false
  end.

(** The characters of [s] as [escapeLoop] writes them between double
    quotes: a double quote, a line feed, a carriage return and a tabulation
    are written as a backslash escape; a backslash is doubled, unless it is
    followed by ['u'], ['U'] or ['x']. *)
Fixpoint escaped (s : list ascii) : list ascii :=
  match s with
  | [] => []
  | c :: r =>
      (if Ascii.eqb c DQUOTE then [BACKSLASH; DQUOTE]
       else if Ascii.eqb c LF then [BACKSLASH; "n"%char]
       else if Ascii.eqb c CR then [BACKSLASH; "r"%char]
       else if Ascii.eqb c TAB then [BACKSLASH; "t"%char]
       else if Ascii.eqb c BACKSLASH then
         match r with
         | n :: _ =>
             if negb (Ascii.eqb n "u"%char) && negb (Ascii.eqb n "U"%char)
                && negb (Ascii.eqb n "x"%char)
             then [BACKSLASH; BACKSLASH] else [BACKSLASH]
         | [] => [BACKSLASH; BACKSLASH]
         end
       else [c]) ++ escaped r
  end.

(** A character that the emitter escapes. *)
Definition isEscaped (c : ascii) : bool := existsb (Ascii.eqb c) pyEscapes.

(** The escapes that [doubleQuoteScan] reads after a backslash in the
    text written by [escapeLoop], with the characters they stand for. *)
Definition escTable : list (ascii * list ascii) :=
  [("n"%char, [LF]); ("r"%char, [CR]); ("t"%char, [TAB]); (DQUOTE, [DQUOTE]);
   (BACKSLASH, [BACKSLASH]); ("u"%char, [BACKSLASH; "u"%char]);
   ("U"%char, [BACKSLASH; "U"%char]); ("x"%char, [BACKSLASH; "x"%char])].

(** The string would be read as the caret of a sequence: ['-'] alone or
    followed by a space or an end of line. *)
Definition startsAsCaret (s : list ascii) : bool :=
  match s with
  | c :: r =>
      Ascii.eqb c "-"%char
      && match r with
         | [] => true
         | d :: _ => Ascii.eqb d SP || Ascii.eqb d CR || Ascii.eqb d LF
         end
  | [] => false
  end.

(** The name can be read back when it is written as it is before a colon:
    it is not empty, holds no end of line, does not start with a space, a
    tabulation, a quote, ['>'] or ['|'], is not a caret or a comment, holds
    neither [": "] nor [" #"], and does not end with a space or a
    tabulation. *)
Definition plainName (s : list ascii) : bool :=
  negb (isNil s) && negb (hasChar LF s) && negb (hasChar CR s)
  && negb (startsWithAny [SP; ">"%char; "|"%char; SQUOTE; DQUOTE; TAB] s)
  && negb (startsAsCaret (s ++ [":"%char])) && negb (colonScan (s ++ [":"%char]))
  && negb (hashScan None s) && negb (endsWith SP s) && negb (endsWith TAB s).
(* ====================================================================== *)
(** * Properties *)
(* ====================================================================== *)

(** ** Lists used as arrays *)

Section ListArray.
Context {A : Type}.

Lemma length_setNth (n : nat) (x : A) (l : list A) :
  List.length (setNth n x l) = List.length l.
Proof.
  revert n; induction l as [|y l IH]; intros [|n]; simpl; auto.
Qed.

Lemma nth_setNth_eq (n : nat) (x d : A) (l : list A) :
  (n < List.length l)%nat -> nth n (setNth n x l) d = x.
Proof.
  revert n; induction l as [|y l IH]; intros [|n] H; simpl in *; try lia; auto.
  apply IH; lia.
Qed.

Lemma nth_setNth_ne (n m : nat) (x d : A) (l : list A) :
  n <> m -> nth m (setNth n x l) d = nth m l d.
Proof.
  revert n m; induction l as [|y l IH]; intros [|n] [|m] H; simpl; auto; try congruence.
Qed.
End ListArray.

Lemma scanLine_search (minHash : Z) (isMatch : Entry -> bool) (entries : list Entry)
    (idx : Z) (rest : list Z) (n : nat) (c : Z) :
  match scanLine n minHash isMatch entries idx c with
  | Matched x => Ret (Hit (idx + x))
  | Stopped x => Ret (Free (idx + x))
  | LineFull => search minHash isMatch entries rest
  end = search minHash isMatch entries (map (fun i => idx + i) (zseq c n) ++ rest).
Proof.
  revert c; induction n as [|n IH]; intros c; simpl; [reflexivity|].
  destruct (minHash <=? _); [|reflexivity].
  destruct (isMatch _); [reflexivity|apply IH].
Qed.

Lemma probe_search (fuel : nat) (minHash : Z) (isMatch : Entry -> bool)
    (entries : list Entry) (mask idx probeIncr : Z) :
  probe fuel minHash isMatch entries mask idx probeIncr
  = search minHash isMatch entries (pathFrom fuel mask idx probeIncr).
Proof.
  revert idx probeIncr; induction fuel as [|f IH]; intros idx probeIncr; [reflexivity|].
  cbn [probe pathFrom]. unfold lineSlots.
  rewrite <- scanLine_search.
  destruct (scanLine 8 minHash isMatch entries idx 0); auto.
Qed.

Lemma search_app_skip (minHash : Z) (isMatch : Entry -> bool) (entries : list Entry)
    (pre post : list Z) :
  (forall s, In s pre -> minHash <= hash (cellAt entries s) /\ isMatch (cellAt entries s) = false) ->
  search minHash isMatch entries (pre ++ post) = search minHash isMatch entries post.
Proof.
  induction pre as [|s pre IH]; intros H; simpl; [reflexivity|].
  destruct (H s (or_introl eq_refl)) as [Hh Hm]. unfold cellAt in *.
  destruct (Z.leb_spec minHash (hash (nth (Z.to_nat s) entries emptyEntry))); [|lia].
  rewrite Hm. apply IH. intros; apply H; right; assumption.
Qed.

Lemma search_result (minHash : Z) (isMatch : Entry -> bool) (entries : list Entry)
    (slots : list Z) (r : ProbeResult) :
  search minHash isMatch entries slots = Ret r ->
  exists pre post s,
    slots = pre ++ s :: post
    /\ (forall x, In x pre ->
          minHash <= hash (cellAt entries x) /\ isMatch (cellAt entries x) = false)
    /\ ((r = Hit s /\ minHash <= hash (cellAt entries s) /\ isMatch (cellAt entries s) = true)
        \/ (r = Free s /\ hash (cellAt entries s) < minHash)).
Proof.
  induction slots as [|s slots IH]; simpl; [discriminate|].
  fold (cellAt entries s).
  destruct (Z.leb_spec minHash (hash (cellAt entries s))) as [Hle|Hlt].
  - destruct (isMatch (cellAt entries s)) eqn:Hm.
    + intros [= <-]. exists [], slots, s.
      split; [reflexivity|]. split; [intros x []|]. left; auto.
    + intros H. destruct (IH H) as (pre & post & s' & -> & Hpre & Hr).
      exists (s :: pre), post, s'.
      split; [reflexivity|]. split; [|exact Hr].
      intros x [<-|Hx]; auto.
  - intros [= <-]. exists [], slots, s.
    split; [reflexivity|]. split; [intros x []|]. right; auto.
Qed.

Lemma search_terminates (minHash : Z) (isMatch : Entry -> bool) (entries : list Entry)
    (slots : list Z) (s : Z) :
  In s slots -> hash (cellAt entries s) < minHash ->
  exists r, search minHash isMatch entries slots = Ret r.
Proof.
  induction slots as [|y slots IH]; simpl; [intros []|].
  intros Hin Hs. fold (cellAt entries y).
  destruct (Z.leb_spec minHash (hash (cellAt entries y))) as [Hle|Hlt]; [|eauto].
  destruct (isMatch (cellAt entries y)); [eauto|].
  destruct Hin as [->|Hin]; [lia|auto].
Qed.

(** ** The probe sequence visits every line *)

Lemma tri_double (n : nat) : 2 * tri n = Z.of_nat n * (Z.of_nat n + 1).
Proof. induction n as [|n IH]; [reflexivity|]. cbn [tri]. nia. Qed.

Lemma tri_nonneg (n : nat) : 0 <= tri n.
Proof. induction n as [|n IH]; cbn [tri]; lia. Qed.

Lemma pow2_divide_odd_mul (j : Z) :
  0 <= j -> forall a b, Z.odd a = true -> (2 ^ j | a * b) -> (2 ^ j | b).
Proof.
  intros Hj. pattern j. apply natlike_ind; [| |exact Hj].
  - intros a b _ _. exists b. simpl. lia.
  - intros x Hx IH a b Ha Hd.
    rewrite Z.pow_succ_r in * by assumption.
    assert (He : Z.even b = true).
    { destruct Hd as [q Hq].
      assert (Hev : Z.even (a * b) = true) by (rewrite Hq, Z.even_mul, Z.even_mul; simpl; apply orb_true_r).
      rewrite Z.even_mul in Hev. rewrite <- Z.negb_odd, Ha in Hev. simpl in Hev. exact Hev. }
    apply Z.even_spec in He. destruct He as [b' ->].
    assert (Hd' : (2 ^ x | a * b')).
    { destruct Hd as [q Hq]. exists q. nia. }
    destruct (IH a b' Ha Hd') as [r ->]. exists r. lia.
Qed.

Lemma tri_injective_mod (j : Z) (a b : nat) :
  0 <= j -> (a < b)%nat -> Z.of_nat b < 2 ^ j -> tri a mod 2 ^ j <> tri b mod 2 ^ j.
Proof.
  intros Hj Hab Hb Heq.
  assert (Hp : 0 < 2 ^ j) by (apply Z.pow_pos_nonneg; lia).
  assert (Hd : (2 ^ j | tri b - tri a)).
  { apply Z.mod_divide; [lia|]. rewrite Zminus_mod, Heq, Z.sub_diag. apply Z.mod_0_l. lia. }
  assert (Hd2 : (2 ^ (j + 1) | (Z.of_nat b - Z.of_nat a) * (Z.of_nat b + Z.of_nat a + 1))).
  { destruct Hd as [q Hq]. exists q. rewrite Z.pow_add_r by lia.
    pose proof (tri_double a). pose proof (tri_double b). nia. }
  assert (Hp1 : 2 ^ (j + 1) = 2 * 2 ^ j) by (rewrite Z.pow_add_r by lia; lia).
  destruct (Z.odd (Z.of_nat b - Z.of_nat a)) eqn:Hodd.
  - apply pow2_divide_odd_mul in Hd2; [|lia|assumption].
    apply Z.divide_pos_le in Hd2; lia.
  - assert (Hodd' : Z.odd (Z.of_nat b + Z.of_nat a + 1) = true).
    { replace (Z.of_nat b + Z.of_nat a + 1)
        with ((Z.of_nat b - Z.of_nat a) + (1 + 2 * Z.of_nat a)) by lia.
      rewrite Z.odd_add, Hodd. rewrite Z.odd_add_mul_2. reflexivity. }
    rewrite Z.mul_comm in Hd2.
    apply pow2_divide_odd_mul in Hd2; [|lia|assumption].
    apply Z.divide_pos_le in Hd2; lia.
Qed.

Lemma tri_surjective_mod (j t : Z) :
  0 <= j -> 0 <= t < 2 ^ j ->
  exists m : nat, Z.of_nat m < 2 ^ j /\ tri m mod 2 ^ j = t.
Proof.
  intros Hj Ht.
  set (nb := Z.to_nat (2 ^ j)).
  set (L := map (fun m => tri m mod 2 ^ j) (seq 0 nb)).
  set (R := map Z.of_nat (seq 0 nb)).
  assert (Hp : 0 < 2 ^ j) by (apply Z.pow_pos_nonneg; lia).
  assert (HL : NoDup L).
  { apply NoDup_map_NoDup_ForallPairs; [|apply seq_NoDup].
    intros a b Ha Hb Heq. apply in_seq in Ha, Hb.
    destruct (Nat.lt_trichotomy a b) as [Hlt|[->|Hlt]]; [|reflexivity|].
    - exfalso. apply (tri_injective_mod j a b); try lia.
    - exfalso. apply (tri_injective_mod j b a); try lia. }
  assert (Hincl : incl L R).
  { intros x Hx. apply in_map_iff in Hx. destruct Hx as (m & <- & _).
    apply in_map_iff. exists (Z.to_nat (tri m mod 2 ^ j)).
    pose proof (Z.mod_pos_bound (tri m) (2 ^ j) Hp).
    split; [lia|]. apply in_seq. lia. }
  assert (Hlen : (List.length R <= List.length L)%nat).
  { unfold L, R. rewrite !length_map. lia. }
  pose proof (NoDup_length_incl HL Hlen Hincl) as Hrev.
  assert (HtR : In t R).
  { apply in_map_iff. exists (Z.to_nat t). split; [lia|]. apply in_seq. lia. }
  apply Hrev in HtR. apply in_map_iff in HtR. destruct HtR as (m & Hm & Hin).
  apply in_seq in Hin. exists m. split; [lia|exact Hm].
Qed.

(** *** The mask and the step of the probe on a table of [2 ^ k] cells *)

Lemma lineMask_pow2 (k : Z) : 3 <= k <= 31 -> lineMask (2 ^ k) = 2 ^ k - 8.
Proof.
  intros Hk.
  assert (H : k = 3 \/ k = 4 \/ k = 5 \/ k = 6 \/ k = 7 \/ k = 8 \/ k = 9 \/ k = 10 \/ k = 11
              \/ k = 12 \/ k = 13 \/ k = 14 \/ k = 15 \/ k = 16 \/ k = 17 \/ k = 18 \/ k = 19
              \/ k = 20 \/ k = 21 \/ k = 22 \/ k = 23 \/ k = 24 \/ k = 25 \/ k = 26 \/ k = 27
              \/ k = 28 \/ k = 29 \/ k = 30 \/ k = 31) by lia.
  repeat (destruct H as [->|H]; [reflexivity|]). subst k. reflexivity.
Qed.

Lemma land_shiftl_ones (x j : Z) :
  0 <= j -> Z.land x (Z.shiftl (Z.ones j) 3) = Z.shiftl (Z.land (Z.shiftr x 3) (Z.ones j)) 3.
Proof.
  intros Hj. apply Z.bits_inj'. intros n Hn.
  rewrite Z.land_spec, !Z.shiftl_spec by lia.
  destruct (Z.ltb_spec n 3) as [Hlt|Hge].
  - rewrite !(Z.testbit_neg_r _ (n - 3)) by lia. apply andb_false_r.
  - rewrite Z.land_spec, Z.shiftr_spec by lia.
    replace (n - 3 + 3) with n by lia. reflexivity.
Qed.

Lemma land_lineMask (x k : Z) :
  3 <= k <= 31 -> Z.land x (lineMask (2 ^ k)) = 8 * ((x / 8) mod 2 ^ (k - 3)).
Proof.
  intros Hk. rewrite lineMask_pow2 by assumption.
  replace (2 ^ k - 8) with (Z.shiftl (Z.ones (k - 3)) 3).
  - rewrite land_shiftl_ones by lia.
    rewrite Z.land_ones by lia. rewrite Z.shiftr_div_pow2, Z.shiftl_mul_pow2 by lia.
    change (2 ^ 3) with 8. lia.
  - rewrite Z.shiftl_mul_pow2 by lia. rewrite Z.ones_equiv. change (2 ^ 3) with 8.
    replace k with ((k - 3) + 3) at 2 by lia. rewrite Z.pow_add_r by lia.
    change (2 ^ 3) with 8. lia.
Qed.

Lemma nextLine_line (k B probeIncr : Z) :
  3 <= k <= 31 -> 0 <= B < 2 ^ (k - 3) -> 0 <= probeIncr <= 2 ^ (k - 3) ->
  nextLine (8 * B) probeIncr (lineMask (2 ^ k)) = 8 * ((B + probeIncr) mod 2 ^ (k - 3)).
Proof.
  intros Hk HB Hi. unfold nextLine.
  assert (Hnb : 2 ^ (k - 3) <= 2 ^ 28) by (apply Z.pow_le_mono_r; lia).
  change (2 ^ 28) with 268435456 in Hnb.
  unfold u32, KeyDirAssocQty. change (2 ^ 32) with 4294967296.
  rewrite (Z.mod_small (probeIncr * 8)) by lia.
  rewrite Z.mod_small by lia.
  rewrite land_lineMask by assumption.
  replace (8 * B + probeIncr * 8) with ((B + probeIncr) * 8) by lia.
  rewrite Z.div_mul by lia. reflexivity.
Qed.

Lemma in_lineSlots (idx c : Z) : 0 <= c < 8 -> In (idx + c) (lineSlots idx).
Proof.
  intros Hc. unfold lineSlots. apply in_map.
  assert (H : c = 0 \/ c = 1 \/ c = 2 \/ c = 3 \/ c = 4 \/ c = 5 \/ c = 6 \/ c = 7) by lia.
  simpl. intuition.
Qed.

Lemma pathFrom_line (k B0 : Z) (fuel n m : nat) (c : Z) :
  3 <= k <= 31 -> 0 <= B0 < 2 ^ (k - 3) ->
  (n <= m)%nat -> (m < n + fuel)%nat -> Z.of_nat (n + fuel) <= 2 ^ (k - 3) ->
  0 <= c < 8 ->
  In (8 * ((B0 + tri m) mod 2 ^ (k - 3)) + c)
     (pathFrom fuel (lineMask (2 ^ k)) (8 * ((B0 + tri n) mod 2 ^ (k - 3))) (Z.of_nat n + 1)).
Proof.
  intros Hk HB0. revert n.
  induction fuel as [|f IH]; intros n Hnm Hm Hfuel Hc; [lia|].
  assert (Hp : 0 < 2 ^ (k - 3)) by (apply Z.pow_pos_nonneg; lia).
  assert (Hnb : 2 ^ (k - 3) <= 2 ^ 28) by (apply Z.pow_le_mono_r; lia).
  change (2 ^ 28) with 268435456 in Hnb.
  cbn [pathFrom]. apply in_or_app.
  destruct (Nat.eq_dec n m) as [->|Hne].
  - left. apply in_lineSlots. assumption.
  - right.
    rewrite nextLine_line; [|assumption|apply Z.mod_pos_bound; assumption|lia].
    replace (u32 (Z.of_nat n + 1 + 1)) with (Z.of_nat (S n) + 1)
      by (unfold u32; change (2 ^ 32) with 4294967296; rewrite Z.mod_small; lia).
    replace (((B0 + tri n) mod 2 ^ (k - 3) + (Z.of_nat n + 1)) mod 2 ^ (k - 3))
      with ((B0 + tri (S n)) mod 2 ^ (k - 3)).
    + apply IH; try lia.
    + cbn [tri]. rewrite Z.add_mod_idemp_l by lia. f_equal. lia.
Qed.

(** Every cell of the table is on the path of every hash. *)
Lemma probe_covers (k h e : Z) :
  3 <= k <= 31 -> 0 <= e < 2 ^ k ->
  In e (pathFrom (probeFuel (2 ^ k)) (lineMask (2 ^ k)) (Z.land h (lineMask (2 ^ k))) 1).
Proof.
  intros Hk He.
  assert (Hp : 0 < 2 ^ (k - 3)) by (apply Z.pow_pos_nonneg; lia).
  assert (Hcap : 2 ^ k = 8 * 2 ^ (k - 3)).
  { replace k with ((k - 3) + 3) at 1 by lia. rewrite Z.pow_add_r by lia.
    change (2 ^ 3) with 8. lia. }
  set (nb := 2 ^ (k - 3)) in *.
  set (B0 := (h / 8) mod nb).
  assert (HB0 : 0 <= B0 < nb) by (apply Z.mod_pos_bound; assumption).
  assert (HB : 0 <= e / 8 < nb) by (split; [apply Z.div_pos; lia|apply Z.div_lt_upper_bound; lia]).
  destruct (tri_surjective_mod (k - 3) ((e / 8 - B0) mod nb)) as (m & Hm & Htri);
    [lia|apply Z.mod_pos_bound; assumption|].
  fold nb in Hm, Htri.
  assert (Hline : (B0 + tri m) mod nb = e / 8).
  { rewrite <- Z.add_mod_idemp_r by lia. rewrite Htri.
    rewrite Z.add_mod_idemp_r by lia.
    replace (B0 + (e / 8 - B0)) with (e / 8) by lia. apply Z.mod_small. assumption. }
  rewrite land_lineMask by assumption. fold nb. fold B0.
  replace e with (8 * ((B0 + tri m) mod nb) + e mod 8)
    by (rewrite Hline; symmetry; apply Z.div_mod; lia).
  replace (8 * B0) with (8 * ((B0 + tri 0) mod nb))
    by (cbn [tri]; rewrite Z.add_0_r, Z.mod_small; [reflexivity|assumption]).
  change 1 with (Z.of_nat 0 + 1).
  apply (pathFrom_line k B0); try assumption; try lia.
  - unfold probeFuel, KeyDirAssocQty. rewrite Hcap.
    replace (8 * nb / 8) with nb by (rewrite Z.mul_comm, Z.div_mul; lia). lia.
  - unfold probeFuel, KeyDirAssocQty. rewrite Hcap.
    replace (8 * nb / 8) with nb by (rewrite Z.mul_comm, Z.div_mul; lia). lia.
  - apply Z.mod_pos_bound. lia.
Qed.

Lemma NodeType_eqb_eq (a b : NodeType) : NodeType_eqb a b = true <-> a = b.
Proof. destruct a, b; simpl; split; congruence. Qed.


(** ** Well-formed tables: every probe terminates *)

Lemma in_zseq (x c : Z) (n : nat) : In x (zseq c n) <-> c <= x < c + Z.of_nat n.
Proof.
  revert c; induction n as [|n IH]; intros c; cbn [zseq In].
  - lia.
  - rewrite IH. lia.
Qed.

Lemma bytes_eqb_eq (a b : list ascii) : bytes_eqb a b = true <-> a = b.
Proof.
  revert b; induction a as [|x a IH]; intros [|y b]; simpl; split; try congruence; auto.
  - intros H. apply andb_true_iff in H. destruct H as [H1 H2].
    apply Ascii.eqb_eq in H1. apply IH in H2. congruence.
  - intros [= -> ->]. rewrite Ascii.eqb_refl. apply IH. reflexivity.
Qed.

Lemma tableOk_spec (ctx : Context) :
  tableOk ctx = true ->
  exists k e,
    3 <= k <= 31 /\ _maxEntryQty ctx = 2 ^ k /\ len (_entries ctx) = 2 ^ k
    /\ 0 <= e < 2 ^ k /\ hash (cellAt (_entries ctx) e) = Empty
    /\ (forall s, 0 <= hash (cellAt (_entries ctx) s) /\ 0 <= childIndex (cellAt (_entries ctx) s)).
Proof.
  unfold tableOk. rewrite !andb_true_iff. intros [[[Hk Hlen] He] Hu].
  apply existsb_exists in Hk. destruct Hk as (k & Hk & Hcap).
  apply in_zseq in Hk. apply Z.eqb_eq in Hcap, Hlen.
  apply existsb_exists in He. destruct He as (x & Hx & Hh). apply Z.eqb_eq in Hh.
  destruct (In_nth _ _ emptyEntry Hx) as (n & Hn & Hnth).
  exists k, (Z.of_nat n). unfold cellAt, len in *. rewrite Nat2Z.id, Hnth.
  repeat split; try lia.
  - destruct (Nat.lt_ge_cases (Z.to_nat s) (List.length (_entries ctx))) as [Hs|Hs].
    + rewrite forallb_forall in Hu.
      specialize (Hu _ (nth_In _ emptyEntry Hs)). apply andb_true_iff in Hu. lia.
    + rewrite nth_overflow by assumption. simpl. lia.
  - destruct (Nat.lt_ge_cases (Z.to_nat s) (List.length (_entries ctx))) as [Hs|Hs].
    + rewrite forallb_forall in Hu.
      specialize (Hu _ (nth_In _ emptyEntry Hs)). apply andb_true_iff in Hu. lia.
    + rewrite nth_overflow by assumption. simpl. lia.
Qed.

(** On a well-formed table the probing loop ends, whatever the hash. *)
Lemma probe_terminates (ctx : Context) (minHash h : Z) (isMatch : Entry -> bool) :
  tableOk ctx = true -> Empty < minHash ->
  exists r,
    probe (probeFuel (_maxEntryQty ctx)) minHash isMatch (_entries ctx)
      (lineMask (_maxEntryQty ctx)) (Z.land h (lineMask (_maxEntryQty ctx))) 1 = Ret r.
Proof.
  intros Hok Hmin.
  destruct (tableOk_spec ctx Hok) as (k & e & Hk & Hcap & Hlen & He & Hempty & _).
  rewrite probe_search, Hcap.
  apply (search_terminates _ _ _ _ e).
  - apply probe_covers; assumption.
  - lia.
Qed.

(** ** A hit of the index designates a key child of that name *)

Lemma cellMatches_spec (ctx : Context) (parentElt : Element) (key : list ascii)
    (keySize keyHash : Z) (e : Entry) :
  cellMatches ctx parentElt key keySize keyHash e = true ->
  hash e = keyHash /\ childIndex e < getSubQty parentElt
  /\ getType (eltAt ctx (getSub (childIndex e) parentElt)) = KEY
  /\ getStringSize (eltAt ctx (getSub (childIndex e) parentElt)) = u32 (keySize + 1)
  /\ strncmpEq (Z.to_nat keySize)
       (getString ctx (getStringIdx (eltAt ctx (getSub (childIndex e) parentElt))))
       (at_ key) 0 = true.
Proof.
  unfold cellMatches.
  destruct (negb (hash e =? keyHash) || (getSubQty parentElt <=? childIndex e)) eqn:Hg;
    [discriminate|].
  apply orb_false_iff in Hg. destruct Hg as [Hh Hc].
  apply negb_false_iff, Z.eqb_eq in Hh. apply Z.leb_gt in Hc.
  rewrite !andb_true_iff. intros [[Ht Hs] Hcmp].
  apply NodeType_eqb_eq in Ht. apply Z.eqb_eq in Hs. auto.
Qed.

Lemma at_nth (text : list ascii) (i : nat) : at_ text (Z.of_nat i) = nth i text NUL.
Proof.
  unfold at_. destruct (Z.ltb_spec (Z.of_nat i) 0); [lia|]. rewrite Nat2Z.id. reflexivity.
Qed.

Lemma at_not_NUL (text : list ascii) (i : Z) :
  at_ text i <> NUL -> 0 <= i < len text.
Proof.
  unfold at_, len. destruct (Z.ltb_spec i 0) as [Hneg|Hpos]; [congruence|].
  intros Hn. split; [assumption|].
  destruct (Nat.lt_ge_cases (Z.to_nat i) (List.length text)) as [Hlt|Hge]; [lia|].
  rewrite nth_overflow in Hn by assumption. congruence.
Qed.

(** [strncmp] agrees with the comparison of the bytes when the key holds no
    NUL character. *)
Lemma strncmpEq_bytes (n : nat) (s1 s2 : Z -> ascii) (i : Z) :
  strncmpEq n s1 s2 i = true ->
  (forall j, i <= j < i + Z.of_nat n -> s2 j <> NUL) ->
  forall j, i <= j < i + Z.of_nat n -> s1 j = s2 j.
Proof.
  revert i; induction n as [|n IH]; intros i Hcmp Hnn j Hj; [lia|].
  cbn [strncmpEq] in Hcmp.
  destruct (Ascii.eqb (s1 i) (s2 i)) eqn:Heq; [|discriminate].
  apply Ascii.eqb_eq in Heq.
  destruct (Ascii.eqb (s1 i) NUL) eqn:Hnul.
  - apply Ascii.eqb_eq in Hnul. exfalso. apply (Hnn i); [lia|congruence].
  - destruct (Z.eq_dec j i) as [->|Hne]; [assumption|].
    apply (IH (i + 1)); [assumption| |lia].
    intros j' Hj'. apply Hnn. lia.
Qed.

Lemma slice_eq_of_at (buf key : list ascii) (idx : Z) :
  key <> [] ->
  (forall j, 0 <= j < len key -> at_ buf (idx + j) = at_ key j) ->
  ~ In NUL key ->
  slice buf idx (len key) = key.
Proof.
  intros Hne Hat Hnn.
  assert (Hkey : forall j, 0 <= j < len key -> at_ key j <> NUL).
  { intros j Hj Heq. apply Hnn. rewrite <- Heq. unfold at_.
    destruct (Z.ltb_spec j 0); [lia|]. apply nth_In. unfold len in Hj. lia. }
  assert (Hlen : 0 < len key) by (destruct key; [congruence|unfold len; simpl; lia]).
  assert (Hidx : 0 <= idx).
  { assert (H0 : at_ buf (idx + 0) <> NUL) by (rewrite Hat by lia; apply Hkey; lia).
    apply at_not_NUL in H0. lia. }
  assert (Hend : idx + len key <= len buf).
  { assert (H0 : at_ buf (idx + (len key - 1)) <> NUL) by (rewrite Hat by lia; apply Hkey; lia).
    apply at_not_NUL in H0. lia. }
  unfold slice, len in *.
  apply (nth_ext _ _ NUL NUL).
  - rewrite length_firstn, length_skipn. lia.
  - intros n Hn. rewrite length_firstn, length_skipn in Hn.
    rewrite nth_firstn. destruct (Nat.ltb_spec n (Z.to_nat (Z.of_nat (List.length key)))); [|lia].
    rewrite nth_skipn.
    specialize (Hat (Z.of_nat n) ltac:(lia)).
    rewrite at_nth in Hat. rewrite <- Hat. unfold at_.
    destruct (Z.ltb_spec (idx + Z.of_nat n) 0); [lia|].
    f_equal. lia.
Qed.

(** A matching cell designates a key child whose name is [key]. *)
Lemma cellMatches_hasKeyChild (ctx : Context) (parentElt : Element) (key : list ascii)
    (keyHash : Z) (e : Entry) :
  ~ In NUL key -> len key < 2 ^ 31 -> 0 <= childIndex e ->
  cellMatches ctx parentElt key (len key) keyHash e = true ->
  hasKeyChild ctx parentElt key = true.
Proof.
  intros Hnn Hlen Hci Hm.
  apply cellMatches_spec in Hm. destruct Hm as (_ & Hlt & Ht & Hs & Hcmp).
  unfold hasKeyChild. apply existsb_exists. exists (childIndex e). split.
  - apply in_zseq. lia.
  - unfold childNamed. rewrite Ht. simpl. apply bytes_eqb_eq.
    unfold nameOf. rewrite Hs.
    assert (Hu : u32 (u32 (len key + 1) - 1) = len key).
    { unfold u32. change (2 ^ 32) with 4294967296. change (2 ^ 31) with 2147483648 in Hlen.
      unfold len in *. rewrite (Z.mod_small (_ + 1)) by lia. rewrite Z.mod_small; lia. }
    rewrite Hu.
    destruct key as [|c key]; [reflexivity|].
    apply slice_eq_of_at; [discriminate| |assumption].
    intros j Hj.
    apply (strncmpEq_bytes _ _ _ 0 Hcmp).
    + intros j' Hj' Heq. apply Hnn. rewrite <- Heq. unfold at_.
      destruct (Z.ltb_spec j' 0); [lia|]. apply nth_In. unfold len in *. lia.
    + unfold len in *. lia.
Qed.

(** ** Removing and indexing a key that is absent *)

Lemma find_absent (ctx : Context) (parentEltIdx : Z) (parentElt : Element) (key : list ascii) :
  tableOk ctx = true -> ~ In NUL key -> len key < 2 ^ 31 ->
  hasKeyChild ctx parentElt key = false ->
  exists slot,
    probe (probeFuel (_maxEntryQty ctx)) Tombstone
      (cellMatches ctx parentElt key (len key) (keyHashOf parentEltIdx key (len key)))
      (_entries ctx) (lineMask (_maxEntryQty ctx))
      (Z.land (keyHashOf parentEltIdx key (len key)) (lineMask (_maxEntryQty ctx))) 1
    = Ret (Free slot).
Proof.
  intros Hok Hnn Hlen Habs.
  destruct (probe_terminates ctx Tombstone (keyHashOf parentEltIdx key (len key))
              (cellMatches ctx parentElt key (len key) (keyHashOf parentEltIdx key (len key)))
              Hok) as [r Hr]; [reflexivity|].
  rewrite Hr. destruct r as [slot|slot]; [|eauto].
  exfalso. rewrite probe_search in Hr.
  apply search_result in Hr. destruct Hr as (pre & post & s & _ & _ & [(Heq & _ & Hm)|(Heq & _)]);
    [|discriminate].
  destruct (tableOk_spec ctx Hok) as (_ & _ & _ & _ & _ & _ & _ & Hu).
  apply cellMatches_hasKeyChild in Hm; [congruence|assumption|assumption|apply Hu].
Qed.




(** C8 (as amended): for every node of type MAP that is not itself a
    pending-key handle, and every non-empty key without NUL character that
    is not the name of a key child of the map, indexing by the key returns
    the pending-key handle (the same element, the key remembered); the
    handle is false as a boolean, [as<T>()] raises an access error on it
    and [as<T>(default)] returns the default. *)
Theorem index_absent_key (T : Type) (decode : list ascii -> outcome T) (typeName : string)
    (ctx : Context) (n : Node) (key : list ascii) (defaultValue : T) :
  tableOk ctx = true ->
  getType (eltAt ctx (_eltIdx n)) = MAP ->
  _nonExistingKey n = [] ->
  key <> [] -> ~ In NUL key -> len key < 2 ^ 31 ->
  hasKeyChild ctx (eltAt ctx (_eltIdx n)) key = false ->
  at_key ctx n key = Ret (mkNode (_eltIdx n) key)
  /\ Node_bool ctx (mkNode (_eltIdx n) key) = false
  /\ (exists message,
        as_ T decode typeName ctx (mkNode (_eltIdx n) key) = Throw (AccessException message))
  /\ as_default T decode ctx (mkNode (_eltIdx n) key) defaultValue = Ret defaultValue.
Proof.
  intros Hok Hmap Hpend Hne Hnn Hlen Habs.
  assert (Hnil : isNil key = false) by (destruct key; [congruence|reflexivity]).
  repeat split.
  - unfold at_key. rewrite Hmap, Hpend, Hnil. cbn [NodeType_eqb negb isNil].
    unfold getMapChildIndex.
    destruct (find_absent ctx (_eltIdx n) _ key Hok Hnn Hlen Habs) as [slot ->].
    reflexivity.
  - unfold Node_bool. cbn [_eltIdx _nonExistingKey]. rewrite Hmap, Hnil.
    apply andb_false_r.
  - unfold as_. cbn [_eltIdx _nonExistingKey]. rewrite Hmap, Hnil.
    cbn [NodeType_eqb negb andb]. unfold throwMessage. eauto.
  - unfold as_default. cbn [_eltIdx _nonExistingKey]. rewrite Hmap, Hnil. reflexivity.
Qed.

Lemma index_absent_key_witness :
  exists ctx n,
    buildMap [chars "a"] = Ret (ctx, n)
    /\ at_key ctx n (chars "b") = Ret (mkNode (_eltIdx n) (chars "b"))
    /\ Node_bool ctx (mkNode (_eltIdx n) (chars "b")) = false
    /\ (exists message,
          as_ (list ascii) decodeString "Ss" ctx (mkNode (_eltIdx n) (chars "b"))
          = Throw (AccessException message))
    /\ as_default (list ascii) decodeString ctx (mkNode (_eltIdx n) (chars "b")) (chars "none")
       = Ret (chars "none").
Proof.
  eexists _, _. split; [vm_compute; reflexivity|].
  apply index_absent_key.
  - vm_compute; reflexivity.
  - vm_compute; reflexivity.
  - reflexivity.
  - discriminate.
  - simpl. intros [H|[]]. discriminate H.
  - vm_compute; reflexivity.
  - vm_compute; reflexivity.
Defined.

(** C8 (counterexample): indexing a map by a key that is not present does
    fail when the key is empty or when the node is itself a pending-key
    handle; and with a key that holds a NUL character the node of another
    key can be returned instead of a pending-key handle. *)
Lemma index_absent_key_counterexample :
  exists ctx n,
    buildMap [nulKey1] = Ret (ctx, n)
    /\ getType (eltAt ctx (_eltIdx n)) = MAP
    /\ hasKeyChild ctx (eltAt ctx (_eltIdx n)) [] = false
    /\ at_key ctx n []
       = Throw (AccessException "Access error: empty key is not allowed to access a MAP element")
    /\ at_key ctx n (chars "x") = Ret (mkNode (_eltIdx n) (chars "x"))
    /\ at_key ctx (mkNode (_eltIdx n) (chars "x")) (chars "y")
       = Throw (AccessException "Access error: 'x' is a non-existent key in this MAP elements'")
    /\ hasKeyChild ctx (eltAt ctx (_eltIdx n)) nulKey2 = false
    /\ at_key ctx n nulKey2 = Ret (Node_of 1).
Proof.
  eexists _, _. split; [vm_compute; reflexivity|].
  repeat split; vm_compute; reflexivity.
Qed.

(** ** The load factor *)

(** C9 (as amended): the table starts with 16 cells, and a call to
    [addMapChildIndex] that returns leaves a table of twice the capacity
    exactly when it inserted an entry and the count of inserted entries
    [_entryQty], once incremented, exceeds 115/128 of the capacity
    ([_maxLoad128th] is [(uint64_t)(0.90 * 128)], that is 115); otherwise the
    capacity is unchanged. *)
Theorem resize_rule (parentEltIdx keySize childIndex_ : Z) (key : list ascii)
    (parentElt : Element) (ctx ctx' : Context) (inserted : bool) :
  addMapChildIndex parentEltIdx key keySize parentElt childIndex_ ctx = Ret (inserted, ctx') ->
  resizeRule ctx ctx' inserted.
Proof.
  intros H. unfold resizeRule.
  split; [eexists; split; [vm_compute; reflexivity|split; reflexivity]|].
  split; [reflexivity|].
  unfold addMapChildIndex in H.
  destruct (probe _ _ _ _ _ _ _) as [[slot|slot]| |]; cbn [bind] in H; try discriminate.
  - injection H as <- <-. split; reflexivity.
  - unfold addNewEntry in H. cbn [_maxEntryQty _entryQty] in H. change _maxLoad128th with 115 in H.
    destruct (115 * _maxEntryQty ctx <? 128 * u32 (_entryQty ctx + 1)) eqn:Hload.
    + unfold resize in H. cbn [_maxEntryQty _entryQty _entries elements arena sessionStartIdx] in H.
      destruct (resize_transfer _ _ _ _) as [es| |]; cbn [bind] in H; try discriminate.
      injection H as <- <-. cbn [_maxEntryQty _entryQty]. rewrite Hload. split; reflexivity.
    + injection H as <- <-. cbn [_maxEntryQty _entryQty]. rewrite Hload. split; reflexivity.
Qed.

Lemma resize_rule_witness :
  addMapChildIndex 0 (chars "b") 1 (eltAt ctxOneKey 0) 1 ctxOneKey = Ret (true, ctxTwoKeys)
  /\ resizeRule ctxOneKey ctxTwoKeys true.
Proof.
  split; [vm_compute; reflexivity|].
  apply (resize_rule 0 1 1 (chars "b") (eltAt ctxOneKey 0)).
  vm_compute; reflexivity.
Defined.

(** C9 (counterexample): with the threshold of 90/128 the twelfth
    insertion in a table of 16 cells would double it (128 * 12 exceeds
    90 * 16); the table still has 16 cells after it. *)
Lemma resize_rule_counterexample :
  exists ctx n,
    buildMap twelveKeys = Ret (ctx, n)
    /\ _entryQty ctx = 12
    /\ (90 * 16 <? 128 * _entryQty ctx) = true
    /\ _maxEntryQty ctx = 16.
Proof.
  eexists _, _. split; [vm_compute; reflexivity|].
  repeat split; vm_compute; reflexivity.
Qed.

(** ** Tombstones in the probe sequences *)

Lemma keyHashOf_valid (parentEltIdx keySize : Z) (key : list ascii) :
  0 <= parentEltIdx -> FirstValid <= keyHashOf parentEltIdx key keySize.
Proof.
  intros Hp. unfold keyHashOf, FirstValid.
  assert (Hx : 0 <= Z.lxor parentEltIdx (u32 (wyhash key keySize))).
  { apply Z.lxor_nonneg. unfold u32.
    pose proof (Z.mod_pos_bound (wyhash key keySize) (2 ^ 32) ltac:(lia)) as Hb.
    split; intros _; [apply Hb|exact Hp]. }
  destruct (Z.ltb_spec (Z.lxor parentEltIdx (u32 (wyhash key keySize))) 2) as [Hlt|Hge]; [|lia].
  unfold u32 in *. change (2 ^ 32) with 4294967296 in *. rewrite Z.mod_small; lia.
Qed.

Lemma tombstone_no_match (ctx : Context) (parentEltIdx keySize : Z) (key : list ascii)
    (parentElt : Element) (s : Z) :
  0 <= parentEltIdx -> isTombstone ctx s = true ->
  matchesKey ctx parentEltIdx parentElt key keySize s = false.
Proof.
  intros Hp Ht. unfold isTombstone in Ht. apply Z.eqb_eq in Ht.
  unfold matchesKey, cellMatches.
  pose proof (keyHashOf_valid parentEltIdx keySize key Hp) as Hv.
  destruct (Z.eqb_spec (hash (entryAt ctx s)) (keyHashOf parentEltIdx key keySize)) as [He|Hne].
  - unfold Tombstone, FirstValid in *. lia.
  - reflexivity.
Qed.

Lemma existsb_false_In {A : Type} (f : A -> bool) (l : list A) (x : A) :
  existsb f l = false -> In x l -> f x = false.
Proof.
  intros H Hin. destruct (f x) eqn:Hf; [|reflexivity].
  assert (existsb f l = true) by (apply existsb_exists; eauto). congruence.
Qed.

Section TombstoneProbing.
Variables (ctx : Context) (parentEltIdx keySize : Z) (key : list ascii) (parentElt : Element).
Hypothesis parent_unsigned : 0 <= parentEltIdx.

Let keyHash : Z := keyHashOf parentEltIdx key keySize.
Let isMatch : Entry -> bool := cellMatches ctx parentElt key keySize keyHash.

(** Cells that do not stop a search with the lower bound [Tombstone]. *)
Lemma search_skips_tombstones (pre rest : list Z) :
  (forall x, In x pre ->
     isTombstone ctx x = true
     \/ (isLive ctx x = true /\ matchesKey ctx parentEltIdx parentElt key keySize x = false)) ->
  search Tombstone isMatch (_entries ctx) (pre ++ rest)
  = search Tombstone isMatch (_entries ctx) rest.
Proof.
  intros Hpre. apply search_app_skip. intros x Hx.
  change (cellAt (_entries ctx) x) with (entryAt ctx x).
  destruct (Hpre x Hx) as [Ht|[Hl Hm]].
  - split.
    + unfold isTombstone in Ht. apply Z.eqb_eq in Ht. rewrite Ht. reflexivity.
    + apply (tombstone_no_match ctx parentEltIdx keySize key parentElt x parent_unsigned Ht).
  - split; [|exact Hm].
    unfold isLive in Hl. apply Z.leb_le in Hl. unfold Tombstone, FirstValid in *. lia.
Qed.

(** Cells that do not stop a search with the lower bound [FirstValid]. *)
Lemma search_skips_live (pre rest : list Z) :
  (forall x, In x pre ->
     isTombstone ctx x = true
     \/ (isLive ctx x = true /\ matchesKey ctx parentEltIdx parentElt key keySize x = false)) ->
  existsb (isTombstone ctx) pre = false ->
  search FirstValid isMatch (_entries ctx) (pre ++ rest)
  = search FirstValid isMatch (_entries ctx) rest.
Proof.
  intros Hpre Hnt. apply search_app_skip. intros x Hx.
  change (cellAt (_entries ctx) x) with (entryAt ctx x).
  pose proof (existsb_false_In _ _ x Hnt Hx) as Hx'.
  destruct (Hpre x Hx) as [Ht|[Hl Hm]]; [congruence|].
  split; [|exact Hm]. unfold isLive in Hl. apply Z.leb_le in Hl. exact Hl.
Qed.

Lemma search_stops_below (minHash : Z) (s : Z) (rest : list Z) :
  hash (entryAt ctx s) < minHash ->
  search minHash isMatch (_entries ctx) (s :: rest) = Ret (Free s).
Proof.
  intros H. cbn [search]. change (nth (Z.to_nat s) (_entries ctx) emptyEntry) with (entryAt ctx s).
  destruct (Z.leb_spec minHash (hash (entryAt ctx s))); [lia|reflexivity].
Qed.

Lemma search_hits (minHash : Z) (s : Z) (rest : list Z) :
  minHash <= hash (entryAt ctx s) -> isMatch (entryAt ctx s) = true ->
  search minHash isMatch (_entries ctx) (s :: rest) = Ret (Hit s).
Proof.
  intros H Hm. cbn [search]. change (nth (Z.to_nat s) (_entries ctx) emptyEntry) with (entryAt ctx s).
  destruct (Z.leb_spec minHash (hash (entryAt ctx s))); [|lia]. rewrite Hm. reflexivity.
Qed.

End TombstoneProbing.

(** C3 (as amended): let the probe sequence of a key be [pre ++ s :: post],
    where every cell of [pre] is a tombstone or a live entry of another
    key. The lookup ([getMapChildIndex]) and the removal
    ([removeMapChildIndex]) traverse the tombstones of [pre] as occupied
    cells that do not match: they end on [s], with "not found" when [s] is
    empty, and with the entry of [s] when it is live and matches (the
    removal turns it into a tombstone). The insertion ([addMapChildIndex])
    does not traverse tombstones: it replaces the matching live entry of
    [s] (and returns [false]) only when [pre] has no tombstone, and
    otherwise writes a new entry in the first tombstone of the sequence
    (or in [s] when it is empty and no tombstone comes before it), which
    counts as an insertion. *)
Theorem tombstone_probing (ctx : Context) (parentEltIdx keySize childIndex_ : Z)
    (key : list ascii) (parentElt : Element) (pre post : list Z) (s : Z) :
  0 <= parentEltIdx ->
  probePath ctx (keyHashOf parentEltIdx key keySize) = pre ++ s :: post ->
  (forall x, In x pre ->
     isTombstone ctx x = true
     \/ (isLive ctx x = true /\ matchesKey ctx parentEltIdx parentElt key keySize x = false)) ->
  (isEmptyCell ctx s = true ->
     getMapChildIndex parentEltIdx key keySize parentElt ctx = Ret UINT_MAX
     /\ removeMapChildIndex parentEltIdx key keySize parentElt ctx = Ret (UINT_MAX, ctx))
  /\ (isLive ctx s = true -> matchesKey ctx parentEltIdx parentElt key keySize s = true ->
      getMapChildIndex parentEltIdx key keySize parentElt ctx = Ret (childIndex (entryAt ctx s))
      /\ removeMapChildIndex parentEltIdx key keySize parentElt ctx
         = Ret (childIndex (entryAt ctx s), putEntry s (mkEntry Tombstone UINT_MAX) ctx)
      /\ (existsb (isTombstone ctx) pre = false ->
          addMapChildIndex parentEltIdx key keySize parentElt childIndex_ ctx
          = Ret (false, putEntry s (mkEntry (hash (entryAt ctx s)) childIndex_) ctx)))
  /\ (existsb (isTombstone ctx) pre = false -> isEmptyCell ctx s = true ->
      addMapChildIndex parentEltIdx key keySize parentElt childIndex_ ctx
      = addNewEntry s (keyHashOf parentEltIdx key keySize) childIndex_ ctx)
  /\ (forall pre1 t pre2,
        pre = pre1 ++ t :: pre2 ->
        existsb (isTombstone ctx) pre1 = false -> isTombstone ctx t = true ->
        addMapChildIndex parentEltIdx key keySize parentElt childIndex_ ctx
        = addNewEntry t (keyHashOf parentEltIdx key keySize) childIndex_ ctx).
Proof.
  intros Hp Hpath Hpre.
  unfold probePath in Hpath.
  assert (Hfind : forall r,
            search Tombstone (cellMatches ctx parentElt key keySize
                                (keyHashOf parentEltIdx key keySize)) (_entries ctx) (s :: post)
            = Ret r ->
            probe (probeFuel (_maxEntryQty ctx)) Tombstone
              (cellMatches ctx parentElt key keySize (keyHashOf parentEltIdx key keySize))
              (_entries ctx) (lineMask (_maxEntryQty ctx))
              (Z.land (keyHashOf parentEltIdx key keySize) (lineMask (_maxEntryQty ctx))) 1
            = Ret r).
  { intros r Hr. rewrite probe_search, Hpath.
    rewrite (search_skips_tombstones ctx parentEltIdx keySize key parentElt Hp pre (s :: post) Hpre).
    exact Hr. }
  assert (Hadd : forall slots rest r,
            pre ++ s :: post = slots ++ rest ->
            (forall x, In x slots -> In x pre) ->
            existsb (isTombstone ctx) slots = false ->
            search FirstValid (cellMatches ctx parentElt key keySize
                                 (keyHashOf parentEltIdx key keySize)) (_entries ctx) rest
            = Ret r ->
            probe (probeFuel (_maxEntryQty ctx)) FirstValid
              (cellMatches ctx parentElt key keySize (keyHashOf parentEltIdx key keySize))
              (_entries ctx) (lineMask (_maxEntryQty ctx))
              (Z.land (keyHashOf parentEltIdx key keySize) (lineMask (_maxEntryQty ctx))) 1
            = Ret r).
  { intros slots rest r Heq Hincl Hnt Hr. rewrite probe_search, Hpath, Heq.
    rewrite (search_skips_live ctx parentEltIdx keySize key parentElt slots rest); auto. }
  split; [|split; [|split]].
  - intros He. unfold isEmptyCell in He. apply Z.eqb_eq in He.
    unfold getMapChildIndex, removeMapChildIndex.
    rewrite (Hfind (Free s)); [split; reflexivity|].
    apply search_stops_below. rewrite He. reflexivity.
  - intros Hl Hm. unfold isLive in Hl. apply Z.leb_le in Hl.
    unfold getMapChildIndex, removeMapChildIndex.
    rewrite (Hfind (Hit s)).
    + split; [reflexivity|]. split; [reflexivity|].
      intros Hnt. unfold addMapChildIndex.
      rewrite (Hadd pre (s :: post) (Hit s)); auto.
      apply search_hits; assumption.
    + apply search_hits; [|exact Hm]. unfold Tombstone, FirstValid in *. lia.
  - intros Hnt He. unfold isEmptyCell in He. apply Z.eqb_eq in He.
    unfold addMapChildIndex.
    rewrite (Hadd pre (s :: post) (Free s)); auto.
    apply search_stops_below. rewrite He. reflexivity.
  - intros pre1 t pre2 Heq Hnt Ht. unfold isTombstone in Ht. apply Z.eqb_eq in Ht.
    unfold addMapChildIndex.
    rewrite (Hadd pre1 (t :: pre2 ++ s :: post) (Free t)); auto.
    + rewrite Heq, <- app_assoc. reflexivity.
    + intros x Hx. rewrite Heq. apply in_or_app. left. exact Hx.
    + apply search_stops_below. rewrite Ht. reflexivity.
Qed.

Lemma tombstone_probing_witness :
  probePath ctxTombstone (keyHashOf 0 (chars "b") 1)
  = [8] ++ 9 :: [10; 11; 12; 13; 14; 15; 0; 1; 2; 3; 4; 5; 6; 7]
  /\ isTombstone ctxTombstone 8 = true
  /\ getMapChildIndex 0 (chars "b") 1 (eltAt ctxTombstone 0) ctxTombstone = Ret 1
  /\ addMapChildIndex 0 (chars "b") 1 (eltAt ctxTombstone 0) 5 ctxTombstone
     = addNewEntry 8 (keyHashOf 0 (chars "b") 1) 5 ctxTombstone.
Proof.
  assert (H0 : 0 <= 0) by lia.
  assert (Hpath : probePath ctxTombstone (keyHashOf 0 (chars "b") 1)
                  = [8] ++ 9 :: [10; 11; 12; 13; 14; 15; 0; 1; 2; 3; 4; 5; 6; 7])
    by (vm_compute; reflexivity).
  assert (Hpre : forall x, In x [8] ->
            isTombstone ctxTombstone x = true
            \/ (isLive ctxTombstone x = true
                /\ matchesKey ctxTombstone 0 (eltAt ctxTombstone 0) (chars "b") 1 x = false)).
  { intros x [<-|[]]. left. vm_compute; reflexivity. }
  destruct (tombstone_probing ctxTombstone 0 1 5 (chars "b") (eltAt ctxTombstone 0)
              [8] [10; 11; 12; 13; 14; 15; 0; 1; 2; 3; 4; 5; 6; 7] 9 H0 Hpath Hpre)
    as (_ & Hlive & _ & Hins).
  split; [exact Hpath|]. split; [vm_compute; reflexivity|].
  split.
  - destruct Hlive as (Hfind & _); [vm_compute; reflexivity|vm_compute; reflexivity|].
    exact Hfind.
  - apply (Hins [] 8 []); vm_compute; reflexivity.
Defined.

(** C3 (counterexample): in the index of a map with the keys [a] and [b]
    from which the entry of [a] has been removed, the cell 8 is a tombstone
    and the live entry of [b] is in the cell 9, behind it in the probe
    sequence of [b]. The lookup of [b] traverses the tombstone and finds
    the child 1, but [addMapChildIndex] for [b] stops on the tombstone: it
    returns [true] (an insertion) and leaves two entries for [b], in the
    cells 8 and 9. *)
Lemma tombstone_probing_counterexample :
  exists ctx',
    isTombstone ctxTombstone 8 = true
    /\ isLive ctxTombstone 9 = true
    /\ matchesKey ctxTombstone 0 (eltAt ctxTombstone 0) (chars "b") 1 9 = true
    /\ getMapChildIndex 0 (chars "b") 1 (eltAt ctxTombstone 0) ctxTombstone = Ret 1
    /\ addMapChildIndex 0 (chars "b") 1 (eltAt ctxTombstone 0) 1 ctxTombstone = Ret (true, ctx')
    /\ entryAt ctx' 8 = mkEntry (keyHashOf 0 (chars "b") 1) 1
    /\ entryAt ctx' 9 = mkEntry (keyHashOf 0 (chars "b") 1) 1.
Proof.
  eexists. repeat (split; [vm_compute; reflexivity|]). vm_compute; reflexivity.
Qed.

(** ** The parse-emit loop and the removal of a key, on two documents *)

(** C1 (evaluation of the code): the document [k: '- a'] parses to a map
    whose key [k] has the string [- a] for value. The emitter selects the
    plain style for it and writes [k: - a], which parses to a map whose key
    [k] holds a sequence: the second YAML emission differs from the first
    one, and so do the structural emissions of the two trees. *)
Theorem round_trip_quoted_caret :
  roundTrip quotedCaret
  = Ret ((quotedCaretY1, quotedCaretS1), (quotedCaretY2, quotedCaretS2))
  /\ quotedCaretY1 <> quotedCaretY2
  /\ quotedCaretS1 <> quotedCaretS2.
Proof.
  split; [vm_compute; reflexivity|].
  split; vm_compute; discriminate.
Qed.

(** C2 (evaluation of the code): in the document made of the keys [a] and
    [b] followed by the comment [#b], the comment is the last child of the
    map. [remove(a)] takes this last child for a key: it moves the comment
    to the position 0 and redirects the index entry of the name [b] to that
    position. Afterwards the child at the position 1 is the key [b], but the
    lookup of [b] in the index fails and [hasKey(b)] is [false]. *)
Theorem remove_before_comment :
  exists d ctx',
    parse mapWithComment = Ret d
    /\ hasKey (doc_context d) (doc_root d) (chars "b") = Ret true
    /\ remove (doc_context d) (doc_root d) (chars "a") = Ret (true, ctx')
    /\ getType (eltAt ctx' (_eltIdx (doc_root d))) = MAP
    /\ getSubQty (eltAt ctx' (_eltIdx (doc_root d))) = 2
    /\ getType (eltAt ctx' (getSub 0 (eltAt ctx' (_eltIdx (doc_root d))))) = COMMENT
    /\ childNamed ctx' (eltAt ctx' (_eltIdx (doc_root d))) (chars "b") 1 = true
    /\ getMapChildIndex (_eltIdx (doc_root d)) (chars "b") 1
         (eltAt ctx' (_eltIdx (doc_root d))) ctx' = Ret UINT_MAX
    /\ hasKey ctx' (doc_root d) (chars "b") = Ret false.
Proof.
  eexists _, _. repeat (split; [vm_compute; reflexivity|]). vm_compute; reflexivity.
Qed.

(** ** The selection of the style of a scalar *)

Lemma at_app_len (pre : list ascii) (c : ascii) (r : list ascii) :
  at_ (pre ++ c :: r) (len pre) = c.
Proof.
  unfold at_, len. destruct (Z.ltb_spec (Z.of_nat (List.length pre)) 0) as [H|H]; [lia|].
  rewrite Nat2Z.id. apply nth_middle.
Qed.

Lemma len_app {A : Type} (a b : list A) : len (a ++ b) = len a + len b.
Proof. unfold len. rewrite length_app. lia. Qed.

Lemma len_cons {A : Type} (x : A) (l : list A) : len (x :: l) = 1 + len l.
Proof. unfold len. cbn [List.length]. lia. Qed.

Lemma len_nonneg {A : Type} (l : list A) : 0 <= len l.
Proof. unfold len. lia. Qed.

Lemma lastOf_snoc (pre : list ascii) (c : ascii) : lastOf (pre ++ [c]) = Some c.
Proof. unfold lastOf. rewrite rev_app_distr. reflexivity. Qed.

Lemma prev_char_test (text : Z -> ascii) (pre suf : list ascii) :
  (forall i, 0 <= i < len (pre ++ suf) -> text i = at_ (pre ++ suf) i) ->
  ((len pre =? 0) || Ascii.eqb (text (len pre - 1)) SP)
  = match lastOf pre with None => true | Some p => Ascii.eqb p SP end.
Proof.
  intros Htext. destruct pre as [|p0 pre' _] using rev_ind; [reflexivity|].
  rewrite lastOf_snoc.
  assert (Hl : len (pre' ++ [p0]) - 1 = len pre').
  { rewrite len_app, len_cons. change (len (@nil ascii)) with 0. lia. }
  rewrite Hl.
  assert (Hnz : (len (pre' ++ [p0]) =? 0) = false).
  { apply Z.eqb_neq. pose proof (len_nonneg pre'). lia. }
  rewrite Hnz. cbn [orb].
  rewrite Htext.
  - rewrite <- !app_assoc. cbn [app]. rewrite at_app_len. reflexivity.
  - rewrite !len_app, !len_cons. change (len (@nil ascii)) with 0.
    pose proof (len_nonneg pre'). pose proof (len_nonneg suf). lia.
Qed.

Lemma analyzeLoop_scan (text : Z -> ascii) (suf : list ascii) :
  forall (pre : list ascii) (fuel : nat) (isPlain : bool) (newLineCount : Z),
    (List.length suf <= fuel)%nat ->
    (forall i, 0 <= i < len (pre ++ suf) -> text i = at_ (pre ++ suf) i) ->
    analyzeLoop fuel text (len (pre ++ suf)) (len pre) isPlain newLineCount
    = (isPlain && negb (colonScan suf) && negb (hashScan (lastOf pre) suf),
       newLineCount + countLF suf).
Proof.
  induction suf as [|c r IH]; intros pre fuel isPlain nl Hfuel Htext.
  - rewrite app_nil_r. cbn [colonScan hashScan countLF negb].
    rewrite !andb_true_r, Z.add_0_r.
    destruct fuel; cbn [analyzeLoop]; [reflexivity|].
    rewrite Z.ltb_irrefl. reflexivity.
  - destruct fuel as [|f]; [cbn in Hfuel; lia|].
    cbn [analyzeLoop].
    assert (Hlt : (len pre <? len (pre ++ c :: r)) = true).
    { apply Z.ltb_lt. rewrite len_app, len_cons. pose proof (len_nonneg r). lia. }
    rewrite Hlt.
    assert (Hc : text (len pre) = c).
    { rewrite Htext; [apply at_app_len|].
      apply Z.ltb_lt in Hlt. pose proof (len_nonneg pre). lia. }
    rewrite Hc.
    assert (Hstep : pre ++ c :: r = (pre ++ [c]) ++ r) by (rewrite <- app_assoc; reflexivity).
    assert (Hlen1 : len pre + 1 = len (pre ++ [c])) by (rewrite len_app, len_cons; reflexivity).
    pose proof (prev_char_test text pre (c :: r) Htext) as Hhash.
    rewrite Hlen1. rewrite Hstep in *.
    rewrite IH; [|cbn in Hfuel; lia|exact Htext].
    rewrite lastOf_snoc.
    (* the two tests made on the character [c] *)
    assert (Hcolon :
              (Ascii.eqb c ":"%char && (len (pre ++ [c]) <? len ((pre ++ [c]) ++ r))
               && (Ascii.eqb (text (len (pre ++ [c]))) SP || Ascii.eqb (text (len (pre ++ [c]))) CR
                   || Ascii.eqb (text (len (pre ++ [c]))) LF))
              = match r with
                | d :: _ => Ascii.eqb c ":"%char
                            && (Ascii.eqb d SP || Ascii.eqb d CR || Ascii.eqb d LF)
                | [] => false
                end).
    { destruct r as [|d r'].
      - rewrite app_nil_r, Z.ltb_irrefl, andb_false_r. reflexivity.
      - assert (Hlt2 : (len (pre ++ [c]) <? len ((pre ++ [c]) ++ d :: r')) = true).
        { apply Z.ltb_lt. rewrite (len_app (pre ++ [c])), len_cons.
          pose proof (len_nonneg r'). lia. }
        rewrite Hlt2, andb_true_r.
        rewrite Htext; [rewrite at_app_len; reflexivity|].
        apply Z.ltb_lt in Hlt2. pose proof (len_nonneg (pre ++ [c])). lia. }
    cbn [colonScan hashScan countLF].
    f_equal; [|destruct (Ascii.eqb c LF); lia].
    destruct isPlain; cbn [andb]; [|destruct r; reflexivity].
    rewrite Hcolon, Hhash.
    destruct r as [|d r'].
    + cbn [colonScan negb andb orb].
      destruct (Ascii.eqb c "#"%char &&
                match lastOf pre with Some p => Ascii.eqb p SP | None => true end);
        cbn [orb negb andb]; rewrite ?andb_false_r; reflexivity.
    + destruct (Ascii.eqb c ":"%char && (Ascii.eqb d SP || Ascii.eqb d CR || Ascii.eqb d LF));
        cbn [orb negb andb]; [reflexivity|].
      destruct (Ascii.eqb c "#"%char &&
                match lastOf pre with Some p => Ascii.eqb p SP | None => true end);
        cbn [orb negb andb]; rewrite ?andb_false_r; reflexivity.
Qed.
Lemma containsL_pair (a b : ascii) (s : list ascii) :
  containsL [a; b] s
  = match s with
    | c :: (d :: _) as r => (Ascii.eqb c a && Ascii.eqb d b) || containsL [a; b] r
    | _ => false
    end.
Proof.
  destruct s as [|c [|d r]]; cbn [containsL isPrefix].
  - reflexivity.
  - rewrite andb_false_r. reflexivity.
  - rewrite andb_true_r, (Ascii.eqb_sym a c), (Ascii.eqb_sym b d). reflexivity.
Qed.

Lemma colonScan_contains (s : list ascii) :
  colonScan s
  = containsL [":"%char; SP] s || containsL [":"%char; CR] s || containsL [":"%char; LF] s.
Proof.
  induction s as [|c r IH]; [reflexivity|].
  rewrite !(containsL_pair _ _ (c :: r)).
  destruct r as [|d r']; [reflexivity|].
  change (colonScan (c :: d :: r'))
    with ((Ascii.eqb c ":"%char && (Ascii.eqb d SP || Ascii.eqb d CR || Ascii.eqb d LF))
          || colonScan (d :: r')).
  rewrite IH.
  destruct (Ascii.eqb c ":"%char), (Ascii.eqb d SP), (Ascii.eqb d CR), (Ascii.eqb d LF),
    (containsL [":"%char; SP] (d :: r')), (containsL [":"%char; CR] (d :: r')),
    (containsL [":"%char; LF] (d :: r')); reflexivity.
Qed.

Lemma hashScan_contains (s : list ascii) :
  forall prev,
    hashScan prev s
    = (match prev with None => true | Some p => Ascii.eqb p SP end
       && startsWithAny ["#"%char] s)
      || match prev with
         | None => containsL [SP; "#"%char] s
         | Some p => containsL [SP; "#"%char] (p :: s)
         end.
Proof.
  induction s as [|c r IH]; intros prev.
  - destruct prev as [p|]; cbn; rewrite ?andb_false_r; reflexivity.
  - cbn [hashScan startsWithAny existsb]. rewrite IH, orb_false_r.
    rewrite (containsL_pair SP "#"%char (c :: r)).
    destruct prev as [p|].
    + rewrite (containsL_pair SP "#"%char (p :: c :: r)).
      rewrite (containsL_pair SP "#"%char (c :: r)).
      destruct r as [|d r'].
      * cbn [startsWithAny]. rewrite andb_false_r.
        destruct (Ascii.eqb p SP), (Ascii.eqb c "#"%char); reflexivity.
      * cbn [startsWithAny existsb]. rewrite orb_false_r.
        destruct (Ascii.eqb p SP), (Ascii.eqb c "#"%char), (Ascii.eqb c SP),
          (Ascii.eqb d "#"%char); reflexivity.
    + destruct r as [|d r'].
      * cbn [startsWithAny]. rewrite andb_false_r.
        destruct (Ascii.eqb c "#"%char); reflexivity.
      * cbn [startsWithAny existsb]. rewrite orb_false_r.
        destruct (Ascii.eqb c "#"%char), (Ascii.eqb c SP), (Ascii.eqb d "#"%char); reflexivity.
Qed.

Lemma countLF_nonneg (s : list ascii) : 0 <= countLF s.
Proof. induction s as [|c r IH]; cbn [countLF]; [lia|destruct (Ascii.eqb c LF); lia]. Qed.

Lemma countLF_zero (s : list ascii) : (countLF s =? 0) = negb (hasChar LF s).
Proof.
  induction s as [|c r IH]; [reflexivity|].
  cbn [countLF hasChar existsb]. pose proof (countLF_nonneg r) as Hn.
  rewrite (Ascii.eqb_sym LF c).
  destruct (Ascii.eqb c LF); cbn [orb negb].
  - apply Z.eqb_neq. lia.
  - rewrite Z.add_0_l. exact IH.
Qed.

Lemma containsL_second (a b : ascii) (s : list ascii) :
  hasChar b s = false -> containsL [a; b] s = false.
Proof.
  induction s as [|c r IH]; intros H; [reflexivity|].
  rewrite containsL_pair. destruct r as [|d r']; [reflexivity|].
  cbn [hasChar existsb] in H. apply orb_false_elim in H. destruct H as [_ H].
  rewrite (IH H). cbn [hasChar existsb] in H. apply orb_false_elim in H. destruct H as [Hd _].
  rewrite (Ascii.eqb_sym d b), Hd, andb_false_r. reflexivity.
Qed.

Lemma hasChar_false (c : ascii) (s : list ascii) : ~ In c s -> hasChar c s = false.
Proof.
  intros H. unfold hasChar. destruct (existsb (Ascii.eqb c) s) eqn:He; [|reflexivity].
  apply existsb_exists in He. destruct He as (x & Hx & Hcx).
  apply Ascii.eqb_eq in Hcx. subst x. contradiction.
Qed.
Lemma at_last (s : list ascii) (c : ascii) :
  at_ (s ++ [c]) (len (s ++ [c]) - 1) = c.
Proof.
  assert (H : len (s ++ [c]) - 1 = len s).
  { rewrite len_app, len_cons. change (len (@nil ascii)) with 0. lia. }
  rewrite H. apply at_app_len.
Qed.

Lemma endsWith_snoc (x c : ascii) (s : list ascii) : endsWith x (s ++ [c]) = Ascii.eqb c x.
Proof. unfold endsWith. rewrite rev_app_distr. reflexivity. Qed.

Lemma startsPlain_spec (c : ascii) (r : list ascii) :
  startsPlain c = negb (startsWithAny [SP; ">"%char; "|"%char; SQUOTE; DQUOTE] (c :: r)).
Proof.
  unfold startsPlain, startsWithAny. cbn [existsb].
  destruct (Ascii.eqb c SP), (Ascii.eqb c ">"%char), (Ascii.eqb c "|"%char),
    (Ascii.eqb c SQUOTE), (Ascii.eqb c DQUOTE); reflexivity.
Qed.

(** The style that the code selects, before any assumption on the
    characters of the string. *)
Lemma scalarStyle_scan (text : Z -> ascii) (s : list ascii) :
  s <> [] ->
  (forall i, 0 <= i < len s -> text i = at_ s i) ->
  scalarStyle text (len s)
  = if negb (startsWithAny [SP; ">"%char; "|"%char; SQUOTE; DQUOTE] s)
       && negb (endsWith SP s) && negb (colonScan s) && negb (hashScan None s)
       && negb (hasChar LF s)
    then Plain
    else if negb (hasChar LF s) then SingleQuoted else DoubleQuoted.
Proof.
  intros Hne Htext. unfold scalarStyle.
  assert (Hfuel : Z.to_nat (len s) = List.length s) by (unfold len; apply Nat2Z.id).
  rewrite Hfuel.
  pose proof (analyzeLoop_scan text s [] (List.length s)
                (startsPlain (text 0) && negb (Ascii.eqb (text (len s - 1)) SP)) 0
                (Nat.le_refl _) Htext) as Hloop.
  cbn [app] in Hloop. change (len (@nil ascii)) with 0 in Hloop. rewrite Hloop.
  change (lastOf []) with (@None ascii). rewrite Z.add_0_l.
  assert (Hfirst : startsPlain (text 0)
                   = negb (startsWithAny [SP; ">"%char; "|"%char; SQUOTE; DQUOTE] s)).
  { destruct s as [|c r]; [congruence|].
    rewrite Htext; [apply startsPlain_spec|].
    rewrite len_cons. pose proof (len_nonneg r). lia. }
  assert (Hlast : Ascii.eqb (text (len s - 1)) SP = endsWith SP s).
  { destruct s as [|c r _] using rev_ind; [congruence|].
    rewrite Htext, at_last, endsWith_snoc; [reflexivity|].
    rewrite len_app, len_cons. change (len (@nil ascii)) with 0.
    pose proof (len_nonneg r). lia. }
  rewrite Hfirst, Hlast.
  rewrite <- (countLF_zero s).
  destruct (negb (startsWithAny [SP; ">"%char; "|"%char; SQUOTE; DQUOTE] s)
            && negb (endsWith SP s) && negb (colonScan s) && negb (hashScan None s)) eqn:Hp;
    cbn [negb andb orb].
  - destruct (countLF s =? 0); reflexivity.
  - destruct (0 <? countLF s); destruct (countLF s =? 0); reflexivity.
Qed.

(** C5 (as amended): for a non-empty string without tab or carriage
    return that does not end with [':'], the emitter selects the plain
    style exactly when the string does not start with a space, ['>'],
    ['|'], a single or a double quote, does not end with a space, contains
    neither [": "] nor a [':'] at the end of a segment, contains no [" #"]
    and does not start with ['#'], and contains no tab, carriage return or
    newline; otherwise the single-quoted style when the string has no
    newline, and the double-quoted style when it has one. *)
Theorem scalar_style_selection (text : Z -> ascii) (s : list ascii) :
  s <> [] ->
  (forall i, 0 <= i < len s -> text i = at_ s i) ->
  ~ In TAB s -> ~ In CR s -> endsWith ":"%char s = false ->
  scalarStyle text (len s) = styleOf s.
Proof.
  intros Hne Htext Htab Hcr Hcolon.
  rewrite (scalarStyle_scan text s Hne Htext).
  unfold styleOf, plainBySpec, colonEndsSegment.
  rewrite colonScan_contains, (hashScan_contains s None).
  rewrite (hasChar_false TAB s Htab), (hasChar_false CR s Hcr), Hcolon.
  rewrite (containsL_second ":"%char CR s (hasChar_false CR s Hcr)).
  destruct (hasChar LF s) eqn:Hlf.
  - cbn [negb]. rewrite !andb_false_r. reflexivity.
  - rewrite (containsL_second ":"%char LF s Hlf).
    destruct (startsWithAny [SP; ">"%char; "|"%char; SQUOTE; DQUOTE] s), (endsWith SP s),
      (containsL [":"%char; SP] s), (containsL [SP; "#"%char] s),
      (startsWithAny ["#"%char] s); reflexivity.
Qed.

Lemma scalar_style_selection_witness :
  (chars "a #b" <> [] /\ ~ In TAB (chars "a #b") /\ ~ In CR (chars "a #b")
   /\ endsWith ":"%char (chars "a #b") = false)
  /\ scalarStyle (at_ (chars "a #b")) (len (chars "a #b")) = SingleQuoted.
Proof.
  assert (Hne : chars "a #b" <> []) by discriminate.
  assert (Htab : ~ In TAB (chars "a #b")).
  { intros H. apply (existsb_false_In (Ascii.eqb TAB) _ TAB) in H;
      [rewrite Ascii.eqb_refl in H; discriminate H|reflexivity]. }
  assert (Hcr : ~ In CR (chars "a #b")).
  { intros H. apply (existsb_false_In (Ascii.eqb CR) _ CR) in H;
      [rewrite Ascii.eqb_refl in H; discriminate H|reflexivity]. }
  assert (Hcolon : endsWith ":"%char (chars "a #b") = false) by reflexivity.
  split; [repeat split; assumption|].
  exact (scalar_style_selection (at_ (chars "a #b")) (chars "a #b") Hne
           (fun i _ => eq_refl) Htab Hcr Hcolon).
Defined.

(** C5 (counterexample): the string [#a] meets every condition that the
    specification lists for the plain style, and the emitter selects the
    single-quoted style for it. *)
Lemma scalar_style_selection_counterexample :
  plainBySpec (chars "#a") = true
  /\ styleBySpec (chars "#a") = Plain
  /\ scalarStyle (at_ (chars "#a")) (len (chars "#a")) = SingleQuoted.
Proof. repeat split; vm_compute; reflexivity. Qed.

(** ** Tab characters at the start of a line *)

(** C7 (evaluation of the code): the second line of [a: 'x<LF><TAB>y']
    starts with a tab character, and the document is parsed without error:
    the value of [a] is [x<SP><TAB>y]. The same scalar at the start of a
    document is rejected with the tabulation error. *)
Theorem tab_in_continuation_line :
  In TAB tabUnderKey
  /\ parsedStruct tabUnderKey
     = Ret (chars "{'a' : " ++ DQUOTE :: chars "x \ty" ++ DQUOTE :: chars "}" ++ [NUL])
  /\ exists message,
       parse tabAtRoot = Throw (ParseException message)
       /\ contains message tabMessage = true.
Proof.
  split; [cbn; tauto|].
  split; [vm_compute; reflexivity|].
  eexists. split; vm_compute; reflexivity.
Qed.

(** ** Scans *)

Lemma scanFwd_spec (stop : Z -> bool) (fuel : nat) :
  forall i,
    i <= scanFwd fuel stop i <= i + Z.of_nat fuel
    /\ (forall j, i <= j < scanFwd fuel stop i -> stop j = false)
    /\ (scanFwd fuel stop i < i + Z.of_nat fuel -> stop (scanFwd fuel stop i) = true).
Proof.
  induction fuel as [|f IH]; intros i; cbn [scanFwd].
  - split; [lia|]. split; intros; lia.
  - destruct (stop i) eqn:Hs.
    + split; [lia|]. split; [intros; lia|]. intros _. exact Hs.
    + destruct (IH (i + 1)) as (Hr & Hbefore & Hat).
      split; [lia|]. split.
      * intros j Hj. destruct (Z.eq_dec j i) as [->|Hne]; [exact Hs|].
        apply Hbefore. lia.
      * intros Hlt. apply Hat. lia.
Qed.

Lemma skipWhile_spec (text : list ascii) (endIdx : Z) (p : ascii -> bool) (i : Z) :
  i <= endIdx ->
  i <= skipWhile text endIdx p i <= endIdx
  /\ (forall j, i <= j < skipWhile text endIdx p i -> p (at_ text j) = true)
  /\ (skipWhile text endIdx p i < endIdx -> p (at_ text (skipWhile text endIdx p i)) = false).
Proof.
  intros Hi. unfold skipWhile.
  destruct (scanFwd_spec (fun j => (endIdx <=? j) || negb (p (at_ text j)))
              (Z.to_nat (endIdx - i)) i) as (Hr & Hbefore & Hat).
  rewrite Z2Nat.id in Hr, Hat by lia.
  split; [lia|]. split.
  - intros j Hj. specialize (Hbefore j Hj). apply orb_false_elim in Hbefore.
    destruct Hbefore as [_ Hp]. destruct (p (at_ text j)); [reflexivity|discriminate].
  - intros Hlt. specialize (Hat ltac:(lia)).
    apply orb_true_iff in Hat. destruct Hat as [Hge|Hp].
    + apply Z.leb_le in Hge. lia.
    + destruct (p (at_ text _)); [discriminate|reflexivity].
Qed.

Lemma In_slice (text : list ascii) (a n : Z) (c : ascii) :
  0 <= a -> In c (slice text a n) -> exists j, a <= j < a + n /\ c = at_ text j.
Proof.
  intros Ha Hin. unfold slice in Hin.
  destruct (In_nth _ _ NUL Hin) as (k & Hk & Hnth).
  rewrite length_firstn in Hk.
  rewrite nth_firstn in Hnth.
  destruct (Nat.ltb_spec k (Z.to_nat n)) as [Hkn|Hkn]; [|lia].
  rewrite nth_skipn in Hnth.
  exists (a + Z.of_nat k). split; [lia|].
  unfold at_. destruct (Z.ltb_spec (a + Z.of_nat k) 0) as [Hneg|_]; [lia|].
  rewrite <- Hnth. f_equal. lia.
Qed.

(** ** The lines held by the string helper *)







Lemma lined_empty (texts : list (list ascii)) (cur : list ascii) (sh : StringHelper) :
  lined texts cur sh -> empty sh = match texts with [] => true | _ => false end.
Proof.
  intros (_ & Hc & _). unfold empty. rewrite Hc. destruct texts; reflexivity.
Qed.

Lemma slice_middle (pre t post : list ascii) : slice (pre ++ t ++ post) (len pre) (len t) = t.
Proof.
  unfold slice, len. rewrite !Nat2Z.id.
  rewrite skipn_app, Nat.sub_diag, skipn_all. cbn [skipn app].
  rewrite firstn_app, Nat.sub_diag, firstn_all. cbn [firstn]. apply app_nil_r.
Qed.





(** ** Blank lines and [removeTrailingLines] *)

Lemma at_middle (pre t post : list ascii) (k : Z) :
  0 <= k < len t -> at_ (pre ++ t ++ post) (len pre + k) = nth (Z.to_nat k) t NUL.
Proof.
  intros Hk. unfold at_, len in *.
  destruct (Z.ltb_spec (Z.of_nat (List.length pre) + k) 0) as [Hneg|_]; [lia|].
  replace (Z.to_nat (Z.of_nat (List.length pre) + k)) with (List.length pre + Z.to_nat k)%nat by lia.
  rewrite app_nth2_plus. apply app_nth1. lia.
Qed.

Lemma isBlankText_nth (t : list ascii) :
  (forall k, 0 <= k < len t -> isBlankChar (nth (Z.to_nat k) t NUL) = true) ->
  isBlankText t = true.
Proof.
  intros H. apply forallb_forall. intros c Hc.
  destruct (In_nth _ _ NUL Hc) as (n & Hn & <-).
  specialize (H (Z.of_nat n)). rewrite Nat2Z.id in H. apply H. unfold len. lia.
Qed.


Lemma isBlankChunk_text (pre t post : list ascii) :
  len pre + len t <= UINT_MAX ->
  isBlankChunk (pre ++ t ++ post) (mkLineChunk (len pre) (len t)) = true ->
  isBlankText t = true.
Proof.
  intros Hbound Hb. unfold isBlankChunk, findFirstNotOf in Hb. cbn [startIdx size] in Hb.
  set (stop := fun j : Z => _) in Hb.
  destruct (scanFwd_spec stop (Z.to_nat (len pre + len t - len pre)) (len pre))
    as (Hr & Hbefore & _).
  pose proof (len_nonneg t) as Ht.
  rewrite Z2Nat.id in Hr by lia.
  set (r := scanFwd _ _ _) in *.
  destruct (Z.ltb_spec r (len pre + len t)) as [Hlt|Hge].
  - apply Z.eqb_eq in Hb. lia.
  - apply isBlankText_nth. intros k Hk.
    specialize (Hbefore (len pre + k) ltac:(lia)). unfold stop in Hbefore.
    apply orb_false_elim in Hbefore. destruct Hbefore as [_ Hc].
    rewrite at_middle in Hc by lia.
    unfold isBlankChar. destruct (existsb _ blankChars); [reflexivity|discriminate Hc].
Qed.



(** ** The lines of a block scalar *)

Lemma hasChar_In (c : ascii) (s : list ascii) : hasChar c s = true <-> In c s.
Proof.
  unfold hasChar. rewrite existsb_exists. split.
  - intros (x & Hx & He). apply Ascii.eqb_eq in He. subst x. exact Hx.
  - intros H. exists c. split; [exact H|apply Ascii.eqb_refl].
Qed.





Lemma eolSize_pos (text : list ascii) (endIdx i : Z) : 1 <= eolSize text endIdx i.
Proof. unfold eolSize. destruct (_ && _ && _); lia. Qed.


(** ** The string stored for a scalar *)

Lemma fold_addToSession (sh : StringHelper) (cs : list LineChunk) :
  forall ctx,
    arena (fold_left (fun c lc => addToSession (chunkText sh lc) c) cs ctx)
    = arena ctx ++ List.concat (map (chunkText sh) cs)
    /\ sessionStartIdx (fold_left (fun c lc => addToSession (chunkText sh lc) c) cs ctx)
       = sessionStartIdx ctx.
Proof.
  induction cs as [|lc r IH]; intros ctx; cbn [fold_left map List.concat].
  - rewrite app_nil_r. split; reflexivity.
  - destruct (IH (addToSession (chunkText sh lc) ctx)) as (Ha & Hs).
    rewrite Ha, Hs. cbn [addToSession setArena arena sessionStartIdx].
    rewrite <- app_assoc. split; reflexivity.
Qed.









(** ** The index during parsing: no tombstone, every key indexed *)

Lemma occupied_nonneg (es : list Entry) : 0 <= occupied es.
Proof. unfold occupied. apply len_nonneg. Qed.

Lemma occupied_le_len (es : list Entry) : occupied es <= len es.
Proof.
  unfold occupied, len. pose proof (filter_length_le (fun e => negb (hash e =? Empty)) es). lia.
Qed.

Lemma occupied_cons (e : Entry) (es : list Entry) :
  occupied (e :: es) = (if hash e =? Empty then 0 else 1) + occupied es.
Proof.
  unfold occupied. cbn [filter]. destruct (hash e =? Empty); cbn [negb]; [lia|].
  rewrite len_cons. reflexivity.
Qed.

Lemma occupied_setNth (n : nat) (e : Entry) (es : list Entry) :
  occupied (setNth n e es) <= occupied es + 1.
Proof.
  revert n. induction es as [|x r IH]; intros n; [destruct n; cbn; lia|].
  destruct n as [|n]; cbn [setNth]; rewrite !occupied_cons.
  - destruct (hash e =? Empty), (hash x =? Empty); lia.
  - specialize (IH n). lia.
Qed.

Lemma occupied_repeat (n : nat) : occupied (repeat emptyEntry n) = 0.
Proof. induction n as [|n IH]; [reflexivity|]. cbn [repeat]. rewrite occupied_cons, IH. reflexivity. Qed.

Lemma occupied_full (es : list Entry) :
  (forall i, 0 <= i < len es -> hash (cellAt es i) <> Empty) -> occupied es = len es.
Proof.
  induction es as [|x r IH]; intros H; [reflexivity|].
  rewrite occupied_cons, len_cons.
  pose proof (H 0 ltac:(rewrite len_cons; pose proof (len_nonneg r); lia)) as H0.
  unfold cellAt in H0. cbn in H0.
  destruct (Z.eqb_spec (hash x) Empty); [contradiction|].
  rewrite IH; [reflexivity|].
  intros i Hi. specialize (H (i + 1) ltac:(rewrite len_cons; lia)).
  unfold cellAt in *. replace (Z.to_nat (i + 1)) with (S (Z.to_nat i)) in H by lia. exact H.
Qed.

(** A table with fewer occupied cells than cells has an empty cell. *)
Lemma exists_empty_cell (es : list Entry) :
  occupied es < len es -> exists i, 0 <= i < len es /\ hash (cellAt es i) = Empty.
Proof.
  induction es as [|x r IH]; intros H; [cbn in H; lia|].
  rewrite occupied_cons, len_cons in H.
  destruct (Z.eqb_spec (hash x) Empty) as [He|Hne].
  - exists 0. split; [rewrite len_cons; pose proof (len_nonneg r); lia|exact He].
  - destruct (IH ltac:(lia)) as (i & Hi & Hh).
    exists (i + 1). split; [rewrite len_cons; lia|].
    unfold cellAt in *. replace (Z.to_nat (i + 1)) with (S (Z.to_nat i)) by lia. exact Hh.
Qed.

Lemma cellAt_setNth_eq (es : list Entry) (s : Z) (e : Entry) :
  0 <= s < len es -> cellAt (setNth (Z.to_nat s) e es) s = e.
Proof. intros Hs. unfold cellAt. apply nth_setNth_eq. unfold len in Hs. lia. Qed.

Lemma cellAt_setNth_ne (es : list Entry) (s x : Z) (e : Entry) :
  0 <= s -> 0 <= x -> x <> s -> cellAt (setNth (Z.to_nat s) e es) x = cellAt es x.
Proof. intros Hs Hx Hne. unfold cellAt. apply nth_setNth_ne. lia. Qed.

Lemma homePath_range (k h x : Z) :
  3 <= k <= 31 -> In x (homePath (2 ^ k) h) -> 0 <= x < 2 ^ k.
Proof.
  intros Hk. unfold homePath.
  assert (Hp : 0 < 2 ^ (k - 3)) by (apply Z.pow_pos_nonneg; lia).
  assert (Hcap : 2 ^ k = 8 * 2 ^ (k - 3)).
  { replace k with ((k - 3) + 3) at 1 by lia. rewrite Z.pow_add_r by lia.
    change (2 ^ 3) with 8. lia. }
  assert (Hgen : forall fuel idx incr,
             (exists B, 0 <= B < 2 ^ (k - 3) /\ idx = 8 * B) ->
             In x (pathFrom fuel (lineMask (2 ^ k)) idx incr) -> 0 <= x < 2 ^ k).
  { induction fuel as [|f IH]; intros idx incr (B & HB & ->) Hin; [destruct Hin|].
    cbn [pathFrom] in Hin. apply in_app_or in Hin. destruct Hin as [Hin|Hin].
    - unfold lineSlots in Hin. apply in_map_iff in Hin. destruct Hin as (c & <- & Hc).
      apply in_zseq in Hc. cbn in Hc. lia.
    - apply IH in Hin; [exact Hin|].
      unfold nextLine. rewrite land_lineMask by assumption.
      eexists. split; [|reflexivity]. apply Z.mod_pos_bound. exact Hp. }
  apply Hgen. rewrite land_lineMask by assumption.
  eexists. split; [|reflexivity]. apply Z.mod_pos_bound. exact Hp.
Qed.

(** Writing an entry in a free cell keeps what is indexed. *)
Lemma indexedIn_setNth (es : list Entry) (cap h c s : Z) (e : Entry) :
  0 <= s -> hash (cellAt es s) < FirstValid -> FirstValid <= hash e -> FirstValid <= h ->
  (forall x, In x (homePath cap h) -> 0 <= x) ->
  indexedIn es cap h c -> indexedIn (setNth (Z.to_nat s) e es) cap h c.
Proof.
  intros Hs Hfree He Hh Hrange (pre & slot & post & Hpath & Hcell & Hpre).
  exists pre, slot, post. split; [exact Hpath|].
  assert (Hslot : 0 <= slot).
  { apply Hrange. rewrite Hpath. apply in_or_app. right. left. reflexivity. }
  split.
  - rewrite cellAt_setNth_ne; [exact Hcell|assumption|assumption|].
    intros ->. rewrite Hcell in Hfree. cbn [hash] in Hfree. lia.
  - intros x Hx.
    assert (Hx0 : 0 <= x).
    { apply Hrange. rewrite Hpath. apply in_or_app. left. exact Hx. }
    destruct (Z.eq_dec x s) as [->|Hne].
    + destruct (Z.lt_ge_cases s (len es)) as [Hin|Hout].
      * rewrite cellAt_setNth_eq by lia. exact He.
      * specialize (Hpre s Hx). lia.
    + rewrite cellAt_setNth_ne by assumption. apply Hpre. exact Hx.
Qed.

(** The cell where an insertion ends holds the new entry, indexed. *)
Lemma indexedIn_new (es : list Entry) (cap h c s : Z) (isMatch : Entry -> bool) :
  0 <= s < len es ->
  search FirstValid isMatch es (homePath cap h) = Ret (Free s) ->
  indexedIn (setNth (Z.to_nat s) (mkEntry h c) es) cap h c.
Proof.
  intros Hs Hsearch. apply search_result in Hsearch.
  destruct Hsearch as (pre & post & s' & Hpath & Hpre & [(Heq & _)|(Heq & Hfree)]);
    [discriminate Heq|].
  injection Heq as <-.
  exists pre, s, post. split; [exact Hpath|]. split.
  - apply cellAt_setNth_eq. exact Hs.
  - intros x Hx. destruct (Hpre x Hx) as (Hv & _).
    destruct (Z.eq_dec x s) as [->|Hne]; [lia|].
    unfold cellAt in *. rewrite nth_setNth_ne; [exact Hv|].
    intros Heq. apply Hne.
    destruct (Z.lt_ge_cases x 0) as [Hneg|Hpos].
    + (* a negative position reads the cell 0 *)
      replace (Z.to_nat x) with 0%nat in * by lia.
      assert (Hs0 : Z.to_nat s = 0%nat) by lia.
      rewrite Hs0 in Hfree. lia.
    + lia.
Qed.

Lemma search_no_match_free (es : list Entry) (slots : list Z) (r : ProbeResult) :
  search FirstValid (fun _ => false) es slots = Ret r ->
  exists s, r = Free s /\ In s slots /\ hash (cellAt es s) < FirstValid.
Proof.
  intros H. apply search_result in H.
  destruct H as (pre & post & s & Hpath & _ & [(_ & _ & Hm)|(Heq & Hfree)]);
    [discriminate Hm|].
  exists s. split; [exact Heq|]. split; [|exact Hfree].
  rewrite Hpath. apply in_or_app. right. left. reflexivity.
Qed.

Section Transfer.
Variable k : Z.
Hypothesis k_range : 3 <= k <= 31.

Let cap : Z := 2 ^ k.

Lemma homePath_nonneg (h x : Z) : In x (homePath cap h) -> 0 <= x.
Proof. intros H. apply (homePath_range k h x k_range) in H. lia. Qed.

(** The transfer of the entries of the old table into the new one. *)
Lemma resize_transfer_spec (old : list Entry) :
  forall new,
    len new = cap ->
    (forall s, hash (cellAt new s) = Empty \/ FirstValid <= hash (cellAt new s)) ->
    (forall e, In e old -> hash e = Empty \/ FirstValid <= hash e) ->
    occupied new + occupied old < cap ->
    exists new',
      resize_transfer (probeFuel cap) old new (lineMask cap) = Ret new'
      /\ len new' = cap
      /\ (forall s, hash (cellAt new' s) = Empty \/ FirstValid <= hash (cellAt new' s))
      /\ occupied new' <= occupied new + occupied old
      /\ (forall h c, FirstValid <= h -> indexedIn new cap h c -> indexedIn new' cap h c)
      /\ (forall e, In e old -> FirstValid <= hash e ->
                    indexedIn new' cap (hash e) (childIndex e)).
Proof.
  induction old as [|e rest IH]; intros new Hlen Hcells Hold Hocc.
  - exists new. cbn [resize_transfer]. repeat split; auto.
    + change (occupied []) with 0. lia.
    + intros e [].
  - cbn [resize_transfer]. rewrite occupied_cons in Hocc.
    pose proof (occupied_nonneg rest) as Hrest. pose proof (occupied_nonneg new) as Hnew.
    destruct (Z.ltb_spec (hash e) FirstValid) as [Hlow|Hvalid].
    + (* an empty cell of the old table *)
      assert (He : hash e = Empty).
      { destruct (Hold e (or_introl eq_refl)) as [H|H]; [exact H|lia]. }
      destruct (IH new Hlen Hcells (fun x Hx => Hold x (or_intror Hx))
                  ltac:(rewrite He in Hocc; cbn in Hocc; lia))
        as (new' & Hrun & Hlen' & Hcells' & Hocc' & Hkeep & Hall).
      exists new'. split; [exact Hrun|]. split; [exact Hlen'|]. split; [exact Hcells'|].
      split; [rewrite occupied_cons; destruct (hash e =? Empty); lia|].
      split; [exact Hkeep|].
      intros x [<-|Hx] Hv; [lia|apply Hall; assumption].
    + assert (Hne : (hash e =? Empty) = false) by (apply Z.eqb_neq; unfold FirstValid, Empty in *; lia).
      rewrite Hne in Hocc.
      rewrite probe_search. fold (homePath cap (hash e)).
      destruct (exists_empty_cell new ltac:(lia)) as (i & Hi & Hempty).
      destruct (search_terminates FirstValid (fun _ => false) new (homePath cap (hash e)) i)
        as (r & Hr).
      { unfold homePath, cap. apply probe_covers; [exact k_range|]. fold cap. lia. }
      { rewrite Hempty. reflexivity. }
      rewrite Hr. cbn [bind].
      destruct (search_no_match_free _ _ _ Hr) as (s & -> & Hin & Hfree).
      pose proof (homePath_range k (hash e) s k_range Hin) as Hs. fold cap in Hs.
      set (new1 := setNth (Z.to_nat s) e new).
      assert (Hlen1 : len new1 = cap).
      { unfold new1, len. rewrite length_setNth. exact Hlen. }
      assert (Hcells1 : forall x, hash (cellAt new1 x) = Empty \/ FirstValid <= hash (cellAt new1 x)).
      { intros x. unfold new1, cellAt.
        destruct (Nat.eq_dec (Z.to_nat s) (Z.to_nat x)) as [Heq|Hneq].
        - rewrite <- Heq, nth_setNth_eq by (unfold len in Hlen; lia). right. exact Hvalid.
        - rewrite nth_setNth_ne by exact Hneq. apply Hcells. }
      assert (Hocc1 : occupied new1 <= occupied new + 1) by apply occupied_setNth.
      destruct (IH new1 Hlen1 Hcells1 (fun x Hx => Hold x (or_intror Hx)) ltac:(lia))
        as (new' & Hrun & Hlen' & Hcells' & Hocc' & Hkeep & Hall).
      exists new'. split; [exact Hrun|]. split; [exact Hlen'|].
      split; [exact Hcells'|].
      split; [rewrite occupied_cons, Hne; lia|].
      split.
      * intros h c Hh Hidx. apply Hkeep; [exact Hh|].
        apply indexedIn_setNth; try assumption; try lia.
        intros x Hx. apply (homePath_nonneg h x Hx).
      * intros x [<-|Hx] Hv; [|apply Hall; assumption].
        apply Hkeep; [exact Hv|].
        unfold new1. destruct e as [h0 c0]. cbn [hash childIndex] in *.
        apply (indexedIn_new new cap h0 c0 s (fun _ => false)); [lia|exact Hr].
Qed.

End Transfer.

Lemma cellAt_In (es : list Entry) (s : Z) :
  0 <= s < len es -> In (cellAt es s) es.
Proof. intros Hs. unfold cellAt. apply nth_In. unfold len in Hs. lia. Qed.

Lemma cellAt_repeat (n : nat) (s : Z) : cellAt (repeat emptyEntry n) s = emptyEntry.
Proof.
  unfold cellAt. destruct (Nat.lt_ge_cases (Z.to_nat s) n) as [H|H].
  - apply nth_repeat_lt. exact H.
  - apply nth_overflow. rewrite repeat_length. exact H.
Qed.

Lemma pow2_succ (k : Z) : 0 <= k -> 2 ^ (k + 1) = 2 * 2 ^ k.
Proof. intros Hk. rewrite Z.pow_add_r by lia. change (2 ^ 1) with 2. lia. Qed.

(** [resize] to the double of the size: the entries are all found again. *)
Lemma resize_spec (ctx : Context) (k : Z) :
  3 <= k <= 30 -> _maxEntryQty ctx = 2 ^ k -> len (_entries ctx) = 2 ^ k ->
  (forall s, hash (cellAt (_entries ctx) s) = Empty
             \/ FirstValid <= hash (cellAt (_entries ctx) s)) ->
  exists es',
    resize (2 ^ (k + 1)) ctx
    = Ret (mkContext (elements ctx) (arena ctx) (sessionStartIdx ctx) es' (_entryQty ctx)
             (2 ^ (k + 1)))
    /\ len es' = 2 ^ (k + 1)
    /\ (forall s, hash (cellAt es' s) = Empty \/ FirstValid <= hash (cellAt es' s))
    /\ occupied es' <= occupied (_entries ctx)
    /\ (forall s, FirstValid <= hash (cellAt (_entries ctx) s) ->
                  indexedIn es' (2 ^ (k + 1)) (hash (cellAt (_entries ctx) s))
                    (childIndex (cellAt (_entries ctx) s))).
Proof.
  intros Hk Hcap Hlen Hcells.
  assert (Hpos : 0 < 2 ^ k) by (apply Z.pow_pos_nonneg; lia).
  pose proof (pow2_succ k ltac:(lia)) as Hdouble.
  unfold resize. rewrite Hcap.
  assert (Hold : firstn (Z.to_nat (2 ^ k)) (_entries ctx) = _entries ctx).
  { apply firstn_all2. unfold len in Hlen. lia. }
  rewrite Hold.
  destruct (resize_transfer_spec (k + 1) ltac:(lia) (_entries ctx)
              (repeat emptyEntry (Z.to_nat (2 ^ (k + 1)))))
    as (es' & Hrun & Hlen' & Hcells' & Hocc' & _ & Hall).
  - unfold len. rewrite repeat_length. lia.
  - intros s. left. rewrite cellAt_repeat. reflexivity.
  - intros e He. destruct (In_nth _ _ emptyEntry He) as (n & Hn & <-).
    specialize (Hcells (Z.of_nat n)). unfold cellAt in Hcells. rewrite Nat2Z.id in Hcells.
    exact Hcells.
  - rewrite occupied_repeat. pose proof (occupied_le_len (_entries ctx)). lia.
  - exists es'. rewrite Hrun. cbn [bind]. split; [reflexivity|]. split; [exact Hlen'|].
    split; [exact Hcells'|]. split; [rewrite occupied_repeat in Hocc'; lia|].
    intros s Hv. apply Hall; [|exact Hv].
    unfold cellAt in Hv.
    destruct (Z.lt_ge_cases s 0) as [Hneg|Hnn].
    + (* a negative position reads the cell 0 *)
      replace (cellAt (_entries ctx) s) with (cellAt (_entries ctx) 0)
        by (unfold cellAt; f_equal; lia).
      apply cellAt_In. lia.
    + destruct (Z.lt_ge_cases s (len (_entries ctx))) as [Hin|Hout];
        [apply cellAt_In; lia|].
      rewrite nth_overflow in Hv by (unfold len in Hout; lia).
      unfold emptyEntry, FirstValid in Hv. cbn [hash] in Hv. lia.
Qed.

Lemma indexedIn_cell (es : list Entry) (cap h c : Z) :
  indexedIn es cap h c -> exists s, cellAt es s = mkEntry h c.
Proof. intros (pre & slot & post & _ & Hcell & _). exists slot. exact Hcell. Qed.

Lemma tableInv_empty_cell (ctx : Context) :
  tableInv ctx ->
  exists i, 0 <= i < _maxEntryQty ctx /\ hash (cellAt (_entries ctx) i) = Empty.
Proof.
  intros ((k & Hk & Hcap) & Hlen & _ & Hocc & Hload & _).
  assert (Hpos : 16 <= 2 ^ k).
  { change 16 with (2 ^ 4). apply Z.pow_le_mono_r; lia. }
  unfold _maxLoad128th in Hload.
  destruct (exists_empty_cell (_entries ctx)) as (i & Hi & He); [lia|].
  exists i. split; [lia|exact He].
Qed.

(** [addMapChildIndex] during parsing (no tombstone in the table): it
    ends, and an insertion keeps the table well formed, keeps what was
    indexed and indexes the new entry. *)
Lemma addMapChildIndex_parse (ctx : Context) (pi keySize c : Z) (key : list ascii)
    (parentElt : Element) :
  tableInv ctx -> _entryQty ctx < len (elements ctx) -> len (elements ctx) <= 2 ^ 28 ->
  0 <= pi ->
  exists inserted ctx',
    addMapChildIndex pi key keySize parentElt c ctx = Ret (inserted, ctx')
    /\ (inserted = true ->
        elements ctx' = elements ctx /\ arena ctx' = arena ctx
        /\ tableInv ctx'
        /\ (forall h' c', FirstValid <= h' ->
              indexedIn (_entries ctx) (_maxEntryQty ctx) h' c' ->
              indexedIn (_entries ctx') (_maxEntryQty ctx') h' c')
        /\ indexedIn (_entries ctx') (_maxEntryQty ctx') (keyHashOf pi key keySize) c).
Proof.
  intros Hinv Hqty Hbound Hpi.
  destruct (tableInv_empty_cell ctx Hinv) as (i & Hi & Hempty).
  destruct Hinv as ((k & Hk & Hcap) & Hlen & Hcells & Hocc & Hload & Hgrow & Hq).
  pose proof (keyHashOf_valid pi keySize key Hpi) as Hvalid.
  set (h := keyHashOf pi key keySize) in *.
  unfold addMapChildIndex. fold h. rewrite probe_search. fold (homePath (_maxEntryQty ctx) h).
  destruct (search_terminates FirstValid (cellMatches ctx parentElt key keySize h)
              (_entries ctx) (homePath (_maxEntryQty ctx) h) i) as (r & Hr).
  { rewrite Hcap. unfold homePath. apply probe_covers; [lia|rewrite <- Hcap; exact Hi]. }
  { rewrite Hempty. reflexivity. }
  rewrite Hr. cbn [bind].
  destruct r as [slot|slot]; [eexists _, _; split; [reflexivity|discriminate]|].
  pose proof Hr as Hfree. apply search_result in Hfree.
  destruct Hfree as (pre & post & s & Hpath & Hpre & [(Heq & _)|(Heq & Hlow)]);
    [discriminate Heq|].
  injection Heq as <-.
  assert (Hslot : 0 <= slot < 2 ^ k).
  { apply (homePath_range k h slot ltac:(lia)). rewrite <- Hcap, Hpath.
    apply in_or_app. right. left. reflexivity. }
  assert (Hq0 : 0 <= occupied (_entries ctx)) by apply occupied_nonneg.
  assert (Hu : u32 (_entryQty ctx + 1) = _entryQty ctx + 1).
  { unfold u32. apply Z.mod_small. change (2 ^ 28) with 268435456 in Hbound.
    change (2 ^ 32) with 4294967296. lia. }
  set (es1 := setNth (Z.to_nat slot) (mkEntry h c) (_entries ctx)).
  assert (Hlen1 : len es1 = 2 ^ k).
  { unfold es1, len. rewrite length_setNth. unfold len in Hlen. lia. }
  assert (Hcells1 : forall x, hash (cellAt es1 x) = Empty \/ FirstValid <= hash (cellAt es1 x)).
  { intros x. unfold es1, cellAt.
    destruct (Nat.eq_dec (Z.to_nat slot) (Z.to_nat x)) as [Heq|Hneq].
    - rewrite <- Heq, nth_setNth_eq by (unfold len in Hlen; lia). right. exact Hvalid.
    - rewrite nth_setNth_ne by exact Hneq. apply Hcells. }
  assert (Hocc1 : occupied es1 <= _entryQty ctx + 1).
  { pose proof (occupied_setNth (Z.to_nat slot) (mkEntry h c) (_entries ctx)). fold es1 in H. lia. }
  assert (Hkeep1 : forall h' c', FirstValid <= h' ->
            indexedIn (_entries ctx) (2 ^ k) h' c' -> indexedIn es1 (2 ^ k) h' c').
  { intros h' c' Hh' Hidx. apply indexedIn_setNth; try assumption; try lia.
    intros x Hx. apply (homePath_range k h' x ltac:(lia)) in Hx. lia. }
  assert (Hnew1 : indexedIn es1 (2 ^ k) h c).
  { apply (indexedIn_new (_entries ctx) (2 ^ k) h c slot
             (cellMatches ctx parentElt key keySize h)); [lia|].
    rewrite <- Hcap. exact Hr. }
  unfold addNewEntry. cbn [_maxEntryQty _entryQty elements arena sessionStartIdx _entries].
  fold es1. rewrite Hu, Hcap.
  unfold _maxLoad128th in *.
  destruct (Z.ltb_spec (115 * 2 ^ k) (128 * (_entryQty ctx + 1))) as [Hover|Hunder].
  - (* the table is resized *)
    assert (Hk29 : k <= 28).
    { destruct (Z.le_gt_cases k 28) as [H|H]; [exact H|]. exfalso.
      assert (2 ^ 29 <= 2 ^ k) by (apply Z.pow_le_mono_r; lia).
      change (2 ^ 29) with 536870912 in *. change (2 ^ 28) with 268435456 in *. lia. }
    assert (Hdouble : u32 (2 * 2 ^ k) = 2 ^ (k + 1)).
    { rewrite pow2_succ by lia. unfold u32. apply Z.mod_small.
      assert (2 ^ k <= 2 ^ 28) by (apply Z.pow_le_mono_r; lia).
      change (2 ^ 28) with 268435456 in *. change (2 ^ 32) with 4294967296.
      assert (0 < 2 ^ k) by (apply Z.pow_pos_nonneg; lia). lia. }
    rewrite Hdouble.
    destruct (resize_spec
                (mkContext (elements ctx) (arena ctx) (sessionStartIdx ctx) es1
                   (_entryQty ctx + 1) (2 ^ k)) k ltac:(lia) eq_refl Hlen1 Hcells1)
      as (es' & Hrun & Hlen' & Hcells' & Hocc' & Hall).
    cbn [elements arena sessionStartIdx _entries _entryQty _maxEntryQty] in *.
    rewrite Hrun. cbn [bind]. eexists _, _. split; [reflexivity|]. intros _.
    cbn [elements arena sessionStartIdx _entries _entryQty _maxEntryQty].
    split; [reflexivity|]. split; [reflexivity|].
    assert (Hpk : 0 < 2 ^ k) by (apply Z.pow_pos_nonneg; lia).
    pose proof (pow2_succ k ltac:(lia)) as Hsucc.
    split; [|split].
    + unfold tableInv, _maxLoad128th, InitMapSize.
      cbn [elements arena sessionStartIdx _entries _entryQty _maxEntryQty].
      split; [exists (k + 1); split; [lia|reflexivity]|].
      split; [exact Hlen'|]. split; [exact Hcells'|].
      split; [lia|]. split; [lia|]. split; [right; lia|lia].
    + intros h' c' Hh' Hidx. rewrite ?Hcap in Hidx.
      destruct (indexedIn_cell _ _ _ _ (Hkeep1 h' c' Hh' Hidx)) as (s2 & Hcell2).
      specialize (Hall s2). rewrite Hcell2 in Hall. apply Hall. exact Hh'.
    + destruct (indexedIn_cell _ _ _ _ Hnew1) as (s2 & Hcell2).
      specialize (Hall s2). rewrite Hcell2 in Hall. apply Hall. exact Hvalid.
  - eexists _, _. split; [reflexivity|]. intros _.
    cbn [elements arena sessionStartIdx _entries _entryQty _maxEntryQty].
    split; [reflexivity|]. split; [reflexivity|].
    split; [|split].
    + unfold tableInv, _maxLoad128th, InitMapSize in *.
      cbn [elements arena sessionStartIdx _entries _entryQty _maxEntryQty].
      split; [exists k; split; [lia|reflexivity]|].
      split; [exact Hlen1|]. split; [exact Hcells1|].
      split; [lia|]. split; [lia|]. split; [|lia].
      destruct Hgrow as [H16|Hg]; [left; rewrite <- Hcap; exact H16|right; rewrite <- Hcap; lia].
    + intros h' c' Hh' Hidx. rewrite ?Hcap in Hidx. apply Hkeep1; assumption.
    + exact Hnew1.
Qed.

(** ** The elements during parsing *)

Lemma safeStep_refl (ctx : Context) : safeStep ctx ctx.
Proof. split; [split; lia|auto]. Qed.

Lemma sizes_grows (ctx ctx' : Context) : grows ctx ctx' -> sizes ctx' -> sizes ctx.
Proof. intros (He & Ha) (Hs1 & Hs2). split; lia. Qed.

Lemma safeStep_trans (ctx1 ctx2 ctx3 : Context) :
  safeStep ctx1 ctx2 -> safeStep ctx2 ctx3 -> safeStep ctx1 ctx3.
Proof.
  intros (Hg1 & H1) (Hg2 & H2). split.
  - destruct Hg1, Hg2. split; lia.
  - intros Hs Hinv. apply H2; [exact Hs|]. apply H1; [|exact Hinv].
    apply (sizes_grows ctx2 ctx3); assumption.
Qed.

Lemma eltAt_emplace_back (ctx : Context) (e : Element) (j : Z) :
  eltAt (emplace_back e ctx) j
  = if (Z.to_nat j =? List.length (elements ctx))%nat then e else eltAt ctx j.
Proof.
  unfold eltAt, emplace_back. cbn [elements].
  destruct (Nat.eqb_spec (Z.to_nat j) (List.length (elements ctx))) as [Heq|Hne].
  - rewrite Heq. apply nth_middle.
  - destruct (Nat.lt_ge_cases (Z.to_nat j) (List.length (elements ctx))) as [Hlt|Hge].
    + apply app_nth1. exact Hlt.
    + rewrite !nth_overflow; [reflexivity|lia|].
      rewrite length_app. cbn [List.length]. lia.
Qed.

Lemma eltAt_updElt (ctx : Context) (i j : Z) (f : Element -> Element) :
  eltAt (updElt i f ctx) j
  = if (Z.to_nat i =? Z.to_nat j)%nat && (Z.to_nat i <? List.length (elements ctx))%nat
    then f (eltAt ctx i) else eltAt ctx j.
Proof.
  unfold eltAt, updElt, setElt. cbn [elements].
  destruct (Nat.eqb_spec (Z.to_nat i) (Z.to_nat j)) as [Heq|Hne]; cbn [andb].
  - rewrite <- Heq.
    destruct (Nat.ltb_spec (Z.to_nat i) (List.length (elements ctx))) as [Hlt|Hge].
    + apply nth_setNth_eq. exact Hlt.
    + rewrite !nth_overflow; [reflexivity|lia|]. rewrite length_setNth. lia.
  - apply nth_setNth_ne. exact Hne.
Qed.

Lemma eltAt_default (ctx : Context) (j : Z) :
  len (elements ctx) <= j -> eltAt ctx j = Element_kind UNKNOWN.
Proof. intros H. unfold eltAt. apply nth_overflow. unfold len in H. lia. Qed.

Lemma getType_in_range (ctx : Context) (j : Z) :
  0 <= j -> getType (eltAt ctx j) <> UNKNOWN -> j < len (elements ctx).
Proof.
  intros Hj Ht. destruct (Z.lt_ge_cases j (len (elements ctx))) as [H|H]; [exact H|].
  rewrite eltAt_default in Ht by exact H. contradiction Ht. reflexivity.
Qed.

Lemma len_elements_updElt (ctx : Context) (i : Z) (f : Element -> Element) :
  len (elements (updElt i f ctx)) = len (elements ctx).
Proof. unfold updElt, setElt, len. cbn [elements]. rewrite length_setNth. reflexivity. Qed.

Lemma len_elements_emplace_back (ctx : Context) (e : Element) :
  len (elements (emplace_back e ctx)) = len (elements ctx) + 1.
Proof. unfold emplace_back. cbn [elements]. rewrite len_app. reflexivity. Qed.

Lemma slice_app_l (a suffix : list ascii) (i n : Z) :
  0 <= i -> 0 <= n -> i + n <= len a -> slice (a ++ suffix) i n = slice a i n.
Proof.
  intros Hi Hn Hle. unfold slice, len in *.
  rewrite skipn_app, firstn_app.
  replace (Z.to_nat n - List.length (skipn (Z.to_nat i) a))%nat with 0%nat
    by (rewrite length_skipn; lia).
  cbn [firstn]. apply app_nil_r.
Qed.

Lemma len_slice (a : list ascii) (i n : Z) :
  0 <= i -> 0 <= n -> i + n <= len a -> len (slice a i n) = n.
Proof.
  intros Hi Hn Hle. unfold slice, len in *. rewrite length_firstn, length_skipn. lia.
Qed.

Lemma getSub_In (e : Element) (c : Z) :
  0 <= c < len (subs e) -> In (getSub c e) (subs e).
Proof. intros Hc. unfold getSub. apply nth_In. unfold len in Hc. lia. Qed.

Lemma getSubQty_MAP (e : Element) : getType e = MAP -> getSubQty e = len (subs e).
Proof. unfold getType, getSubQty. intros ->. reflexivity. Qed.

Lemma nameOf_KEY (ctx : Context) (e : Element) :
  getType e = KEY -> nameOf ctx e = slice (arena ctx) (typed0 e) (u32 (compound e - 1)).
Proof. unfold nameOf, getStringIdx, getStringSize, getCompound, getType. intros ->. reflexivity. Qed.

Lemma tableInv_same_table (ctx ctx' : Context) :
  _entries ctx' = _entries ctx -> _entryQty ctx' = _entryQty ctx ->
  _maxEntryQty ctx' = _maxEntryQty ctx -> len (elements ctx) <= len (elements ctx') ->
  tableInv ctx -> tableInv ctx'.
Proof.
  intros He Hq Hc Hl. unfold tableInv. rewrite He, Hq, Hc.
  intros (H1 & H2 & H3 & H4 & H5 & H6 & H7). repeat split; try assumption. lia.
Qed.

Lemma indexComplete_same_table (ctx ctx' : Context) :
  _entries ctx' = _entries ctx -> _maxEntryQty ctx' = _maxEntryQty ctx ->
  (forall pi c name, keyAt ctx' pi c name -> keyAt ctx pi c name) ->
  indexComplete ctx -> indexComplete ctx'.
Proof.
  intros He Hc Hkeys Hidx pi c name Hk. rewrite He, Hc. apply Hidx. apply Hkeys. exact Hk.
Qed.

(** A new element without children. *)
Lemma safeStep_emplace_back (ctx : Context) (e0 : Element) :
  subs e0 = [] -> (getType e0 = KEY -> keyStringOk ctx e0) ->
  safeStep ctx (emplace_back e0 ctx).
Proof.
  intros Hsubs Hkey. split.
  - split; [rewrite len_elements_emplace_back; lia|cbn; lia].
  - intros _ (Htab & Hidx & Hwf1 & Hwf2).
    assert (Hold : forall j, 0 <= j -> getType (eltAt (emplace_back e0 ctx) j) = MAP ->
              0 < getSubQty (eltAt (emplace_back e0 ctx) j) ->
              eltAt (emplace_back e0 ctx) j = eltAt ctx j).
    { intros j Hj Ht Hq. rewrite eltAt_emplace_back in *.
      destruct (Nat.eqb_spec (Z.to_nat j) (List.length (elements ctx))); [|reflexivity].
      rewrite (getSubQty_MAP e0 Ht), Hsubs in Hq. cbn in Hq. lia. }
    assert (Hchild : forall x, 0 <= x < len (elements ctx) ->
              eltAt (emplace_back e0 ctx) x = eltAt ctx x).
    { intros x Hx. rewrite eltAt_emplace_back.
      destruct (Nat.eqb_spec (Z.to_nat x) (List.length (elements ctx))) as [Heq|_];
        [unfold len in Hx; lia|reflexivity]. }
    split; [|split; [|split]].
    + apply (tableInv_same_table ctx); try reflexivity; [|exact Htab].
      rewrite len_elements_emplace_back. lia.
    + apply (indexComplete_same_table ctx); try reflexivity; [|exact Hidx].
      intros pi c name (Hpi & Ht & Hc & Hck & Hname).
      pose proof (Hold pi Hpi Ht ltac:(lia)) as Heq.
      rewrite Heq in Ht, Hc, Hck, Hname.
      assert (Hin : 0 <= getSub c (eltAt ctx pi) < len (elements ctx)).
      { apply (Hwf1 pi); [exact Ht|]. apply getSub_In.
        rewrite <- (getSubQty_MAP _ Ht). exact Hc. }
      rewrite (Hchild _ Hin) in Hck, Hname.
      repeat split; try assumption; lia.
    + intros j x Ht Hx. rewrite len_elements_emplace_back.
      rewrite eltAt_emplace_back in Ht, Hx.
      destruct (Nat.eqb_spec (Z.to_nat j) (List.length (elements ctx))).
      * rewrite Hsubs in Hx. destruct Hx.
      * specialize (Hwf1 j x Ht Hx). lia.
    + intros j Ht. rewrite eltAt_emplace_back in *.
      destruct (Nat.eqb_spec (Z.to_nat j) (List.length (elements ctx))).
      * apply Hkey. exact Ht.
      * apply Hwf2. exact Ht.
Qed.

(** The update of one element that keeps the strings of the keys and only
    adds children that are not keys to the maps. *)
Lemma safeStep_updElt (ctx : Context) (i : Z) (f : Element -> Element) :
  (getType (f (eltAt ctx i)) = KEY ->
   getType (eltAt ctx i) = KEY /\ typed0 (f (eltAt ctx i)) = typed0 (eltAt ctx i)
   /\ compound (f (eltAt ctx i)) = compound (eltAt ctx i)) ->
  (getType (f (eltAt ctx i)) = MAP ->
   subs (f (eltAt ctx i)) = []
   \/ (getType (eltAt ctx i) = MAP
       /\ exists extra,
            subs (f (eltAt ctx i)) = subs (eltAt ctx i) ++ extra
            /\ forall x, In x extra ->
                 0 <= x < len (elements ctx) /\ getType (eltAt ctx x) <> KEY)) ->
  safeStep ctx (updElt i f ctx).
Proof.
  intros Hkeyf Hmapf. split.
  - split; [rewrite len_elements_updElt; lia|cbn; lia].
  - intros _ (Htab & Hidx & Hwf1 & Hwf2).
    set (e := eltAt ctx i) in *.
    split; [|split; [|split]].
    + apply (tableInv_same_table ctx); try reflexivity; [|exact Htab].
      rewrite len_elements_updElt. lia.
    + apply (indexComplete_same_table ctx); try reflexivity; [|exact Hidx].
      intros pi c name (Hpi & Ht & Hc & Hck & Hname).
      rewrite (eltAt_updElt ctx i pi) in Ht, Hc, Hck, Hname.
      destruct ((Z.to_nat i =? Z.to_nat pi)%nat
                && (Z.to_nat i <? List.length (elements ctx))%nat) eqn:Hsame.
      * (* the map is the updated element *)
        apply andb_true_iff in Hsame. destruct Hsame as [Heq Hin].
        apply Nat.eqb_eq in Heq.
        assert (Hpi_e : eltAt ctx pi = e) by (unfold e, eltAt; rewrite Heq; reflexivity).
        fold e in Ht, Hc, Hck, Hname.
        rewrite (getSubQty_MAP _ Ht) in Hc.
        destruct (Hmapf Ht) as [Hnil|(Hte & extra & Hsubs & Hextra)];
          [rewrite Hnil in Hc; cbn in Hc; lia|].
        destruct (Z.lt_ge_cases c (len (subs e))) as [Hold|Hnew].
        -- assert (Hsub : getSub c (f e) = getSub c e).
           { unfold getSub. rewrite Hsubs. apply app_nth1. unfold len in Hold. lia. }
           rewrite Hsub in Hck, Hname.
           rewrite (eltAt_updElt ctx i (getSub c e)) in Hck, Hname.
           destruct ((Z.to_nat i =? Z.to_nat (getSub c e))%nat
                     && (Z.to_nat i <? List.length (elements ctx))%nat).
           ++ fold e in Hck. congruence.
           ++ unfold keyAt. rewrite Hpi_e, (getSubQty_MAP _ Hte).
              repeat split; try assumption; lia.
        -- exfalso.
           assert (Hin_extra : In (getSub c (f e)) extra).
           { unfold getSub. rewrite Hsubs, app_nth2 by (unfold len in Hnew; lia).
             apply nth_In. rewrite Hsubs, len_app in Hc. unfold len in *. lia. }
           destruct (Hextra _ Hin_extra) as (_ & Hnk).
           rewrite (eltAt_updElt ctx i (getSub c (f e))) in Hck.
           destruct ((Z.to_nat i =? Z.to_nat (getSub c (f e)))%nat
                     && (Z.to_nat i <? List.length (elements ctx))%nat);
             [fold e in Hck; congruence|contradiction].
      * (* another map *)
        rewrite (eltAt_updElt ctx i (getSub c (eltAt ctx pi))) in Hck, Hname.
        destruct ((Z.to_nat i =? Z.to_nat (getSub c (eltAt ctx pi)))%nat
                  && (Z.to_nat i <? List.length (elements ctx))%nat) eqn:Hchild.
        -- apply andb_true_iff in Hchild. destruct Hchild as [Heq _].
           apply Nat.eqb_eq in Heq. fold e in Hck, Hname.
           destruct (Hkeyf Hck) as (Hke & Ht0 & Hcomp).
           assert (Hce : eltAt ctx (getSub c (eltAt ctx pi)) = e).
           { unfold e, eltAt. rewrite Heq. reflexivity. }
           unfold keyAt. rewrite Hce.
           repeat split; try assumption; try lia.
           rewrite nameOf_KEY in Hname by exact Hck.
           rewrite nameOf_KEY by exact Hke.
           cbn [updElt setElt arena] in Hname. rewrite Ht0, Hcomp in Hname. exact Hname.
        -- unfold keyAt. repeat split; try assumption; lia.
    + intros j x Ht Hx. rewrite len_elements_updElt.
      rewrite (eltAt_updElt ctx i j) in Ht, Hx.
      destruct ((Z.to_nat i =? Z.to_nat j)%nat
                && (Z.to_nat i <? List.length (elements ctx))%nat).
      * fold e in Ht, Hx.
        destruct (Hmapf Ht) as [Hnil|(Hte & extra & Hsubs & Hextra)];
          [rewrite Hnil in Hx; destruct Hx|].
        rewrite Hsubs in Hx. apply in_app_or in Hx. destruct Hx as [Hx|Hx].
        -- apply (Hwf1 i x); assumption.
        -- apply Hextra. exact Hx.
      * apply (Hwf1 j x); assumption.
    + intros j Ht. rewrite (eltAt_updElt ctx i j) in *.
      destruct ((Z.to_nat i =? Z.to_nat j)%nat
                && (Z.to_nat i <? List.length (elements ctx))%nat).
      * fold e in Ht |- *. destruct (Hkeyf Ht) as (Hke & Ht0 & Hcomp).
        specialize (Hwf2 i Hke). fold e in Hwf2.
        unfold keyStringOk in *. cbn [updElt setElt arena]. rewrite Ht0, Hcomp. exact Hwf2.
      * apply Hwf2. exact Ht.
Qed.

Lemma safeStep_reset (ctx : Context) (i : Z) (kind : NodeType) :
  kind <> KEY -> safeStep ctx (updElt i (reset kind) ctx).
Proof.
  intros Hk. apply safeStep_updElt.
  - intros H. contradiction.
  - intros _. left. reflexivity.
Qed.

Lemma getType_add (x : Z) (e : Element) : getType (add x e) = getType e.
Proof.
  unfold add, getType. destruct (etype e) eqn:He; cbn [etype]; try reflexivity;
    unfold ensureSpaceForOne; destruct (_ <=? _); cbn [etype setCompound]; exact He.
Qed.

Lemma subs_add (x : Z) (e : Element) :
  getType e <> KEY -> subs (add x e) = subs e ++ [x].
Proof.
  unfold add, getType. intros Hk.
  destruct (etype e); try contradiction; cbn [subs];
    unfold ensureSpaceForOne; destruct (_ <=? _); reflexivity.
Qed.

Lemma add_KEY (x : Z) (e : Element) :
  getType e = KEY -> typed0 (add x e) = typed0 e /\ compound (add x e) = compound e.
Proof. unfold add, getType. intros ->. split; reflexivity. Qed.

Lemma safeStep_add (ctx : Context) (i x : Z) :
  (getType (eltAt ctx i) = MAP -> 0 <= x < len (elements ctx) /\ getType (eltAt ctx x) <> KEY) ->
  safeStep ctx (updElt i (add x) ctx).
Proof.
  intros Hx. apply safeStep_updElt.
  - rewrite getType_add. intros Hk. split; [exact Hk|]. apply add_KEY. exact Hk.
  - rewrite getType_add. intros Hm. right. split; [exact Hm|].
    exists [x]. split; [apply subs_add; congruence|].
    intros y [<-|[]]. apply Hx. exact Hm.
Qed.

Lemma safeStep_setString (ctx : Context) (i a b : Z) :
  getType (eltAt ctx i) <> KEY -> safeStep ctx (updElt i (setString a b) ctx).
Proof.
  intros Hk. apply safeStep_updElt.
  - intros H. contradiction.
  - intros Hm. right. split; [exact Hm|]. exists []. split; [symmetry; apply app_nil_r|].
    intros y [].
Qed.

Lemma getType_setComment (x : Z) (e : Element) : getType (setComment x e) = getType e.
Proof.
  unfold setComment. destruct (etype e) eqn:He; try (unfold getType; cbn [etype]; congruence);
    rewrite getType_add; reflexivity.
Qed.

Lemma safeStep_setComment (ctx : Context) (i x : Z) :
  (getType (eltAt ctx i) = MAP -> 0 <= x < len (elements ctx) /\ getType (eltAt ctx x) <> KEY) ->
  safeStep ctx (updElt i (setComment x) ctx).
Proof.
  intros Hx. apply safeStep_updElt.
  - rewrite getType_setComment. intros Hk. split; [exact Hk|].
    unfold setComment. unfold getType in Hk. rewrite Hk. split; reflexivity.
  - rewrite getType_setComment. intros Hm. right. split; [exact Hm|].
    exists [x]. split.
    + unfold setComment. unfold getType in Hm. rewrite Hm.
      apply subs_add. unfold getType. congruence.
    + intros y [<-|[]]. apply Hx. exact Hm.
Qed.

Lemma eltAt_same_elements (ctx ctx' : Context) (j : Z) :
  elements ctx' = elements ctx -> eltAt ctx' j = eltAt ctx j.
Proof. intros H. unfold eltAt. rewrite H. reflexivity. Qed.

Lemma u32_small (x : Z) : 0 <= x <= 2 ^ 28 -> u32 x = x.
Proof.
  intros H. unfold u32. apply Z.mod_small. change (2 ^ 28) with 268435456 in H.
  change (2 ^ 32) with 4294967296. lia.
Qed.

(** New characters at the end of the arena. *)
Lemma safeStep_arena (ctx ctx' : Context) (suffix : list ascii) :
  elements ctx' = elements ctx -> arena ctx' = arena ctx ++ suffix ->
  _entries ctx' = _entries ctx -> _entryQty ctx' = _entryQty ctx ->
  _maxEntryQty ctx' = _maxEntryQty ctx ->
  safeStep ctx ctx'.
Proof.
  intros He Ha Hes Hq Hc. split.
  - split; [rewrite He; lia|rewrite Ha, len_app; pose proof (len_nonneg suffix); lia].
  - intros (_ & Hsize) (Htab & Hidx & Hwf1 & Hwf2).
    assert (Hlen : len (arena ctx) <= 2 ^ 28).
    { rewrite Ha, len_app in Hsize. pose proof (len_nonneg suffix). lia. }
    split; [|split; [|split]].
    + apply (tableInv_same_table ctx); try assumption. rewrite He. lia.
    + apply (indexComplete_same_table ctx); try assumption.
      intros pi c name (Hpi & Ht & Hcq & Hck & Hname).
      rewrite !(eltAt_same_elements ctx ctx') in * by exact He.
      unfold keyAt. repeat split; try assumption; try lia.
      rewrite nameOf_KEY in * by exact Hck.
      rewrite Ha in Hname. destruct (Hwf2 _ Hck) as (H0 & H1 & H2).
      rewrite u32_small in * by lia.
      rewrite slice_app_l in Hname by lia. exact Hname.
    + intros j x Ht Hx. rewrite (eltAt_same_elements ctx ctx') in * by exact He.
      rewrite He. apply (Hwf1 j x); assumption.
    + intros j Ht. rewrite (eltAt_same_elements ctx ctx') in * by exact He.
      destruct (Hwf2 j Ht) as (H0 & H1 & H2). unfold keyStringOk.
      rewrite Ha, len_app. pose proof (len_nonneg suffix). lia.
Qed.

(** ** The context after a token *)

Lemma sameButArena_refl (ctx : Context) : sameButArena ctx ctx.
Proof. repeat split. exists []. symmetry. apply app_nil_r. Qed.

Lemma storeChunks_context (mlType chomp : ascii) (sh : StringHelper) (ctx ctx' : Context)
    (i n : Z) :
  storeChunks mlType chomp sh ctx = (i, n, ctx') ->
  sameButArena ctx ctx' /\ tokenStored ctx ctx' (mkToken true TokKey 0 i n).
Proof.
  intros Hstore. unfold storeChunks in Hstore.
  set (step := fun (c : Context) (lc : LineChunk) => addToSession (chunkText sh lc) c) in *.
  assert (Hfold : forall cs c,
            elements (fold_left step cs c) = elements c
            /\ _entries (fold_left step cs c) = _entries c
            /\ _entryQty (fold_left step cs c) = _entryQty c
            /\ _maxEntryQty (fold_left step cs c) = _maxEntryQty c).
  { induction cs as [|lc r IH]; intros c; cbn [fold_left]; [repeat split|].
    destruct (IH (step c lc)) as (H1 & H2 & H3 & H4).
    rewrite H1, H2, H3, H4. repeat split. }
  destruct (fold_addToSession sh (chunks sh) (startStringSession ctx)) as (Ha & Hs).
  fold step in Ha, Hs.
  destruct (Hfold (chunks sh) (startStringSession ctx)) as (H1 & H2 & H3 & H4).
  set (ctx2 := fold_left step (chunks sh) (startStringSession ctx)) in *.
  set (tail := if (Ascii.eqb mlType "|"%char || Ascii.eqb mlType ">"%char)
                  && (Ascii.eqb chomp SP || Ascii.eqb chomp "+"%char)
               then [LF] else []).
  assert (H3' : exists ctx3,
             (if (Ascii.eqb mlType "|"%char || Ascii.eqb mlType ">"%char)
                 && (Ascii.eqb chomp SP || Ascii.eqb chomp "+"%char)
              then addToSession [LF] ctx2 else ctx2) = ctx3
             /\ arena ctx3 = arena ctx ++ List.concat (lineTexts sh) ++ tail
             /\ sessionStartIdx ctx3 = u32 (len (arena ctx))
             /\ elements ctx3 = elements ctx /\ _entries ctx3 = _entries ctx
             /\ _entryQty ctx3 = _entryQty ctx /\ _maxEntryQty ctx3 = _maxEntryQty ctx).
  { eexists. split; [reflexivity|]. unfold tail.
    destruct ((Ascii.eqb mlType "|"%char || Ascii.eqb mlType ">"%char)
              && (Ascii.eqb chomp SP || Ascii.eqb chomp "+"%char));
      cbn [addToSession setArena arena sessionStartIdx elements _entries _entryQty _maxEntryQty];
      rewrite Ha, Hs, H1, H2, H3, H4;
      cbn [startStringSession arena sessionStartIdx elements _entries _entryQty _maxEntryQty];
      unfold lineTexts; rewrite ?app_nil_r, <- ?app_assoc; repeat split. }
  destruct H3' as (ctx3 & Heq3 & Ha3 & Hs3 & He3 & Hes3 & Hq3 & Hc3).
  rewrite Heq3 in Hstore. unfold commitSession in Hstore.
  injection Hstore as <- <- <-.
  cbn [setArena arena sessionStartIdx elements _entries _entryQty _maxEntryQty].
  split.
  - unfold sameButArena.
    cbn [setArena arena sessionStartIdx elements _entries _entryQty _maxEntryQty].
    repeat split; try assumption.
    exists ((List.concat (lineTexts sh) ++ tail) ++ [NUL]). rewrite Ha3, <- !app_assoc. reflexivity.
  - exists (List.concat (lineTexts sh) ++ tail).
    cbn [setArena arena sessionStartIdx stringIdx stringSize].
    rewrite Ha3, Hs3, <- !app_assoc. repeat split.
Qed.

Lemma scalarToken_context (text : list ascii) (endIdx initIdx startColNbr_ : Z)
    (ctx : Context) (hdr : ScalarHeader) (tok : TokenParser) (st' : TokState) :
  scalarToken text endIdx initIdx startColNbr_ ctx hdr = Ret (tok, st') ->
  sameButArena ctx (ts_context st') /\ tokenStored ctx (ts_context st') tok.
Proof.
  unfold scalarToken.
  destruct hdr as [[[[[[[mlType chomp] sh1] idx1] colNbr1] lineNbr1] isNewLine1] targetIndent].
  destruct (lineLoop _ _ _ _ _ _ _) as [s| |]; cbn [bind]; try discriminate.
  destruct (storeChunks mlType chomp (applyChomp mlType chomp (ll_sh s)) ctx)
    as [[i n] ctx1] eqn:Hstore.
  intros H. injection H as <- <-. cbn [ts_context].
  destruct (storeChunks_context _ _ _ _ _ _ _ Hstore) as (Hsame & body & Hb1 & Hb2 & Hb3).
  split; [exact Hsame|]. exists body. repeat split; assumption.
Qed.

Lemma getToken_context (text : list ascii) (endIdx parentIndent : Z) (st st' : TokState)
    (tok : TokenParser) :
  getToken text endIdx parentIndent st = Ret (tok, st') ->
  sameButArena (ts_context st) (ts_context st')
  /\ (type tok = TokKey -> tokenStored (ts_context st) (ts_context st') tok).
Proof.
  unfold getToken.
  destruct (_ && Ascii.eqb _ TAB); [discriminate|].
  destruct (endIdx <=? _).
  { intros H. injection H as <- <-. split; [apply sameButArena_refl|discriminate]. }
  destruct (isEol _).
  { intros H. injection H as <- <-. split; [apply sameButArena_refl|discriminate]. }
  destruct (Ascii.eqb _ "-"%char && _).
  { intros H. injection H as <- <-. split; [apply sameButArena_refl|discriminate]. }
  destruct (Ascii.eqb _ "#"%char).
  { unfold addString. intros H. injection H as <- <-.
    split; [|discriminate]. cbn [ts_context]. unfold sameButArena.
    cbn [setArena arena elements _entries _entryQty _maxEntryQty].
    repeat split. eexists. reflexivity. }
  intros H.
  match type of H with
  | bind ?m _ = _ => destruct m as [hdr| |]; cbn [bind] in H; try discriminate H
  end.
  destruct (scalarToken_context _ _ _ _ _ _ _ _ H) as (Hsame & Hstored).
  split; [exact Hsame|]. intros _. exact Hstored.
Qed.

(** ** The cases of the parser, on the context *)

Lemma new_element_ok (ctx : Context) (e0 : Element) :
  getType e0 <> KEY ->
  0 <= len (elements ctx) < len (elements (emplace_back e0 ctx))
  /\ getType (eltAt (emplace_back e0 ctx) (len (elements ctx))) <> KEY.
Proof.
  intros Hk. rewrite len_elements_emplace_back. split; [pose proof (len_nonneg (elements ctx)); lia|].
  rewrite eltAt_emplace_back. unfold len. rewrite Nat2Z.id, Nat.eqb_refl. exact Hk.
Qed.

(** A new element that is not a key, added to the children of [i]. *)
Lemma safeStep_new_child (ctx : Context) (e0 : Element) (i : Z) :
  subs e0 = [] -> getType e0 <> KEY ->
  safeStep ctx (updElt i (add (len (elements ctx))) (emplace_back e0 ctx)).
Proof.
  intros Hs Hk. apply (safeStep_trans _ (emplace_back e0 ctx)).
  - apply safeStep_emplace_back; [exact Hs|]. intros H. contradiction.
  - apply safeStep_add. intros _. apply new_element_ok. exact Hk.
Qed.

Lemma parseComment_safe (token : TokenParser) (isStartingWithNewLine : bool)
    (stack : list ParseItem) (parent : ParseItem) (ctx ctx' : Context) :
  parseComment token isStartingWithNewLine stack parent ctx = Ret ctx' -> safeStep ctx ctx'.
Proof.
  unfold parseComment.
  set (c := if isStartingWithNewLine
            then setStandalone (Element_string COMMENT (stringIdx token) (stringSize token))
            else Element_string COMMENT (stringIdx token) (stringSize token)).
  assert (Hc : subs c = [] /\ getType c <> KEY).
  { unfold c. destruct isStartingWithNewLine; split; cbn; congruence. }
  destruct Hc as (Hsubs & Hkey).
  assert (Hnew : safeStep ctx (emplace_back c ctx)).
  { apply safeStep_emplace_back; [exact Hsubs|]. intros H. contradiction. }
  destruct (negb (NodeType_eqb _ UNKNOWN)).
  - destruct (lastComment _ _ _) as [i| |]; cbn [bind]; try discriminate.
    intros H. injection H as <-.
    apply (safeStep_trans _ (emplace_back c ctx)); [exact Hnew|].
    apply safeStep_setComment. intros _. apply new_element_ok. exact Hkey.
  - intros H. injection H as <-. exact Hnew.
Qed.

Lemma parseCaret_safe (text : list ascii) (token : TokenParser) (tokenLineNbr tokenIdx : Z)
    (stack0 stack : list ParseItem) (parent0 parent : ParseItem) (ctx ctx' : Context) :
  parseCaret text token tokenLineNbr tokenIdx stack0 parent0 ctx = Ret (stack, parent, ctx') ->
  safeStep ctx ctx'.
Proof.
  unfold parseCaret.
  destruct (caretPop ctx (startColNbr token) stack0 parent0) as [stack1 parent1].
  destruct (isNil stack1); [discriminate|].
  destruct ((0 <=? childIndent parent1) && _); [discriminate|].
  intros H.
  match type of H with
  | bind ?m _ = _ => assert (Hfirst : forall r, m = Ret r -> safeStep ctx (snd r))
  end.
  { intros r. destruct (negb _).
    - destruct (NodeType_eqb _ UNKNOWN).
      + intros Hr. injection Hr as <-. cbn [snd]. apply safeStep_reset. discriminate.
      + destruct (_ && _); [discriminate|].
        intros Hr. injection Hr as <-. cbn [snd].
        apply safeStep_new_child; [reflexivity|discriminate].
    - intros Hr. injection Hr as <-. apply safeStep_refl. }
  match type of H with
  | bind ?m _ = _ => destruct m as [[[stack2 parent2] ctx2]| |] eqn:Hm;
                     cbn [bind] in H; try discriminate H
  end.
  specialize (Hfirst _ eq_refl). cbn [snd] in Hfirst.
  injection H as <- <- <-.
  apply (safeStep_trans _ ctx2); [exact Hfirst|].
  apply safeStep_new_child; [reflexivity|discriminate].
Qed.

Lemma keyParent_safe (text : list ascii) (token : TokenParser) (tokenLineNbr tokenIdx : Z)
    (stack0 stack : list ParseItem) (parent0 parent : ParseItem) (ctx ctx' : Context) :
  keyParent text token tokenLineNbr tokenIdx stack0 parent0 ctx = Ret (stack, parent, ctx') ->
  safeStep ctx ctx'.
Proof.
  unfold keyParent.
  destruct (keyPop (startColNbr token) stack0 parent0) as [stack1 parent1].
  destruct (isNil stack1); [discriminate|].
  destruct ((0 <=? childIndent parent1) && _); [discriminate|].
  destruct (if childIndent parent1 <? 0 then _ else _) as [stack2 parent2].
  destruct (negb _).
  - destruct (NodeType_eqb _ UNKNOWN).
    + intros H. injection H as <- <- <-. apply safeStep_reset. discriminate.
    + destruct (_ && _); [discriminate|].
      intros H. injection H as <- <- <-.
      apply safeStep_new_child; [reflexivity|discriminate].
  - intros H. injection H as <- <- <-. apply safeStep_refl.
Qed.

Lemma getType_after_reset (ctx : Context) (i : Z) (kind : NodeType) :
  kind <> KEY -> getType (eltAt (updElt i (reset kind) ctx) i) <> KEY.
Proof.
  intros Hk. rewrite eltAt_updElt. rewrite Nat.eqb_refl. cbn [andb].
  destruct (Nat.ltb_spec (Z.to_nat i) (List.length (elements ctx))) as [Hin|Hout].
  - exact Hk.
  - unfold eltAt. rewrite nth_overflow by exact Hout. discriminate.
Qed.

Lemma parseStringValue_safe (text : list ascii) (token : TokenParser)
    (tokenLineNbr tokenIdx : Z) (stack0 stack : list ParseItem) (parent0 parent : ParseItem)
    (ctx ctx' : Context) :
  parseStringValue text token tokenLineNbr tokenIdx stack0 parent0 ctx
  = Ret (stack, parent, ctx') ->
  safeStep ctx ctx'.
Proof.
  unfold parseStringValue.
  destruct (startColNbr token <=? pindent parent0); [discriminate|].
  destruct ((0 <=? childIndent parent0) && _); [discriminate|].
  destruct (NodeType_eqb (typeAt ctx (eltIdx parent0)) MAP); [discriminate|].
  destruct (if childIndent parent0 <? 0 then _ else _) as [stack1 parent1].
  destruct (NodeType_eqb (typeAt ctx (eltIdx parent1)) UNKNOWN).
  - destruct (NodeType_eqb _ KEY); intros H; injection H as <- <- <-;
      (apply (safeStep_trans _ (updElt (eltIdx parent1) (reset VALUE) ctx));
       [apply safeStep_reset; discriminate
       |apply safeStep_setString; apply getType_after_reset; discriminate]).
  - assert (Hnew : safeStep ctx
                     (updElt (eltIdx parent1) (add (u32 (len (elements ctx))))
                        (emplace_back (Element_string VALUE (stringIdx token) (stringSize token))
                           ctx))).
    { destruct (Z.le_gt_cases (len (elements ctx)) (2 ^ 28)) as [Hsmall|Hbig].
      + rewrite u32_small by (pose proof (len_nonneg (elements ctx)); lia).
        apply safeStep_new_child; [reflexivity|discriminate].
      + split.
        * split; [rewrite len_elements_updElt, len_elements_emplace_back; lia|cbn; lia].
        * intros (Hs & _). rewrite len_elements_updElt, len_elements_emplace_back in Hs. lia. }
    destruct (NodeType_eqb _ KEY); intros H; injection H as <- <- <-; exact Hnew.
Qed.

(** ** A new key in a map *)

Lemma land_CompoundMask (x : Z) : 0 <= x <= 2 ^ 28 -> Z.land x CompoundMask = x.
Proof.
  intros Hx. change CompoundMask with (Z.ones 29). rewrite Z.land_ones by lia.
  apply Z.mod_small. change (2 ^ 28) with 268435456 in Hx. change (2 ^ 29) with 536870912. lia.
Qed.

Lemma tokenStored_inArena (ctx ctx' : Context) (tok : TokenParser) :
  tokenStored ctx ctx' tok -> len (arena ctx') <= 2 ^ 28 -> tokenInArena ctx' tok.
Proof.
  intros (body & Ha & Hi & Hn) Hsize.
  rewrite Ha, !len_app in Hsize. change (len [NUL]) with 1 in Hsize.
  pose proof (len_nonneg (arena ctx)). pose proof (len_nonneg body).
  rewrite (u32_small (len (arena ctx))) in Hi, Hn by lia.
  rewrite Ha, !len_app in Hn. change (len [NUL]) with 1 in Hn.
  rewrite u32_small in Hn by lia.
  unfold tokenInArena. rewrite Ha, !len_app, Hi, Hn. change (len [NUL]) with 1. lia.
Qed.

(** The keys of the maps once the key element [n] has been added to the
    children of [p]: the keys that were there, and the new one. *)
Lemma keyAt_add_key (ctx : Context) (p n : Z) :
  wfElements ctx -> 0 <= p -> 0 <= n < len (elements ctx) ->
  getType (eltAt ctx n) = KEY ->
  wfElements (updElt p (add n) ctx)
  /\ forall pi c name,
       keyAt (updElt p (add n) ctx) pi c name ->
       keyAt ctx pi c name
       \/ (pi = p /\ c = getSubQty (eltAt (updElt p (add n) ctx) p) - 1
           /\ name = nameOf ctx (eltAt ctx n)).
Proof.
  intros (Hwf1 & Hwf2) Hp Hn Hkn.
  set (ctx' := updElt p (add n) ctx).
  assert (Helt : forall j, eltAt ctx' j
                           = if (Z.to_nat p =? Z.to_nat j)%nat
                                && (Z.to_nat p <? List.length (elements ctx))%nat
                             then add n (eltAt ctx p) else eltAt ctx j).
  { intros j. apply eltAt_updElt. }
  assert (Hkeys : forall j, getType (eltAt ctx' j) = KEY ->
                    getType (eltAt ctx j) = KEY
                    /\ typed0 (eltAt ctx' j) = typed0 (eltAt ctx j)
                    /\ compound (eltAt ctx' j) = compound (eltAt ctx j)).
  { intros j. rewrite Helt.
    destruct ((Z.to_nat p =? Z.to_nat j)%nat && _) eqn:Hsame; [|auto].
    apply andb_true_iff in Hsame. destruct Hsame as [Heq _]. apply Nat.eqb_eq in Heq.
    assert (Hj : eltAt ctx j = eltAt ctx p) by (unfold eltAt; rewrite Heq; reflexivity).
    rewrite Hj, getType_add. intros Hk. split; [exact Hk|]. apply add_KEY. exact Hk. }
  split; [split|].
  - intros j x Ht Hx. unfold ctx' at 1. rewrite len_elements_updElt.
    rewrite Helt in Ht, Hx.
    destruct ((Z.to_nat p =? Z.to_nat j)%nat && _).
    + rewrite getType_add in Ht. rewrite subs_add in Hx by congruence.
      apply in_app_or in Hx. destruct Hx as [Hx|[<-|[]]]; [|exact Hn].
      apply (Hwf1 p x); assumption.
    + apply (Hwf1 j x); assumption.
  - intros j Ht. destruct (Hkeys j Ht) as (Hk & H0 & Hc).
    specialize (Hwf2 j Hk). unfold keyStringOk in *. rewrite H0, Hc. exact Hwf2.
  - intros pi c name (Hpi & Ht & Hc & Hck & Hname).
    destruct (Hkeys _ Hck) as (Hck0 & Hc0 & Hcc).
    assert (Hname0 : nameOf ctx (eltAt ctx (getSub c (eltAt ctx' pi))) = name).
    { rewrite nameOf_KEY in Hname by exact Hck. rewrite nameOf_KEY by exact Hck0.
      rewrite <- Hc0, <- Hcc. exact Hname. }
    rewrite (Helt pi) in Ht, Hc, Hck0, Hname0.
    destruct ((Z.to_nat p =? Z.to_nat pi)%nat && _) eqn:Hsame.
    + apply andb_true_iff in Hsame. destruct Hsame as [Heq Hin]. apply Nat.eqb_eq in Heq.
      assert (Hpp : pi = p) by lia. subst pi.
      rewrite getType_add in Ht.
      rewrite (getSubQty_MAP (add n (eltAt ctx p))) in Hc by (rewrite getType_add; exact Ht).
      rewrite subs_add, len_app in Hc by congruence. change (len [n]) with 1 in Hc.
      destruct (Z.lt_ge_cases c (len (subs (eltAt ctx p)))) as [Hold|Hnew].
      * left.
        assert (Hsub : getSub c (add n (eltAt ctx p)) = getSub c (eltAt ctx p)).
        { unfold getSub. rewrite subs_add by congruence. apply app_nth1.
          unfold len in Hold. lia. }
        rewrite Hsub in Hck0, Hname0. unfold keyAt. rewrite (getSubQty_MAP _ Ht).
        repeat split; try assumption; lia.
      * right. split; [reflexivity|].
        assert (Hce : c = len (subs (eltAt ctx p))) by lia.
        split.
        -- rewrite (Helt p), Nat.eqb_refl, Hin. cbn [andb].
           rewrite (getSubQty_MAP (add n (eltAt ctx p))) by (rewrite getType_add; exact Ht).
           rewrite subs_add, len_app by congruence. change (len [n]) with 1. lia.
        -- assert (Hsub : getSub c (add n (eltAt ctx p)) = n).
           { unfold getSub. rewrite subs_add by congruence. rewrite Hce. unfold len.
             rewrite Nat2Z.id. apply nth_middle. }
           rewrite Hsub in Hname0. symmetry. exact Hname0.
    + left. unfold keyAt. repeat split; try assumption; lia.
Qed.

(** ** A key that is already in the map *)

Lemma strncmpEq_same (n : nat) (s1 s2 : Z -> ascii) :
  forall i, (forall j, i <= j < i + Z.of_nat n -> s1 j = s2 j) -> strncmpEq n s1 s2 i = true.
Proof.
  induction n as [|n IH]; intros i H; [reflexivity|].
  cbn [strncmpEq]. rewrite (H i) by lia. rewrite Ascii.eqb_refl.
  destruct (Ascii.eqb (s2 i) NUL); [reflexivity|].
  apply IH. intros j Hj. apply H. lia.
Qed.

Lemma at_slice (a : list ascii) (i n j : Z) :
  0 <= i -> 0 <= j < n -> i + n <= len a -> at_ (slice a i n) j = at_ a (i + j).
Proof.
  intros Hi Hj Hle. unfold at_, slice, len in *.
  destruct (Z.ltb_spec j 0); [lia|]. destruct (Z.ltb_spec (i + j) 0); [lia|].
  rewrite nth_firstn.
  destruct (Nat.ltb_spec (Z.to_nat j) (Z.to_nat n)); [|lia].
  rewrite nth_skipn. f_equal. lia.
Qed.

(** The entry of a key of the map matches the name of that key. *)
Lemma cellMatches_keyAt (ctx : Context) (p c h : Z) (key : list ascii) :
  keyAt ctx p c key -> keyStringOk ctx (eltAt ctx (getSub c (eltAt ctx p))) ->
  len (arena ctx) <= 2 ^ 28 ->
  cellMatches ctx (eltAt ctx p) key (len key) h (mkEntry h c) = true.
Proof.
  intros (Hp & Ht & Hc & Hck & Hname) (H0 & H1 & H2) Hsize.
  set (child := eltAt ctx (getSub c (eltAt ctx p))) in *.
  rewrite nameOf_KEY in Hname by exact Hck.
  rewrite u32_small in Hname by lia.
  assert (Hlen : len key = compound child - 1).
  { rewrite <- Hname. apply len_slice; lia. }
  unfold cellMatches. cbn [hash childIndex]. rewrite Z.eqb_refl. cbn [negb orb].
  destruct (Z.leb_spec (getSubQty (eltAt ctx p)) c) as [Hle|_]; [lia|].
  fold child. apply andb_true_iff. split; [apply andb_true_iff; split|].
  - apply NodeType_eqb_eq. exact Hck.
  - apply Z.eqb_eq. unfold getStringSize, getCompound. rewrite u32_small by lia. lia.
  - apply strncmpEq_same. intros j Hj. unfold getString, getStringIdx.
    unfold getType in Hck. rewrite Hck, <- Hname.
    rewrite at_slice by lia. reflexivity.
Qed.

Lemma search_hits_within (minHash : Z) (isMatch : Entry -> bool) (es : list Entry)
    (pre post : list Z) (slot : Z) :
  (forall x, In x pre -> minHash <= hash (cellAt es x)) ->
  minHash <= hash (cellAt es slot) -> isMatch (cellAt es slot) = true ->
  exists s, search minHash isMatch es (pre ++ slot :: post) = Ret (Hit s).
Proof.
  induction pre as [|x r IH]; intros Hpre Hslot Hm; cbn [app search].
  - fold (cellAt es slot). destruct (Z.leb_spec minHash (hash (cellAt es slot))); [|lia].
    rewrite Hm. eauto.
  - fold (cellAt es x). pose proof (Hpre x (or_introl eq_refl)) as Hx.
    destruct (Z.leb_spec minHash (hash (cellAt es x))); [|lia].
    destruct (isMatch (cellAt es x)); [eauto|].
    apply IH; [|assumption|assumption]. intros y Hy. apply Hpre. right. exact Hy.
Qed.

(** From the boolean test on the children to a key of the map. *)
Lemma hasKeyChild_keyAt (ctx : Context) (p : Z) (key : list ascii) :
  0 <= p -> getType (eltAt ctx p) = MAP ->
  hasKeyChild ctx (eltAt ctx p) key = true ->
  exists c, keyAt ctx p c key.
Proof.
  intros Hp Ht Hhas. unfold hasKeyChild in Hhas. apply existsb_exists in Hhas.
  destruct Hhas as (c & Hc & Hnamed). apply in_zseq in Hc.
  unfold childNamed in Hnamed. apply andb_true_iff in Hnamed. destruct Hnamed as [Hk Hn].
  apply NodeType_eqb_eq in Hk. apply bytes_eqb_eq in Hn.
  exists c. unfold keyAt. repeat split; try assumption; try lia.
Qed.


(** ** The message of the error *)

Lemma list_ascii_of_string_app (a b : string) :
  list_ascii_of_string (a ++ b) = list_ascii_of_string a ++ list_ascii_of_string b.
Proof. induction a as [|c a IH]; [reflexivity|]. cbn. rewrite IH. reflexivity. Qed.

Lemma isPrefix_app (c a b : list ascii) : isPrefix c a = true -> isPrefix c (a ++ b) = true.
Proof.
  revert a. induction c as [|x c IH]; intros a H; [reflexivity|].
  destruct a as [|y a]; [discriminate H|]. cbn [isPrefix app] in *.
  apply andb_true_iff in H. destruct H as [Hxy Hc]. rewrite Hxy, (IH a Hc). reflexivity.
Qed.

Lemma containsL_app (c a b : list ascii) : containsL c a = true -> containsL c (a ++ b) = true.
Proof.
  induction a as [|y a IH]; intros H.
  - cbn [containsL] in H. rewrite orb_false_r in H.
    destruct c; [destruct b; reflexivity|discriminate H].
  - cbn [containsL app] in *. apply orb_true_iff in H. destruct H as [H|H].
    + pose proof (isPrefix_app c (y :: a) b H) as Hp. cbn [app] in Hp.
      rewrite Hp. reflexivity.
    + rewrite (IH H). apply orb_true_r.
Qed.

Lemma parsingMessage_prefix (lineNbr : Z) (text : list ascii) (lineStart : Z)
    (message : string) :
  exists rest,
    list_ascii_of_string (parsingMessage lineNbr text lineStart message)
    = firstn 351 (list_ascii_of_string message) ++ rest.
Proof.
  unfold parsingMessage, truncate.
  destruct (351 <? Z.of_nat (String.length message)).
  - exists []. rewrite list_ascii_of_string_of_list_ascii, app_nil_r. reflexivity.
  - destruct (lineCopy text lineStart);
      rewrite !list_ascii_of_string_app, list_ascii_of_string_of_list_ascii;
      rewrite <- ?app_assoc; eexists; reflexivity.
Qed.


(** ** The key case of the parser *)

Section KeyInsert.
Variables (text : list ascii) (token : TokenParser) (tokenLineNbr tokenIdx : Z).
Variables (stack : list ParseItem) (parent : ParseItem) (ctx : Context).
Hypothesis parent_unsigned : 0 <= eltIdx parent.
Hypothesis token_stored : tokenInArena ctx token.
Hypothesis ctx_inv : parseInv ctx.
Hypothesis ctx_sizes : len (elements ctx) + 2 <= 2 ^ 28 /\ len (arena ctx) <= 2 ^ 28.

Let keyElt : Element := Element_string KEY (stringIdx token) (stringSize token).
Let ctx1 : Context := emplace_back keyElt ctx.
Let ctx2 : Context := updElt (eltIdx parent) (add (len (elements ctx))) ctx1.
Let key : list ascii := slice (arena ctx2) (stringIdx token) (u32 (stringSize token - 1)).

Lemma keyInsert_key : key = slice (arena ctx) (stringIdx token) (stringSize token - 1)
                      /\ len key = stringSize token - 1
                      /\ u32 (stringSize token - 1) = len key.
Proof.
  destruct token_stored as (H0 & H1 & H2).
  unfold key. cbn [ctx2 ctx1 updElt setElt emplace_back arena].
  rewrite u32_small by lia. split; [reflexivity|].
  rewrite len_slice by lia. split; reflexivity.
Qed.

Lemma keyInsert_keyElt : keyStringOk ctx keyElt /\ nameOf ctx1 keyElt = key.
Proof.
  destruct token_stored as (H0 & H1 & H2).
  destruct keyInsert_key as (Hk & _ & _).
  unfold keyElt, Element_string, keyStringOk, nameOf, getStringIdx, getStringSize, getCompound.
  cbn [typed0 compound etype]. rewrite land_CompoundMask by lia.
  split; [lia|]. rewrite Hk. rewrite u32_small by lia. reflexivity.
Qed.

Lemma keyInsert_ctx1 : parseInv ctx1.
Proof.
  destruct ctx_sizes as (Hs1 & Hs2).
  apply (safeStep_emplace_back ctx keyElt); [reflexivity|intros _; apply keyInsert_keyElt| |exact ctx_inv].
  split; [unfold ctx1; rewrite len_elements_emplace_back; lia|exact Hs2].
Qed.

Lemma keyInsert_ctx2 :
  tableInv ctx2 /\ wfElements ctx2
  /\ _entryQty ctx2 < len (elements ctx2) /\ len (elements ctx2) <= 2 ^ 28
  /\ forall pi c name,
       keyAt ctx2 pi c name ->
       keyAt ctx1 pi c name
       \/ (pi = eltIdx parent /\ c = getSubQty (eltAt ctx2 (eltIdx parent)) - 1 /\ name = key).
Proof.
  destruct keyInsert_ctx1 as (Htab & Hidx & Hwf).
  destruct ctx_sizes as (Hs1 & Hs2).
  assert (Hn : 0 <= len (elements ctx) < len (elements ctx1)).
  { unfold ctx1. rewrite len_elements_emplace_back. pose proof (len_nonneg (elements ctx)). lia. }
  assert (Hnew : eltAt ctx1 (len (elements ctx)) = keyElt).
  { unfold ctx1. rewrite eltAt_emplace_back. unfold len. rewrite Nat2Z.id, Nat.eqb_refl.
    reflexivity. }
  destruct (keyAt_add_key ctx1 (eltIdx parent) (len (elements ctx)) Hwf parent_unsigned Hn)
    as (Hwf2 & Hkeys); [rewrite Hnew; reflexivity|].
  fold ctx2 in Hwf2, Hkeys.
  assert (Hlen2 : len (elements ctx2) = len (elements ctx) + 1).
  { unfold ctx2. rewrite len_elements_updElt. unfold ctx1. apply len_elements_emplace_back. }
  split; [|split; [exact Hwf2|split; [|split; [lia|]]]].
  - apply (tableInv_same_table ctx1); try reflexivity; [|exact Htab].
    unfold ctx2. rewrite len_elements_updElt. lia.
  - destruct ctx_inv as ((_ & _ & _ & _ & _ & _ & Hq) & _). 
    change (_entryQty ctx2) with (_entryQty ctx). lia.
  - intros pi c name Hk. destruct (Hkeys pi c name Hk) as [Hold|(Hpi & Hc & Hname)];
      [left; exact Hold|right].
    split; [exact Hpi|]. split; [exact Hc|].
    rewrite Hname, Hnew. apply keyInsert_keyElt.
Qed.

(** The key is new: the context after the case keeps the invariant. *)
Lemma keyInsert_safe (stack' : list ParseItem) (parent' : ParseItem) (ctx' : Context) :
  keyInsert text token tokenLineNbr tokenIdx stack parent ctx = Ret (stack', parent', ctx') ->
  grows ctx ctx' /\ (sizes ctx' -> parseInv ctx').
Proof.
  destruct keyInsert_ctx2 as (Htab2 & Hwf2 & Hq2 & Hl2 & Hkeys2).
  destruct keyInsert_key as (_ & Hklen & Hku).
  destruct keyInsert_ctx1 as (_ & Hidx1 & _).
  unfold keyInsert. fold keyElt. fold ctx1. fold ctx2. fold key.
  destruct (addMapChildIndex_parse ctx2 (eltIdx parent) (u32 (stringSize token - 1))
              (getSubQty (eltAt ctx2 (eltIdx parent)) - 1) key (eltAt ctx2 (eltIdx parent))
              Htab2 Hq2 Hl2 parent_unsigned)
    as (inserted & ctx3 & Hadd & Hins).
  rewrite Hadd. cbn [bind].
  destruct inserted; cbn [negb]; [|discriminate].
  destruct (Hins eq_refl) as (He3 & Ha3 & Htab3 & Hkeep & Hnew).
  intros H. injection H as <- <- <-.
  assert (Hinv3 : parseInv ctx3).
  { split; [exact Htab3|]. split.
    - intros pi c name Hk.
      assert (Hk2 : keyAt ctx2 pi c name).
      { destruct Hk as (Hpi & Ht & Hc & Hck & Hname).
        rewrite !(eltAt_same_elements ctx2 ctx3) in * by exact He3.
        unfold nameOf in Hname. rewrite Ha3 in Hname. unfold keyAt, nameOf.
        repeat split; try assumption; lia. }
      destruct (Hkeys2 pi c name Hk2) as [Hold|(-> & -> & ->)].
      + apply Hkeep; [apply keyHashOf_valid; destruct Hold; assumption|].
        apply Hidx1. exact Hold.
      + rewrite <- Hku. exact Hnew.
    - destruct Hwf2 as (Hw1 & Hw2). split.
      + intros j x Ht Hx. rewrite (eltAt_same_elements ctx2 ctx3) in * by exact He3.
        rewrite He3. apply (Hw1 j x); assumption.
      + intros j Ht. rewrite (eltAt_same_elements ctx2 ctx3) in * by exact He3.
        specialize (Hw2 j Ht). unfold keyStringOk in *. rewrite Ha3. exact Hw2. }
  pose proof (safeStep_new_child ctx3 (Element_kind UNKNOWN)
                (eltIdx (stackBack (mkParseItem (len (elements ctx)) (startColNbr token) (-1)
                                      :: (if childIndent parent <? 0
                                          then setBack (withChildIndent (startColNbr token)) stack
                                          else stack))))
                eq_refl ltac:(discriminate)) as (Hg & Hstep).
  split.
  - destruct Hg as (Hg1 & Hg2). unfold grows.
    assert (He : len (elements ctx3) = len (elements ctx2)) by (rewrite He3; reflexivity).
    assert (Ha : len (arena ctx3) = len (arena ctx)) by (rewrite Ha3; reflexivity).
    assert (Hlen2 : len (elements ctx2) = len (elements ctx) + 1).
    { unfold ctx2. rewrite len_elements_updElt. unfold ctx1. apply len_elements_emplace_back. }
    split; [eapply Z.le_trans; [|exact Hg1]|eapply Z.le_trans; [|exact Hg2]]; lia.
  - intros Hs. apply Hstep; assumption.
Qed.


End KeyInsert.

(** ** What the index operations leave alone *)

Lemma addMapChildIndex_frame (pi keySize c : Z) (key : list ascii) (parentElt : Element)
    (ctx ctx' : Context) (isNew : bool) :
  addMapChildIndex pi key keySize parentElt c ctx = Ret (isNew, ctx') ->
  elements ctx' = elements ctx /\ arena ctx' = arena ctx.
Proof.
  unfold addMapChildIndex.
  destruct (probe _ _ _ _ _ _ _) as [[slot|slot]| |]; cbn [bind]; try discriminate.
  - intros H. injection H as _ <-. split; reflexivity.
  - unfold addNewEntry.
    destruct (_ <? _).
    + unfold resize. destruct (resize_transfer _ _ _ _) as [es| |]; cbn [bind]; try discriminate.
      intros H. injection H as _ <-. split; reflexivity.
    + intros H. injection H as _ <-. split; reflexivity.
Qed.

(** The key case adds two elements when it returns. *)
Lemma keyInsert_grows (text : list ascii) (token : TokenParser) (tokenLineNbr tokenIdx : Z)
    (stack stack' : list ParseItem) (parent parent' : ParseItem) (ctx ctx' : Context) :
  keyInsert text token tokenLineNbr tokenIdx stack parent ctx = Ret (stack', parent', ctx') ->
  len (elements ctx') = len (elements ctx) + 2 /\ arena ctx' = arena ctx.
Proof.
  unfold keyInsert.
  destruct (addMapChildIndex _ _ _ _ _ _) as [[isNew ctx3]| |] eqn:Hadd; cbn [bind];
    try discriminate.
  destruct (addMapChildIndex_frame _ _ _ _ _ _ _ _ Hadd) as (He & Ha).
  destruct isNew; cbn [negb]; [|discriminate].
  intros H. injection H as _ _ <-.
  rewrite len_elements_updElt, len_elements_emplace_back, He.
  rewrite len_elements_updElt, len_elements_emplace_back.
  split; [lia|]. cbn [updElt setElt emplace_back arena]. exact Ha.
Qed.

(** ** The stack of the parser *)

Lemma stackOk_back (stack : list ParseItem) :
  Forall (fun it => 0 <= eltIdx it) stack -> 0 <= eltIdx (stackBack stack).
Proof.
  intros H. destruct H as [|it r Hit _]; cbn [stackBack hd noItem eltIdx]; [lia|exact Hit].
Qed.

Lemma stackOk_prev (stack : list ParseItem) :
  Forall (fun it => 0 <= eltIdx it) stack -> 0 <= eltIdx (stackPrev stack).
Proof.
  intros H. unfold stackPrev.
  destruct H as [|it r _ Hr]; cbn [nth noItem eltIdx]; [lia|].
  destruct Hr as [|it2 r2 Hit2 _]; cbn [nth noItem eltIdx]; [lia|exact Hit2].
Qed.

Lemma stackOk_tl (stack : list ParseItem) :
  Forall (fun it => 0 <= eltIdx it) stack -> Forall (fun it => 0 <= eltIdx it) (tl stack).
Proof. intros H. destruct H as [|it r _ Hr]; cbn [tl]; [constructor|exact Hr]. Qed.

Lemma stackOk_setBack (f : ParseItem -> ParseItem) (stack : list ParseItem) :
  (forall it, eltIdx (f it) = eltIdx it) ->
  Forall (fun it => 0 <= eltIdx it) stack ->
  Forall (fun it => 0 <= eltIdx it) (setBack f stack).
Proof.
  intros Hf H. destruct H as [|it r Hit Hr]; cbn [setBack]; constructor; [|exact Hr].
  rewrite Hf. exact Hit.
Qed.

Lemma stackOk_setPrev (f : ParseItem -> ParseItem) (stack : list ParseItem) :
  (forall it, eltIdx (f it) = eltIdx it) ->
  Forall (fun it => 0 <= eltIdx it) stack ->
  Forall (fun it => 0 <= eltIdx it) (setPrev f stack).
Proof.
  intros Hf H. destruct H as [|it r Hit Hr]; cbn [setPrev]; [constructor|].
  destruct Hr as [|it2 r2 Hit2 Hr2]; constructor; try assumption; try constructor; try assumption.
  rewrite Hf. exact Hit2.
Qed.

Lemma stackOk_push (i pind cind : Z) (stack : list ParseItem) :
  0 <= i -> Forall (fun it => 0 <= eltIdx it) stack ->
  stackOk (mkParseItem i pind cind :: stack) (stackBack (mkParseItem i pind cind :: stack)).
Proof.
  intros Hi H. split; [constructor; [exact Hi|exact H]|exact Hi].
Qed.

Lemma caretPop_stackOk (ctx : Context) (colNbr : Z) (stack : list ParseItem) :
  forall parent, stackOk stack parent ->
    stackOk (fst (caretPop ctx colNbr stack parent)) (snd (caretPop ctx colNbr stack parent)).
Proof.
  induction stack as [|it rest IH]; intros parent (Hs & Hp); cbn [caretPop].
  - split; assumption.
  - destruct (_ && _ && _ && _).
    + apply IH. inversion Hs; subst. split; [assumption|]. apply stackOk_back. assumption.
    + split; assumption.
Qed.

Lemma keyPop_stackOk (colNbr : Z) (stack : list ParseItem) :
  forall parent, stackOk stack parent ->
    stackOk (fst (keyPop colNbr stack parent)) (snd (keyPop colNbr stack parent)).
Proof.
  induction stack as [|it rest IH]; intros parent (Hs & Hp); cbn [keyPop].
  - split; assumption.
  - destruct (colNbr <=? pindent parent).
    + apply IH. inversion Hs; subst. split; [assumption|]. apply stackOk_back. assumption.
    + split; assumption.
Qed.

Lemma stackOk_childIndent (c : Z) (stack : list ParseItem) (parent : ParseItem) (b : bool) :
  stackOk stack parent ->
  stackOk (fst (if b then (setBack (withChildIndent c) stack,
                           stackBack (setBack (withChildIndent c) stack))
                else (stack, parent)))
          (snd (if b then (setBack (withChildIndent c) stack,
                           stackBack (setBack (withChildIndent c) stack))
                else (stack, parent))).
Proof.
  intros (Hs & Hp). destruct b; cbn [fst snd]; [|split; assumption].
  assert (H : Forall (fun it => 0 <= eltIdx it) (setBack (withChildIndent c) stack)).
  { apply stackOk_setBack; [reflexivity|exact Hs]. }
  split; [exact H|apply stackOk_back; exact H].
Qed.

Lemma parseCaret_stackOk (text : list ascii) (token : TokenParser) (tokenLineNbr tokenIdx : Z)
    (stack0 stack : list ParseItem) (parent0 parent : ParseItem) (ctx ctx' : Context) :
  parseCaret text token tokenLineNbr tokenIdx stack0 parent0 ctx = Ret (stack, parent, ctx') ->
  stackOk stack0 parent0 -> stackOk stack parent.
Proof.
  unfold parseCaret. intros H Hok.
  pose proof (caretPop_stackOk ctx (startColNbr token) stack0 parent0 Hok) as Hpop.
  destruct (caretPop ctx (startColNbr token) stack0 parent0) as [stack1 parent1].
  cbn [fst snd] in Hpop. destruct Hpop as (Hs1 & Hp1).
  destruct (isNil stack1); [discriminate|].
  destruct ((0 <=? childIndent parent1) && _); [discriminate|].
  match type of H with
  | bind ?m _ = _ =>
      assert (Hfirst : forall r, m = Ret r ->
                Forall (fun it => 0 <= eltIdx it) (fst (fst r)))
  end.
  { intros r. destruct (negb _).
    - destruct (NodeType_eqb _ UNKNOWN).
      + intros Hr. injection Hr as <-. cbn [fst].
        assert (Hb : Forall (fun it => 0 <= eltIdx it)
                       (setBack (fun it => mkParseItem (eltIdx it) (startColNbr token)
                                             (startColNbr token)) stack1)).
        { apply stackOk_setBack; [reflexivity|exact Hs1]. }
        destruct (_ <? 0); [|exact Hb].
        apply stackOk_setPrev; [reflexivity|exact Hb].
      + destruct (_ && _); [discriminate|].
        intros Hr. injection Hr as <-. cbn [fst].
        constructor; [cbn [eltIdx]; apply len_nonneg|exact Hs1].
    - intros Hr. injection Hr as <-. exact Hs1. }
  destruct (if negb _ then _ else _) as [[[stack2 parent2] ctx2]| |]; cbn [bind] in H;
    try discriminate.
  specialize (Hfirst _ eq_refl). cbn [fst] in Hfirst.
  injection H as <- <- _.
  apply stackOk_push; [apply len_nonneg|exact Hfirst].
Qed.

Lemma keyParent_stackOk (text : list ascii) (token : TokenParser) (tokenLineNbr tokenIdx : Z)
    (stack0 stack : list ParseItem) (parent0 parent : ParseItem) (ctx ctx' : Context) :
  keyParent text token tokenLineNbr tokenIdx stack0 parent0 ctx = Ret (stack, parent, ctx') ->
  stackOk stack0 parent0 -> stackOk stack parent.
Proof.
  unfold keyParent. intros H Hok.
  pose proof (keyPop_stackOk (startColNbr token) stack0 parent0 Hok) as Hpop.
  destruct (keyPop (startColNbr token) stack0 parent0) as [stack1 parent1].
  cbn [fst snd] in Hpop.
  destruct (isNil stack1); [discriminate|].
  destruct ((0 <=? childIndent parent1) && _); [discriminate|].
  pose proof (stackOk_childIndent (startColNbr token) stack1 parent1
                (childIndent parent1 <? 0) Hpop) as Hci.
  cbv zeta in H.
  destruct (if childIndent parent1 <? 0 then _ else _) as [stack2 parent2].
  cbn [fst snd] in Hci. destruct Hci as (Hs2 & Hp2).
  destruct (negb _).
  - destruct (NodeType_eqb _ UNKNOWN).
    + injection H as <- <- _. split; assumption.
    + destruct (_ && _); [discriminate|].
      injection H as <- <- _. apply stackOk_push; [apply len_nonneg|exact Hs2].
  - injection H as <- <- _. split; assumption.
Qed.

Lemma keyInsert_stackOk (text : list ascii) (token : TokenParser) (tokenLineNbr tokenIdx : Z)
    (stack stack' : list ParseItem) (parent parent' : ParseItem) (ctx ctx' : Context) :
  keyInsert text token tokenLineNbr tokenIdx stack parent ctx = Ret (stack', parent', ctx') ->
  stackOk stack parent -> stackOk stack' parent'.
Proof.
  unfold keyInsert. intros H (Hs & Hp).
  destruct (addMapChildIndex _ _ _ _ _ _) as [[isNew ctx3]| |]; cbn [bind] in H;
    try discriminate.
  destruct isNew; cbn [negb] in H; [|discriminate].
  injection H as <- <- _.
  apply stackOk_push; [apply len_nonneg|].
  constructor; [cbn [eltIdx]; apply len_nonneg|].
  destruct (_ <? 0); [|exact Hs]. apply stackOk_setBack; [reflexivity|exact Hs].
Qed.

Lemma parseStringValue_stackOk (text : list ascii) (token : TokenParser)
    (tokenLineNbr tokenIdx : Z) (stack0 stack : list ParseItem) (parent0 parent : ParseItem)
    (ctx ctx' : Context) :
  parseStringValue text token tokenLineNbr tokenIdx stack0 parent0 ctx
  = Ret (stack, parent, ctx') ->
  stackOk stack0 parent0 -> stackOk stack parent.
Proof.
  unfold parseStringValue. intros H Hok.
  destruct (startColNbr token <=? pindent parent0); [discriminate|].
  destruct ((0 <=? childIndent parent0) && _); [discriminate|].
  destruct (NodeType_eqb (typeAt ctx (eltIdx parent0)) MAP); [discriminate|].
  pose proof (stackOk_childIndent (startColNbr token) stack0 parent0
                (childIndent parent0 <? 0) Hok) as Hci.
  cbv zeta in H.
  destruct (if childIndent parent0 <? 0 then _ else _) as [stack1 parent1].
  cbn [fst snd] in Hci. destruct Hci as (Hs1 & Hp1).
  pose proof (stackOk_tl stack1 Hs1) as Htl.
  pose proof (stackOk_back _ Htl) as Htlb.
  pose proof (stackOk_back _ (stackOk_tl _ Htl)) as Htlb2.
  destruct (NodeType_eqb (typeAt ctx (eltIdx parent1)) UNKNOWN).
  - destruct (NodeType_eqb _ KEY); injection H as <- <- _.
    + split; [apply stackOk_tl; exact Htl|exact Htlb2].
    + split; assumption.
  - destruct (NodeType_eqb _ KEY); injection H as <- <- _.
    + split; assumption.
    + split; assumption.
Qed.

(** ** The tokenizer moves forward *)

Lemma skipWhile_ge (text : list ascii) (endIdx : Z) (p : ascii -> bool) (i : Z) :
  i <= skipWhile text endIdx p i.
Proof.
  unfold skipWhile.
  destruct (scanFwd_spec (fun j => (endIdx <=? j) || negb (p (at_ text j)))
              (Z.to_nat (endIdx - i)) i) as (Hr & _).
  lia.
Qed.

Lemma skipWhile_stay (text : list ascii) (endIdx : Z) (p : ascii -> bool) (i : Z) :
  p (at_ text i) = false -> skipWhile text endIdx p i = i.
Proof.
  intros H. unfold skipWhile. destruct (Z.to_nat (endIdx - i)); cbn [scanFwd]; [reflexivity|].
  rewrite H. cbn [negb]. rewrite orb_true_r. reflexivity.
Qed.

Lemma skipWhileNoBound_ge (text : list ascii) (p : ascii -> bool) (i : Z) :
  i <= skipWhileNoBound text p i.
Proof.
  unfold skipWhileNoBound.
  destruct (scanFwd_spec (fun j => negb (p (at_ text j))) (Z.to_nat (len text - i)) i)
    as (Hr & _).
  lia.
Qed.

Lemma singleQuoteScan_ge (text : list ascii) (endIdx : Z) (fuel : nat) :
  forall (i c : Z) (b : bool) (sh : StringHelper),
    i <= fst (fst (fst (fst (singleQuoteScan fuel text endIdx i c b sh)))).
Proof.
  induction fuel as [|f IH]; intros i c b sh; cbn [singleQuoteScan]; [cbn [fst]; lia|].
  destruct (_ && _); [|cbn [fst]; lia].
  destruct (negb _).
  - specialize (IH (i + 1) c b sh). lia.
  - destruct (_ && _); [|cbn [fst]; lia].
    match goal with
    | |- _ <= fst (fst (fst (fst (singleQuoteScan f text endIdx _ _ _ ?sh2)))) =>
        specialize (IH (i + 2) (i + 2) false sh2)
    end.
    lia.
Qed.

Lemma doubleQuoteScan_ge (text : list ascii) (endIdx : Z) (fuel : nat) :
  forall (i c : Z) (b : bool) (sh : StringHelper),
    i <= fst (fst (fst (doubleQuoteScan fuel text endIdx i c b sh))).
Proof.
  induction fuel as [|f IH]; intros i c b sh; cbn [doubleQuoteScan]; [cbn [fst]; lia|].
  destruct (_ && _ && _); [|cbn [fst]; lia].
  destruct (negb _).
  - specialize (IH (i + 1) c b sh). lia.
  - destruct (if b && _ then _ else _) as [sh1 b1].
    destruct (i + 1 <? endIdx).
    + set (sh2 := if c <? i then _ else _).
      assert (Hskip : i <= skipWhileNoBound text isSpace
                            (if Ascii.eqb (at_ text (if Ascii.eqb (at_ text (i + 1)) CR
                                                     then i + 1 + 1 else i + 1)) LF
                             then (if Ascii.eqb (at_ text (i + 1)) CR then i + 1 + 1 else i + 1) + 1
                             else (if Ascii.eqb (at_ text (i + 1)) CR then i + 1 + 1 else i + 1))
                          - 1).
      { match goal with
        | |- _ <= skipWhileNoBound text isSpace ?x - 1 =>
            pose proof (skipWhileNoBound_ge text isSpace x) as Hge;
            assert (i + 1 <= x) by (repeat destruct (Ascii.eqb _ _); lia)
        end.
        lia. }
      destruct (if Ascii.eqb (at_ text (i + 1)) "n"%char then _ else _) as [sh3 e] eqn:Hesc.
      assert (He : i <= e).
      { repeat match type of Hesc with
               | (if ?b then _ else _) = _ => destruct b
               end; injection Hesc as _ <-; try lia; exact Hskip. }
      specialize (IH (e + 1) (e + 1) b1 sh3). lia.
    + match goal with
      | |- _ <= fst (fst (fst (doubleQuoteScan f text endIdx _ _ _ ?sh2))) =>
          specialize (IH (i + 1) (i + 1) b1 sh2)
      end.
      lia.
Qed.

Lemma lineSingleQuote_ge (text : list ascii) (endIdx initIdx lineNbr nonSpaceIdx : Z)
    (sh : StringHelper) (r : LineResult) :
  lineSingleQuote text endIdx initIdx lineNbr nonSpaceIdx sh = Ret r ->
  nonSpaceIdx <= lr_lineEndIdx r.
Proof.
  unfold lineSingleQuote.
  pose proof (singleQuoteScan_ge text endIdx (S (Z.to_nat (endIdx - nonSpaceIdx)))
                nonSpaceIdx nonSpaceIdx (negb (empty sh)) sh) as Hge.
  destruct (singleQuoteScan _ _ _ _ _ _ _) as [[[[e c] b] sh1] isEnd]. cbn [fst] in Hge.
  destruct (endIdx <=? e); [discriminate|].
  pose proof (skipWhileNoBound_ge text isSpaceOrTab (e + 1)) as Hskip.
  destruct (Ascii.eqb (at_ text e) SQUOTE); intros H; injection H as <-; cbn [lr_lineEndIdx];
    lia.
Qed.

Lemma lineDoubleQuote_ge (text : list ascii) (endIdx initIdx lineNbr nonSpaceIdx : Z)
    (sh : StringHelper) (r : LineResult) :
  lineDoubleQuote text endIdx initIdx lineNbr nonSpaceIdx sh = Ret r ->
  nonSpaceIdx <= lr_lineEndIdx r.
Proof.
  unfold lineDoubleQuote.
  pose proof (doubleQuoteScan_ge text endIdx (S (Z.to_nat (endIdx - nonSpaceIdx)))
                nonSpaceIdx nonSpaceIdx (negb (empty sh)) sh) as Hge.
  destruct (doubleQuoteScan _ _ _ _ _ _ _) as [[[e c] b] sh1]. cbn [fst] in Hge.
  destruct (endIdx <=? e); [discriminate|].
  pose proof (skipWhileNoBound_ge text isSpaceOrTab (e + 1)) as Hskip.
  destruct (Ascii.eqb (at_ text e) DQUOTE); intros H; injection H as <-; cbn [lr_lineEndIdx];
    lia.
Qed.

Lemma lineLiteral_ge (text : list ascii) (endIdx idx nonSpaceIdx colNbr targetIndent : Z)
    (sh : StringHelper) :
  nonSpaceIdx <= lr_lineEndIdx (lineLiteral text endIdx idx nonSpaceIdx colNbr targetIndent sh).
Proof.
  unfold lineLiteral.
  pose proof (skipWhile_ge text endIdx (fun c => negb (isEol c)) nonSpaceIdx).
  destruct (_ && _); cbn [lr_lineEndIdx]; lia.
Qed.

Lemma lineFolded_ge (text : list ascii) (endIdx idx nonSpaceIdx colNbr targetIndent : Z)
    (indented : bool) (sh : StringHelper) :
  nonSpaceIdx
  <= lr_lineEndIdx (lineFolded text endIdx idx nonSpaceIdx colNbr targetIndent indented sh).
Proof.
  unfold lineFolded.
  pose proof (skipWhile_ge text endIdx (fun c => negb (isEol c)) nonSpaceIdx).
  destruct (_ && _); cbn [lr_lineEndIdx]; lia.
Qed.

Lemma linePlain_ge (text : list ascii) (endIdx idx nonSpaceIdx colNbr targetIndent : Z)
    (sh : StringHelper) :
  nonSpaceIdx <= lr_lineEndIdx (linePlain text endIdx idx nonSpaceIdx colNbr targetIndent sh).
Proof.
  unfold linePlain.
  destruct (scanFwd_spec (plainStop text endIdx idx) (Z.to_nat (endIdx - nonSpaceIdx))
              nonSpaceIdx) as (Hr & _).
  destruct (_ && (colNbr <? targetIndent)); cbn [lr_lineEndIdx]; lia.
Qed.

(** One line of a scalar, of whatever kind, ends at or after its first
    character that is not a space. *)
Lemma line_ge (text : list ascii) (endIdx initIdx idx nonSpaceIdx colNbr targetIndent : Z)
    (mlType : ascii) (s : LineLoop) (r : LineResult) :
  (if Ascii.eqb mlType SQUOTE
   then lineSingleQuote text endIdx initIdx (ll_lineNbr s) nonSpaceIdx (ll_sh s)
   else if Ascii.eqb mlType DQUOTE
   then lineDoubleQuote text endIdx initIdx (ll_lineNbr s) nonSpaceIdx (ll_sh s)
   else if Ascii.eqb mlType "|"%char
   then Ret (lineLiteral text endIdx idx nonSpaceIdx colNbr targetIndent (ll_sh s))
   else if Ascii.eqb mlType ">"%char
   then Ret (lineFolded text endIdx idx nonSpaceIdx colNbr targetIndent
               (ll_indentedFoldedLine s) (ll_sh s))
   else Ret (linePlain text endIdx idx nonSpaceIdx colNbr targetIndent (ll_sh s))) = Ret r ->
  nonSpaceIdx <= lr_lineEndIdx r.
Proof.
  destruct (Ascii.eqb mlType SQUOTE); [apply lineSingleQuote_ge|].
  destruct (Ascii.eqb mlType DQUOTE); [apply lineDoubleQuote_ge|].
  destruct (Ascii.eqb mlType "|"%char);
    [intros H; injection H as <-; apply lineLiteral_ge|].
  destruct (Ascii.eqb mlType ">"%char);
    [intros H; injection H as <-; apply lineFolded_ge|].
  intros H; injection H as <-; apply linePlain_ge.
Qed.

Lemma lineLoop_mono (text : list ascii) (endIdx initIdx : Z) (isNewLine : bool)
    (mlType : ascii) (fuel : nat) :
  forall s s' : LineLoop,
    lineLoop fuel text endIdx initIdx isNewLine mlType s = Ret s' -> ll_idx s <= ll_idx s'.
Proof.
  induction fuel as [|f IH]; intros s s' Hrun; cbn [lineLoop] in Hrun.
  - destruct (negb (ll_idx s <? endIdx)); [|discriminate Hrun].
    injection Hrun as <-. lia.
  - destruct (negb (ll_idx s <? endIdx)); [injection Hrun as <-; lia|].
    pose proof (skipWhile_ge text endIdx isSpace (ll_idx s)) as Hns.
    set (nonSpaceIdx := skipWhile text endIdx isSpace (ll_idx s)) in *.
    destruct (isNewLine && _ && _); [discriminate Hrun|].
    destruct ((ll_targetIndent s <? 0) && _).
    + apply IH in Hrun. cbn [ll_idx] in Hrun.
      pose proof (eolSize_pos text endIdx nonSpaceIdx). lia.
    + match type of Hrun with
      | bind ?m _ = _ => destruct m as [r| |] eqn:Hline
      end; cbn [bind] in Hrun; try discriminate Hrun.
      apply line_ge in Hline.
      pose proof (eolSize_pos text endIdx (lr_lineEndIdx r)).
      destruct (lr_isEndOfStringReached r).
      * injection Hrun as <-. cbn [ll_idx andb]. destruct (endsAsKey _ _ _); lia.
      * destruct (_ && Ascii.eqb mlType DQUOTE); [discriminate Hrun|].
        destruct (_ && Ascii.eqb mlType SQUOTE); [discriminate Hrun|].
        apply IH in Hrun. cbn [ll_idx] in Hrun. lia.
Qed.

(** The first line of a plain scalar that stops on its first character
    stops on the colon of a key. *)
Lemma linePlain_first (text : list ascii) (endIdx idx colNbr targetIndent : Z)
    (sh : StringHelper) :
  idx < endIdx -> isEol (at_ text idx) = false ->
  Ascii.eqb (at_ text idx) "#"%char = false -> targetIndent <= colNbr ->
  lr_lineEndIdx (linePlain text endIdx idx idx colNbr targetIndent sh) = idx ->
  lr_isEndOfStringReached (linePlain text endIdx idx idx colNbr targetIndent sh) = true
  /\ endsAsKey text endIdx idx = true.
Proof.
  intros Hlt Heol Hhash Hind. unfold linePlain.
  destruct (scanFwd_spec (plainStop text endIdx idx) (Z.to_nat (endIdx - idx)) idx)
    as (_ & _ & Hat).
  set (e := scanFwd _ _ _) in *.
  destruct (Z.ltb_spec colNbr targetIndent) as [|_]; [lia|].
  rewrite andb_false_r. cbn [lr_lineEndIdx lr_isEndOfStringReached].
  intros He. rewrite He in *.
  destruct (Z.ltb_spec idx endIdx) as [_|]; [|lia].
  rewrite Heol. split; [reflexivity|].
  specialize (Hat ltac:(lia)). unfold plainStop in Hat. unfold endsAsKey.
  rewrite Heol, Hhash in Hat.
  destruct (Z.leb_spec endIdx idx) as [|_]; [lia|].
  cbn [negb orb] in Hat.
  destruct (Ascii.eqb (at_ text idx) ":"%char); [|discriminate Hat].
  destruct (idx + 1 =? endIdx); [reflexivity|].
  destruct (Ascii.eqb (at_ text (idx + 1)) SP); [reflexivity|].
  destruct (Ascii.eqb (at_ text (idx + 1)) LF); [reflexivity|].
  destruct (Ascii.eqb (at_ text (idx + 1)) CR); [reflexivity|].
  discriminate Hat.
Qed.

(** A plain scalar takes one character at least. *)
Lemma lineLoop_plain_first (text : list ascii) (endIdx initIdx : Z) (isNewLine : bool)
    (fuel : nat) (s s' : LineLoop) :
  ll_idx s < endIdx ->
  isSpace (at_ text (ll_idx s)) = false -> isEol (at_ text (ll_idx s)) = false ->
  Ascii.eqb (at_ text (ll_idx s)) "#"%char = false ->
  ll_targetIndent s <= ll_colNbr s ->
  lineLoop fuel text endIdx initIdx isNewLine SP s = Ret s' -> ll_idx s < ll_idx s'.
Proof.
  intros Hlt Hsp Heol Hhash Hind Hrun.
  destruct fuel as [|f]; cbn [lineLoop] in Hrun.
  - destruct (Z.ltb_spec (ll_idx s) endIdx); [discriminate|lia].
  - destruct (Z.ltb_spec (ll_idx s) endIdx) as [_|]; [|lia]. cbn [negb] in Hrun.
    rewrite (skipWhile_stay text endIdx isSpace (ll_idx s) Hsp) in Hrun.
    rewrite Heol, andb_false_r in Hrun.
    destruct (isNewLine && _ && _); [discriminate|].
    change (Ascii.eqb SP SQUOTE) with false in Hrun.
    change (Ascii.eqb SP DQUOTE) with false in Hrun.
    change (Ascii.eqb SP "|"%char) with false in Hrun.
    change (Ascii.eqb SP ">"%char) with false in Hrun.
    cbn [bind andb] in Hrun.
    set (colNbr := ll_colNbr s + (ll_idx s - ll_idx s)) in *.
    set (targetIndent := if ll_targetIndent s <? 0 then colNbr else ll_targetIndent s) in *.
    assert (Ht : targetIndent <= colNbr).
    { unfold targetIndent, colNbr. destruct (_ <? 0); lia. }
    pose proof (linePlain_ge text endIdx (ll_idx s) (ll_idx s) colNbr targetIndent (ll_sh s))
      as Hge.
    pose proof (linePlain_first text endIdx (ll_idx s) colNbr targetIndent (ll_sh s)
                  Hlt Heol Hhash Ht) as Hfirst.
    set (r := linePlain _ _ _ _ _ _ _) in *.
    pose proof (eolSize_pos text endIdx (lr_lineEndIdx r)).
    destruct (lr_isEndOfStringReached r).
    + injection Hrun as <-. cbn [ll_idx andb].
      destruct (Z.eq_dec (lr_lineEndIdx r) (ll_idx s)) as [He|Hne].
      * destruct (Hfirst He) as (_ & Hk). rewrite He, Hk. cbv iota. lia.
      * clear Hfirst. destruct (endsAsKey _ _ _); lia.
    + rewrite !andb_false_r in Hrun.
      apply lineLoop_mono in Hrun. cbn [ll_idx] in Hrun.
      destruct (Z.eq_dec (lr_lineEndIdx r) (ll_idx s)) as [He|Hne]; [|lia].
      destruct (Hfirst He) as (Hend & _). discriminate Hend.
Qed.

Lemma headerPass_ge (text : list ascii) (endIdx initIdx lineNbr : Z)
    (s s' : Z * Z * ascii * Z) :
  headerPass text endIdx initIdx lineNbr s = Ret s' ->
  fst (fst (fst s)) <= fst (fst (fst s')).
Proof.
  unfold headerPass. destruct s as [[[idx colNbr] chomp] deltaIndent].
  destruct (endIdx <=? idx); [intros H; injection H as <-; lia|].
  destruct (_ || _).
  - destruct (negb _); [discriminate|]. intros H; injection H as <-; cbn [fst]; lia.
  - destruct (_ && _).
    + destruct (0 <=? deltaIndent); [discriminate|].
      intros H; injection H as <-; cbn [fst]; lia.
    + intros H; injection H as <-; lia.
Qed.

Lemma scalarToken_idx (text : list ascii) (endIdx initIdx startColNbr_ : Z)
    (ctx : Context) (mlType chomp : ascii) (sh1 : StringHelper) (idx1 colNbr1 lineNbr1 : Z)
    (isNewLine1 : bool) (targetIndent : Z) (tok : TokenParser) (st' : TokState) :
  scalarToken text endIdx initIdx startColNbr_ ctx
    (mlType, chomp, sh1, idx1, colNbr1, lineNbr1, isNewLine1, targetIndent) = Ret (tok, st') ->
  exists s,
    lineLoop (S (Z.to_nat (endIdx - idx1))) text endIdx initIdx isNewLine1 mlType
      (mkLineLoop sh1 idx1 colNbr1 lineNbr1 targetIndent false false) = Ret s
    /\ ts_idx st' = ll_idx s.
Proof.
  unfold scalarToken.
  destruct (lineLoop _ _ _ _ _ _ _) as [s| |]; cbn [bind]; try discriminate.
  destruct (storeChunks _ _ _ _) as [[i n] ctx1].
  intros H. injection H as _ <-. exists s. split; reflexivity.
Qed.

(** Every token but the end of the input takes one character at least,
    that lies before the end. *)
Lemma getToken_progress (text : list ascii) (endIdx parentIndent : Z) (st st' : TokState)
    (tok : TokenParser) :
  getToken text endIdx parentIndent st = Ret (tok, st') -> type tok <> TokEos ->
  ts_idx st < ts_idx st' /\ ts_idx st < endIdx.
Proof.
  unfold getToken.
  set (isNewLine := ts_colNbr st =? 0).
  set (idx := if isNewLine then skipWhile text endIdx isSpace (ts_idx st)
              else skipWhile text endIdx isSpaceOrTab (ts_idx st)).
  assert (Hge : ts_idx st <= idx).
  { unfold idx. destruct isNewLine; apply skipWhile_ge. }
  destruct (isNewLine && Ascii.eqb (at_ text idx) TAB) eqn:Htab; [discriminate|].
  destruct (Z.leb_spec endIdx idx) as [_|Hlt].
  { intros Heos. injection Heos as <- _. cbn [type]. congruence. }
  assert (Hsp : isSpace (at_ text idx) = false).
  { unfold idx in *. destruct isNewLine.
    - destruct (skipWhile_spec text endIdx isSpace (ts_idx st) ltac:(lia)) as (_ & _ & Hat).
      apply Hat. exact Hlt.
    - destruct (skipWhile_spec text endIdx isSpaceOrTab (ts_idx st) ltac:(lia))
        as (_ & _ & Hat).
      specialize (Hat Hlt). unfold isSpaceOrTab in Hat. apply orb_false_elim in Hat.
      exact (proj1 Hat). }
  destruct (isEol (at_ text idx)) eqn:Heol.
  { intros H _. injection H as _ <-. cbn [ts_idx]. destruct (_ && _ && _); lia. }
  destruct (Ascii.eqb (at_ text idx) "-"%char && _).
  { intros H _. injection H as _ <-. cbn [ts_idx]. lia. }
  destruct (Ascii.eqb (at_ text idx) "#"%char) eqn:Hhash.
  { destruct (addString _ _) as [[i n] ctx1]. intros H _. injection H as _ <-. cbn [ts_idx].
    destruct (skipWhile_spec text endIdx (fun c => negb (isEol c)) idx ltac:(lia))
      as (Hr & _ & Hat).
    destruct (Z.eq_dec (skipWhile text endIdx (fun c => negb (isEol c)) idx) idx) as [He|Hne];
      [|lia].
    rewrite He in Hat. specialize (Hat Hlt). rewrite Heol in Hat. discriminate Hat. }
  destruct (Ascii.eqb (at_ text idx) SQUOTE || Ascii.eqb (at_ text idx) DQUOTE).
  { cbn [bind]. intros H _. apply scalarToken_idx in H. destruct H as (s & Hrun & ->).
    apply lineLoop_mono in Hrun. cbn [ll_idx] in Hrun. lia. }
  destruct (Ascii.eqb (at_ text idx) "|"%char || Ascii.eqb (at_ text idx) ">"%char).
  { unfold blockHeader.
    destruct (headerPass _ _ _ _ _) as [s1| |] eqn:H1; cbn [bind]; try discriminate.
    destruct (headerPass text endIdx (ts_idx st) (ts_lineNbr st) s1)
      as [[[[idx1 c1] chomp] delta]| |] eqn:H2; cbn [bind]; try discriminate.
    apply headerPass_ge in H1, H2. cbn [fst] in H1, H2.
    intros H _. apply scalarToken_idx in H. destruct H as (s & Hrun & ->).
    apply lineLoop_mono in Hrun. cbn [ll_idx] in Hrun.
    pose proof (skipWhile_ge text endIdx (fun c => negb (isEol c)) idx1).
    pose proof (eolSize_pos text endIdx
                  (skipWhile text endIdx (fun c => negb (isEol c)) idx1)).
    lia. }
  cbn [bind]. intros H _. apply scalarToken_idx in H. destruct H as (s & Hrun & ->).
  apply lineLoop_plain_first in Hrun; cbn [ll_idx ll_targetIndent ll_colNbr] in *;
    try assumption; [lia|].
  destruct (parentIndent <? _) eqn:Hp; [|lia].
  apply Z.ltb_lt in Hp. lia.
Qed.

(** ** The turns of the loop of [parse] *)

Lemma Context_new_value :
  Context_new = Ret (mkContext [] [] 0 (repeat emptyEntry 16) 0 16).
Proof. vm_compute. reflexivity. Qed.

Lemma tokenInArena_grows (ctx ctx' : Context) (tok : TokenParser) :
  grows ctx ctx' -> tokenInArena ctx tok -> tokenInArena ctx' tok.
Proof. intros (_ & Ha) (H0 & H1 & H2). repeat split; lia. Qed.

Lemma getToken_safe (text : list ascii) (endIdx parentIndent : Z) (st st' : TokState)
    (tok : TokenParser) :
  getToken text endIdx parentIndent st = Ret (tok, st') ->
  safeStep (ts_context st) (ts_context st').
Proof.
  intros H. destruct (getToken_context _ _ _ _ _ _ H) as ((He & Hes & Hq & Hc & sfx & Ha) & _).
  apply (safeStep_arena _ _ sfx); assumption.
Qed.

Lemma parseKey_safe (text : list ascii) (token : TokenParser) (tokenLineNbr tokenIdx : Z)
    (stack0 stack : list ParseItem) (parent0 parent : ParseItem) (ctx ctx' : Context) :
  parseKey text token tokenLineNbr tokenIdx stack0 parent0 ctx = Ret (stack, parent, ctx') ->
  stackOk stack0 parent0 -> tokenInArena ctx token ->
  safeStep ctx ctx' /\ stackOk stack parent.
Proof.
  unfold parseKey. intros H Hok Htok.
  destruct (keyParent _ _ _ _ _ _ _) as [[[stack1 parent1] ctx1]| |] eqn:Hparent;
    cbn [bind] in H; try discriminate.
  pose proof (keyParent_stackOk _ _ _ _ _ _ _ _ _ _ Hparent Hok) as Hok1.
  destruct (keyParent_safe _ _ _ _ _ _ _ _ _ _ Hparent) as (Hg1 & Hinv1).
  destruct (keyInsert_grows _ _ _ _ _ _ _ _ _ _ H) as (He & Ha).
  split; [|exact (keyInsert_stackOk _ _ _ _ _ _ _ _ _ _ H Hok1)].
  split.
  - destruct Hg1 as (Hg1 & Hg2). split; [lia|rewrite Ha; exact Hg2].
  - intros (Hs1 & Hs2) Hinv.
    assert (Hsz : len (elements ctx1) + 2 <= 2 ^ 28 /\ len (arena ctx1) <= 2 ^ 28).
    { rewrite <- Ha. split; lia. }
    assert (Hinv' : parseInv ctx1).
    { apply Hinv1; [|exact Hinv]. destruct Hsz. split; [lia|assumption]. }
    refine (proj2 (keyInsert_safe text token tokenLineNbr tokenIdx stack1 parent1 ctx1
                     (proj2 Hok1) (tokenInArena_grows _ _ _ Hg1 Htok)
                     Hinv' Hsz _ _ _ H) (conj Hs1 Hs2)).
Qed.

Lemma parseStep_safe (text : list ascii) (textSize : Z) (s s' : ParseState) :
  parseStep text textSize s = Ret s' -> stackOk (ps_stack s) (ps_parent s) ->
  safeStep (ps_context s) (ps_context s') /\ stackOk (ps_stack s') (ps_parent s').
Proof.
  unfold parseStep, ps_context. intros H Hok.
  destruct (getToken _ _ _ _) as [[token tok]| |] eqn:Htok; cbn [bind] in H; try discriminate.
  pose proof (getToken_safe _ _ _ _ _ _ Htok) as Hsafe.
  destruct (getToken_context _ _ _ _ _ _ Htok) as (_ & Hstored).
  destruct (type token) eqn:Hty.
  - (* Key *)
    destruct (parseKey _ _ _ _ _ _ _) as [[[stack parent] ctx']| |] eqn:Hkey;
      cbn [bind] in H; try discriminate.
    injection H as <-. cbn [ps_tok ps_stack ps_parent withContext ts_context].
    assert (Hg : grows (ts_context tok) ctx').
    { unfold parseKey in Hkey.
      destruct (keyParent _ _ _ _ _ _ _) as [[[stack1 parent1] ctx1]| |] eqn:Hparent;
        cbn [bind] in Hkey; try discriminate.
      destruct (keyParent_safe _ _ _ _ _ _ _ _ _ _ Hparent) as ((Hg1 & Hg2) & _).
      destruct (keyInsert_grows _ _ _ _ _ _ _ _ _ _ Hkey) as (He & Ha).
      split; [lia|rewrite Ha; exact Hg2]. }
    split.
    + split.
      * destruct Hsafe as ((H1 & H2) & _). destruct Hg. split; lia.
      * intros Hs Hinv.
        assert (Hs' : sizes (ts_context tok)) by (apply (sizes_grows _ ctx'); assumption).
        assert (Hin : tokenInArena (ts_context tok) token).
        { apply (tokenStored_inArena (ts_context (ps_tok s))); [auto|]. apply Hs'. }
        destruct (parseKey_safe _ _ _ _ _ _ _ _ _ _ Hkey Hok Hin) as ((_ & Hstep) & _).
        apply Hstep; [exact Hs|]. apply Hsafe; assumption.
    + assert (Hsk : stackOk stack parent).
      { unfold parseKey in Hkey.
        destruct (keyParent _ _ _ _ _ _ _) as [[[stack1 parent1] ctx1]| |] eqn:Hparent;
          cbn [bind] in Hkey; try discriminate.
        pose proof (keyParent_stackOk _ _ _ _ _ _ _ _ _ _ Hparent Hok) as Hok1.
        exact (keyInsert_stackOk _ _ _ _ _ _ _ _ _ _ Hkey Hok1). }
      exact Hsk.
  - (* StringValue *)
    destruct (parseStringValue _ _ _ _ _ _ _) as [[[stack parent] ctx']| |] eqn:Hval;
      cbn [bind] in H; try discriminate.
    injection H as <-. cbn [ps_tok ps_stack ps_parent withContext ts_context].
    split; [|exact (parseStringValue_stackOk _ _ _ _ _ _ _ _ _ _ Hval Hok)].
    apply (safeStep_trans _ (ts_context tok)); [exact Hsafe|].
    exact (parseStringValue_safe _ _ _ _ _ _ _ _ _ _ Hval).
  - (* Newline *)
    injection H as <-. cbn [ps_tok ps_stack ps_parent ts_context].
    split; [exact Hsafe|exact Hok].
  - (* Caret *)
    destruct (parseCaret _ _ _ _ _ _ _) as [[[stack parent] ctx']| |] eqn:Hcaret;
      cbn [bind] in H; try discriminate.
    injection H as <-. cbn [ps_tok ps_stack ps_parent withContext ts_context].
    split; [|exact (parseCaret_stackOk _ _ _ _ _ _ _ _ _ _ Hcaret Hok)].
    apply (safeStep_trans _ (ts_context tok)); [exact Hsafe|].
    exact (parseCaret_safe _ _ _ _ _ _ _ _ _ _ Hcaret).
  - (* Comment *)
    destruct (parseComment _ _ _ _ _) as [ctx'| |] eqn:Hcomment;
      cbn [bind] in H; try discriminate.
    injection H as <-. cbn [ps_tok ps_stack ps_parent withContext ts_context].
    split; [|exact Hok].
    apply (safeStep_trans _ (ts_context tok)); [exact Hsafe|].
    exact (parseComment_safe _ _ _ _ _ _ Hcomment).
  - (* Eos *)
    injection H as <-. cbn [ps_tok ps_stack ps_parent withContext ts_context].
    split; [exact Hsafe|exact Hok].
Qed.






Lemma parseStart_inv : parseInv (ps_context parseStart) /\ stackOk (ps_stack parseStart) (ps_parent parseStart).
Proof.
  split.
  - split; [|split].
    + unfold tableInv, parseStart, parseInit, ps_context, addStringElt.
      cbn [ps_tok ts_context _entries _entryQty _maxEntryQty elements arena emplace_back
           updElt setElt addString setArena fst snd].
      split; [exists 4; split; [lia|reflexivity]|].
      split; [reflexivity|]. split.
      * intros slot. left. rewrite cellAt_repeat. reflexivity.
      * rewrite occupied_repeat. unfold _maxLoad128th, InitMapSize.
        repeat split; cbn; lia.
    + intros pi c name (_ & Ht & _). exfalso. revert Ht.
      unfold eltAt. cbn. destruct (Z.to_nat pi) as [|[|m]]; cbn; discriminate.
    + split.
      * intros j x Ht _. exfalso. revert Ht.
        unfold eltAt. cbn. destruct (Z.to_nat j) as [|[|m]]; cbn; discriminate.
      * intros j. unfold eltAt, keyStringOk. cbn.
        destruct (Z.to_nat j) as [|[|m]]; cbn; try discriminate. intros _. lia.
  - split; [repeat constructor; cbn; lia|cbn; lia].
Qed.




(* ====================================================================== *)
(** * Further properties of the code *)
(* ====================================================================== *)

(** ** The hash of a key *)

Lemma lxor_u32_bound (a b : Z) : 0 <= a < 2 ^ 32 -> 0 <= b < 2 ^ 32 -> 0 <= Z.lxor a b < 2 ^ 32.
Proof.
  intros Ha Hb.
  assert (Hm : Z.lxor a b = Z.lxor a b mod 2 ^ 32).
  { rewrite <- Z.land_ones by lia. apply Z.bits_inj'. intros n Hn.
    rewrite Z.land_spec, Z.lxor_spec.
    destruct (Z.lt_ge_cases n 32) as [Hlow|Hhigh].
    - rewrite Z.ones_spec_low by lia. rewrite andb_true_r. reflexivity.
    - rewrite Z.ones_spec_high by lia. rewrite andb_false_r.
      rewrite <- (Z.mod_small a (2 ^ 32)), <- (Z.mod_small b (2 ^ 32)) by lia.
      rewrite !Z.mod_pow2_bits_high by lia. reflexivity. }
  rewrite Hm. apply Z.mod_pos_bound. lia.
Qed.

(** X1: the hash under which a key is stored in the index of the maps
    is a 32-bit value that is neither [Empty] (0) nor [Tombstone] (1), the
    two values that mark the cells without entry. *)
Theorem key_hash_is_valid (parentEltIdx keySize : Z) (key : list ascii) :
  0 <= parentEltIdx < 2 ^ 32 ->
  FirstValid <= keyHashOf parentEltIdx key keySize < 2 ^ 32
  /\ keyHashOf parentEltIdx key keySize <> Empty
  /\ keyHashOf parentEltIdx key keySize <> Tombstone.
Proof.
  intros Hp.
  pose proof (keyHashOf_valid parentEltIdx keySize key ltac:(lia)) as Hv.
  assert (Hup : keyHashOf parentEltIdx key keySize < 2 ^ 32).
  { unfold keyHashOf.
    pose proof (lxor_u32_bound parentEltIdx (u32 (wyhash key keySize)) Hp
                  (Z.mod_pos_bound _ (2 ^ 32) ltac:(lia))) as Hx.
    destruct (_ <? FirstValid); [apply Z.mod_pos_bound|]; lia. }
  unfold FirstValid, Empty, Tombstone in *. repeat split; lia.
Qed.

Lemma key_hash_is_valid_witness :
  FirstValid <= keyHashOf 0 (chars "a") 1 < 2 ^ 32
  /\ keyHashOf 0 (chars "a") 1 <> Empty
  /\ keyHashOf 0 (chars "a") 1 <> Tombstone.
Proof. apply (key_hash_is_valid 0 1 (chars "a")). lia. Defined.

(** ** Lookups in the index *)

(** X2: on a table of [2 ^ k] cells that has an empty cell, the lookup
    of a key in the index of a map always ends; it returns [UINT_MAX] or
    the position of a child of the map that is a key whose name is the key
    looked up. *)
Theorem lookup_ends_on_a_key (ctx : Context) (parentEltIdx : Z) (parentElt : Element)
    (key : list ascii) :
  tableOk ctx = true -> ~ In NUL key -> len key < 2 ^ 31 ->
  exists r,
    getMapChildIndex parentEltIdx key (len key) parentElt ctx = Ret r
    /\ (r = UINT_MAX
        \/ (0 <= r < getSubQty parentElt /\ childNamed ctx parentElt key r = true)).
Proof.
  intros Hok Hnn Hlen. unfold getMapChildIndex.
  set (h := keyHashOf parentEltIdx key (len key)).
  destruct (probe_terminates ctx Tombstone h (cellMatches ctx parentElt key (len key) h) Hok)
    as [r Hr]; [reflexivity|].
  rewrite Hr. cbn [bind]. destruct r as [slot|slot]; [|eauto].
  eexists. split; [reflexivity|]. right.
  rewrite probe_search in Hr. apply search_result in Hr.
  destruct Hr as (pre & post & s & _ & _ & [(Heq & _ & Hm)|(Heq & _)]); [|discriminate].
  injection Heq as <-.
  destruct (tableOk_spec ctx Hok) as (_ & _ & _ & _ & _ & _ & _ & Hu).
  destruct (Hu slot) as (_ & Hci).
  change (entryAt ctx slot) with (cellAt (_entries ctx) slot).
  pose proof (cellMatches_spec _ _ _ _ _ _ Hm) as (_ & Hlt & Ht & Hs & Hcmp).
  split; [lia|].
  unfold childNamed. rewrite Ht. cbn [NodeType_eqb andb]. apply bytes_eqb_eq.
  unfold nameOf. rewrite Hs.
  assert (Hsz : u32 (u32 (len key + 1) - 1) = len key).
  { unfold u32. change (2 ^ 32) with 4294967296. change (2 ^ 31) with 2147483648 in Hlen.
    unfold len in *. rewrite (Z.mod_small (_ + 1)) by lia. rewrite Z.mod_small; lia. }
  rewrite Hsz.
  destruct key as [|c key]; [reflexivity|].
  apply slice_eq_of_at; [discriminate| |assumption].
  intros j Hj.
  apply (strncmpEq_bytes _ _ _ 0 Hcmp).
  - intros j' Hj' Heq. apply Hnn. rewrite <- Heq. unfold at_.
    destruct (Z.ltb_spec j' 0); [lia|]. apply nth_In. unfold len in *. lia.
  - unfold len in *. lia.
Qed.

Lemma lookup_ends_on_a_key_witness :
  exists r,
    getMapChildIndex 0 (chars "a") (len (chars "a")) (eltAt ctxOneKey 0) ctxOneKey = Ret r
    /\ (r = UINT_MAX
        \/ (0 <= r < getSubQty (eltAt ctxOneKey 0)
            /\ childNamed ctxOneKey (eltAt ctxOneKey 0) (chars "a") r = true)).
Proof.
  apply (lookup_ends_on_a_key ctxOneKey 0 (eltAt ctxOneKey 0) (chars "a")).
  - vm_compute. reflexivity.
  - cbn. intros [H|[]]. discriminate H.
  - vm_compute. reflexivity.
Defined.

(** ** The tokenizer *)

(** X3: every token that [getToken] returns, but the end of the input,
    starts before the end of the text and takes at least one character:
    the index of the tokenizer grows strictly. *)
Theorem token_takes_a_character (text : list ascii) (endIdx parentIndent : Z)
    (st st' : TokState) (tok : TokenParser) :
  getToken text endIdx parentIndent st = Ret (tok, st') ->
  type tok <> TokEos ->
  ts_idx st < ts_idx st' /\ ts_idx st < endIdx.
Proof. apply getToken_progress. Qed.

Lemma token_takes_a_character_witness :
  ts_idx tokenizerStart < ts_idx (snd stripBlockToken)
  /\ ts_idx tokenizerStart < len stripBlock.
Proof.
  apply (token_takes_a_character stripBlock (len stripBlock) (-1) tokenizerStart
           (snd stripBlockToken) (fst stripBlockToken)).
  - vm_compute. reflexivity.
  - vm_compute. discriminate.
Defined.

Lemma parsingMessage_contains (lineNbr : Z) (text : list ascii) (lineStart : Z)
    (message chunk : string) :
  contains (truncate 351 message) chunk = true ->
  contains (parsingMessage lineNbr text lineStart message) chunk = true.
Proof.
  unfold contains, truncate. rewrite list_ascii_of_string_of_list_ascii. intros H.
  destruct (parsingMessage_prefix lineNbr text lineStart message) as (rest & ->).
  apply containsL_app. exact H.
Qed.

Lemma at_repeat_tail (c x : ascii) (n : nat) (rest : list ascii) :
  at_ (repeat c n ++ x :: rest) (Z.of_nat n) = x
  /\ forall j, 0 <= j < Z.of_nat n -> at_ (repeat c n ++ x :: rest) j = c.
Proof.
  split.
  - rewrite at_nth. rewrite app_nth2 by (rewrite repeat_length; lia).
    rewrite repeat_length, Nat.sub_diag. reflexivity.
  - intros j Hj. replace j with (Z.of_nat (Z.to_nat j)) by lia.
    rewrite at_nth. rewrite app_nth1 by (rewrite repeat_length; lia).
    apply nth_repeat_lt. lia.
Qed.

(** X4: a text whose first line is indented by spaces followed by a
    tabulation is rejected: [parse] raises a parsing error that names the
    tabulation, whatever follows. *)
Theorem tab_at_line_start_rejected (n : nat) (rest : list ascii) :
  exists message,
    parse (repeat SP n ++ TAB :: rest) = Throw (ParseException message)
    /\ contains message "tabulation" = true.
Proof.
  set (text := repeat SP n ++ TAB :: rest).
  destruct (at_repeat_tail SP TAB n rest) as (Htab & Hsp). fold text in Htab, Hsp.
  assert (Hlen : len text = Z.of_nat n + 1 + len rest).
  { unfold text. rewrite len_app, len_cons. unfold len at 1. rewrite repeat_length. lia. }
  pose proof (len_nonneg rest) as Hrest.
  assert (Hskip : skipWhile text (len text) isSpace 0 = Z.of_nat n).
  { destruct (skipWhile_spec text (len text) isSpace 0 ltac:(lia)) as (Hr & Hbefore & Hat).
    set (r := skipWhile text (len text) isSpace 0) in *.
    destruct (Z.lt_trichotomy r (Z.of_nat n)) as [Hlt|[Heq|Hgt]]; [|exact Heq|].
    - specialize (Hat ltac:(lia)). rewrite Hsp in Hat by lia. discriminate Hat.
    - specialize (Hbefore (Z.of_nat n) ltac:(lia)). rewrite Htab in Hbefore.
      discriminate Hbefore. }
  eexists. split.
  - unfold parse, parse_sized. rewrite Context_new_value. cbn [bind]. fold parseStart.
    cbn [parseLoop]. change (ps_isEndOfInput parseStart || isNil (ps_stack parseStart))
      with false. cbv iota.
    unfold parseStep.
    change (ps_mlStringParentIndent parseStart) with (-1).
    assert (Htok : getToken text (len text) (-1) (ps_tok parseStart)
                   = tabError 1 text 0).
    { unfold getToken. change (ts_colNbr (ps_tok parseStart)) with 0.
      change (ts_idx (ps_tok parseStart)) with 0.
      change (ts_lineNbr (ps_tok parseStart)) with 1.
      change (0 =? 0) with true. cbv iota. rewrite Hskip, Htab. reflexivity. }
    rewrite Htok. unfold tabError, throwParsing. cbn [bind]. reflexivity.
  - apply parsingMessage_contains. vm_compute. reflexivity.
Qed.

(** ** The element store under the operations of the API *)

Lemma eltAt_in_range (ctx : Context) (i : Z) :
  getType (eltAt ctx i) <> UNKNOWN -> (Z.to_nat i < List.length (elements ctx))%nat.
Proof.
  intros H. destruct (Nat.lt_ge_cases (Z.to_nat i) (List.length (elements ctx))) as [Hlt|Hge];
    [exact Hlt|].
  exfalso. apply H. unfold eltAt. rewrite nth_overflow by exact Hge. reflexivity.
Qed.

Lemma eltAt_grow_self (ctx : Context) (i : Z) (e : Element) (f : Element -> Element) :
  (Z.to_nat i < List.length (elements ctx))%nat ->
  eltAt (updElt i f (emplace_back e ctx)) i = f (eltAt ctx i).
Proof.
  intros Hi. rewrite eltAt_updElt, Nat.eqb_refl. cbn [andb].
  rewrite eltAt_emplace_back.
  destruct (Nat.eqb_spec (Z.to_nat i) (List.length (elements ctx))); [lia|].
  destruct (Nat.ltb_spec (Z.to_nat i) (List.length (elements (emplace_back e ctx))));
    [reflexivity|].
  unfold emplace_back in *. cbn [elements] in *. rewrite length_app in *. lia.
Qed.

Lemma eltAt_grow_new (ctx : Context) (i : Z) (e : Element) (f : Element -> Element) :
  (Z.to_nat i < List.length (elements ctx))%nat ->
  eltAt (updElt i f (emplace_back e ctx)) (len (elements ctx)) = e.
Proof.
  intros Hi. rewrite eltAt_updElt. unfold len. rewrite Nat2Z.id.
  destruct (Nat.eqb_spec (Z.to_nat i) (List.length (elements ctx))); [lia|]. cbn [andb].
  rewrite eltAt_emplace_back, Nat2Z.id, Nat.eqb_refl. reflexivity.
Qed.

Lemma eltAt_same_store (ctx : Context) (i : Z) (f : Element -> Element) :
  (Z.to_nat i < List.length (elements ctx))%nat ->
  eltAt (updElt i f ctx) i = f (eltAt ctx i).
Proof.
  intros Hi. rewrite eltAt_updElt, Nat.eqb_refl. cbn [andb].
  destruct (Nat.ltb_spec (Z.to_nat i) (List.length (elements ctx))); [reflexivity|lia].
Qed.

Lemma subs_insert (idx x : Z) (e : Element) :
  subs (insert idx x e) = firstn (Z.to_nat idx) (subs e) ++ x :: skipn (Z.to_nat idx) (subs e).
Proof. unfold insert, ensureSpaceForOne. destruct (_ <=? _); reflexivity. Qed.

Lemma getType_insert (idx x : Z) (e : Element) : getType (insert idx x e) = getType e.
Proof. unfold insert, ensureSpaceForOne, getType. destruct (_ <=? _); reflexivity. Qed.

Lemma getType_erase (idx : Z) (e : Element) : getType (erase idx e) = getType e.
Proof. reflexivity. Qed.

Lemma getSubQty_SEQUENCE (e : Element) : getType e = SEQUENCE -> getSubQty e = len (subs e).
Proof. unfold getType, getSubQty. intros ->. reflexivity. Qed.

Lemma u32_id (x : Z) : 0 <= x < 2 ^ 32 -> u32 x = x.
Proof. intros H. unfold u32. apply Z.mod_small. exact H. Qed.

(** The children that [erase] leaves: the one at [idx] is taken out. *)
Lemma subs_erase (idx : Z) (e : Element) :
  0 <= idx < len (subs e) ->
  subs (erase idx e) = firstn (Z.to_nat idx) (subs e) ++ skipn (S (Z.to_nat idx)) (subs e).
Proof.
  intros Hidx. unfold erase. cbn [subs].
  destruct (Z.ltb_spec idx (len (subs e) - 1)) as [Hlt|Hge]; [reflexivity|].
  assert (Hlast : Z.to_nat idx = (List.length (subs e) - 1)%nat) by (unfold len in *; lia).
  rewrite Hlast. rewrite skipn_all2 by lia. rewrite app_nil_r.
  destruct (subs e) as [|x r] using rev_ind; [reflexivity|].
  rewrite removelast_last, length_app. cbn [List.length].
  replace (List.length r + 1 - 1)%nat with (List.length r) by lia.
  rewrite firstn_app, firstn_all, Nat.sub_diag. cbn [firstn]. rewrite app_nil_r. reflexivity.
Qed.

Lemma nth_insert_at (A : Type) (l : list A) (k : nat) (x d : A) :
  (k <= List.length l)%nat ->
  nth k (firstn k l ++ x :: skipn k l) d = x
  /\ (forall i, (i < k)%nat -> nth i (firstn k l ++ x :: skipn k l) d = nth i l d)
  /\ (forall i, (k < i)%nat -> nth i (firstn k l ++ x :: skipn k l) d = nth (i - 1) l d).
Proof.
  intros Hk.
  assert (Hlen : List.length (firstn k l) = k) by (rewrite length_firstn; lia).
  split; [|split].
  - rewrite app_nth2 by lia. rewrite Hlen, Nat.sub_diag. reflexivity.
  - intros i Hi. rewrite app_nth1 by lia.
    rewrite <- (firstn_skipn k l) at 2. rewrite app_nth1 by lia. reflexivity.
  - intros i Hi. rewrite app_nth2 by lia. rewrite Hlen.
    destruct (i - k)%nat as [|m] eqn:Hm; [lia|]. cbn [nth].
    rewrite <- (firstn_skipn k l) at 2. rewrite app_nth2 by lia. rewrite Hlen.
    f_equal. lia.
Qed.

Lemma nth_erase_at (A : Type) (l : list A) (k : nat) (d : A) :
  (k < List.length l)%nat ->
  (forall i, (i < k)%nat -> nth i (firstn k l ++ skipn (S k) l) d = nth i l d)
  /\ (forall i, (k <= i)%nat -> nth i (firstn k l ++ skipn (S k) l) d = nth (S i) l d).
Proof.
  intros Hk.
  assert (Hlen : List.length (firstn k l) = k) by (rewrite length_firstn; lia).
  split.
  - intros i Hi. rewrite app_nth1 by lia.
    rewrite <- (firstn_skipn k l) at 2. rewrite app_nth1 by lia. reflexivity.
  - intros i Hi. rewrite app_nth2 by lia. rewrite Hlen.
    rewrite nth_skipn. f_equal. lia.
Qed.

(** ** Sequences: [push_back], [insert], [remove], [pop_back] *)

Section SequenceNode.
Variables (ctx : Context) (n : Node).
Hypothesis node_is_sequence : getType (eltAt ctx (_eltIdx n)) = SEQUENCE.
Hypothesis store_fits : len (elements ctx) < 2 ^ 32.

Let elt : Element := eltAt ctx (_eltIdx n).
Let size_ : Z := getSubQty elt.
Let fresh : Z := len (elements ctx).

Lemma sequence_in_range : (Z.to_nat (_eltIdx n) < List.length (elements ctx))%nat.
Proof. apply eltAt_in_range. rewrite node_is_sequence. discriminate. Qed.

Lemma sequence_size : size_ = len (subs elt).
Proof. apply getSubQty_SEQUENCE. exact node_is_sequence. Qed.

(** The sequence once a fresh element has been created and put at [idx]. *)
Lemma sequence_after_insert (idx : Z) (e : Element) :
  0 <= idx <= size_ ->
  let ctx' := updElt (_eltIdx n) (insert idx fresh) (emplace_back e ctx) in
  getType (eltAt ctx' (_eltIdx n)) = SEQUENCE
  /\ subs (eltAt ctx' (_eltIdx n))
     = firstn (Z.to_nat idx) (subs elt) ++ fresh :: skipn (Z.to_nat idx) (subs elt)
  /\ eltAt ctx' fresh = e.
Proof.
  intros Hidx ctx'. unfold ctx'.
  rewrite (eltAt_grow_self ctx (_eltIdx n) e _ sequence_in_range).
  rewrite getType_insert, subs_insert.
  split; [exact node_is_sequence|]. split; [reflexivity|].
  apply eltAt_grow_new. exact sequence_in_range.
Qed.

End SequenceNode.

(** X5: on a sequence, [push_back(kind)] with [kind] MAP or SEQUENCE
    returns; the sequence has one child more, the new child is last, it is
    an empty container of that kind, and the children that were there keep
    their positions. *)
Theorem push_back_kind_appends (ctx : Context) (n : Node) (newKind : NodeType) :
  getType (eltAt ctx (_eltIdx n)) = SEQUENCE ->
  len (elements ctx) < 2 ^ 32 ->
  isStructural newKind = true ->
  exists ctx',
    push_back_kind ctx n newKind = Ret ctx'
    /\ Node_size ctx' n = Ret (getSubQty (eltAt ctx (_eltIdx n)) + 1)
    /\ at_index ctx' n (getSubQty (eltAt ctx (_eltIdx n))) = Ret (Node_of (len (elements ctx)))
    /\ Node_type ctx' (Node_of (len (elements ctx))) = newKind
    /\ Node_size ctx' (Node_of (len (elements ctx))) = Ret 0
    /\ forall i, 0 <= i < getSubQty (eltAt ctx (_eltIdx n)) ->
                 at_index ctx' n i = at_index ctx n i.
Proof.
  intros Hseq Hfit Hkind.
  pose proof (sequence_in_range ctx n Hseq) as Hin.
  pose proof (sequence_size ctx n Hseq) as Hsize.
  unfold push_back_kind. rewrite Hkind, Hseq. cbn [negb NodeType_eqb].
  rewrite (u32_id (len (elements ctx))) by (pose proof (len_nonneg (elements ctx)); lia).
  set (ctx' := updElt _ _ _).
  assert (Hself : eltAt ctx' (_eltIdx n) = add (len (elements ctx)) (eltAt ctx (_eltIdx n))).
  { apply eltAt_grow_self. exact Hin. }
  assert (Hnew : eltAt ctx' (len (elements ctx)) = Element_kind newKind).
  { apply eltAt_grow_new. exact Hin. }
  assert (Ht : getType (eltAt ctx' (_eltIdx n)) = SEQUENCE).
  { rewrite Hself, getType_add. exact Hseq. }
  assert (Hsubs : subs (eltAt ctx' (_eltIdx n))
                  = subs (eltAt ctx (_eltIdx n)) ++ [len (elements ctx)]).
  { rewrite Hself. apply subs_add. rewrite Hseq. discriminate. }
  assert (Hq : getSubQty (eltAt ctx' (_eltIdx n)) = getSubQty (eltAt ctx (_eltIdx n)) + 1).
  { rewrite (getSubQty_SEQUENCE _ Ht), Hsubs, len_app, Hsize. reflexivity. }
  pose proof (len_nonneg (subs (eltAt ctx (_eltIdx n)))) as Hnn.
  exists ctx'. split; [reflexivity|]. split; [|split; [|split; [|split]]].
  - unfold Node_size. rewrite Ht. cbn [isStructural negb]. rewrite Hq. reflexivity.
  - unfold at_index. rewrite Ht. cbn [negb NodeType_eqb]. rewrite Hq.
    destruct (Z.leb_spec (getSubQty (eltAt ctx (_eltIdx n)) + 1)
                (getSubQty (eltAt ctx (_eltIdx n)))); [lia|].
    unfold getSub. rewrite Hsubs, Hsize.
    rewrite app_nth2 by (unfold len; lia).
    replace (Z.to_nat (len _) - _)%nat with 0%nat by (unfold len; lia). reflexivity.
  - unfold Node_type. cbn [_eltIdx Node_of]. rewrite Hnew.
    destruct newKind; try discriminate Hkind; reflexivity.
  - unfold Node_size. cbn [_eltIdx Node_of]. rewrite Hnew.
    destruct newKind; try discriminate Hkind; reflexivity.
  - intros i Hi. unfold at_index. rewrite Ht, Hseq, Hq. cbn [negb NodeType_eqb].
    destruct (Z.leb_spec (getSubQty (eltAt ctx (_eltIdx n)) + 1) i); [lia|].
    destruct (Z.leb_spec (getSubQty (eltAt ctx (_eltIdx n))) i); [lia|].
    unfold getSub. rewrite Hsubs. rewrite app_nth1 by (unfold len in *; lia). reflexivity.
Qed.

(** X6: on a sequence of [size] children, [insert(idx, kind)] with
    [idx <= size] and [kind] MAP or SEQUENCE returns; the new child is at
    the position [idx], the children before it keep their positions and
    the ones from [idx] on are moved one position up. *)
Theorem insert_at_kind_places (ctx : Context) (n : Node) (idx : Z) (newKind : NodeType) :
  getType (eltAt ctx (_eltIdx n)) = SEQUENCE ->
  len (elements ctx) < 2 ^ 32 ->
  isStructural newKind = true ->
  0 <= idx <= getSubQty (eltAt ctx (_eltIdx n)) ->
  exists ctx',
    insert_at_kind ctx n idx newKind = Ret ctx'
    /\ Node_size ctx' n = Ret (getSubQty (eltAt ctx (_eltIdx n)) + 1)
    /\ at_index ctx' n idx = Ret (Node_of (len (elements ctx)))
    /\ Node_type ctx' (Node_of (len (elements ctx))) = newKind
    /\ (forall i, 0 <= i < idx -> at_index ctx' n i = at_index ctx n i)
    /\ (forall i, idx < i <= getSubQty (eltAt ctx (_eltIdx n)) ->
                  at_index ctx' n i = at_index ctx n (i - 1)).
Proof.
  intros Hseq Hfit Hkind Hidx.
  pose proof (sequence_size ctx n Hseq) as Hsize.
  unfold insert_at_kind. rewrite Hkind, Hseq. cbn [negb NodeType_eqb].
  destruct (Z.ltb_spec (getSubQty (eltAt ctx (_eltIdx n))) idx) as [|_]; [lia|].
  rewrite (u32_id (len (elements ctx))) by (pose proof (len_nonneg (elements ctx)); lia).
  destruct (sequence_after_insert ctx n Hseq idx (Element_kind newKind) Hidx)
    as (Ht & Hsubs & Hnew).
  set (ctx' := updElt _ _ _) in *.
  set (old := subs (eltAt ctx (_eltIdx n))) in *.
  assert (Hk : (Z.to_nat idx <= List.length old)%nat) by (unfold len in Hsize; lia).
  destruct (nth_insert_at Z old (Z.to_nat idx) (len (elements ctx)) 0 Hk)
    as (Hat & Hbefore & Hafter).
  assert (Hq : getSubQty (eltAt ctx' (_eltIdx n)) = getSubQty (eltAt ctx (_eltIdx n)) + 1).
  { rewrite (getSubQty_SEQUENCE _ Ht), Hsubs, len_app, len_cons, Hsize.
    unfold len. rewrite length_firstn, length_skipn. fold old. lia. }
  exists ctx'. split; [reflexivity|]. split; [|split; [|split; [|split]]].
  - unfold Node_size. rewrite Ht. cbn [isStructural negb]. rewrite Hq. reflexivity.
  - unfold at_index. rewrite Ht. cbn [negb NodeType_eqb]. rewrite Hq.
    destruct (Z.leb_spec (getSubQty (eltAt ctx (_eltIdx n)) + 1) idx); [lia|].
    unfold getSub. rewrite Hsubs, Hat. reflexivity.
  - unfold Node_type. cbn [_eltIdx Node_of]. rewrite Hnew.
    destruct newKind; try discriminate Hkind; reflexivity.
  - intros i Hi. unfold at_index. rewrite Ht, Hseq, Hq. cbn [negb NodeType_eqb].
    destruct (Z.leb_spec (getSubQty (eltAt ctx (_eltIdx n)) + 1) i); [lia|].
    destruct (Z.leb_spec (getSubQty (eltAt ctx (_eltIdx n))) i); [lia|].
    unfold getSub. rewrite Hsubs, Hbefore by lia. reflexivity.
  - intros i Hi. unfold at_index. rewrite Ht, Hseq, Hq. cbn [negb NodeType_eqb].
    destruct (Z.leb_spec (getSubQty (eltAt ctx (_eltIdx n)) + 1) i); [lia|].
    destruct (Z.leb_spec (getSubQty (eltAt ctx (_eltIdx n))) (i - 1)); [lia|].
    unfold getSub. rewrite Hsubs, Hafter by lia. fold old.
    replace (Z.to_nat i - 1)%nat with (Z.to_nat (i - 1)) by lia. reflexivity.
Qed.

(** X7: on a sequence of [size] children, [remove(idx)] with
    [idx < size] returns; the sequence has one child less, the children
    before [idx] keep their positions, the ones after it are moved one
    position down, and no other element of the document changes (the
    element that was at [idx] stays in the store). *)
Theorem remove_index_shifts (ctx : Context) (n : Node) (idx : Z) :
  getType (eltAt ctx (_eltIdx n)) = SEQUENCE ->
  0 <= idx < getSubQty (eltAt ctx (_eltIdx n)) ->
  exists ctx',
    remove_index ctx n idx = Ret ctx'
    /\ Node_size ctx' n = Ret (getSubQty (eltAt ctx (_eltIdx n)) - 1)
    /\ (forall i, 0 <= i < idx -> at_index ctx' n i = at_index ctx n i)
    /\ (forall i, idx <= i < getSubQty (eltAt ctx (_eltIdx n)) - 1 ->
                  at_index ctx' n i = at_index ctx n (i + 1))
    /\ (forall j, Z.to_nat j <> Z.to_nat (_eltIdx n) -> eltAt ctx' j = eltAt ctx j)
    /\ len (elements ctx') = len (elements ctx).
Proof.
  intros Hseq Hidx.
  pose proof (sequence_in_range ctx n Hseq) as Hin.
  pose proof (sequence_size ctx n Hseq) as Hsize.
  unfold remove_index. rewrite Hseq. cbn [negb NodeType_eqb].
  destruct (Z.leb_spec (getSubQty (eltAt ctx (_eltIdx n))) idx) as [|_]; [lia|].
  set (ctx' := updElt _ _ _).
  assert (Hself : eltAt ctx' (_eltIdx n) = erase idx (eltAt ctx (_eltIdx n))).
  { apply eltAt_same_store. exact Hin. }
  assert (Ht : getType (eltAt ctx' (_eltIdx n)) = SEQUENCE) by (rewrite Hself; exact Hseq).
  set (old := subs (eltAt ctx (_eltIdx n))) in *.
  assert (Hsubs : subs (eltAt ctx' (_eltIdx n))
                  = firstn (Z.to_nat idx) old ++ skipn (S (Z.to_nat idx)) old).
  { rewrite Hself. apply subs_erase. fold old. lia. }
  assert (Hk : (Z.to_nat idx < List.length old)%nat) by (unfold len in Hsize; lia).
  destruct (nth_erase_at Z old (Z.to_nat idx) 0 Hk) as (Hbefore & Hafter).
  assert (Hq : getSubQty (eltAt ctx' (_eltIdx n)) = getSubQty (eltAt ctx (_eltIdx n)) - 1).
  { rewrite (getSubQty_SEQUENCE _ Ht), Hsubs, len_app, Hsize.
    unfold len. rewrite length_firstn, length_skipn. fold old. lia. }
  exists ctx'. split; [reflexivity|]. split; [|split; [|split; [|split]]].
  - unfold Node_size. rewrite Ht. cbn [isStructural negb]. rewrite Hq. reflexivity.
  - intros i Hi. unfold at_index. rewrite Ht, Hseq, Hq. cbn [negb NodeType_eqb].
    destruct (Z.leb_spec (getSubQty (eltAt ctx (_eltIdx n)) - 1) i); [lia|].
    destruct (Z.leb_spec (getSubQty (eltAt ctx (_eltIdx n))) i); [lia|].
    unfold getSub. rewrite Hsubs, Hbefore by lia. reflexivity.
  - intros i Hi. unfold at_index. rewrite Ht, Hseq, Hq. cbn [negb NodeType_eqb].
    destruct (Z.leb_spec (getSubQty (eltAt ctx (_eltIdx n)) - 1) i); [lia|].
    destruct (Z.leb_spec (getSubQty (eltAt ctx (_eltIdx n))) (i + 1)); [lia|].
    unfold getSub. rewrite Hsubs, Hafter by lia. fold old.
    replace (S (Z.to_nat i)) with (Z.to_nat (i + 1)) by lia. reflexivity.
  - intros j Hj. unfold ctx'. rewrite eltAt_updElt.
    destruct (Nat.eqb_spec (Z.to_nat (_eltIdx n)) (Z.to_nat j)); [congruence|reflexivity].
  - apply len_elements_updElt.
Qed.

Lemma children_sequence (ctx : Context) (n : Node) :
  getType (eltAt ctx (_eltIdx n)) = SEQUENCE ->
  children ctx n = Ret (map Node_of (subs (eltAt ctx (_eltIdx n)))).
Proof.
  intros Hseq. unfold children. rewrite Hseq. cbn [isStructural negb].
  rewrite (getSubQty_SEQUENCE _ Hseq). unfold getSubs, len. rewrite Nat2Z.id, firstn_all.
  reflexivity.
Qed.

(** X8: on a sequence, [insert(idx, kind)] followed by [remove(idx)]
    gives back the sequence as it was: the iteration over its children
    yields the same nodes in the same order. *)
Theorem insert_then_remove (ctx : Context) (n : Node) (idx : Z) (newKind : NodeType) :
  getType (eltAt ctx (_eltIdx n)) = SEQUENCE ->
  len (elements ctx) < 2 ^ 32 ->
  isStructural newKind = true ->
  0 <= idx <= getSubQty (eltAt ctx (_eltIdx n)) ->
  exists ctx' ctx'',
    insert_at_kind ctx n idx newKind = Ret ctx'
    /\ remove_index ctx' n idx = Ret ctx''
    /\ children ctx'' n = children ctx n.
Proof.
  intros Hseq Hfit Hkind Hidx.
  pose proof (sequence_size ctx n Hseq) as Hsize.
  unfold insert_at_kind. rewrite Hkind, Hseq. cbn [negb NodeType_eqb].
  destruct (Z.ltb_spec (getSubQty (eltAt ctx (_eltIdx n))) idx) as [|_]; [lia|].
  rewrite (u32_id (len (elements ctx))) by (pose proof (len_nonneg (elements ctx)); lia).
  destruct (sequence_after_insert ctx n Hseq idx (Element_kind newKind) Hidx)
    as (Ht & Hsubs & _).
  set (ctx' := updElt _ _ _) in *.
  set (old := subs (eltAt ctx (_eltIdx n))) in *.
  assert (Hk : (Z.to_nat idx <= List.length old)%nat) by (unfold len in Hsize; lia).
  assert (Hq : getSubQty (eltAt ctx' (_eltIdx n)) = getSubQty (eltAt ctx (_eltIdx n)) + 1).
  { rewrite (getSubQty_SEQUENCE _ Ht), Hsubs, len_app, len_cons, Hsize.
    unfold len. rewrite length_firstn, length_skipn. fold old. lia. }
  exists ctx'. unfold remove_index. rewrite Ht, Hq. cbn [negb NodeType_eqb].
  destruct (Z.leb_spec (getSubQty (eltAt ctx (_eltIdx n)) + 1) idx) as [|_]; [lia|].
  eexists. split; [reflexivity|]. split; [reflexivity|].
  pose proof (sequence_in_range ctx' n ltac:(rewrite Ht; reflexivity)) as Hin'.
  assert (Hself : eltAt (updElt (_eltIdx n) (erase idx) ctx') (_eltIdx n)
                  = erase idx (eltAt ctx' (_eltIdx n))) by (apply eltAt_same_store; exact Hin').
  rewrite !children_sequence by (rewrite ?Hself; assumption).
  rewrite Hself. f_equal. f_equal.
  rewrite subs_erase by (rewrite <- (getSubQty_SEQUENCE _ Ht), Hq; lia).
  rewrite Hsubs.
  assert (Hlen : List.length (firstn (Z.to_nat idx) old) = Z.to_nat idx)
    by (rewrite length_firstn; lia).
  rewrite firstn_app, Hlen, Nat.sub_diag, firstn_all2 by lia. cbn [firstn].
  rewrite app_nil_r.
  rewrite skipn_app, Hlen, skipn_all2 by lia.
  replace (S (Z.to_nat idx) - Z.to_nat idx)%nat with 1%nat by lia. cbn [skipn app].
  apply firstn_skipn.
Qed.

(** X9: on a sequence, [push_back(kind)] followed by [pop_back()] gives
    back the sequence as it was; [pop_back()] needs a child to remove. *)
Theorem push_then_pop (ctx : Context) (n : Node) (newKind : NodeType) :
  getType (eltAt ctx (_eltIdx n)) = SEQUENCE ->
  len (elements ctx) < 2 ^ 32 ->
  isStructural newKind = true ->
  exists ctx' ctx'',
    push_back_kind ctx n newKind = Ret ctx'
    /\ pop_back ctx' n = Ret ctx''
    /\ children ctx'' n = children ctx n.
Proof.
  intros Hseq Hfit Hkind.
  pose proof (sequence_in_range ctx n Hseq) as Hin.
  pose proof (sequence_size ctx n Hseq) as Hsize.
  unfold push_back_kind. rewrite Hkind, Hseq. cbn [negb NodeType_eqb].
  rewrite (u32_id (len (elements ctx))) by (pose proof (len_nonneg (elements ctx)); lia).
  set (ctx' := updElt _ _ _).
  assert (Hself : eltAt ctx' (_eltIdx n) = add (len (elements ctx)) (eltAt ctx (_eltIdx n))).
  { apply eltAt_grow_self. exact Hin. }
  assert (Ht : getType (eltAt ctx' (_eltIdx n)) = SEQUENCE).
  { rewrite Hself, getType_add. exact Hseq. }
  assert (Hsubs : subs (eltAt ctx' (_eltIdx n))
                  = subs (eltAt ctx (_eltIdx n)) ++ [len (elements ctx)]).
  { rewrite Hself. apply subs_add. rewrite Hseq. discriminate. }
  assert (Hq : getSubQty (eltAt ctx' (_eltIdx n)) = getSubQty (eltAt ctx (_eltIdx n)) + 1).
  { rewrite (getSubQty_SEQUENCE _ Ht), Hsubs, len_app, Hsize. reflexivity. }
  pose proof (len_nonneg (subs (eltAt ctx (_eltIdx n)))) as Hnn.
  exists ctx'. unfold pop_back. rewrite Ht, Hq. cbn [negb NodeType_eqb].
  destruct (Z.eqb_spec (getSubQty (eltAt ctx (_eltIdx n)) + 1) 0) as [|_]; [lia|].
  eexists. split; [reflexivity|]. split; [reflexivity|].
  pose proof (sequence_in_range ctx' n ltac:(rewrite Ht; reflexivity)) as Hin'.
  match goal with
  | |- children (updElt ?i ?f ctx') n = _ =>
      assert (Hpop : eltAt (updElt i f ctx') i = f (eltAt ctx' i))
        by (apply eltAt_same_store; exact Hin')
  end.
  rewrite !children_sequence by (rewrite ?Hpop; assumption).
  rewrite Hpop. f_equal. f_equal.
  rewrite subs_erase by (rewrite <- (getSubQty_SEQUENCE _ Ht), Hq; lia).
  rewrite Hsubs.
  replace (Z.to_nat (getSubQty (eltAt ctx (_eltIdx n)) + 1 - 1))
    with (List.length (subs (eltAt ctx (_eltIdx n)))) by (unfold len in *; lia).
  rewrite firstn_app, firstn_all, Nat.sub_diag. cbn [firstn]. rewrite app_nil_r.
  rewrite skipn_all2 by (rewrite length_app; cbn [List.length]; lia).
  apply app_nil_r.
Qed.

Lemma push_back_kind_appends_witness :
  exists ctx',
    push_back_kind sequenceOfTwo (Node_of 0) MAP = Ret ctx'
    /\ Node_size ctx' (Node_of 0) = Ret 3
    /\ at_index ctx' (Node_of 0) 2 = Ret (Node_of 3).
Proof.
  destruct (push_back_kind_appends sequenceOfTwo (Node_of 0) MAP) as (ctx' & H1 & H2 & H3 & _).
  - vm_compute. reflexivity.
  - vm_compute. reflexivity.
  - reflexivity.
  - exists ctx'. split; [exact H1|]. split; [exact H2|exact H3].
Defined.

Lemma insert_at_kind_places_witness :
  exists ctx',
    insert_at_kind sequenceOfTwo (Node_of 0) 1 MAP = Ret ctx'
    /\ at_index ctx' (Node_of 0) 1 = Ret (Node_of 3)
    /\ at_index ctx' (Node_of 0) 2 = at_index sequenceOfTwo (Node_of 0) 1.
Proof.
  destruct (insert_at_kind_places sequenceOfTwo (Node_of 0) 1 MAP)
    as (ctx' & H1 & _ & H3 & _ & _ & H6).
  - vm_compute. reflexivity.
  - vm_compute. reflexivity.
  - reflexivity.
  - vm_compute. split; discriminate.
  - exists ctx'. split; [exact H1|]. split; [exact H3|].
    apply (H6 2). vm_compute. split; [reflexivity|discriminate].
Defined.

Lemma remove_index_shifts_witness :
  exists ctx',
    remove_index sequenceOfTwo (Node_of 0) 0 = Ret ctx'
    /\ Node_size ctx' (Node_of 0) = Ret 1
    /\ at_index ctx' (Node_of 0) 0 = at_index sequenceOfTwo (Node_of 0) 1.
Proof.
  destruct (remove_index_shifts sequenceOfTwo (Node_of 0) 0) as (ctx' & H1 & H2 & _ & H4 & _).
  - vm_compute. reflexivity.
  - vm_compute. split; [discriminate|reflexivity].
  - exists ctx'. split; [exact H1|]. split; [exact H2|].
    apply (H4 0). vm_compute. split; [discriminate|reflexivity].
Defined.

Lemma insert_then_remove_witness :
  exists ctx' ctx'',
    insert_at_kind sequenceOfTwo (Node_of 0) 1 SEQUENCE = Ret ctx'
    /\ remove_index ctx' (Node_of 0) 1 = Ret ctx''
    /\ children ctx'' (Node_of 0) = children sequenceOfTwo (Node_of 0).
Proof.
  apply (insert_then_remove sequenceOfTwo (Node_of 0) 1 SEQUENCE).
  - vm_compute. reflexivity.
  - vm_compute. reflexivity.
  - reflexivity.
  - vm_compute. split; discriminate.
Defined.

Lemma push_then_pop_witness :
  exists ctx' ctx'',
    push_back_kind emptySequence (Node_of 0) MAP = Ret ctx'
    /\ pop_back ctx' (Node_of 0) = Ret ctx''
    /\ children ctx'' (Node_of 0) = children emptySequence (Node_of 0).
Proof.
  apply (push_then_pop emptySequence (Node_of 0) MAP).
  - vm_compute. reflexivity.
  - vm_compute. reflexivity.
  - reflexivity.
Defined.

(** ** Values: what is written is read back *)

Lemma cstr_app_NUL (s rest : list ascii) : ~ In NUL s -> cstr (s ++ NUL :: rest) = s.
Proof.
  induction s as [|c s IH]; intros Hnn; cbn [cstr app]; [reflexivity|].
  destruct (Ascii.eqb_spec c NUL) as [->|_]; [exfalso; apply Hnn; left; reflexivity|].
  rewrite IH; [reflexivity|]. intros Hin. apply Hnn. right. exact Hin.
Qed.

Lemma cstrAt_added (a s : list ascii) :
  ~ In NUL s -> cstrAt (a ++ s ++ [NUL]) (len a) = s.
Proof.
  intros Hnn. unfold cstrAt, len. rewrite Nat2Z.id.
  rewrite skipn_app, skipn_all, Nat.sub_diag. cbn [skipn app].
  apply cstr_app_NUL. exact Hnn.
Qed.

Lemma eltAt_addStringElt (text : list ascii) (i : Z) (ctx : Context) :
  (Z.to_nat i < List.length (elements ctx))%nat ->
  eltAt (addStringElt text i ctx) i
  = setString (u32 (len (arena ctx))) (u32 (len text + 1)) (eltAt ctx i)
  /\ arena (addStringElt text i ctx) = arena ctx ++ text ++ [NUL].
Proof.
  intros Hi. unfold addStringElt, addString.
  split; [|reflexivity].
  rewrite eltAt_same_store by exact Hi. reflexivity.
Qed.

Section ValueRoundTrip.

Variable T : Type.
Variable encode : T -> outcome (list ascii).
Variable decode : list ascii -> outcome T.
Variable typeName : string.

(** Reading a VALUE element whose string was just added to the arena. *)
Lemma as_of_added (ctx : Context) (n : Node) (a enc : list ascii) (v : T) :
  getType (eltAt ctx (_eltIdx n)) = VALUE ->
  getStringIdx (eltAt ctx (_eltIdx n)) = len a ->
  arena ctx = a ++ enc ++ [NUL] ->
  ~ In NUL enc -> decode enc = Ret v ->
  as_ T decode typeName ctx n = Ret v.
Proof.
  intros Ht Hidx Ha Hnn Hdec.
  unfold as_. rewrite Ht. cbn [NodeType_eqb negb andb].
  unfold decodeValue. rewrite Ht, Hidx, Ha, (cstrAt_added a enc Hnn), Hdec. reflexivity.
Qed.

(** X10: assigning a value to a node that is neither a key nor a
    pending-key handle makes it a VALUE node that reads back as this value:
    after [n = v], [n.as<T>()] is [v], as soon as the codec gives back [v]
    from its encoding and the encoding holds no NUL character. The other
    elements are left as they were. *)
Theorem assign_then_read (ctx : Context) (n : Node) (v : T) (enc : list ascii) :
  0 <= _eltIdx n < len (elements ctx) ->
  getType (eltAt ctx (_eltIdx n)) <> KEY ->
  _nonExistingKey n = [] ->
  len (arena ctx) < 2 ^ 32 ->
  encode v = Ret enc -> ~ In NUL enc -> decode enc = Ret v ->
  exists ctx',
    assign T encode ctx n v = Ret (n, ctx')
    /\ Node_type ctx' n = VALUE
    /\ as_ T decode typeName ctx' n = Ret v
    /\ (forall j, 0 <= j -> j <> _eltIdx n -> eltAt ctx' j = eltAt ctx j).
Proof.
  intros Hin _ Hpend Hfit Henc Hnn Hdec.
  assert (Hi : (Z.to_nat (_eltIdx n) < List.length (elements ctx))%nat)
    by (unfold len in Hin; lia).
  assert (Hu : u32 (len (arena ctx)) = len (arena ctx))
    by (apply u32_id; pose proof (len_nonneg (arena ctx)); lia).
  unfold assign, encodeValue. rewrite Henc, Hpend. cbn [bind isNil negb].
  assert (Hboth : forall ctx0,
            (Z.to_nat (_eltIdx n) < List.length (elements ctx0))%nat ->
            arena ctx0 = arena ctx ->
            getType (eltAt ctx0 (_eltIdx n)) = VALUE ->
            (forall j, 0 <= j -> j <> _eltIdx n -> eltAt ctx0 j = eltAt ctx j) ->
            Node_type (addStringElt enc (_eltIdx n) ctx0) n = VALUE
            /\ as_ T decode typeName (addStringElt enc (_eltIdx n) ctx0) n = Ret v
            /\ (forall j, 0 <= j -> j <> _eltIdx n ->
                          eltAt (addStringElt enc (_eltIdx n) ctx0) j = eltAt ctx j)).
  { intros ctx0 Hi0 Ha0 Ht0 Hother.
    destruct (eltAt_addStringElt enc (_eltIdx n) ctx0 Hi0) as (Helt & Harena).
    assert (Ht : getType (eltAt (addStringElt enc (_eltIdx n) ctx0) (_eltIdx n)) = VALUE).
    { rewrite Helt. exact Ht0. }
    split; [unfold Node_type; rewrite Ht; reflexivity|]. split.
    - apply (as_of_added _ n (arena ctx) enc v); try assumption.
      + rewrite Helt. unfold getStringIdx, setString. cbn [etype typed0].
        unfold getType in Ht0. rewrite Ht0, Ha0. exact Hu.
      + rewrite Harena, Ha0. reflexivity.
    - intros j Hj Hne. unfold addStringElt, addString.
      rewrite eltAt_updElt.
      destruct (Nat.eqb_spec (Z.to_nat (_eltIdx n)) (Z.to_nat j)); [lia|].
      cbn [andb]. apply Hother; assumption. }
  destruct (NodeType_eqb (getType (eltAt ctx (_eltIdx n))) VALUE) eqn:Hv.
  - apply NodeType_eqb_eq in Hv.
    eexists. split; [reflexivity|]. apply Hboth; auto.
  - eexists. split; [reflexivity|]. apply Hboth.
    + unfold updElt, setElt. cbn [elements]. rewrite length_setNth. exact Hi.
    + reflexivity.
    + rewrite eltAt_same_store by exact Hi. reflexivity.
    + intros j Hj Hne. rewrite eltAt_updElt.
      destruct (Nat.eqb_spec (Z.to_nat (_eltIdx n)) (Z.to_nat j)); [lia|reflexivity].
Qed.

(** X11: on a sequence, [push_back(v)] adds as last child a VALUE node
    that reads back as [v], under the same conditions on the codec. *)
Theorem push_back_then_read (ctx : Context) (n : Node) (v : T) (enc : list ascii) :
  getType (eltAt ctx (_eltIdx n)) = SEQUENCE ->
  len (elements ctx) < 2 ^ 32 -> len (arena ctx) < 2 ^ 32 ->
  encode v = Ret enc -> ~ In NUL enc -> decode enc = Ret v ->
  exists ctx',
    push_back T encode ctx n v = Ret ctx'
    /\ Node_size ctx' n = Ret (getSubQty (eltAt ctx (_eltIdx n)) + 1)
    /\ at_index ctx' n (getSubQty (eltAt ctx (_eltIdx n))) = Ret (Node_of (len (elements ctx)))
    /\ as_ T decode typeName ctx' (Node_of (len (elements ctx))) = Ret v
    /\ forall i, 0 <= i < getSubQty (eltAt ctx (_eltIdx n)) ->
                 at_index ctx' n i = at_index ctx n i.
Proof.
  intros Hseq Hfit Hafit Henc Hnn Hdec.
  pose proof (sequence_in_range ctx n Hseq) as Hin.
  pose proof (sequence_size ctx n Hseq) as Hsize.
  assert (Hu : u32 (len (arena ctx)) = len (arena ctx))
    by (apply u32_id; pose proof (len_nonneg (arena ctx)); lia).
  unfold push_back, encodeValue. rewrite Hseq, Henc. cbn [negb NodeType_eqb bind].
  unfold addString.
  set (ctx1 := setArena (arena ctx ++ enc ++ [NUL]) ctx).
  change (elements ctx1) with (elements ctx).
  rewrite (u32_id (len (elements ctx))) by (pose proof (len_nonneg (elements ctx)); lia).
  set (e := Element_string VALUE _ _).
  set (ctx' := updElt _ _ _).
  assert (Hself : eltAt ctx' (_eltIdx n) = add (len (elements ctx)) (eltAt ctx (_eltIdx n))).
  { unfold ctx'. change (len (elements ctx)) with (len (elements ctx1)).
    rewrite (eltAt_grow_self ctx1 (_eltIdx n) e _ Hin). reflexivity. }
  assert (Hnew : eltAt ctx' (len (elements ctx)) = e).
  { unfold ctx'. change (len (elements ctx)) with (len (elements ctx1)).
    apply eltAt_grow_new. exact Hin. }
  assert (Ht : getType (eltAt ctx' (_eltIdx n)) = SEQUENCE).
  { rewrite Hself, getType_add. exact Hseq. }
  assert (Hsubs : subs (eltAt ctx' (_eltIdx n))
                  = subs (eltAt ctx (_eltIdx n)) ++ [len (elements ctx)]).
  { rewrite Hself. apply subs_add. rewrite Hseq. discriminate. }
  assert (Hq : getSubQty (eltAt ctx' (_eltIdx n)) = getSubQty (eltAt ctx (_eltIdx n)) + 1).
  { rewrite (getSubQty_SEQUENCE _ Ht), Hsubs, len_app, Hsize. reflexivity. }
  pose proof (len_nonneg (subs (eltAt ctx (_eltIdx n)))) as Hpos.
  exists ctx'. split; [reflexivity|]. split; [|split; [|split]].
  - unfold Node_size. rewrite Ht. cbn [isStructural negb]. rewrite Hq. reflexivity.
  - unfold at_index. rewrite Ht. cbn [negb NodeType_eqb]. rewrite Hq.
    destruct (Z.leb_spec (getSubQty (eltAt ctx (_eltIdx n)) + 1)
                (getSubQty (eltAt ctx (_eltIdx n)))); [lia|].
    unfold getSub. rewrite Hsubs, Hsize.
    rewrite app_nth2 by (unfold len; lia).
    replace (Z.to_nat (len _) - _)%nat with 0%nat by (unfold len; lia). reflexivity.
  - apply (as_of_added ctx' _ (arena ctx) enc v); cbn [_eltIdx Node_of]; try assumption.
    + rewrite Hnew. reflexivity.
    + rewrite Hnew. unfold e, getStringIdx, Element_string. cbn [etype typed0]. exact Hu.
    + reflexivity.
  - intros i Hi. unfold at_index. rewrite Ht, Hseq, Hq. cbn [negb NodeType_eqb].
    destruct (Z.leb_spec (getSubQty (eltAt ctx (_eltIdx n)) + 1) i); [lia|].
    destruct (Z.leb_spec (getSubQty (eltAt ctx (_eltIdx n))) i); [lia|].
    unfold getSub. rewrite Hsubs. rewrite app_nth1 by (unfold len in *; lia). reflexivity.
Qed.

End ValueRoundTrip.

Lemma assign_then_read_witness :
  exists ctx',
    assign (list ascii) encodeString sequenceOfTwo (Node_of 1) (chars "abc")
    = Ret (Node_of 1, ctx')
    /\ as_ (list ascii) decodeString "Ss" ctx' (Node_of 1) = Ret (chars "abc").
Proof.
  destruct (assign_then_read (list ascii) encodeString decodeString "Ss" sequenceOfTwo
              (Node_of 1) (chars "abc") (chars "abc")) as (ctx' & H1 & _ & H3 & _).
  - vm_compute. split; [discriminate|reflexivity].
  - vm_compute. discriminate.
  - reflexivity.
  - vm_compute. reflexivity.
  - reflexivity.
  - cbn. intros [H|[H|[H|[]]]]; discriminate H.
  - reflexivity.
  - exists ctx'. split; [exact H1|exact H3].
Defined.

Lemma push_back_then_read_witness :
  exists ctx',
    push_back (list ascii) encodeString sequenceOfTwo (Node_of 0) (chars "abc") = Ret ctx'
    /\ at_index ctx' (Node_of 0) 2 = Ret (Node_of 3)
    /\ as_ (list ascii) decodeString "Ss" ctx' (Node_of 3) = Ret (chars "abc").
Proof.
  destruct (push_back_then_read (list ascii) encodeString decodeString "Ss" sequenceOfTwo
              (Node_of 0) (chars "abc") (chars "abc")) as (ctx' & H1 & _ & H3 & H4 & _).
  - vm_compute. reflexivity.
  - vm_compute. reflexivity.
  - vm_compute. reflexivity.
  - reflexivity.
  - cbn. intros [H|[H|[H|[]]]]; discriminate H.
  - reflexivity.
  - exists ctx'. split; [exact H1|]. split; [exact H3|exact H4].
Defined.

(** ** The index of the maps after parsing *)

Lemma parseLoop_safe (text : list ascii) (textSize : Z) (fuel : nat) :
  forall s0 s : ParseState,
    parseLoop fuel text textSize s0 = Ret s -> stackOk (ps_stack s0) (ps_parent s0) ->
    safeStep (ps_context s0) (ps_context s) /\ stackOk (ps_stack s) (ps_parent s).
Proof.
  induction fuel as [|f IH]; intros s0 s H Hok; cbn [parseLoop] in H.
  - destruct (_ || _); [|discriminate H].
    injection H as <-. split; [apply safeStep_refl|exact Hok].
  - destruct (_ || _).
    + injection H as <-. split; [apply safeStep_refl|exact Hok].
    + destruct (parseStep text textSize s0) as [s1| |] eqn:Hstep; cbn [bind] in H;
        try discriminate.
      destruct (parseStep_safe _ _ _ _ Hstep Hok) as (Hsafe1 & Hok1).
      destruct (IH _ _ H Hok1) as (Hsafe & Hoks).
      split; [exact (safeStep_trans _ _ _ Hsafe1 Hsafe)|exact Hoks].
Qed.

(** The context of a parsed document keeps the invariant of the parser. *)
Lemma parse_inv (text : list ascii) (d : Document) :
  parse text = Ret d -> sizes (doc_context d) -> parseInv (doc_context d).
Proof.
  unfold parse, parse_sized. rewrite Context_new_value. cbn [bind]. fold parseStart.
  destruct (parseLoop _ _ _ _) as [s| |] eqn:Hloop; cbn [bind]; try discriminate.
  intros H Hs. injection H as <-. cbn [doc_context Document_of] in *.
  destruct parseStart_inv as (Hinv0 & Hok0).
  destruct (parseLoop_safe _ _ _ _ _ Hloop Hok0) as ((_ & Hsafe) & _).
  apply Hsafe; assumption.
Qed.

(** A key of a map is found by the lookup, at the position of a key of
    that name. *)
Lemma lookup_finds (ctx : Context) (pi c : Z) (name : list ascii) :
  parseInv ctx -> len (arena ctx) <= 2 ^ 28 -> keyAt ctx pi c name ->
  exists s,
    search Tombstone
      (cellMatches ctx (eltAt ctx pi) name (len name) (keyHashOf pi name (len name)))
      (_entries ctx) (homePath (_maxEntryQty ctx) (keyHashOf pi name (len name)))
    = Ret (Hit s)
    /\ cellMatches ctx (eltAt ctx pi) name (len name) (keyHashOf pi name (len name))
         (cellAt (_entries ctx) s) = true.
Proof.
  intros (Htab & Hidx & Hwf1 & Hwf2) Hsize Hkey.
  destruct (Hidx _ _ _ Hkey) as (pre & slot & post & Hpath & Hcell & Hpre).
  pose proof Hkey as (Hp & Ht & Hc & Hck & Hname).
  pose proof (keyHashOf_valid pi (len name) name Hp) as Hv.
  assert (Hm : cellMatches ctx (eltAt ctx pi) name (len name) (keyHashOf pi name (len name))
                 (cellAt (_entries ctx) slot) = true).
  { rewrite Hcell. apply cellMatches_keyAt; [exact Hkey| |exact Hsize].
    apply Hwf2. exact Hck. }
  destruct (search_hits_within Tombstone
              (cellMatches ctx (eltAt ctx pi) name (len name) (keyHashOf pi name (len name)))
              (_entries ctx) pre post slot) as (s & Hs).
  - intros x Hx. specialize (Hpre x Hx). unfold FirstValid, Tombstone in *. lia.
  - rewrite Hcell. cbn [hash]. unfold FirstValid, Tombstone in *. lia.
  - exact Hm.
  - exists s. rewrite Hpath. split; [exact Hs|].
    apply search_result in Hs.
    destruct Hs as (pre' & post' & s' & _ & _ & [(Heq & _ & Hm')|(Heq & _)]);
      [|discriminate Heq].
    injection Heq as <-. exact Hm'.
Qed.

Lemma getMapChildIndex_finds (ctx : Context) (pi c : Z) (name : list ascii) :
  parseInv ctx -> len (arena ctx) <= 2 ^ 28 -> keyAt ctx pi c name ->
  exists c',
    getMapChildIndex pi name (len name) (eltAt ctx pi) ctx = Ret c'
    /\ c' < getSubQty (eltAt ctx pi)
    /\ getType (eltAt ctx (getSub c' (eltAt ctx pi))) = KEY
    /\ cellMatches ctx (eltAt ctx pi) name (len name) (keyHashOf pi name (len name))
         (mkEntry (keyHashOf pi name (len name)) c') = true.
Proof.
  intros Hinv Hsize Hkey.
  destruct (lookup_finds ctx pi c name Hinv Hsize Hkey) as (s & Hs & Hm).
  unfold getMapChildIndex. rewrite probe_search.
  fold (homePath (_maxEntryQty ctx) (keyHashOf pi name (len name))).
  rewrite Hs. cbn [bind].
  change (entryAt ctx s) with (cellAt (_entries ctx) s).
  eexists. split; [reflexivity|].
  pose proof (cellMatches_spec _ _ _ _ _ _ Hm) as (Hh & Hlt & Ht & _).
  split; [exact Hlt|]. split; [exact Ht|].
  destruct (cellAt (_entries ctx) s) as [h0 c0]. cbn [hash childIndex] in *.
  subst h0. exact Hm.
Qed.

(** A cell that matches a key without NUL character designates a key
    child of that name. *)
Lemma cellMatches_childNamed (ctx : Context) (parentElt : Element) (key : list ascii)
    (keyHash : Z) (e : Entry) :
  ~ In NUL key -> len key < 2 ^ 31 ->
  cellMatches ctx parentElt key (len key) keyHash e = true ->
  childNamed ctx parentElt key (childIndex e) = true.
Proof.
  intros Hnn Hlen Hm.
  pose proof (cellMatches_spec _ _ _ _ _ _ Hm) as (_ & Hlt & Ht & Hs & Hcmp).
  unfold childNamed. rewrite Ht. cbn [NodeType_eqb andb]. apply bytes_eqb_eq.
  unfold nameOf. rewrite Hs.
  assert (Hsz : u32 (u32 (len key + 1) - 1) = len key).
  { unfold u32. change (2 ^ 32) with 4294967296. change (2 ^ 31) with 2147483648 in Hlen.
    unfold len in *. rewrite (Z.mod_small (_ + 1)) by lia. rewrite Z.mod_small; lia. }
  rewrite Hsz.
  destruct key as [|c key]; [reflexivity|].
  apply slice_eq_of_at; [discriminate| |assumption].
  intros j Hj.
  apply (strncmpEq_bytes _ _ _ 0 Hcmp).
  - intros j' Hj' Heq. apply Hnn. rewrite <- Heq. unfold at_.
    destruct (Z.ltb_spec j' 0); [lia|]. apply nth_In. unfold len in *. lia.
  - unfold len in *. lia.
Qed.

(** X12: in a document returned by [parse], every key of every map is
    in the index: for a map node and the name of one of its key children,
    without NUL character, [hasKey] is true and [operator[]] returns the
    value node of a key child of that name (not a pending-key handle). The document holds at most
    [2 ^ 28] elements and characters, and the map as many children. *)
Theorem parsed_keys_are_found (text : list ascii) (d : Document) (n : Node)
    (key : list ascii) :
  parse text = Ret d ->
  len (elements (doc_context d)) <= 2 ^ 28 -> len (arena (doc_context d)) <= 2 ^ 28 ->
  0 <= _eltIdx n -> _nonExistingKey n = [] ->
  getType (eltAt (doc_context d) (_eltIdx n)) = MAP ->
  getSubQty (eltAt (doc_context d) (_eltIdx n)) <= 2 ^ 28 ->
  key <> [] -> ~ In NUL key ->
  hasKeyChild (doc_context d) (eltAt (doc_context d) (_eltIdx n)) key = true ->
  hasKey (doc_context d) n key = Ret true
  /\ exists c,
       c < getSubQty (eltAt (doc_context d) (_eltIdx n))
       /\ childNamed (doc_context d) (eltAt (doc_context d) (_eltIdx n)) key c = true
       /\ at_key (doc_context d) n key
          = Ret (Node_of (getKeyValue
                            (eltAt (doc_context d)
                               (getSub c (eltAt (doc_context d) (_eltIdx n)))))).
Proof.
  intros Hparse Hs1 Hs2 Hn Hpend Hmap Hq Hne Hnn Hhas.
  set (ctx := doc_context d) in *.
  pose proof (parse_inv text d Hparse (conj Hs1 Hs2)) as Hinv.
  destruct (hasKeyChild_keyAt ctx (_eltIdx n) key Hn Hmap Hhas) as (c & Hkey).
  destruct (getMapChildIndex_finds ctx (_eltIdx n) c key Hinv Hs2 Hkey)
    as (c' & Hfind & Hlt & _ & Hm).
  assert (Hlen : len key < 2 ^ 31).
  { destruct Hkey as (_ & _ & _ & _ & Hname). rewrite <- Hname. unfold nameOf, slice, len.
    rewrite length_firstn, length_skipn. unfold len in Hs2.
    change (2 ^ 28) with 268435456 in Hs2. change (2 ^ 31) with 2147483648. lia. }
  pose proof (cellMatches_childNamed _ _ _ _ _ Hnn Hlen Hm) as Hck.
  cbn [childIndex] in Hck.
  assert (Hnil : isNil key = false) by (destruct key; [congruence|reflexivity]).
  assert (Hmax : (c' =? UINT_MAX) = false).
  { apply Z.eqb_neq. unfold UINT_MAX. change (2 ^ 28) with 268435456 in Hq. lia. }
  split.
  - unfold hasKey. fold ctx. rewrite Hmap, Hnil. cbn [NodeType_eqb negb].
    rewrite Hfind. cbn [bind]. rewrite Hmax. reflexivity.
  - exists c'. split; [exact Hlt|]. split; [exact Hck|].
    unfold at_key. fold ctx. rewrite Hmap, Hnil, Hpend. cbn [NodeType_eqb negb isNil].
    rewrite Hfind. cbn [bind]. rewrite Hmax. reflexivity.
Qed.

Lemma parsed_keys_are_found_witness :
  hasKey (doc_context mapExampleDoc) (doc_root mapExampleDoc) (chars "a") = Ret true.
Proof.
  refine (proj1 (parsed_keys_are_found mapExample mapExampleDoc (doc_root mapExampleDoc)
                   (chars "a") _ _ _ _ _ _ _ _ _ _)).
  - vm_compute. reflexivity.
  - vm_compute. discriminate.
  - vm_compute. discriminate.
  - vm_compute. discriminate.
  - reflexivity.
  - vm_compute. reflexivity.
  - vm_compute. discriminate.
  - discriminate.
  - cbn. intros [H|[]]. discriminate H.
  - vm_compute. reflexivity.
Defined.

(** ** A new key in a map: the index finds it *)

Lemma occupied_setNth_same (es : list Entry) (s : nat) (e : Entry) :
  hash e = hash (nth s es emptyEntry) -> occupied (setNth s e es) = occupied es.
Proof.
  revert s. induction es as [|x r IH]; intros s He; [destruct s; reflexivity|].
  destruct s as [|s]; cbn [setNth nth] in *.
  - rewrite !occupied_cons, He. reflexivity.
  - rewrite !occupied_cons, (IH s He). reflexivity.
Qed.

Lemma cellMatches_same_store (ctx ctx' : Context) (parentElt : Element) (key : list ascii)
    (keySize keyHash : Z) (e : Entry) :
  elements ctx' = elements ctx -> arena ctx' = arena ctx ->
  cellMatches ctx' parentElt key keySize keyHash e
  = cellMatches ctx parentElt key keySize keyHash e.
Proof.
  intros He Ha. unfold cellMatches, getString, eltAt. rewrite He, Ha. reflexivity.
Qed.

Lemma keyAt_same_store (ctx ctx' : Context) (pi c : Z) (name : list ascii) :
  elements ctx' = elements ctx -> arena ctx' = arena ctx ->
  keyAt ctx pi c name -> keyAt ctx' pi c name.
Proof.
  intros He Ha. unfold keyAt, nameOf, eltAt. rewrite He, Ha. auto.
Qed.

Lemma record_same (ctx : Context) :
  setEntries (_entries ctx) ctx = ctx.
Proof. destruct ctx. reflexivity. Qed.

Section NewKey.

Variables (ctx4 : Context) (p k : Z) (key : list ascii).
Hypothesis inv4 : parseInv ctx4.
Hypothesis p_unsigned : 0 <= p.
Hypothesis p_map : getType (eltAt ctx4 p) = MAP.
Hypothesis k_range : 0 <= k < len (elements ctx4).
Hypothesis k_key : getType (eltAt ctx4 k) = KEY.
Hypothesis k_name : nameOf ctx4 (eltAt ctx4 k) = key.
Hypothesis key_no_NUL : ~ In NUL key.
Hypothesis key_absent : forall c, ~ keyAt ctx4 p c key.
Hypothesis store_small : len (elements ctx4) <= 2 ^ 28 /\ len (arena ctx4) <= 2 ^ 28.
Hypothesis entries_fewer : _entryQty ctx4 < len (elements ctx4).

Let ctx5 : Context := updElt p (add k) ctx4.
Let elt5 : Element := eltAt ctx5 p.
Let cnew : Z := getSubQty elt5 - 1.
Let h : Z := keyHashOf p key (len key).

Lemma newKey_parent :
  elt5 = add k (eltAt ctx4 p) /\ getType elt5 = MAP
  /\ subs elt5 = subs (eltAt ctx4 p) ++ [k]
  /\ cnew = len (subs (eltAt ctx4 p)).
Proof.
  assert (Hin : (Z.to_nat p < List.length (elements ctx4))%nat).
  { apply eltAt_in_range. rewrite p_map. discriminate. }
  assert (He : elt5 = add k (eltAt ctx4 p)).
  { unfold elt5, ctx5. apply eltAt_same_store. exact Hin. }
  assert (Ht : getType elt5 = MAP) by (rewrite He, getType_add; exact p_map).
  assert (Hs : subs elt5 = subs (eltAt ctx4 p) ++ [k]).
  { rewrite He. apply subs_add. rewrite p_map. discriminate. }
  split; [exact He|]. split; [exact Ht|]. split; [exact Hs|].
  unfold cnew. rewrite (getSubQty_MAP _ Ht), Hs, len_app. change (len [k]) with 1. lia.
Qed.

Lemma newKey_len : len key < 2 ^ 31.
Proof.
  destruct store_small as (_ & Ha).
  rewrite <- k_name. unfold nameOf, slice, len. rewrite length_firstn, length_skipn.
  unfold len in Ha. change (2 ^ 28) with 268435456 in Ha. change (2 ^ 31) with 2147483648. lia.
Qed.

Lemma newKey_classify :
  wfElements ctx5
  /\ forall pi c name,
       keyAt ctx5 pi c name ->
       keyAt ctx4 pi c name \/ (pi = p /\ c = cnew /\ name = key).
Proof.
  destruct inv4 as (_ & _ & Hwf).
  destruct (keyAt_add_key ctx4 p k Hwf p_unsigned k_range k_key) as (Hwf5 & Hkeys).
  split; [exact Hwf5|].
  intros pi c name Hk. destruct (Hkeys pi c name Hk) as [Hold|(-> & -> & ->)];
    [left; exact Hold|right].
  split; [reflexivity|]. split; [reflexivity|exact k_name].
Qed.

Lemma newKey_is_key : keyAt ctx5 p cnew key.
Proof.
  destruct newKey_parent as (He & Ht & Hs & Hc).
  pose proof (len_nonneg (subs (eltAt ctx4 p))) as Hnn.
  assert (Hsub : getSub cnew elt5 = k).
  { unfold getSub. rewrite Hs, Hc. unfold len. rewrite Nat2Z.id. apply nth_middle. }
  assert (Hchild : eltAt ctx5 k = eltAt ctx4 k).
  { unfold ctx5. rewrite eltAt_updElt.
    destruct (Nat.eqb_spec (Z.to_nat p) (Z.to_nat k)) as [Heq|Hne]; [|reflexivity].
    exfalso. assert (Hsame : eltAt ctx4 k = eltAt ctx4 p)
      by (unfold eltAt; rewrite Heq; reflexivity).
    rewrite Hsame in k_key. congruence. }
  unfold keyAt. fold elt5. rewrite Hsub, Hchild.
  split; [exact p_unsigned|]. split; [exact Ht|]. split; [unfold cnew; lia|].
  split; [exact k_key|]. exact k_name.
Qed.

(** A cell that matches the new key designates the new child. *)
Lemma newKey_match (e : Entry) :
  cellMatches ctx5 elt5 key (len key) h e = true ->
  getSub (childIndex e) elt5 = k /\ (0 <= childIndex e -> childIndex e = cnew).
Proof.
  intros Hm.
  destruct newKey_parent as (He & Ht & Hs & Hc).
  destruct newKey_classify as (_ & Hkeys).
  pose proof (len_nonneg (subs (eltAt ctx4 p))) as Hnn.
  pose proof (cellMatches_childNamed _ _ _ _ _ key_no_NUL newKey_len Hm) as Hnamed.
  pose proof (cellMatches_spec _ _ _ _ _ _ Hm) as (_ & Hlt & _).
  unfold childNamed in Hnamed. apply andb_true_iff in Hnamed. destruct Hnamed as (Hck & Hn).
  apply NodeType_eqb_eq in Hck. apply bytes_eqb_eq in Hn.
  set (c := Z.of_nat (Z.to_nat (childIndex e))).
  assert (Hsame : getSub c elt5 = getSub (childIndex e) elt5).
  { unfold getSub, c. rewrite Nat2Z.id. reflexivity. }
  assert (Hk5 : keyAt ctx5 p c key).
  { unfold keyAt. fold elt5. rewrite Hsame.
    split; [exact p_unsigned|]. split; [exact Ht|].
    split; [unfold c; rewrite (getSubQty_MAP _ Ht), Hs, len_app in *;
            change (len [k]) with 1 in *; lia|].
    split; [exact Hck|exact Hn]. }
  destruct (Hkeys p c key Hk5) as [Hold|(_ & Hcn & _)].
  - exfalso. exact (key_absent c Hold).
  - split.
    + rewrite <- Hsame, Hcn. unfold getSub. rewrite Hs, Hc. unfold len.
      rewrite Nat2Z.id. apply nth_middle.
    + intros Hpos. unfold c in Hcn. lia.
Qed.

Lemma newKey_indexed :
  exists b ctx6,
    addMapChildIndex p key (len key) elt5 cnew ctx5 = Ret (b, ctx6)
    /\ elements ctx6 = elements ctx5 /\ arena ctx6 = arena ctx5
    /\ parseInv ctx6
    /\ exists c',
         getMapChildIndex p key (len key) elt5 ctx6 = Ret c'
         /\ c' < getSubQty elt5 /\ getSub c' elt5 = k.
Proof.
  pose proof inv4 as (Htab & Hidx & Hwf).
  destruct newKey_classify as (Hwf5 & Hkeys).
  destruct store_small as (Hs1 & Hs2).
  assert (Hlen5 : len (elements ctx5) = len (elements ctx4)) by apply len_elements_updElt.
  assert (Htab5 : tableInv ctx5).
  { apply (tableInv_same_table ctx4); try reflexivity; [lia|exact Htab]. }
  destruct (addMapChildIndex_parse ctx5 p (len key) cnew key elt5 Htab5
              ltac:(change (_entryQty ctx5) with (_entryQty ctx4); lia) ltac:(lia) p_unsigned)
    as (b & ctx6 & Hadd & Hins).
  destruct (addMapChildIndex_frame _ _ _ _ _ _ _ _ Hadd) as (He6 & Ha6).
  assert (Hinv6 : parseInv ctx6).
  { destruct b.
    - destruct (Hins eq_refl) as (_ & _ & Htab6 & Hkeep & Hnew).
      split; [exact Htab6|]. split.
      + intros pi c name Hk.
        assert (Hk5 : keyAt ctx5 pi c name)
          by (apply (keyAt_same_store ctx6 ctx5); [symmetry; exact He6|symmetry; exact Ha6|exact Hk]).
        destruct (Hkeys pi c name Hk5) as [Hold|(-> & -> & ->)].
        * apply Hkeep; [apply keyHashOf_valid; destruct Hold; assumption|].
          apply Hidx. exact Hold.
        * exact Hnew.
      + destruct Hwf5 as (Hw1 & Hw2). split.
        * intros j x Ht Hx. rewrite (eltAt_same_elements ctx5 ctx6) in * by exact He6.
          rewrite He6. apply (Hw1 j x); assumption.
        * intros j Ht. rewrite (eltAt_same_elements ctx5 ctx6) in * by exact He6.
          specialize (Hw2 j Ht). unfold keyStringOk in *. rewrite Ha6. exact Hw2.
    - (* a cell already matched the new key: it is given the new position *)
      clear Hins. unfold addMapChildIndex in Hadd. fold h in Hadd.
      rewrite probe_search in Hadd. fold (homePath (_maxEntryQty ctx5) h) in Hadd.
      destruct (search FirstValid (cellMatches ctx5 elt5 key (len key) h) (_entries ctx5)
                  (homePath (_maxEntryQty ctx5) h)) as [[s|s]| |] eqn:Hsearch;
        cbn [bind] in Hadd; try discriminate Hadd.
      2:{ unfold addNewEntry in Hadd. destruct (_ <? _).
          - destruct (resize _ _); cbn [bind] in Hadd; discriminate Hadd.
          - discriminate Hadd. }
      injection Hadd as <-.
      apply search_result in Hsearch.
      destruct Hsearch as (pre & post & s' & Hpath & Hpre & [(Heq & Hv & Hm)|(Heq & _)]);
        [|discriminate Heq].
      injection Heq as <-.
      pose proof (cellMatches_spec _ _ _ _ _ _ Hm) as (Hh & _).
      destruct (newKey_match _ Hm) as (_ & Hcn).
      destruct Htab5 as ((k0 & Hk0 & Hcap) & Hlen & Hcells & Hocc & Hload & Hgrow & Hq).
      assert (Hsr : 0 <= s < len (_entries ctx5)).
      { rewrite Hlen, Hcap. apply (homePath_range k0 h s ltac:(lia)).
        rewrite <- Hcap, Hpath. apply in_or_app. right. left. reflexivity. }
      change (entryAt ctx5 s) with (cellAt (_entries ctx5) s).
      set (es := _entries ctx5) in *.
      set (es' := setNth (Z.to_nat s) (mkEntry (hash (cellAt es s)) cnew) es).
      assert (Hcell' : cellAt es' s = mkEntry (hash (cellAt es s)) cnew).
      { apply cellAt_setNth_eq. exact Hsr. }
      assert (Hhash : forall x, hash (cellAt es' x) = hash (cellAt es x)).
      { intros x. unfold es', cellAt.
        destruct (Nat.eq_dec (Z.to_nat s) (Z.to_nat x)) as [Hx|Hx].
        - rewrite <- Hx, nth_setNth_eq by (unfold len in Hsr; lia). reflexivity.
        - rewrite nth_setNth_ne by exact Hx. reflexivity. }
      assert (Hkeep : forall h' c', 0 <= c' ->
                indexedIn es (_maxEntryQty ctx5) h' c' -> indexedIn es' (_maxEntryQty ctx5) h' c').
      { intros h' c' Hc' (pre2 & slot2 & post2 & Hpath2 & Hcell2 & Hpre2).
        exists pre2, slot2, post2. split; [exact Hpath2|]. split.
        - assert (Hslot2 : 0 <= slot2).
          { assert (Hin2 : In slot2 (homePath (2 ^ k0) h'))
              by (rewrite <- Hcap, Hpath2; apply in_or_app; right; left; reflexivity).
            apply (homePath_range k0 h' slot2 ltac:(lia)) in Hin2. lia. }
          destruct (Z.eq_dec slot2 s) as [->|Hne].
          + rewrite Hcell'. rewrite Hcell2 in *. cbn [hash childIndex] in *.
            rewrite (Hcn Hc'). reflexivity.
          + unfold es'. rewrite cellAt_setNth_ne by lia. exact Hcell2.
        - intros x Hx. rewrite Hhash. apply Hpre2. exact Hx. }
      change (parseInv (setEntries es' ctx5)).
      split; [|split].
      + unfold tableInv.
        change (_entries (setEntries es' ctx5)) with es'.
        change (_entryQty (setEntries es' ctx5)) with (_entryQty ctx5).
        change (_maxEntryQty (setEntries es' ctx5)) with (_maxEntryQty ctx5).
        change (elements (setEntries es' ctx5)) with (elements ctx5).
        split; [exists k0; split; assumption|].
        split; [unfold len; subst es'; rewrite length_setNth; exact Hlen|].
        split; [intros x; rewrite Hhash; apply Hcells|].
        split; [|repeat split; assumption].
        unfold es'. rewrite occupied_setNth_same; [exact Hocc|reflexivity].
      + intros pi c name Hk.
        change (indexedIn es' (_maxEntryQty ctx5) (keyHashOf pi name (len name)) c).
        assert (Hk5 : keyAt ctx5 pi c name) by exact Hk.
        destruct (Hkeys pi c name Hk5) as [Hold|(-> & -> & ->)].
        * apply Hkeep; [destruct Hold as (_ & _ & Hc & _); lia|].
          apply Hidx. exact Hold.
        * exists pre, s, post. split; [exact Hpath|]. split.
          -- rewrite Hcell', Hh. reflexivity.
          -- intros x Hx. rewrite Hhash. apply (Hpre x Hx).
      + exact Hwf5. }
  exists b, ctx6. split; [exact Hadd|]. split; [exact He6|]. split; [exact Ha6|].
  split; [exact Hinv6|].
  assert (Hk6 : keyAt ctx6 p cnew key).
  { apply (keyAt_same_store ctx5 ctx6); [exact He6|exact Ha6|]. apply newKey_is_key. }
  destruct (getMapChildIndex_finds ctx6 p cnew key Hinv6 ltac:(rewrite Ha6; exact Hs2) Hk6)
    as (c' & Hfind & Hlt & _ & Hm).
  rewrite (eltAt_same_elements ctx5 ctx6 p He6) in Hfind, Hlt, Hm. fold elt5 in Hfind, Hlt, Hm.
  rewrite (cellMatches_same_store ctx5 ctx6) in Hm by assumption.
  exists c'. split; [exact Hfind|]. split; [exact Hlt|].
  exact (proj1 (newKey_match _ Hm)).
Qed.

End NewKey.

(** ** [insert(key, value)] and [map[key] = value] *)

Section Materialize.

Variables (ctx : Context) (p : Z) (key enc : list ascii).
Hypothesis inv : parseInv ctx.
Hypothesis p_unsigned : 0 <= p.
Hypothesis p_map : getType (eltAt ctx p) = MAP.
Hypothesis key_no_NUL : ~ In NUL key.
Hypothesis key_absent : forall c, ~ keyAt ctx p c key.
Hypothesis elements_small : len (elements ctx) + 2 <= 2 ^ 28.
Hypothesis arena_small : len (arena ctx) + len enc + len key + 2 <= 2 ^ 28.

Let n : Z := len (elements ctx).
Let a1 : list ascii := arena ctx ++ enc ++ [NUL].
Let valueElt : Element := Element_string VALUE (len (arena ctx)) (len enc + 1).
Let keyElt : Element := Element_key KEY (len a1) (len key + 1) n.
Let ctx1 : Context := setArena a1 ctx.
Let ctx2 : Context := emplace_back valueElt ctx1.
Let ctx3 : Context := setArena (a1 ++ key ++ [NUL]) ctx2.
Let ctx4 : Context := emplace_back keyElt ctx3.
Let ctx5 : Context := updElt p (add (n + 1)) ctx4.

Lemma materialize_sizes :
  0 <= len (arena ctx) /\ 0 <= len enc /\ 0 <= len key /\ 0 <= n
  /\ len a1 = len (arena ctx) + len enc + 1
  /\ len (arena ctx4) = len (arena ctx) + len enc + len key + 2
  /\ len (elements ctx4) = n + 2.
Proof.
  pose proof (len_nonneg (arena ctx)) as L0. pose proof (len_nonneg enc) as L1.
  pose proof (len_nonneg key) as L2. pose proof (len_nonneg (elements ctx)) as L3.
  assert (H1 : len a1 = len (arena ctx) + len enc + 1).
  { unfold a1. rewrite !len_app. change (len [NUL]) with 1. lia. }
  repeat split; try assumption.
  - change (arena ctx4) with (a1 ++ key ++ [NUL]). rewrite !len_app, H1.
    change (len [NUL]) with 1. lia.
  - unfold ctx4. rewrite len_elements_emplace_back.
    change (elements ctx3) with (elements ctx2).
    unfold ctx2. rewrite len_elements_emplace_back.
    change (elements ctx1) with (elements ctx). fold n. lia.
Qed.

Lemma materialize_unfold :
  materialize ctx p key enc
  = bind (addMapChildIndex p key (len key) (eltAt ctx5 p) (getSubQty (eltAt ctx5 p) - 1) ctx5)
      (fun r => Ret (snd r)).
Proof.
  destruct materialize_sizes as (H0 & H1 & H2 & H3 & H4 & _).
  unfold materialize, addString.
  cbn [setArena arena elements emplace_back].
  rewrite (u32_small (len (arena ctx))) by lia.
  rewrite (u32_small (len enc + 1)) by lia.
  rewrite (u32_small (len (elements ctx))) by (fold n; lia).
  fold a1. rewrite (u32_small (len a1)) by lia.
  rewrite (u32_small (len key + 1)) by lia.
  fold n. fold valueElt. fold keyElt.
  change (updElt p (add (n + 1)) _) with ctx5.
  destruct (addMapChildIndex _ _ _ _ _ _) as [[b c6]| |]; reflexivity.
Qed.

Lemma materialize_inv4 : parseInv ctx4.
Proof.
  destruct materialize_sizes as (H0 & H1 & H2 & H3 & H4 & H5 & H6).
  assert (S1 : safeStep ctx ctx1) by (apply (safeStep_arena _ _ (enc ++ [NUL])); reflexivity).
  assert (S2 : safeStep ctx1 ctx2).
  { apply safeStep_emplace_back; [reflexivity|discriminate]. }
  assert (S3 : safeStep ctx2 ctx3).
  { apply (safeStep_arena _ _ (key ++ [NUL])); reflexivity. }
  assert (S4 : safeStep ctx3 ctx4).
  { apply safeStep_emplace_back; [reflexivity|]. intros _.
    unfold keyStringOk, keyElt, Element_key. cbn [typed0 compound].
    rewrite land_CompoundMask by lia.
    change (arena ctx3) with (a1 ++ key ++ [NUL]). rewrite !len_app.
    change (len [NUL]) with 1.
    split; [apply len_nonneg|]. split; [lia|apply Z.le_refl]. }
  pose proof (safeStep_trans _ _ _ (safeStep_trans _ _ _ (safeStep_trans _ _ _ S1 S2) S3) S4)
    as (_ & Hstep).
  apply Hstep; [|exact inv]. split; lia.
Qed.

Lemma materialize_old (j : Z) :
  0 <= j < n -> eltAt ctx4 j = eltAt ctx j.
Proof.
  intros Hj. unfold ctx4. rewrite eltAt_emplace_back.
  change (elements ctx3) with (elements ctx2).
  assert (Hl2 : List.length (elements ctx2) = S (List.length (elements ctx))).
  { unfold ctx2, emplace_back. cbn [elements]. change (elements ctx1) with (elements ctx).
    rewrite length_app. cbn [List.length]. lia. }
  destruct (Nat.eqb_spec (Z.to_nat j) (List.length (elements ctx2)));
    [unfold n, len in Hj; lia|].
  change (eltAt ctx3 j) with (eltAt ctx2 j). unfold ctx2. rewrite eltAt_emplace_back.
  change (elements ctx1) with (elements ctx).
  destruct (Nat.eqb_spec (Z.to_nat j) (List.length (elements ctx)));
    [unfold n, len in Hj; lia|reflexivity].
Qed.

Lemma materialize_new :
  eltAt ctx4 n = valueElt /\ eltAt ctx4 (n + 1) = keyElt.
Proof.
  assert (Hl2 : List.length (elements ctx2) = S (List.length (elements ctx))).
  { unfold ctx2, emplace_back. cbn [elements]. change (elements ctx1) with (elements ctx).
    rewrite length_app. cbn [List.length]. lia. }
  split.
  - unfold ctx4. rewrite eltAt_emplace_back. change (elements ctx3) with (elements ctx2).
    destruct (Nat.eqb_spec (Z.to_nat n) (List.length (elements ctx2)));
      [unfold n, len in *; lia|].
    change (eltAt ctx3 n) with (eltAt ctx2 n). unfold ctx2. rewrite eltAt_emplace_back.
    change (elements ctx1) with (elements ctx). unfold n, len.
    rewrite Nat2Z.id, Nat.eqb_refl. reflexivity.
  - unfold ctx4. rewrite eltAt_emplace_back. change (elements ctx3) with (elements ctx2).
    destruct (Nat.eqb_spec (Z.to_nat (n + 1)) (List.length (elements ctx2)));
      [reflexivity|unfold n, len in *; lia].
Qed.

Lemma materialize_p : p < n /\ eltAt ctx4 p = eltAt ctx p.
Proof.
  assert (Hp : p < n).
  { apply getType_in_range; [exact p_unsigned|]. rewrite p_map. discriminate. }
  split; [exact Hp|]. apply materialize_old. lia.
Qed.

Lemma materialize_name : nameOf ctx4 keyElt = key.
Proof.
  destruct materialize_sizes as (H0 & H1 & H2 & H3 & H4 & _).
  unfold nameOf, keyElt, Element_key, getStringIdx, getStringSize, getCompound.
  cbn [etype typed0 compound]. rewrite land_CompoundMask by lia.
  replace (len key + 1 - 1) with (len key) by lia. rewrite u32_small by lia.
  change (arena ctx4) with (a1 ++ key ++ [NUL]). apply slice_middle.
Qed.

(** The keys of the map before the insertion are those of [ctx]. *)
Lemma materialize_absent (c : Z) : ~ keyAt ctx4 p c key.
Proof.
  intros (Hp & Ht & Hc & Hck & Hname).
  destruct materialize_p as (Hpn & Hpe).
  destruct inv as (_ & _ & Hwf1 & Hwf2).
  rewrite Hpe in *.
  assert (Hx : 0 <= getSub c (eltAt ctx p) < n).
  { apply (Hwf1 p); [exact Ht|]. apply getSub_In.
    rewrite <- (getSubQty_MAP _ Ht). exact Hc. }
  rewrite (materialize_old _ Hx) in Hck, Hname.
  apply (key_absent c). unfold keyAt.
  split; [exact Hp|]. split; [exact Ht|]. split; [exact Hc|]. split; [exact Hck|].
  rewrite <- Hname. rewrite !nameOf_KEY by exact Hck.
  destruct (Hwf2 _ Hck) as (K0 & K1 & K2).
  pose proof (len_nonneg enc) as L1. pose proof (len_nonneg key) as L2.
  rewrite !u32_small by lia.
  change (arena ctx4) with ((arena ctx ++ enc ++ [NUL]) ++ key ++ [NUL]).
  rewrite <- app_assoc. symmetry. apply slice_app_l; lia.
Qed.

Lemma materialize_elt5 (j : Z) :
  0 <= j ->
  eltAt ctx5 j = if j =? p then add (n + 1) (eltAt ctx p) else eltAt ctx4 j.
Proof.
  intros Hj. destruct materialize_sizes as (H0 & H1 & H2 & H3 & H4 & H5 & H6).
  destruct materialize_p as (Hpn & Hpe).
  unfold ctx5. rewrite eltAt_updElt.
  assert (Hin : (Z.to_nat p <? List.length (elements ctx4))%nat = true).
  { apply Nat.ltb_lt. unfold n, len in H6, Hpn. lia. }
  rewrite Hin, andb_true_r, Hpe.
  destruct (Z.eqb_spec j p) as [->|Hne].
  - rewrite Nat.eqb_refl. reflexivity.
  - destruct (Nat.eqb_spec (Z.to_nat p) (Z.to_nat j)); [lia|reflexivity].
Qed.

(** The result of the insertion. *)
Lemma materialize_spec :
  exists ctx',
    materialize ctx p key enc = Ret ctx'
    /\ parseInv ctx'
    /\ len (elements ctx') = n + 2
    /\ arena ctx' = arena ctx ++ enc ++ [NUL] ++ key ++ [NUL]
    /\ eltAt ctx' p = add (n + 1) (eltAt ctx p)
    /\ eltAt ctx' n = Element_string VALUE (len (arena ctx)) (len enc + 1)
    /\ eltAt ctx' (n + 1) = Element_key KEY (len (arena ctx) + len enc + 1) (len key + 1) n
    /\ (forall j, 0 <= j < n -> j <> p -> eltAt ctx' j = eltAt ctx j)
    /\ exists c',
         getMapChildIndex p key (len key) (eltAt ctx' p) ctx' = Ret c'
         /\ c' < getSubQty (eltAt ctx' p)
         /\ getSub c' (eltAt ctx' p) = n + 1.
Proof.
  destruct materialize_sizes as (H0 & H1 & H2 & H3 & H4 & H5 & H6).
  destruct materialize_p as (Hpn & Hpe).
  destruct materialize_new as (Hv & Hk).
  destruct (newKey_indexed ctx4 p (n + 1) key materialize_inv4 p_unsigned)
    as (b & ctx6 & Hadd & He6 & Ha6 & Hinv6 & c' & Hfind & Hlt & Hsub).
  - rewrite Hpe. exact p_map.
  - lia.
  - rewrite Hk. reflexivity.
  - rewrite Hk. apply materialize_name.
  - exact key_no_NUL.
  - exact materialize_absent.
  - split; lia.
  - destruct inv as ((_ & _ & _ & _ & _ & _ & Hq) & _).
    change (_entryQty ctx4) with (_entryQty ctx). fold n in Hq. lia.
  - fold ctx5 in Hadd, He6, Ha6, Hfind, Hlt, Hsub.
    assert (Hsame : forall j, eltAt ctx6 j = eltAt ctx5 j)
      by (intros j; apply eltAt_same_elements; exact He6).
    exists ctx6. rewrite materialize_unfold, Hadd. cbn [bind snd].
    split; [reflexivity|]. split; [exact Hinv6|].
    split; [rewrite He6; unfold ctx5; rewrite len_elements_updElt; exact H6|].
    split.
    { rewrite Ha6. change (arena ctx5) with (a1 ++ key ++ [NUL]). unfold a1.
      rewrite <- !app_assoc. reflexivity. }
    split.
    { rewrite Hsame, materialize_elt5 by exact p_unsigned. rewrite Z.eqb_refl. reflexivity. }
    split.
    { rewrite Hsame, materialize_elt5 by exact H3.
      destruct (Z.eqb_spec n p); [lia|exact Hv]. }
    split.
    { rewrite Hsame, materialize_elt5 by lia.
      destruct (Z.eqb_spec (n + 1) p); [lia|]. rewrite Hk. unfold keyElt. rewrite H4.
      reflexivity. }
    split.
    { intros j Hj Hne. rewrite Hsame, materialize_elt5 by lia.
      destruct (Z.eqb_spec j p); [contradiction|]. apply materialize_old. exact Hj. }
    rewrite Hsame.
    exists c'. repeat split; assumption.
Qed.

End Materialize.

Lemma cstrAt_within (a s rest : list ascii) :
  ~ In NUL s -> cstrAt (a ++ s ++ NUL :: rest) (len a) = s.
Proof.
  intros Hnn. unfold cstrAt, len. rewrite Nat2Z.id.
  rewrite skipn_app, skipn_all, Nat.sub_diag. cbn [skipn app].
  apply cstr_app_NUL. exact Hnn.
Qed.

(** What [hasKey] answers is what the index answers. *)
Lemma hasKey_false (ctx : Context) (n : Node) (key : list ascii) :
  hasKey ctx n key = Ret false ->
  getType (eltAt ctx (_eltIdx n)) = MAP /\ isNil key = false
  /\ getMapChildIndex (_eltIdx n) key (len key) (eltAt ctx (_eltIdx n)) ctx = Ret UINT_MAX.
Proof.
  unfold hasKey. intros H.
  destruct (getType (eltAt ctx (_eltIdx n))) eqn:Ht; cbn [NodeType_eqb negb] in H;
    try discriminate H.
  split; [reflexivity|].
  destruct (isNil key); [discriminate H|]. split; [reflexivity|].
  destruct (getMapChildIndex _ _ _ _ _) as [found| |]; cbn [bind] in H; try discriminate H.
  destruct (Z.eqb_spec found UINT_MAX) as [E|E]; [rewrite E; reflexivity|discriminate H].
Qed.

Lemma absent_of_lookup (ctx : Context) (p : Z) (key : list ascii) :
  parseInv ctx -> len (arena ctx) <= 2 ^ 28 ->
  getSubQty (eltAt ctx p) <= 2 ^ 28 ->
  getMapChildIndex p key (len key) (eltAt ctx p) ctx = Ret UINT_MAX ->
  forall c, ~ keyAt ctx p c key.
Proof.
  intros Hinv Ha Hq Hfind c Hkey.
  destruct (getMapChildIndex_finds ctx p c key Hinv Ha Hkey) as (c' & Hfind' & Hlt & _).
  rewrite Hfind in Hfind'. injection Hfind' as <-.
  unfold UINT_MAX in Hlt. change (2 ^ 28) with 268435456 in Hq. lia.
Qed.

Section MapInsert.

Variable T : Type.
Variable encode : T -> outcome (list ascii).
Variable decode : list ascii -> outcome T.
Variable typeName : string.

(** The document after the value element, the key element and the index
    entry of a new key have been added. *)
Lemma materialize_reads (ctx : Context) (n : Node) (key : list ascii) (v : T)
    (enc : list ascii) :
  parseInv ctx ->
  len (elements ctx) + 2 <= 2 ^ 28 ->
  len (arena ctx) + len enc + len key + 2 <= 2 ^ 28 ->
  0 <= _eltIdx n -> _nonExistingKey n = [] ->
  getSubQty (eltAt ctx (_eltIdx n)) < 2 ^ 28 ->
  ~ In NUL key ->
  hasKey ctx n key = Ret false ->
  ~ In NUL enc -> decode enc = Ret v ->
  exists ctx',
    materialize ctx (_eltIdx n) key enc = Ret ctx'
    /\ parseInv ctx'
    /\ hasKey ctx' n key = Ret true
    /\ Node_size ctx' n = Ret (getSubQty (eltAt ctx (_eltIdx n)) + 1)
    /\ exists h,
         at_key ctx' n key = Ret h
         /\ Node_type ctx' h = VALUE
         /\ as_ T decode typeName ctx' h = Ret v.
Proof.
  intros Hinv He Ha Hn Hpend Hq Hnn Hhas Hencnn Hdec.
  destruct (hasKey_false ctx n key Hhas) as (Hmap & Hnil & Hfind).
  pose proof (len_nonneg enc) as L1. pose proof (len_nonneg key) as L2.
  pose proof (len_nonneg (arena ctx)) as L0.
  assert (Habs : forall c, ~ keyAt ctx (_eltIdx n) c key).
  { apply absent_of_lookup; [exact Hinv|lia|lia|exact Hfind]. }
  destruct (materialize_spec ctx (_eltIdx n) key enc Hinv Hn Hmap Hnn Habs He Ha)
    as (ctx' & Hmat & Hinv' & Hlen' & Har' & Hp' & Hv' & Hk' & Hold' & c' & Hfind' & Hlt' & Hsub').
  exists ctx'.
  split; [exact Hmat|].
  split; [exact Hinv'|].
  assert (Hmap' : getType (eltAt ctx' (_eltIdx n)) = MAP).
  { rewrite Hp', getType_add. exact Hmap. }
  assert (Hqty' : getSubQty (eltAt ctx' (_eltIdx n)) = getSubQty (eltAt ctx (_eltIdx n)) + 1).
  { rewrite (getSubQty_MAP _ Hmap'), (getSubQty_MAP _ Hmap), Hp', subs_add
      by (rewrite Hmap; discriminate).
    rewrite len_app. reflexivity. }
  assert (Hmax : (c' =? UINT_MAX) = false).
  { apply Z.eqb_neq. unfold UINT_MAX. change (2 ^ 28) with 268435456 in Hq. lia. }
  split.
  { unfold hasKey. rewrite Hmap', Hnil. cbn [NodeType_eqb negb].
    rewrite Hfind'. cbn [bind]. rewrite Hmax. reflexivity. }
  split.
  { unfold Node_size. rewrite Hmap'. cbn. rewrite Hqty'. reflexivity. }
  exists (Node_of (len (elements ctx))).
  split.
  { unfold at_key. rewrite Hmap', Hnil, Hpend. cbn [NodeType_eqb negb isNil].
    rewrite Hfind'. cbn [bind]. rewrite Hmax, Hsub', Hk'. reflexivity. }
  split.
  { unfold Node_type, Node_of. cbn [_eltIdx]. rewrite Hv'. reflexivity. }
  unfold as_, Node_of. cbn [_eltIdx]. rewrite Hv'.
  cbn [Element_string getType etype NodeType_eqb negb andb].
  unfold decodeValue. cbn [_eltIdx]. rewrite Hv'.
  cbn [Element_string getType etype getStringIdx typed0].
  rewrite Har'. change ([NUL] ++ key ++ [NUL]) with (NUL :: key ++ [NUL]).
  rewrite (cstrAt_within (arena ctx) enc _ Hencnn), Hdec. reflexivity.
Qed.


(** X13: inserting a value under a key that a map does not have makes
    the key present: after [map.insert(key, v)], [map.hasKey(key)] is true and
    [map[key].as<T>()] is [v], as soon as the codec gives back [v] from its
    encoding and neither the key nor the encoding holds a NUL character. The
    map has one more child, and the document keeps the invariant of the index,
    so that the insertions can go on. The document stays below [2 ^ 28]
    elements and characters. *)
Theorem insert_key_then_read (ctx : Context) (n : Node) (key : list ascii) (v : T)
    (enc : list ascii) :
  parseInv ctx ->
  len (elements ctx) + 2 <= 2 ^ 28 ->
  len (arena ctx) + len enc + len key + 2 <= 2 ^ 28 ->
  0 <= _eltIdx n -> _nonExistingKey n = [] ->
  getSubQty (eltAt ctx (_eltIdx n)) < 2 ^ 28 ->
  ~ In NUL key ->
  hasKey ctx n key = Ret false ->
  encode v = Ret enc -> ~ In NUL enc -> decode enc = Ret v ->
  exists ctx',
    insert_key T encode ctx n key v = Ret ctx'
    /\ parseInv ctx'
    /\ hasKey ctx' n key = Ret true
    /\ Node_size ctx' n = Ret (getSubQty (eltAt ctx (_eltIdx n)) + 1)
    /\ exists h,
         at_key ctx' n key = Ret h
         /\ Node_type ctx' h = VALUE
         /\ as_ T decode typeName ctx' h = Ret v.
Proof.
  intros Hinv He Ha Hn Hpend Hq Hnn Hhas Henc Hencnn Hdec.
  destruct (hasKey_false ctx n key Hhas) as (Hmap & Hnil & Hfind).
  destruct (materialize_reads ctx n key v enc Hinv He Ha Hn Hpend Hq Hnn Hhas Hencnn Hdec)
    as (ctx' & Hmat & Hrest).
  exists ctx'. split; [|exact Hrest].
  unfold insert_key. rewrite Hmap, Hnil, Hpend. cbn [NodeType_eqb negb isNil].
  rewrite Hfind. cbn [bind]. rewrite Z.eqb_refl. cbn [negb].
  unfold encodeValue. rewrite Henc. cbn [bind]. exact Hmat.
Qed.

(** X14: assigning a value through the handle that [operator[]] returns
    for a key that a map does not have creates the key: [map[key]] is a
    pending-key handle, and after [map[key] = v], [map.hasKey(key)] is true and
    [map[key].as<T>()] is [v], as soon as the codec gives back [v] from its
    encoding and neither the key nor the encoding holds a NUL character. The
    assignment returns the node of the map, the map has one more child, and
    the document keeps the invariant of the index. *)
Theorem assign_creates_key (ctx : Context) (n : Node) (key : list ascii) (v : T)
    (enc : list ascii) :
  parseInv ctx ->
  len (elements ctx) + 2 <= 2 ^ 28 ->
  len (arena ctx) + len enc + len key + 2 <= 2 ^ 28 ->
  0 <= _eltIdx n -> _nonExistingKey n = [] ->
  getSubQty (eltAt ctx (_eltIdx n)) < 2 ^ 28 ->
  ~ In NUL key ->
  hasKey ctx n key = Ret false ->
  encode v = Ret enc -> ~ In NUL enc -> decode enc = Ret v ->
  exists handle ctx',
    at_key ctx n key = Ret handle
    /\ _nonExistingKey handle = key
    /\ assign T encode ctx handle v = Ret (n, ctx')
    /\ parseInv ctx'
    /\ hasKey ctx' n key = Ret true
    /\ Node_size ctx' n = Ret (getSubQty (eltAt ctx (_eltIdx n)) + 1)
    /\ exists h,
         at_key ctx' n key = Ret h
         /\ Node_type ctx' h = VALUE
         /\ as_ T decode typeName ctx' h = Ret v.
Proof.
  intros Hinv He Ha Hn Hpend Hq Hnn Hhas Henc Hencnn Hdec.
  destruct (hasKey_false ctx n key Hhas) as (Hmap & Hnil & Hfind).
  destruct (materialize_reads ctx n key v enc Hinv He Ha Hn Hpend Hq Hnn Hhas Hencnn Hdec)
    as (ctx' & Hmat & Hrest).
  exists (mkNode (_eltIdx n) key), ctx'.
  split.
  { unfold at_key. rewrite Hmap, Hnil, Hpend. cbn [NodeType_eqb negb isNil].
    rewrite Hfind. cbn [bind]. rewrite Z.eqb_refl. reflexivity. }
  split; [reflexivity|]. split; [|exact Hrest].
  unfold assign. cbn [_eltIdx _nonExistingKey]. unfold encodeValue. rewrite Henc. cbn [bind].
  rewrite Hmap, Hnil. cbn [NodeType_eqb negb].
  rewrite Hfind. cbn [bind]. rewrite Z.eqb_refl. cbn [negb].
  rewrite Hmat. cbn [bind]. destruct n as [i pend]. cbn [_eltIdx _nonExistingKey] in *.
  rewrite Hpend. reflexivity.
Qed.

End MapInsert.

Lemma insert_key_then_read_witness :
  exists ctx',
    insert_key (list ascii) encodeString (doc_context mapExampleDoc) (doc_root mapExampleDoc)
      (chars "c") (chars "d") = Ret ctx'
    /\ parseInv ctx'
    /\ hasKey ctx' (doc_root mapExampleDoc) (chars "c") = Ret true
    /\ Node_size ctx' (doc_root mapExampleDoc)
       = Ret (getSubQty (eltAt (doc_context mapExampleDoc) (_eltIdx (doc_root mapExampleDoc))) + 1)
    /\ exists h,
         at_key ctx' (doc_root mapExampleDoc) (chars "c") = Ret h
         /\ Node_type ctx' h = VALUE
         /\ as_ (list ascii) decodeString "std::string" ctx' h = Ret (chars "d").
Proof.
  apply (insert_key_then_read (list ascii) encodeString decodeString "std::string"
           (doc_context mapExampleDoc) (doc_root mapExampleDoc) (chars "c") (chars "d") (chars "d")).
  - apply (parse_inv mapExample); [vm_compute; reflexivity|].
    split; vm_compute; discriminate.
  - vm_compute. discriminate.
  - vm_compute. discriminate.
  - vm_compute. discriminate.
  - reflexivity.
  - vm_compute. reflexivity.
  - cbn. intros [H|[]]. discriminate H.
  - vm_compute. reflexivity.
  - reflexivity.
  - cbn. intros [H|[]]. discriminate H.
  - reflexivity.
Defined.

Lemma assign_creates_key_witness :
  exists handle ctx',
    at_key (doc_context mapExampleDoc) (doc_root mapExampleDoc) (chars "c") = Ret handle
    /\ _nonExistingKey handle = chars "c"
    /\ assign (list ascii) encodeString (doc_context mapExampleDoc) handle (chars "d")
       = Ret (doc_root mapExampleDoc, ctx')
    /\ parseInv ctx'
    /\ hasKey ctx' (doc_root mapExampleDoc) (chars "c") = Ret true
    /\ Node_size ctx' (doc_root mapExampleDoc)
       = Ret (getSubQty (eltAt (doc_context mapExampleDoc) (_eltIdx (doc_root mapExampleDoc))) + 1)
    /\ exists h,
         at_key ctx' (doc_root mapExampleDoc) (chars "c") = Ret h
         /\ Node_type ctx' h = VALUE
         /\ as_ (list ascii) decodeString "std::string" ctx' h = Ret (chars "d").
Proof.
  apply (assign_creates_key (list ascii) encodeString decodeString "std::string"
           (doc_context mapExampleDoc) (doc_root mapExampleDoc) (chars "c") (chars "d") (chars "d")).
  - apply (parse_inv mapExample); [vm_compute; reflexivity|].
    split; vm_compute; discriminate.
  - vm_compute. discriminate.
  - vm_compute. discriminate.
  - vm_compute. discriminate.
  - reflexivity.
  - vm_compute. reflexivity.
  - cbn. intros [H|[]]. discriminate H.
  - vm_compute. reflexivity.
  - reflexivity.
  - cbn. intros [H|[]]. discriminate H.
  - reflexivity.
Defined.

(** ** [insert(key, kind)]: a container as a child of a map *)

(** A lookup that no child of the map can match answers [UINT_MAX]. *)
Lemma lookup_absent (ctx : Context) (pi : Z) (parentElt : Element) (key : list ascii) :
  tableInv ctx -> ~ In NUL key -> len key < 2 ^ 31 ->
  (forall e, cellMatches ctx parentElt key (len key) (keyHashOf pi key (len key)) e = false) ->
  getMapChildIndex pi key (len key) parentElt ctx = Ret UINT_MAX.
Proof.
  intros Htab Hnn Hlen Hno.
  destruct (tableInv_empty_cell ctx Htab) as (i & Hi & Hempty).
  destruct Htab as ((k & Hk & Hcap) & _).
  unfold getMapChildIndex. set (h := keyHashOf pi key (len key)) in *.
  rewrite probe_search. fold (homePath (_maxEntryQty ctx) h).
  destruct (search_terminates Tombstone (cellMatches ctx parentElt key (len key) h)
              (_entries ctx) (homePath (_maxEntryQty ctx) h) i) as (r & Hr).
  { rewrite Hcap. unfold homePath. apply probe_covers; [lia|rewrite <- Hcap; exact Hi]. }
  { rewrite Hempty. reflexivity. }
  rewrite Hr. cbn [bind]. destruct r as [s|s]; [|reflexivity].
  apply search_result in Hr.
  destruct Hr as (pre & post & s' & _ & _ & [(_ & _ & Hm)|(Heq & _)]); [|discriminate Heq].
  rewrite Hno in Hm. discriminate Hm.
Qed.

Section NewChild.

Variables (ctx : Context) (p : Z) (key : list ascii) (newKind : NodeType).
Hypothesis inv : parseInv ctx.
Hypothesis p_unsigned : 0 <= p.
Hypothesis p_map : getType (eltAt ctx p) = MAP.
Hypothesis kind_not_key : newKind <> KEY.
Hypothesis key_no_NUL : ~ In NUL key.
Hypothesis key_short : len key < 2 ^ 31.
Hypothesis key_absent : forall c, ~ keyAt ctx p c key.
Hypothesis elements_small : len (elements ctx) + 1 <= 2 ^ 28.
Hypothesis arena_small : len (arena ctx) <= 2 ^ 28.

Let n : Z := len (elements ctx).
Let ctx1 : Context := emplace_back (Element_kind newKind) ctx.
Let ctx2 : Context := updElt p (add n) ctx1.
Let elt2 : Element := eltAt ctx2 p.
Let cnew : Z := getSubQty elt2 - 1.
Let h : Z := keyHashOf p key (len key).

Lemma newChild_p : p < n.
Proof. apply getType_in_range; [exact p_unsigned|]. rewrite p_map. discriminate. Qed.

Lemma newChild_elt (j : Z) :
  0 <= j ->
  eltAt ctx2 j = if j =? p then add n (eltAt ctx p)
                 else if j =? n then Element_kind newKind else eltAt ctx j.
Proof.
  intros Hj. pose proof newChild_p as Hp. pose proof (len_nonneg (elements ctx)) as Hn.
  unfold ctx2. rewrite eltAt_updElt.
  assert (Hin : (Z.to_nat p <? List.length (elements ctx1))%nat = true).
  { apply Nat.ltb_lt. unfold ctx1, emplace_back. cbn [elements]. rewrite length_app.
    unfold n, len in Hp. cbn [List.length]. lia. }
  rewrite Hin, andb_true_r.
  assert (H1 : forall i, 0 <= i ->
             eltAt ctx1 i = if i =? n then Element_kind newKind else eltAt ctx i).
  { intros i Hi. unfold ctx1. rewrite eltAt_emplace_back.
    destruct (Z.eqb_spec i n) as [->|Hne].
    - unfold n, len. rewrite Nat2Z.id, Nat.eqb_refl. reflexivity.
    - destruct (Nat.eqb_spec (Z.to_nat i) (List.length (elements ctx)));
        [unfold n, len in Hne; lia|reflexivity]. }
  destruct (Z.eqb_spec j p) as [->|Hne].
  - rewrite Nat.eqb_refl, (H1 p p_unsigned).
    destruct (Z.eqb_spec p n); [lia|reflexivity].
  - destruct (Nat.eqb_spec (Z.to_nat p) (Z.to_nat j)); [lia|]. apply H1. exact Hj.
Qed.

Lemma newChild_parent :
  elt2 = add n (eltAt ctx p) /\ getType elt2 = MAP
  /\ subs elt2 = subs (eltAt ctx p) ++ [n]
  /\ getSubQty elt2 = getSubQty (eltAt ctx p) + 1.
Proof.
  assert (He : elt2 = add n (eltAt ctx p)).
  { unfold elt2. rewrite newChild_elt by exact p_unsigned. rewrite Z.eqb_refl. reflexivity. }
  assert (Ht : getType elt2 = MAP) by (rewrite He, getType_add; exact p_map).
  assert (Hs : subs elt2 = subs (eltAt ctx p) ++ [n]).
  { rewrite He. apply subs_add. rewrite p_map. discriminate. }
  split; [exact He|]. split; [exact Ht|]. split; [exact Hs|].
  rewrite (getSubQty_MAP _ Ht), (getSubQty_MAP _ p_map), Hs, len_app. reflexivity.
Qed.

(** The keys of the maps are those of before: the new child is not a
    key. *)
Lemma newChild_keys (pi c : Z) (name : list ascii) :
  keyAt ctx2 pi c name -> keyAt ctx pi c name.
Proof.
  intros (Hpi & Ht & Hc & Hck & Hname).
  pose proof newChild_p as Hp. pose proof (len_nonneg (elements ctx)) as Hn.
  destruct inv as (_ & _ & Hwf1 & _).
  destruct newChild_parent as (He2 & Ht2 & Hs2 & Hq2). fold n in Hn.
  assert (Hchild : forall x, 0 <= x < n -> getType (eltAt ctx2 x) = KEY ->
             eltAt ctx2 x = eltAt ctx x).
  { intros x Hx Hk. rewrite newChild_elt in * by lia.
    destruct (Z.eqb_spec x p) as [->|_].
    - rewrite getType_add, p_map in Hk. discriminate Hk.
    - destruct (Z.eqb_spec x n); [lia|reflexivity]. }
  assert (Hnew : getType (eltAt ctx2 n) <> KEY).
  { rewrite newChild_elt by lia. destruct (Z.eqb_spec n p); [lia|].
    rewrite Z.eqb_refl. exact kind_not_key. }
  rewrite (newChild_elt pi Hpi) in Ht, Hc, Hck, Hname.
  destruct (Z.eqb_spec pi p) as [->|Hnp].
  - fold elt2 in He2. rewrite <- He2 in *.
    rewrite Hq2 in Hc. rewrite (getSubQty_MAP _ p_map) in Hc.
    destruct (Z.eq_dec c (len (subs (eltAt ctx p)))) as [Hlast|Hold].
    + exfalso. apply Hnew.
      assert (Hsub : getSub c elt2 = n).
      { unfold getSub. rewrite Hs2, Hlast. unfold len. rewrite Nat2Z.id. apply nth_middle. }
      rewrite <- Hsub. exact Hck.
    + assert (Hsub : getSub c elt2 = getSub c (eltAt ctx p)).
      { unfold getSub. rewrite Hs2. apply app_nth1. unfold len in *. lia. }
      rewrite Hsub in Hck, Hname.
      assert (Hx : 0 <= getSub c (eltAt ctx p) < n).
      { apply (Hwf1 p); [exact p_map|]. apply getSub_In. unfold len in *. lia. }
      pose proof (Hchild _ Hx Hck) as Hsame. rewrite Hsame in Hck, Hname.
      unfold keyAt. rewrite (getSubQty_MAP _ p_map).
      split; [exact Hpi|]. split; [exact p_map|]. split; [lia|]. split; [exact Hck|].
      exact Hname.
  - destruct (Z.eqb_spec pi n) as [->|Hnn].
    + exfalso. unfold Element_kind, getSubQty in Hc. cbn [etype subs] in Hc.
      destruct newKind; cbn in Hc; lia.
    + assert (Hx : 0 <= getSub c (eltAt ctx pi) < n).
      { apply (Hwf1 pi); [exact Ht|]. apply getSub_In.
        rewrite <- (getSubQty_MAP _ Ht). exact Hc. }
      pose proof (Hchild _ Hx Hck) as Hsame. rewrite Hsame in Hck, Hname.
      unfold keyAt. auto.
Qed.

(** No cell matches the key: the children of the map that are keys have
    another name. *)
Lemma newChild_no_match (e : Entry) :
  cellMatches ctx2 elt2 key (len key) h e = false.
Proof.
  destruct (cellMatches ctx2 elt2 key (len key) h e) eqn:Hm; [exfalso|reflexivity].
  destruct newChild_parent as (He2 & Ht2 & Hs2 & Hq2).
  pose proof (len_nonneg (subs (eltAt ctx p))) as Hnn.
  pose proof (cellMatches_childNamed _ _ _ _ _ key_no_NUL key_short Hm) as Hnamed.
  pose proof (cellMatches_spec _ _ _ _ _ _ Hm) as (_ & Hlt & _).
  unfold childNamed in Hnamed. apply andb_true_iff in Hnamed. destruct Hnamed as (Hck & Hn).
  apply NodeType_eqb_eq in Hck. apply bytes_eqb_eq in Hn.
  set (c := Z.of_nat (Z.to_nat (childIndex e))).
  assert (Hsame : getSub c elt2 = getSub (childIndex e) elt2).
  { unfold getSub, c. rewrite Nat2Z.id. reflexivity. }
  apply (key_absent c). apply newChild_keys.
  unfold keyAt. fold elt2. rewrite Hsame.
  split; [exact p_unsigned|]. split; [exact Ht2|].
  split; [unfold c; rewrite Hq2, (getSubQty_MAP _ p_map) in *; lia|].
  split; [exact Hck|exact Hn].
Qed.

Lemma newChild_indexed :
  exists ctx3,
    addMapChildIndex p key (len key) elt2 cnew ctx2 = Ret (true, ctx3)
    /\ elements ctx3 = elements ctx2 /\ arena ctx3 = arena ctx2
    /\ parseInv ctx3
    /\ getMapChildIndex p key (len key) elt2 ctx3 = Ret UINT_MAX.
Proof.
  pose proof (len_nonneg (elements ctx)) as Hn. fold n in Hn.
  assert (Hlen2 : len (elements ctx2) = n + 1).
  { unfold ctx2. rewrite len_elements_updElt. unfold ctx1.
    rewrite len_elements_emplace_back. reflexivity. }
  assert (Hinv2 : parseInv ctx2).
  { destruct (safeStep_new_child ctx (Element_kind newKind) p eq_refl kind_not_key)
      as (_ & Hstep).
    apply Hstep; [|exact inv].
    split; [change (len (elements ctx2) <= 2 ^ 28); rewrite Hlen2; fold n in elements_small; lia
           |exact arena_small]. }
  pose proof Hinv2 as (Htab2 & Hidx2 & Hwf2).
  assert (Hq : _entryQty ctx2 < len (elements ctx2)).
  { destruct inv as ((_ & _ & _ & _ & _ & _ & Hq) & _).
    change (_entryQty ctx2) with (_entryQty ctx). fold n in Hq. lia. }
  destruct (addMapChildIndex_parse ctx2 p (len key) cnew key elt2 Htab2 Hq
              ltac:(fold n in elements_small; lia) p_unsigned)
    as (b & ctx3 & Hadd & Hins).
  destruct (addMapChildIndex_frame _ _ _ _ _ _ _ _ Hadd) as (He3 & Ha3).
  assert (Hb : b = true).
  { destruct b; [reflexivity|exfalso].
    unfold addMapChildIndex in Hadd. fold h in Hadd.
    rewrite probe_search in Hadd. fold (homePath (_maxEntryQty ctx2) h) in Hadd.
    destruct (search FirstValid (cellMatches ctx2 elt2 key (len key) h) (_entries ctx2)
                (homePath (_maxEntryQty ctx2) h)) as [[s|s]| |] eqn:Hsearch;
      cbn [bind] in Hadd; try discriminate Hadd.
    - apply search_result in Hsearch.
      destruct Hsearch as (pre & post & s' & _ & _ & [(_ & _ & Hm)|(Heq & _)]);
        [|discriminate Heq].
      rewrite newChild_no_match in Hm. discriminate Hm.
    - unfold addNewEntry in Hadd. destruct (_ <? _).
      + destruct (resize _ _); cbn [bind] in Hadd; discriminate Hadd.
      + discriminate Hadd. }
  subst b. destruct (Hins eq_refl) as (_ & _ & Htab3 & Hkeep & _).
  assert (Hkeys3 : forall pi c name, keyAt ctx3 pi c name -> keyAt ctx2 pi c name).
  { intros pi c name. apply keyAt_same_store; symmetry; assumption. }
  assert (Hinv3 : parseInv ctx3).
  { split; [exact Htab3|]. split.
    - intros pi c name Hk. apply Hkeys3 in Hk.
      apply Hkeep; [apply keyHashOf_valid; destruct Hk; assumption|].
      apply Hidx2. exact Hk.
    - destruct Hwf2 as (Hw1 & Hw2). split.
      + intros j x Ht Hx. rewrite (eltAt_same_elements ctx2 ctx3) in * by exact He3.
        rewrite He3. apply (Hw1 j x); assumption.
      + intros j Ht. rewrite (eltAt_same_elements ctx2 ctx3) in * by exact He3.
        specialize (Hw2 j Ht). unfold keyStringOk in *. rewrite Ha3. exact Hw2. }
  exists ctx3. split; [exact Hadd|]. split; [exact He3|]. split; [exact Ha3|].
  split; [exact Hinv3|].
  apply lookup_absent; [exact Htab3|exact key_no_NUL|exact key_short|].
  intros e. rewrite (cellMatches_same_store ctx2 ctx3) by assumption.
  apply newChild_no_match.
Qed.

End NewChild.

Lemma children_map (ctx : Context) (n : Node) :
  getType (eltAt ctx (_eltIdx n)) = MAP ->
  children ctx n = Ret (map Node_of (subs (eltAt ctx (_eltIdx n)))).
Proof.
  intros Hmap. unfold children. rewrite Hmap. cbn [isStructural negb].
  rewrite (getSubQty_MAP _ Hmap). unfold getSubs, len. rewrite Nat2Z.id, firstn_all.
  reflexivity.
Qed.

(** X15: [map.insert(key, kind)] with a key that the map does not have
    adds the new MAP or SEQUENCE element itself to the children of the map,
    without a key element: the iteration over the map yields one more node,
    the new container, and the key is still not found afterwards,
    [map.hasKey(key)] is false. The document keeps the invariant of the
    index. *)
Theorem insert_container_not_found (ctx : Context) (n : Node) (key : list ascii)
    (newKind : NodeType) :
  parseInv ctx ->
  len (elements ctx) + 1 <= 2 ^ 28 -> len (arena ctx) <= 2 ^ 28 ->
  0 <= _eltIdx n -> _nonExistingKey n = [] ->
  getSubQty (eltAt ctx (_eltIdx n)) < 2 ^ 28 ->
  ~ In NUL key -> len key < 2 ^ 31 ->
  hasKey ctx n key = Ret false ->
  isStructural newKind = true ->
  exists ctx' kids,
    insert_key_kind ctx n key newKind = Ret ctx'
    /\ parseInv ctx'
    /\ children ctx n = Ret kids
    /\ children ctx' n = Ret (kids ++ [Node_of (len (elements ctx))])
    /\ Node_type ctx' (Node_of (len (elements ctx))) = newKind
    /\ hasKey ctx' n key = Ret false.
Proof.
  intros Hinv He Ha Hn Hpend Hq Hnn Hlen Hhas Hkind.
  destruct (hasKey_false ctx n key Hhas) as (Hmap & Hnil & Hfind).
  assert (Hnk : newKind <> KEY) by (intros ->; discriminate Hkind).
  assert (Habs : forall c, ~ keyAt ctx (_eltIdx n) c key).
  { apply absent_of_lookup; [exact Hinv|exact Ha|lia|exact Hfind]. }
  pose proof (len_nonneg (elements ctx)) as Hl.
  pose proof (newChild_p ctx (_eltIdx n) Hn Hmap) as Hp.
  destruct (newChild_parent ctx (_eltIdx n) key newKind Hn Hmap) as (He2 & Ht2 & Hs2 & Hq2).
  destruct (newChild_indexed ctx (_eltIdx n) key newKind Hinv Hn Hmap Hnk Hnn Hlen Habs He Ha)
    as (ctx3 & Hadd & He3 & Ha3 & Hinv3 & Hfind3).
  pose proof (eltAt_same_elements _ ctx3 (_eltIdx n) He3) as Hp3.
  exists ctx3, (map Node_of (subs (eltAt ctx (_eltIdx n)))).
  split.
  { unfold insert_key_kind. rewrite Hmap, Hnil, Hpend, Hkind. cbn [NodeType_eqb negb isNil].
    rewrite Hfind. cbn [bind]. rewrite Z.eqb_refl. cbn [negb].
    rewrite u32_small by lia. rewrite Hadd. reflexivity. }
  split; [exact Hinv3|].
  split; [apply children_map; exact Hmap|].
  split.
  { rewrite children_map by (rewrite Hp3; exact Ht2).
    rewrite Hp3, Hs2, map_app. reflexivity. }
  split.
  { unfold Node_type, Node_of. cbn [_eltIdx].
    rewrite (eltAt_same_elements _ ctx3 _ He3), (newChild_elt ctx (_eltIdx n) key newKind Hn Hmap) by exact Hl.
    destruct (Z.eqb_spec (len (elements ctx)) (_eltIdx n)); [lia|].
    rewrite Z.eqb_refl. unfold Element_kind, getType. cbn [etype].
    destruct newKind; try reflexivity; discriminate Hkind. }
  unfold hasKey. rewrite Hp3, Ht2, Hnil. cbn [NodeType_eqb negb].
  rewrite Hfind3. reflexivity.
Qed.

Lemma insert_container_not_found_witness :
  exists ctx' kids,
    insert_key_kind (doc_context mapExampleDoc) (doc_root mapExampleDoc) (chars "c") MAP = Ret ctx'
    /\ parseInv ctx'
    /\ children (doc_context mapExampleDoc) (doc_root mapExampleDoc) = Ret kids
    /\ children ctx' (doc_root mapExampleDoc)
       = Ret (kids ++ [Node_of (len (elements (doc_context mapExampleDoc)))])
    /\ Node_type ctx' (Node_of (len (elements (doc_context mapExampleDoc)))) = MAP
    /\ hasKey ctx' (doc_root mapExampleDoc) (chars "c") = Ret false.
Proof.
  apply (insert_container_not_found (doc_context mapExampleDoc) (doc_root mapExampleDoc)
           (chars "c") MAP).
  - apply (parse_inv mapExample); [vm_compute; reflexivity|].
    split; vm_compute; discriminate.
  - vm_compute. discriminate.
  - vm_compute. discriminate.
  - vm_compute. discriminate.
  - reflexivity.
  - vm_compute. reflexivity.
  - cbn. intros [H|[]]. discriminate H.
  - vm_compute. reflexivity.
  - vm_compute. reflexivity.
  - reflexivity.
Defined.

(** ** The other keys after an insertion *)

Lemma childNamed_keyAt (ctx : Context) (pi c : Z) (name : list ascii) :
  0 <= pi -> getType (eltAt ctx pi) = MAP -> 0 <= c < getSubQty (eltAt ctx pi) ->
  childNamed ctx (eltAt ctx pi) name c = true <-> keyAt ctx pi c name.
Proof.
  intros Hpi Ht Hc. unfold childNamed, keyAt. rewrite andb_true_iff, NodeType_eqb_eq, bytes_eqb_eq.
  tauto.
Qed.

(** The position that a matching cell gives, read as the arrays read it. *)
Lemma childNamed_position (ctx : Context) (parentElt : Element) (name : list ascii) (c : Z) :
  c < getSubQty parentElt -> 1 <= getSubQty parentElt ->
  childNamed ctx parentElt name c = true ->
  exists c0, 0 <= c0 < getSubQty parentElt
             /\ getSub c0 parentElt = getSub c parentElt
             /\ childNamed ctx parentElt name c0 = true.
Proof.
  intros Hc Hq Hn. exists (Z.of_nat (Z.to_nat c)).
  assert (Hsame : getSub (Z.of_nat (Z.to_nat c)) parentElt = getSub c parentElt).
  { unfold getSub. rewrite Nat2Z.id. reflexivity. }
  split; [lia|]. split; [exact Hsame|].
  unfold childNamed in *. rewrite Hsame. exact Hn.
Qed.

Section AfterInsert.

Variables (ctx ctx' : Context) (p : Z) (key enc : list ascii).
Hypothesis wf : wfElements ctx.
Hypothesis p_unsigned : 0 <= p.
Hypothesis p_map : getType (eltAt ctx p) = MAP.
Hypothesis arena_small : len (arena ctx) <= 2 ^ 28.
Hypothesis arena_after : arena ctx' = arena ctx ++ enc ++ [NUL] ++ key ++ [NUL].
Hypothesis parent_after : eltAt ctx' p = add (len (elements ctx) + 1) (eltAt ctx p).
Hypothesis key_after :
  eltAt ctx' (len (elements ctx) + 1)
  = Element_key KEY (len (arena ctx) + len enc + 1) (len key + 1) (len (elements ctx)).
Hypothesis others_after :
  forall j, 0 <= j < len (elements ctx) -> j <> p -> eltAt ctx' j = eltAt ctx j.

Lemma after_name (e : Element) :
  getType e = KEY -> keyStringOk ctx e -> nameOf ctx' e = nameOf ctx e.
Proof.
  intros Hk (K0 & K1 & K2). rewrite !nameOf_KEY by exact Hk.
  rewrite arena_after. rewrite u32_small by lia. apply slice_app_l; lia.
Qed.

Lemma after_key (x : Z) :
  0 <= x < len (elements ctx) ->
  getType (eltAt ctx x) = KEY \/ getType (eltAt ctx' x) = KEY ->
  eltAt ctx' x = eltAt ctx x.
Proof.
  intros Hx Hk. apply others_after; [exact Hx|]. intros ->.
  destruct Hk as [Hk|Hk].
  - rewrite p_map in Hk. discriminate Hk.
  - rewrite parent_after, getType_add, p_map in Hk. discriminate Hk.
Qed.

Lemma after_map (m : Z) :
  0 <= m -> getType (eltAt ctx m) = MAP ->
  getType (eltAt ctx' m) = MAP
  /\ subs (eltAt ctx' m)
     = subs (eltAt ctx m) ++ (if m =? p then [len (elements ctx) + 1] else []).
Proof.
  intros Hm Ht.
  destruct (Z.eqb_spec m p) as [->|Hne].
  - rewrite parent_after, getType_add, subs_add by (rewrite p_map; discriminate).
    split; [exact p_map|reflexivity].
  - assert (Hin : m < len (elements ctx)).
    { apply getType_in_range; [exact Hm|]. rewrite Ht. discriminate. }
    rewrite others_after by lia. rewrite app_nil_r. split; [exact Ht|reflexivity].
Qed.

(** An old position of a map holds the same child, with the same
    name. *)
Lemma after_child (m c : Z) (name : list ascii) :
  0 <= m -> getType (eltAt ctx m) = MAP -> 0 <= c < getSubQty (eltAt ctx m) ->
  getSub c (eltAt ctx' m) = getSub c (eltAt ctx m)
  /\ childNamed ctx' (eltAt ctx' m) name c = childNamed ctx (eltAt ctx m) name c.
Proof.
  intros Hm Ht Hc. destruct wf as (Hwf1 & Hwf2).
  destruct (after_map m Hm Ht) as (Ht' & Hs').
  rewrite (getSubQty_MAP _ Ht) in Hc.
  assert (Hsub : getSub c (eltAt ctx' m) = getSub c (eltAt ctx m)).
  { unfold getSub. rewrite Hs'. apply app_nth1. unfold len in Hc. lia. }
  split; [exact Hsub|].
  unfold childNamed. rewrite Hsub.
  assert (Hx : 0 <= getSub c (eltAt ctx m) < len (elements ctx)).
  { apply (Hwf1 m); [exact Ht|]. apply getSub_In. exact Hc. }
  set (x := getSub c (eltAt ctx m)) in *.
  destruct (NodeType_eqb (getType (eltAt ctx x)) KEY) eqn:Hk.
  - apply NodeType_eqb_eq in Hk. rewrite (after_key x Hx (or_introl Hk)), Hk.
    cbn [NodeType_eqb andb]. rewrite after_name; [reflexivity|exact Hk|apply Hwf2; exact Hk].
  - destruct (NodeType_eqb (getType (eltAt ctx' x)) KEY) eqn:Hk'; [|reflexivity].
    apply NodeType_eqb_eq in Hk'. rewrite (after_key x Hx (or_intror Hk')) in Hk'.
    apply NodeType_eqb_eq in Hk'. rewrite Hk' in Hk. discriminate Hk.
Qed.

(** The new position holds the new key. *)
Lemma after_new (name : list ascii) :
  len (arena ctx) + len enc + len key + 2 <= 2 ^ 28 ->
  childNamed ctx' (eltAt ctx' p) name (getSubQty (eltAt ctx p)) = true -> name = key.
Proof.
  intros Hsmall Hn.
  pose proof (len_nonneg (arena ctx)) as L0. pose proof (len_nonneg enc) as L1.
  pose proof (len_nonneg key) as L2.
  destruct (after_map p p_unsigned p_map) as (_ & Hs'). rewrite Z.eqb_refl in Hs'.
  unfold childNamed in Hn. apply andb_true_iff in Hn. destruct Hn as (_ & Hname).
  apply bytes_eqb_eq in Hname. rewrite <- Hname.
  assert (Hsub : getSub (getSubQty (eltAt ctx p)) (eltAt ctx' p) = len (elements ctx) + 1).
  { unfold getSub. rewrite Hs', (getSubQty_MAP _ p_map). unfold len at 1.
    rewrite Nat2Z.id. apply nth_middle. }
  rewrite Hsub, key_after.
  unfold nameOf, Element_key, getStringIdx, getStringSize, getCompound.
  cbn [etype typed0 compound]. rewrite land_CompoundMask by lia.
  replace (len key + 1 - 1) with (len key) by lia. rewrite u32_small by lia.
  rewrite arena_after.
  replace (arena ctx ++ enc ++ [NUL] ++ key ++ [NUL])
    with ((arena ctx ++ enc ++ [NUL]) ++ key ++ [NUL]) by (rewrite <- !app_assoc; reflexivity).
  replace (len (arena ctx) + len enc + 1) with (len (arena ctx ++ enc ++ [NUL]))
    by (rewrite !len_app; change (len [NUL]) with 1; lia).
  apply slice_middle.
Qed.

End AfterInsert.

Lemma keyAt_short (ctx : Context) (pi c : Z) (name : list ascii) :
  len (arena ctx) <= 2 ^ 28 -> keyAt ctx pi c name -> len name < 2 ^ 31.
Proof.
  intros Ha (_ & _ & _ & _ & Hname). rewrite <- Hname. unfold nameOf, slice, len.
  rewrite length_firstn, length_skipn. unfold len in Ha.
  change (2 ^ 28) with 268435456 in Ha. change (2 ^ 31) with 2147483648. lia.
Qed.

(** In a map where one child only is a key named [name], the lookup
    gives the child at the position of that key. *)
Lemma lookup_unique (ctx : Context) (pi c : Z) (name : list ascii) :
  parseInv ctx -> len (arena ctx) <= 2 ^ 28 -> ~ In NUL name ->
  keyAt ctx pi c name -> uniqueKey ctx (eltAt ctx pi) name ->
  exists c',
    getMapChildIndex pi name (len name) (eltAt ctx pi) ctx = Ret c'
    /\ c' < getSubQty (eltAt ctx pi)
    /\ getSub c' (eltAt ctx pi) = getSub c (eltAt ctx pi).
Proof.
  intros Hinv Ha Hnn Hkey Huniq.
  destruct (getMapChildIndex_finds ctx pi c name Hinv Ha Hkey) as (c' & Hfind & Hlt & _ & Hm).
  pose proof (cellMatches_childNamed _ _ _ _ _ Hnn (keyAt_short _ _ _ _ Ha Hkey) Hm) as Hnamed.
  cbn [childIndex] in Hnamed.
  pose proof Hkey as (Hpi & Ht & Hc & _).
  destruct (childNamed_position _ _ _ _ Hlt ltac:(lia) Hnamed) as (c0 & Hc0 & Hsame & Hn0).
  exists c'. split; [exact Hfind|]. split; [exact Hlt|].
  rewrite <- Hsame. f_equal. apply Huniq; try assumption.
  apply childNamed_keyAt; assumption.
Qed.

Section MapInsertFrame.

Variable T : Type.
Variable encode : T -> outcome (list ascii).

(** X16: an insertion in a map leaves the other keys of the document
    where they are. If [key2] names one key child of a map [m], then after
    [n.insert(key, v)] for a key that the map [n] does not have, [m.hasKey(key2)]
    is true and [m[key2]] is the same node as before. *)
Theorem insert_keeps_keys (ctx : Context) (n : Node) (key : list ascii) (v : T)
    (enc : list ascii) (m : Node) (key2 : list ascii) :
  parseInv ctx ->
  len (elements ctx) + 2 <= 2 ^ 28 ->
  len (arena ctx) + len enc + len key + 2 <= 2 ^ 28 ->
  0 <= _eltIdx n -> _nonExistingKey n = [] ->
  getSubQty (eltAt ctx (_eltIdx n)) < 2 ^ 28 ->
  ~ In NUL key ->
  hasKey ctx n key = Ret false ->
  encode v = Ret enc ->
  0 <= _eltIdx m -> _nonExistingKey m = [] ->
  getType (eltAt ctx (_eltIdx m)) = MAP ->
  getSubQty (eltAt ctx (_eltIdx m)) < 2 ^ 28 ->
  key2 <> [] -> ~ In NUL key2 ->
  hasKeyChild ctx (eltAt ctx (_eltIdx m)) key2 = true ->
  uniqueKey ctx (eltAt ctx (_eltIdx m)) key2 ->
  exists ctx' h,
    insert_key T encode ctx n key v = Ret ctx'
    /\ hasKey ctx' m key2 = Ret true
    /\ at_key ctx m key2 = Ret h
    /\ at_key ctx' m key2 = Ret h
    /\ _nonExistingKey h = [].
Proof.
  intros Hinv He Ha Hn Hpend Hq Hnn Hhas Henc Hm Hpendm Hmapm Hqm Hne2 Hnn2 Hhas2 Huniq.
  destruct (hasKey_false ctx n key Hhas) as (Hmap & Hnil & Hfind).
  pose proof (len_nonneg enc) as L1. pose proof (len_nonneg key) as L2.
  pose proof (len_nonneg (arena ctx)) as L0. pose proof (len_nonneg (elements ctx)) as L3.
  assert (Ha0 : len (arena ctx) <= 2 ^ 28) by lia.
  assert (Habs : forall c, ~ keyAt ctx (_eltIdx n) c key).
  { apply absent_of_lookup; [exact Hinv|lia|lia|exact Hfind]. }
  destruct (materialize_spec ctx (_eltIdx n) key enc Hinv Hn Hmap Hnn Habs He Ha)
    as (ctx' & Hmat & Hinv' & Hlen' & Har' & Hp' & Hv' & Hk' & Hold' & _).
  pose proof Hinv as (_ & _ & Hwf). pose proof Hwf as (Hwf1 & Hwf2).
  assert (Ha' : len (arena ctx') <= 2 ^ 28).
  { rewrite Har', !len_app. change (len [NUL]) with 1. lia. }
  assert (Hnil2 : isNil key2 = false) by (destruct key2; [congruence|reflexivity]).
  destruct (hasKeyChild_keyAt ctx (_eltIdx m) key2 Hm Hmapm Hhas2) as (c & Hkey).
  pose proof Hkey as (_ & _ & Hc & Hck & Hname).
  set (elt := eltAt ctx (_eltIdx m)) in *.
  set (x := getSub c elt) in *.
  assert (Hx : 0 <= x < len (elements ctx)).
  { apply (Hwf1 (_eltIdx m)); [exact Hmapm|]. apply getSub_In.
    fold elt. rewrite <- (getSubQty_MAP _ Hmapm). exact Hc. }
  (* before the insertion *)
  destruct (lookup_unique ctx (_eltIdx m) c key2 Hinv Ha0 Hnn2 Hkey Huniq)
    as (c1 & Hfind1 & Hlt1 & Hsub1).
  fold elt in Hfind1, Hlt1, Hsub1. fold x in Hsub1.
  (* after it *)
  destruct (after_map ctx ctx' (_eltIdx n) Hmap Hp' Hold' (_eltIdx m) Hm Hmapm)
    as (Hmapm' & Hsubs').
  fold elt in Hsubs'.
  set (elt' := eltAt ctx' (_eltIdx m)) in *.
  assert (Hqty' : getSubQty elt'
                  = getSubQty elt + (if _eltIdx m =? _eltIdx n then 1 else 0)).
  { rewrite (getSubQty_MAP _ Hmapm'), (getSubQty_MAP _ Hmapm), Hsubs', len_app.
    destruct (_eltIdx m =? _eltIdx n); reflexivity. }
  assert (Hchild : forall c0, 0 <= c0 < getSubQty elt ->
            getSub c0 elt' = getSub c0 elt
            /\ childNamed ctx' elt' key2 c0 = childNamed ctx elt key2 c0).
  { intros c0 Hc0.
    apply (after_child ctx ctx' (_eltIdx n) key enc Hwf Hmap Ha0 Har' Hp' Hold'
             (_eltIdx m) c0 key2 Hm Hmapm Hc0). }
  assert (Hkey' : keyAt ctx' (_eltIdx m) c key2).
  { apply childNamed_keyAt; [exact Hm|exact Hmapm'| |].
    - fold elt'. rewrite Hqty'. destruct (_eltIdx m =? _eltIdx n); lia.
    - fold elt'. rewrite (proj2 (Hchild c Hc)).
      apply childNamed_keyAt; assumption. }
  assert (Huniq' : uniqueKey ctx' elt' key2).
  { assert (Hold : forall c0, 0 <= c0 < getSubQty elt' ->
              childNamed ctx' elt' key2 c0 = true -> 0 <= c0 < getSubQty elt).
    { intros c0 Hc0 Hn0.
      destruct (Z.lt_ge_cases c0 (getSubQty elt)) as [Hlt|Hge]; [lia|exfalso].
      rewrite Hqty' in Hc0.
      destruct (Z.eqb_spec (_eltIdx m) (_eltIdx n)) as [Hmn|_]; [|lia].
      assert (Hc0e : c0 = getSubQty elt) by lia. subst c0.
      unfold elt', elt in Hn0. rewrite Hmn in Hn0.
      pose proof (after_new ctx ctx' (_eltIdx n) key enc Hn Hmap Har' Hp' Hk' Hold' key2 Ha Hn0)
        as Hsame.
      apply (Habs c). rewrite <- Hsame, <- Hmn. exact Hkey. }
    intros a b Hra Hrb Hna Hnb.
    pose proof (Hold a Hra Hna) as Hra0. pose proof (Hold b Hrb Hnb) as Hrb0.
    rewrite (proj2 (Hchild a Hra0)) in Hna. rewrite (proj2 (Hchild b Hrb0)) in Hnb.
    apply Huniq; assumption. }
  destruct (lookup_unique ctx' (_eltIdx m) c key2 Hinv' Ha' Hnn2 Hkey' Huniq')
    as (c2 & Hfind2 & Hlt2 & Hsub2).
  fold elt' in Hfind2, Hlt2, Hsub2. rewrite (proj1 (Hchild c Hc)) in Hsub2. fold x in Hsub2.
  assert (Helt : eltAt ctx' x = eltAt ctx x).
  { apply (after_key ctx ctx' (_eltIdx n) Hmap Hp' Hold' x Hx). left. exact Hck. }
  assert (Hmax1 : (c1 =? UINT_MAX) = false).
  { apply Z.eqb_neq. unfold UINT_MAX. change (2 ^ 28) with 268435456 in Hqm. lia. }
  assert (Hmax2 : (c2 =? UINT_MAX) = false).
  { apply Z.eqb_neq. unfold UINT_MAX. change (2 ^ 28) with 268435456 in Hqm.
    destruct (_eltIdx m =? _eltIdx n); lia. }
  exists ctx', (Node_of (getKeyValue (eltAt ctx x))).
  split.
  { unfold insert_key. rewrite Hmap, Hnil, Hpend. cbn [NodeType_eqb negb isNil].
    rewrite Hfind. cbn [bind]. rewrite Z.eqb_refl. cbn [negb].
    unfold encodeValue. rewrite Henc. cbn [bind]. exact Hmat. }
  split.
  { unfold hasKey. fold elt'. rewrite Hmapm', Hnil2. cbn [NodeType_eqb negb].
    rewrite Hfind2. cbn [bind]. rewrite Hmax2. reflexivity. }
  split.
  { unfold at_key. fold elt. rewrite Hmapm, Hnil2, Hpendm. cbn [NodeType_eqb negb isNil].
    rewrite Hfind1. cbn [bind]. rewrite Hmax1, Hsub1. reflexivity. }
  split; [|reflexivity].
  unfold at_key. fold elt'. rewrite Hmapm', Hnil2, Hpendm. cbn [NodeType_eqb negb isNil].
  rewrite Hfind2. cbn [bind]. rewrite Hmax2, Hsub2, Helt. reflexivity.
Qed.

End MapInsertFrame.

Lemma insert_keeps_keys_witness :
  exists ctx' h,
    insert_key (list ascii) encodeString (doc_context mapExampleDoc) (doc_root mapExampleDoc)
      (chars "c") (chars "d") = Ret ctx'
    /\ hasKey ctx' (doc_root mapExampleDoc) (chars "a") = Ret true
    /\ at_key (doc_context mapExampleDoc) (doc_root mapExampleDoc) (chars "a") = Ret h
    /\ at_key ctx' (doc_root mapExampleDoc) (chars "a") = Ret h
    /\ _nonExistingKey h = [].
Proof.
  assert (Hq : getSubQty (eltAt (doc_context mapExampleDoc) (_eltIdx (doc_root mapExampleDoc))) = 1)
    by (vm_compute; reflexivity).
  apply (insert_keeps_keys (list ascii) encodeString
           (doc_context mapExampleDoc) (doc_root mapExampleDoc) (chars "c") (chars "d") (chars "d")
           (doc_root mapExampleDoc) (chars "a")).
  - apply (parse_inv mapExample); [vm_compute; reflexivity|].
    split; vm_compute; discriminate.
  - vm_compute. discriminate.
  - vm_compute. discriminate.
  - vm_compute. discriminate.
  - reflexivity.
  - vm_compute. reflexivity.
  - cbn. intros [H|[]]. discriminate H.
  - vm_compute. reflexivity.
  - reflexivity.
  - vm_compute. discriminate.
  - reflexivity.
  - vm_compute. reflexivity.
  - vm_compute. reflexivity.
  - discriminate.
  - cbn. intros [H|[]]. discriminate H.
  - vm_compute. reflexivity.
  - intros c1 c2 H1 H2 _ _. rewrite Hq in H1, H2. lia.
Defined.

(** ** The index with tombstones *)

Lemma cellsUnsigned_spec (ctx : Context) :
  cellsUnsigned ctx = true ->
  forall s, 0 <= hash (cellAt (_entries ctx) s) /\ 0 <= childIndex (cellAt (_entries ctx) s).
Proof.
  unfold cellsUnsigned. rewrite forallb_forall. intros H s. unfold cellAt.
  destruct (Nat.lt_ge_cases (Z.to_nat s) (List.length (_entries ctx))) as [Hin|Hout].
  - specialize (H _ (nth_In _ emptyEntry Hin)). apply andb_true_iff in H. lia.
  - rewrite nth_overflow by exact Hout. cbn. lia.
Qed.

Lemma reachableIn_of_indexed (es : list Entry) (cap h c : Z) :
  indexedIn es cap h c -> reachableIn es cap h c.
Proof.
  intros (pre & slot & post & Hpath & Hcell & Hpre).
  exists pre, slot, post. split; [exact Hpath|]. split; [exact Hcell|].
  intros x Hx. specialize (Hpre x Hx). unfold FirstValid, Tombstone in *. lia.
Qed.

(** The documents of the parser are documents of the general kind. *)
Lemma indexInv_of_parseInv (ctx : Context) :
  parseInv ctx -> cellsUnsigned ctx = true -> indexInv ctx.
Proof.
  intros ((Hk & Hlen & _ & Hocc & Hload & Hgrow & _) & Hidx & Hwf) Hu.
  split; [|split; [|exact Hwf]].
  - split; [exact Hk|]. split; [exact Hlen|]. split; [apply cellsUnsigned_spec; exact Hu|].
    split; [exact Hocc|]. split; [exact Hload|exact Hgrow].
  - intros pi c name Hkey. apply reachableIn_of_indexed. apply Hidx. exact Hkey.
Qed.

Lemma tableShape_empty_cell (ctx : Context) :
  tableShape ctx ->
  exists i, 0 <= i < _maxEntryQty ctx /\ hash (cellAt (_entries ctx) i) = Empty.
Proof.
  intros ((k & Hk & Hcap) & Hlen & _ & Hocc & Hload & _).
  assert (Hpos : 16 <= 2 ^ k).
  { change 16 with (2 ^ 4). apply Z.pow_le_mono_r; lia. }
  unfold _maxLoad128th in Hload.
  destruct (exists_empty_cell (_entries ctx)) as (i & Hi & He); [lia|].
  exists i. split; [lia|exact He].
Qed.

(** Every probe of the table ends. *)
Lemma tableShape_search (ctx : Context) (minHash h : Z) (isMatch : Entry -> bool) :
  tableShape ctx -> Empty < minHash ->
  exists r, search minHash isMatch (_entries ctx) (homePath (_maxEntryQty ctx) h) = Ret r.
Proof.
  intros Htab Hmin. destruct (tableShape_empty_cell ctx Htab) as (i & Hi & Hempty).
  destruct Htab as ((k & Hk & Hcap) & _).
  apply (search_terminates _ _ _ _ i).
  - rewrite Hcap. unfold homePath. apply probe_covers; [lia|rewrite <- Hcap; exact Hi].
  - rewrite Hempty. exact Hmin.
Qed.

Lemma tableShape_slot (ctx : Context) (h s : Z) :
  tableShape ctx -> In s (homePath (_maxEntryQty ctx) h) -> 0 <= s < len (_entries ctx).
Proof.
  intros ((k & Hk & Hcap) & Hlen & _) Hin. rewrite Hlen, Hcap.
  apply (homePath_range k h s); [lia|rewrite <- Hcap; exact Hin].
Qed.

(** The lookup of a key of a map reaches a cell that matches it. *)
Lemma reach_finds (ctx : Context) (pi c : Z) (name : list ascii) :
  indexInv ctx -> len (arena ctx) <= 2 ^ 28 -> keyAt ctx pi c name ->
  exists s,
    search Tombstone
      (cellMatches ctx (eltAt ctx pi) name (len name) (keyHashOf pi name (len name)))
      (_entries ctx) (homePath (_maxEntryQty ctx) (keyHashOf pi name (len name)))
    = Ret (Hit s)
    /\ In s (homePath (_maxEntryQty ctx) (keyHashOf pi name (len name)))
    /\ cellMatches ctx (eltAt ctx pi) name (len name) (keyHashOf pi name (len name))
         (cellAt (_entries ctx) s) = true.
Proof.
  intros (Htab & Hidx & Hwf1 & Hwf2) Hsize Hkey.
  destruct (Hidx _ _ _ Hkey) as (pre & slot & post & Hpath & Hcell & Hpre).
  pose proof Hkey as (Hp & Ht & Hc & Hck & Hname).
  pose proof (keyHashOf_valid pi (len name) name Hp) as Hv.
  assert (Hm : cellMatches ctx (eltAt ctx pi) name (len name) (keyHashOf pi name (len name))
                 (cellAt (_entries ctx) slot) = true).
  { rewrite Hcell. apply cellMatches_keyAt; [exact Hkey| |exact Hsize].
    apply Hwf2. exact Hck. }
  destruct (search_hits_within Tombstone
              (cellMatches ctx (eltAt ctx pi) name (len name) (keyHashOf pi name (len name)))
              (_entries ctx) pre post slot) as (s & Hs).
  - exact Hpre.
  - rewrite Hcell. cbn [hash]. unfold FirstValid, Tombstone in *. lia.
  - exact Hm.
  - exists s. rewrite Hpath. split; [exact Hs|].
    apply search_result in Hs.
    destruct Hs as (pre' & post' & s' & Hp' & _ & [(Heq & _ & Hm')|(Heq & _)]);
      [|discriminate Heq].
    injection Heq as <-. split; [|exact Hm'].
    rewrite Hp'. apply in_or_app. right. left. reflexivity.
Qed.

(** A cell is overwritten: what was reachable in another cell, or is
    written again, stays reachable, as long as the cell is not emptied. *)
Lemma reachableIn_setNth (es : list Entry) (cap h c s : Z) (e : Entry) :
  0 <= s < len es ->
  (forall x, In x (homePath cap h) -> 0 <= x) ->
  Tombstone <= hash e ->
  (cellAt es s = mkEntry h c -> e = mkEntry h c) ->
  reachableIn es cap h c -> reachableIn (setNth (Z.to_nat s) e es) cap h c.
Proof.
  intros Hs Hrange He Hsame (pre & slot & post & Hpath & Hcell & Hpre).
  exists pre, slot, post. split; [exact Hpath|].
  assert (Hslot : 0 <= slot).
  { apply Hrange. rewrite Hpath. apply in_or_app. right. left. reflexivity. }
  split.
  - destruct (Z.eq_dec slot s) as [->|Hne].
    + rewrite cellAt_setNth_eq by exact Hs. apply Hsame. exact Hcell.
    + rewrite cellAt_setNth_ne by lia. exact Hcell.
  - intros x Hx.
    assert (Hx0 : 0 <= x).
    { apply Hrange. rewrite Hpath. apply in_or_app. left. exact Hx. }
    destruct (Z.eq_dec x s) as [->|Hne].
    + rewrite cellAt_setNth_eq by exact Hs. exact He.
    + rewrite cellAt_setNth_ne by lia. apply Hpre. exact Hx.
Qed.

Lemma occupied_setNth_kept (es : list Entry) (s : nat) (e : Entry) :
  hash e <> Empty -> hash (nth s es emptyEntry) <> Empty ->
  occupied (setNth s e es) = occupied es.
Proof.
  revert s. induction es as [|x r IH]; intros s He Hx.
  - destruct s; cbn in Hx; unfold Empty in Hx; lia.
  - destruct s as [|s]; cbn [setNth nth] in *.
    + rewrite !occupied_cons.
      destruct (Z.eqb_spec (hash e) Empty); [contradiction|].
      destruct (Z.eqb_spec (hash x) Empty); [contradiction|]. reflexivity.
    + rewrite !occupied_cons, (IH s He Hx). reflexivity.
Qed.

Lemma unsigned_setNth (es : list Entry) (s : Z) (e : Entry) :
  (forall x, 0 <= hash (cellAt es x) /\ 0 <= childIndex (cellAt es x)) ->
  0 <= hash e -> 0 <= childIndex e ->
  forall x, 0 <= hash (cellAt (setNth (Z.to_nat s) e es) x)
            /\ 0 <= childIndex (cellAt (setNth (Z.to_nat s) e es) x).
Proof.
  intros Hu Hh Hc x. unfold cellAt.
  destruct (Nat.eq_dec (Z.to_nat s) (Z.to_nat x)) as [Heq|Hne].
  - destruct (Nat.lt_ge_cases (Z.to_nat s) (List.length es)) as [Hin|Hout].
    + rewrite <- Heq, nth_setNth_eq by exact Hin. split; assumption.
    + rewrite nth_overflow by (rewrite length_setNth; lia). cbn. lia.
  - rewrite nth_setNth_ne by exact Hne. apply Hu.
Qed.

(** *** [resize] of a table with tombstones *)

Section TransferAll.
Variable k : Z.
Hypothesis k_range : 3 <= k <= 31.

Let cap : Z := 2 ^ k.

(** The transfer of the entries of the old table into the new one: the
    tombstones are left behind. *)
Lemma resize_transfer_all (old : list Entry) :
  forall new,
    len new = cap ->
    (forall s, hash (cellAt new s) = Empty \/ FirstValid <= hash (cellAt new s)) ->
    (forall s, 0 <= childIndex (cellAt new s)) ->
    (forall e, In e old -> 0 <= childIndex e) ->
    occupied new + occupied old < cap ->
    exists new',
      resize_transfer (probeFuel cap) old new (lineMask cap) = Ret new'
      /\ len new' = cap
      /\ (forall s, hash (cellAt new' s) = Empty \/ FirstValid <= hash (cellAt new' s))
      /\ (forall s, 0 <= childIndex (cellAt new' s))
      /\ occupied new' <= occupied new + occupied old
      /\ (forall h c, FirstValid <= h -> indexedIn new cap h c -> indexedIn new' cap h c)
      /\ (forall e, In e old -> FirstValid <= hash e ->
                    indexedIn new' cap (hash e) (childIndex e)).
Proof.
  induction old as [|e rest IH]; intros new Hlen Hcells Hun Hold Hocc.
  - exists new. cbn [resize_transfer]. repeat split; auto.
    + change (occupied []) with 0. lia.
    + intros e [].
  - cbn [resize_transfer]. rewrite occupied_cons in Hocc.
    pose proof (occupied_nonneg rest) as Hrest. pose proof (occupied_nonneg new) as Hnew.
    destruct (Z.ltb_spec (hash e) FirstValid) as [Hlow|Hvalid].
    + (* an empty cell or a tombstone of the old table *)
      destruct (IH new Hlen Hcells Hun (fun x Hx => Hold x (or_intror Hx))
                  ltac:(destruct (hash e =? Empty); lia))
        as (new' & Hrun & Hlen' & Hcells' & Hun' & Hocc' & Hkeep & Hall).
      exists new'. split; [exact Hrun|]. split; [exact Hlen'|]. split; [exact Hcells'|].
      split; [exact Hun'|].
      split; [rewrite occupied_cons; destruct (hash e =? Empty); lia|].
      split; [exact Hkeep|].
      intros x [<-|Hx] Hv; [lia|apply Hall; assumption].
    + assert (Hne : (hash e =? Empty) = false) by (apply Z.eqb_neq; unfold FirstValid, Empty in *; lia).
      rewrite Hne in Hocc.
      rewrite probe_search. fold (homePath cap (hash e)).
      destruct (exists_empty_cell new ltac:(lia)) as (i & Hi & Hempty).
      destruct (search_terminates FirstValid (fun _ => false) new (homePath cap (hash e)) i)
        as (r & Hr).
      { unfold homePath, cap. apply probe_covers; [exact k_range|]. fold cap. lia. }
      { rewrite Hempty. reflexivity. }
      rewrite Hr. cbn [bind].
      destruct (search_no_match_free _ _ _ Hr) as (s & -> & Hin & Hfree).
      pose proof (homePath_range k (hash e) s k_range Hin) as Hs. fold cap in Hs.
      set (new1 := setNth (Z.to_nat s) e new).
      assert (Hlen1 : len new1 = cap).
      { unfold new1, len. rewrite length_setNth. exact Hlen. }
      assert (Hcells1 : forall x, hash (cellAt new1 x) = Empty \/ FirstValid <= hash (cellAt new1 x)).
      { intros x. unfold new1, cellAt.
        destruct (Nat.eq_dec (Z.to_nat s) (Z.to_nat x)) as [Heq|Hneq].
        - rewrite <- Heq, nth_setNth_eq by (unfold len in Hlen; lia). right. exact Hvalid.
        - rewrite nth_setNth_ne by exact Hneq. apply Hcells. }
      assert (Hun1 : forall x, 0 <= childIndex (cellAt new1 x)).
      { intros x. unfold new1, cellAt.
        destruct (Nat.eq_dec (Z.to_nat s) (Z.to_nat x)) as [Heq|Hneq].
        - rewrite <- Heq, nth_setNth_eq by (unfold len in Hlen; lia).
          apply Hold. left. reflexivity.
        - rewrite nth_setNth_ne by exact Hneq. apply Hun. }
      assert (Hocc1 : occupied new1 <= occupied new + 1) by apply occupied_setNth.
      destruct (IH new1 Hlen1 Hcells1 Hun1 (fun x Hx => Hold x (or_intror Hx)) ltac:(lia))
        as (new' & Hrun & Hlen' & Hcells' & Hun' & Hocc' & Hkeep & Hall).
      exists new'. split; [exact Hrun|]. split; [exact Hlen'|].
      split; [exact Hcells'|]. split; [exact Hun'|].
      split; [rewrite occupied_cons, Hne; lia|].
      split.
      * intros h c Hh Hidx. apply Hkeep; [exact Hh|].
        apply indexedIn_setNth; try assumption; try lia.
        intros x Hx. apply (homePath_nonneg k k_range h x Hx).
      * intros x [<-|Hx] Hv; [|apply Hall; assumption].
        apply Hkeep; [exact Hv|].
        unfold new1. destruct e as [h0 c0]. cbn [hash childIndex] in *.
        apply (indexedIn_new new cap h0 c0 s (fun _ => false)); [lia|exact Hr].
Qed.

End TransferAll.

(** [resize] to the double of the size: the entries are all found again,
    and the tombstones are gone. *)
Lemma resize_all (ctx : Context) (k : Z) :
  3 <= k <= 30 -> _maxEntryQty ctx = 2 ^ k -> len (_entries ctx) = 2 ^ k ->
  (forall s, 0 <= childIndex (cellAt (_entries ctx) s)) ->
  exists es',
    resize (2 ^ (k + 1)) ctx
    = Ret (mkContext (elements ctx) (arena ctx) (sessionStartIdx ctx) es' (_entryQty ctx)
             (2 ^ (k + 1)))
    /\ len es' = 2 ^ (k + 1)
    /\ (forall s, hash (cellAt es' s) = Empty \/ FirstValid <= hash (cellAt es' s))
    /\ (forall s, 0 <= childIndex (cellAt es' s))
    /\ occupied es' <= occupied (_entries ctx)
    /\ (forall s, FirstValid <= hash (cellAt (_entries ctx) s) ->
                  indexedIn es' (2 ^ (k + 1)) (hash (cellAt (_entries ctx) s))
                    (childIndex (cellAt (_entries ctx) s))).
Proof.
  intros Hk Hcap Hlen Hun.
  assert (Hpos : 0 < 2 ^ k) by (apply Z.pow_pos_nonneg; lia).
  pose proof (pow2_succ k ltac:(lia)) as Hdouble.
  unfold resize. rewrite Hcap.
  assert (Hold : firstn (Z.to_nat (2 ^ k)) (_entries ctx) = _entries ctx).
  { apply firstn_all2. unfold len in Hlen. lia. }
  rewrite Hold.
  destruct (resize_transfer_all (k + 1) ltac:(lia) (_entries ctx)
              (repeat emptyEntry (Z.to_nat (2 ^ (k + 1)))))
    as (es' & Hrun & Hlen' & Hcells' & Hun' & Hocc' & _ & Hall).
  - unfold len. rewrite repeat_length. lia.
  - intros s. left. rewrite cellAt_repeat. reflexivity.
  - intros s. rewrite cellAt_repeat. cbn. lia.
  - intros e He. destruct (In_nth _ _ emptyEntry He) as (n & Hn & <-).
    specialize (Hun (Z.of_nat n)). unfold cellAt in Hun. rewrite Nat2Z.id in Hun.
    exact Hun.
  - rewrite occupied_repeat. pose proof (occupied_le_len (_entries ctx)). lia.
  - exists es'. rewrite Hrun. cbn [bind]. split; [reflexivity|]. split; [exact Hlen'|].
    split; [exact Hcells'|]. split; [exact Hun'|].
    split; [rewrite occupied_repeat in Hocc'; lia|].
    intros s Hv. apply Hall; [|exact Hv].
    unfold cellAt in Hv.
    destruct (Z.lt_ge_cases s 0) as [Hneg|Hnn].
    + replace (cellAt (_entries ctx) s) with (cellAt (_entries ctx) 0)
        by (unfold cellAt; f_equal; lia).
      apply cellAt_In. lia.
    + destruct (Z.lt_ge_cases s (len (_entries ctx))) as [Hin|Hout];
        [apply cellAt_In; lia|].
      rewrite nth_overflow in Hv by (unfold len in Hout; lia).
      unfold emptyEntry, FirstValid in Hv. cbn [hash] in Hv. lia.
Qed.

(** *** [addMapChildIndex] on a table with tombstones *)

Lemma addMapChildIndex_reach (ctx : Context) (pi keySize c : Z) (key : list ascii)
    (parentElt : Element) :
  tableShape ctx -> _entryQty ctx + 1 <= 2 ^ 28 -> 0 <= pi -> 0 <= c ->
  exists inserted ctx',
    addMapChildIndex pi key keySize parentElt c ctx = Ret (inserted, ctx')
    /\ tableShape ctx'
    /\ _entryQty ctx' <= _entryQty ctx + 1
    /\ reachableIn (_entries ctx') (_maxEntryQty ctx') (keyHashOf pi key keySize) c
    /\ (forall h' c', FirstValid <= h' ->
          reachableIn (_entries ctx) (_maxEntryQty ctx) h' c' ->
          cellMatches ctx parentElt key keySize (keyHashOf pi key keySize) (mkEntry h' c') = false
          \/ c' = c ->
          reachableIn (_entries ctx') (_maxEntryQty ctx') h' c').
Proof.
  intros Htab Hbound Hpi Hc.
  pose proof (keyHashOf_valid pi keySize key Hpi) as Hvalid.
  set (h := keyHashOf pi key keySize) in *.
  destruct (tableShape_search ctx FirstValid h (cellMatches ctx parentElt key keySize h) Htab)
    as (r & Hr); [reflexivity|].
  pose proof (fun s => tableShape_slot ctx h s Htab) as Hslots.
  destruct Htab as ((k & Hk & Hcap) & Hlen & Hun & Hocc & Hload & Hgrow).
  assert (Hrange : forall h' x, In x (homePath (_maxEntryQty ctx) h') -> 0 <= x).
  { intros h' x Hx. rewrite Hcap in Hx. apply (homePath_range k h' x ltac:(lia)) in Hx. lia. }
  unfold addMapChildIndex. fold h. rewrite probe_search. fold (homePath (_maxEntryQty ctx) h).
  rewrite Hr. cbn [bind].
  pose proof Hr as Hres. apply search_result in Hres.
  destruct Hres as (pre & post & s & Hpath & Hpre & Hcase).
  assert (Hs : 0 <= s < len (_entries ctx)).
  { apply Hslots. rewrite Hpath. apply in_or_app. right. left. reflexivity. }
  destruct Hcase as [(-> & Hv & Hm)|(-> & Hlow)].
  - (* a cell matches: it is given the position *)
    pose proof (cellMatches_spec _ _ _ _ _ _ Hm) as (Hh & _).
    change (entryAt ctx s) with (cellAt (_entries ctx) s). rewrite Hh.
    set (es' := setNth (Z.to_nat s) (mkEntry h c) (_entries ctx)).
    exists false, (setEntries es' ctx). split; [reflexivity|].
    change (_entries (setEntries es' ctx)) with es'.
    change (_entryQty (setEntries es' ctx)) with (_entryQty ctx).
    change (_maxEntryQty (setEntries es' ctx)) with (_maxEntryQty ctx).
    unfold tableShape.
    change (_entries (setEntries es' ctx)) with es'.
    change (_entryQty (setEntries es' ctx)) with (_entryQty ctx).
    change (_maxEntryQty (setEntries es' ctx)) with (_maxEntryQty ctx).
    split; [|split; [lia|split]].
    + split; [exists k; split; assumption|].
      split; [unfold es', len; rewrite length_setNth; exact Hlen|].
      split; [apply unsigned_setNth; [exact Hun|cbn; unfold FirstValid in Hvalid; lia|exact Hc]|].
      split; [|split; [exact Hload|exact Hgrow]].
      unfold es'. rewrite occupied_setNth_same; [exact Hocc|].
      fold (cellAt (_entries ctx) s). rewrite Hh. reflexivity.
    + exists pre, s, post. split; [exact Hpath|].
      split; [apply cellAt_setNth_eq; exact Hs|].
      intros x Hx. destruct (Hpre x Hx) as (Hxv & _).
      assert (Hx0 : 0 <= x) by (apply (Hrange h); rewrite Hpath; apply in_or_app; left; exact Hx).
      destruct (Z.eq_dec x s) as [->|Hne].
      * unfold es'. rewrite cellAt_setNth_eq by exact Hs. cbn [hash].
        unfold FirstValid, Tombstone in *. lia.
      * unfold es'. rewrite cellAt_setNth_ne by lia. unfold FirstValid, Tombstone in *. lia.
    + intros h' c' Hh' Hreach Hcond. apply reachableIn_setNth; try assumption.
      * apply Hrange.
      * cbn [hash]. unfold FirstValid, Tombstone in *. lia.
      * intros Hcell. rewrite Hcell in Hm, Hh. cbn [hash] in Hh.
        destruct Hcond as [Hno| ->]; [rewrite Hm in Hno; discriminate Hno|].
        rewrite Hh. reflexivity.
  - (* a free cell: a new entry *)
    assert (Hq0 : 0 <= occupied (_entries ctx)) by apply occupied_nonneg.
    assert (Hu : u32 (_entryQty ctx + 1) = _entryQty ctx + 1).
    { unfold u32. apply Z.mod_small. change (2 ^ 28) with 268435456 in Hbound.
      change (2 ^ 32) with 4294967296. lia. }
    set (es1 := setNth (Z.to_nat s) (mkEntry h c) (_entries ctx)).
    assert (Hlen1 : len es1 = 2 ^ k).
    { unfold es1, len. rewrite length_setNth. unfold len in Hlen. lia. }
    assert (Hun1 : forall x, 0 <= hash (cellAt es1 x) /\ 0 <= childIndex (cellAt es1 x)).
    { apply unsigned_setNth; [exact Hun|cbn; unfold FirstValid in Hvalid; lia|exact Hc]. }
    assert (Hocc1 : occupied es1 <= _entryQty ctx + 1).
    { pose proof (occupied_setNth (Z.to_nat s) (mkEntry h c) (_entries ctx)) as H.
      fold es1 in H. lia. }
    assert (Hkeep1 : forall h' c', FirstValid <= h' ->
              reachableIn (_entries ctx) (_maxEntryQty ctx) h' c' ->
              reachableIn es1 (_maxEntryQty ctx) h' c').
    { intros h' c' Hh' Hreach. apply reachableIn_setNth; try assumption.
      - apply Hrange.
      - cbn [hash]. unfold FirstValid, Tombstone in *. lia.
      - intros Hcell. rewrite Hcell in Hlow. cbn [hash] in Hlow. lia. }
    assert (Hnew1 : reachableIn es1 (_maxEntryQty ctx) h c).
    { exists pre, s, post. split; [exact Hpath|].
      split; [apply cellAt_setNth_eq; exact Hs|].
      intros x Hx. destruct (Hpre x Hx) as (Hxv & _).
      assert (Hx0 : 0 <= x) by (apply (Hrange h); rewrite Hpath; apply in_or_app; left; exact Hx).
      destruct (Z.eq_dec x s) as [->|Hne]; [lia|].
      unfold es1. rewrite cellAt_setNth_ne by lia. unfold FirstValid, Tombstone in *. lia. }
    unfold addNewEntry. cbn [_maxEntryQty _entryQty elements arena sessionStartIdx _entries].
    fold es1. rewrite Hu. rewrite Hcap in *.
    unfold _maxLoad128th in *.
    destruct (Z.ltb_spec (115 * 2 ^ k) (128 * (_entryQty ctx + 1))) as [Hover|Hunder].
    + (* the table is resized *)
      assert (Hk29 : k <= 28).
      { destruct (Z.le_gt_cases k 28) as [H|H]; [exact H|]. exfalso.
        assert (2 ^ 29 <= 2 ^ k) by (apply Z.pow_le_mono_r; lia).
        change (2 ^ 29) with 536870912 in *. change (2 ^ 28) with 268435456 in *.
        unfold InitMapSize in Hgrow. lia. }
      assert (Hdouble : u32 (2 * 2 ^ k) = 2 ^ (k + 1)).
      { rewrite pow2_succ by lia. unfold u32. apply Z.mod_small.
        assert (2 ^ k <= 2 ^ 28) by (apply Z.pow_le_mono_r; lia).
        change (2 ^ 28) with 268435456 in *. change (2 ^ 32) with 4294967296.
        assert (0 < 2 ^ k) by (apply Z.pow_pos_nonneg; lia). lia. }
      rewrite Hdouble.
      destruct (resize_all
                  (mkContext (elements ctx) (arena ctx) (sessionStartIdx ctx) es1
                     (_entryQty ctx + 1) (2 ^ k)) k ltac:(lia) eq_refl Hlen1
                  (fun x => proj2 (Hun1 x)))
        as (es' & Hrun & Hlen' & Hcells' & Hun' & Hocc' & Hall).
      cbn [elements arena sessionStartIdx _entries _entryQty _maxEntryQty] in *.
      rewrite Hrun. cbn [bind]. eexists _, _. split; [reflexivity|].
      cbn [elements arena sessionStartIdx _entries _entryQty _maxEntryQty].
      assert (Hpk : 0 < 2 ^ k) by (apply Z.pow_pos_nonneg; lia).
      pose proof (pow2_succ k ltac:(lia)) as Hsucc.
      split; [|split; [lia|split]].
      * unfold tableShape, _maxLoad128th, InitMapSize.
        cbn [elements arena sessionStartIdx _entries _entryQty _maxEntryQty].
        split; [exists (k + 1); split; [lia|reflexivity]|].
        split; [exact Hlen'|].
        split.
        { intros x. split; [|apply Hun'].
          destruct (Hcells' x) as [H|H]; unfold Empty, FirstValid in *; lia. }
        split; [lia|]. split; [lia|right; lia].
      * destruct Hnew1 as (p1 & s1 & q1 & _ & Hcell1 & _).
        apply reachableIn_of_indexed.
        specialize (Hall s1). rewrite Hcell1 in Hall. apply Hall. exact Hvalid.
      * intros h' c' Hh' Hreach _.
        destruct (Hkeep1 h' c' Hh' Hreach) as (p1 & s1 & q1 & _ & Hcell1 & _).
        apply reachableIn_of_indexed.
        specialize (Hall s1). rewrite Hcell1 in Hall. apply Hall. exact Hh'.
    + eexists _, _. split; [reflexivity|].
      cbn [elements arena sessionStartIdx _entries _entryQty _maxEntryQty].
      split; [|split; [lia|split]].
      * unfold tableShape, _maxLoad128th, InitMapSize in *.
        cbn [elements arena sessionStartIdx _entries _entryQty _maxEntryQty].
        split; [exists k; split; [lia|reflexivity]|].
        split; [exact Hlen1|]. split; [exact Hun1|].
        split; [lia|]. split; [lia|].
        destruct Hgrow as [H16|Hg]; [left; exact H16|right; lia].
      * exact Hnew1.
      * intros h' c' Hh' Hreach _. apply Hkeep1; assumption.
Qed.

(** *** [removeMapChildIndex] *)

(** The cell that matches the key becomes a tombstone: the entries that
    do not match the key stay reachable. *)
Lemma removeMapChildIndex_reach (ctx : Context) (pi keySize : Z) (key : list ascii)
    (parentElt : Element) (s : Z) :
  tableShape ctx ->
  search Tombstone (cellMatches ctx parentElt key keySize (keyHashOf pi key keySize))
    (_entries ctx) (homePath (_maxEntryQty ctx) (keyHashOf pi key keySize)) = Ret (Hit s) ->
  exists ctx1,
    removeMapChildIndex pi key keySize parentElt ctx
    = Ret (childIndex (cellAt (_entries ctx) s), ctx1)
    /\ elements ctx1 = elements ctx /\ arena ctx1 = arena ctx
    /\ _entryQty ctx1 = _entryQty ctx /\ _maxEntryQty ctx1 = _maxEntryQty ctx
    /\ tableShape ctx1
    /\ (forall h' c',
          reachableIn (_entries ctx) (_maxEntryQty ctx) h' c' ->
          cellMatches ctx parentElt key keySize (keyHashOf pi key keySize) (mkEntry h' c') = false ->
          reachableIn (_entries ctx1) (_maxEntryQty ctx1) h' c').
Proof.
  intros Htab Hsearch.
  set (h := keyHashOf pi key keySize) in *.
  pose proof (fun x => tableShape_slot ctx h x Htab) as Hslots.
  destruct Htab as ((k & Hk & Hcap) & Hlen & Hun & Hocc & Hload & Hgrow).
  assert (Hrange : forall h' x, In x (homePath (_maxEntryQty ctx) h') -> 0 <= x).
  { intros h' x Hx. rewrite Hcap in Hx. apply (homePath_range k h' x ltac:(lia)) in Hx. lia. }
  unfold removeMapChildIndex. fold h. rewrite probe_search.
  fold (homePath (_maxEntryQty ctx) h). rewrite Hsearch. cbn [bind].
  change (entryAt ctx s) with (cellAt (_entries ctx) s).
  apply search_result in Hsearch.
  destruct Hsearch as (pre & post & s' & Hpath & Hpre & [(Heq & Hv & Hm)|(Heq & _)]);
    [|discriminate Heq].
  injection Heq as <-.
  assert (Hs : 0 <= s < len (_entries ctx)).
  { apply Hslots. rewrite Hpath. apply in_or_app. right. left. reflexivity. }
  set (es1 := setNth (Z.to_nat s) (mkEntry Tombstone UINT_MAX) (_entries ctx)).
  exists (setEntries es1 ctx). split; [reflexivity|].
  split; [reflexivity|]. split; [reflexivity|]. split; [reflexivity|]. split; [reflexivity|].
  unfold tableShape.
  change (_entries (setEntries es1 ctx)) with es1.
  change (_entryQty (setEntries es1 ctx)) with (_entryQty ctx).
  change (_maxEntryQty (setEntries es1 ctx)) with (_maxEntryQty ctx).
  unfold es1.
  split.
  - split; [exists k; split; assumption|].
    split; [unfold len; rewrite length_setNth; exact Hlen|].
    split; [apply unsigned_setNth; [exact Hun|cbn; unfold Tombstone; lia|cbn; unfold UINT_MAX; lia]|].
    split; [|split; [exact Hload|exact Hgrow]].
    rewrite occupied_setNth_kept; [exact Hocc|cbn; unfold Tombstone, Empty; lia|].
    fold (cellAt (_entries ctx) s). unfold Tombstone, Empty in *. lia.
  - intros h' c' Hreach Hno. apply reachableIn_setNth; try assumption.
    + apply Hrange.
    + cbn [hash]. lia.
    + intros Hcell. rewrite Hcell, Hno in Hm. discriminate Hm.
Qed.

(** *** Maps of keys with distinct names *)

Lemma distinctNames_spec (l : list (list ascii)) :
  distinctNames l = true <->
  (forall i j, (i < List.length l)%nat -> (j < List.length l)%nat ->
               nth i l [] = nth j l [] -> i = j).
Proof.
  induction l as [|a r IH]; cbn [distinctNames List.length].
  - split; [intros _ i j Hi; lia|reflexivity].
  - rewrite andb_true_iff, negb_true_iff, IH. split.
    + intros (Hno & Hr) i j Hi Hj Heq.
      assert (Hout : forall m, (m < List.length r)%nat -> nth m r [] <> a).
      { intros m Hm Hx.
        assert (Hex : existsb (bytes_eqb a) r = true).
        { apply existsb_exists. exists (nth m r []). split; [apply nth_In; exact Hm|].
          apply bytes_eqb_eq. symmetry. exact Hx. }
        rewrite Hex in Hno. discriminate Hno. }
      destruct i as [|i], j as [|j]; cbn [nth] in Heq.
      * reflexivity.
      * exfalso. apply (Hout j); [lia|]. symmetry. exact Heq.
      * exfalso. apply (Hout i); [lia|]. exact Heq.
      * f_equal. apply Hr; [lia|lia|exact Heq].
    + intros H. split.
      * destruct (existsb (bytes_eqb a) r) eqn:Hex; [exfalso|reflexivity].
        apply existsb_exists in Hex. destruct Hex as (x & Hx & Heq).
        apply bytes_eqb_eq in Heq. destruct (In_nth _ _ [] Hx) as (m & Hm & Hnth).
        specialize (H 0%nat (S m) ltac:(lia) ltac:(lia)). cbn [nth] in H.
        rewrite Hnth in H. specialize (H Heq). discriminate H.
      * intros i j Hi Hj Heq.
        specialize (H (S i) (S j) ltac:(lia) ltac:(lia) Heq). lia.
Qed.

Lemma isKeyNamed_spec (ctx : Context) (x : Z) (name : list ascii) :
  isKeyNamed ctx x name = true <->
  getType (eltAt ctx x) = KEY /\ nameOf ctx (eltAt ctx x) = name.
Proof. unfold isKeyNamed. rewrite andb_true_iff, NodeType_eqb_eq, bytes_eqb_eq. tauto. Qed.

Lemma childNamed_isKeyNamed (ctx : Context) (parentElt : Element) (name : list ascii) (c : Z) :
  childNamed ctx parentElt name c = isKeyNamed ctx (getSub c parentElt) name.
Proof. reflexivity. Qed.

Lemma plainMap_spec (ctx : Context) (elt : Element) :
  plainMap ctx elt = true <->
  (forall x, In x (subs elt) -> getType (eltAt ctx x) = KEY)
  /\ (forall x, In x (subs elt) -> ~ In NUL (nameOf ctx (eltAt ctx x)))
  /\ (forall i j, (i < List.length (subs elt))%nat -> (j < List.length (subs elt))%nat ->
        nameOf ctx (eltAt ctx (nth i (subs elt) 0)) = nameOf ctx (eltAt ctx (nth j (subs elt) 0)) ->
        i = j).
Proof.
  unfold plainMap, childNames. rewrite !andb_true_iff, !forallb_forall, distinctNames_spec.
  rewrite length_map.
  split.
  - intros ((Hk & Hn) & Hd). split; [|split].
    + intros x Hx. apply NodeType_eqb_eq. apply Hk. exact Hx.
    + intros x Hx Hin.
      specialize (Hn (nameOf ctx (eltAt ctx x))
                    (in_map (fun y => nameOf ctx (eltAt ctx y)) _ _ Hx)).
      apply negb_true_iff in Hn. apply hasChar_In in Hin. congruence.
    + intros i j Hi Hj Heq. apply Hd; [exact Hi|exact Hj|].
      rewrite !(nth_indep _ [] (nameOf ctx (eltAt ctx 0)))
        by (rewrite length_map; assumption).
      rewrite !(map_nth (fun y => nameOf ctx (eltAt ctx y))). exact Heq.
  - intros (Hk & Hn & Hd). split; [split|].
    + intros x Hx. apply NodeType_eqb_eq. apply Hk. exact Hx.
    + intros name Hname. apply in_map_iff in Hname. destruct Hname as (x & <- & Hx).
      apply negb_true_iff. destruct (hasChar NUL _) eqn:Hc; [|reflexivity].
      apply hasChar_In in Hc. exfalso. exact (Hn x Hx Hc).
    + intros i j Hi Hj Heq. apply Hd; [exact Hi|exact Hj|].
      rewrite !(nth_indep _ [] (nameOf ctx (eltAt ctx 0))) in Heq
        by (rewrite length_map; assumption).
      rewrite !(map_nth (fun y => nameOf ctx (eltAt ctx y))) in Heq. exact Heq.
Qed.

Lemma tableShape_same_table (ctx ctx' : Context) :
  _entries ctx' = _entries ctx -> _entryQty ctx' = _entryQty ctx ->
  _maxEntryQty ctx' = _maxEntryQty ctx -> tableShape ctx -> tableShape ctx'.
Proof. intros He Hq Hc. unfold tableShape. rewrite He, Hq, Hc. auto. Qed.

(** The lookup of a key that has a reachable entry ends on a cell that
    matches the key. *)
Lemma reach_finds_one (ctx : Context) (pi c : Z) (name : list ascii) :
  wfElements ctx -> len (arena ctx) <= 2 ^ 28 -> keyAt ctx pi c name ->
  reachableIn (_entries ctx) (_maxEntryQty ctx) (keyHashOf pi name (len name)) c ->
  exists s,
    search Tombstone
      (cellMatches ctx (eltAt ctx pi) name (len name) (keyHashOf pi name (len name)))
      (_entries ctx) (homePath (_maxEntryQty ctx) (keyHashOf pi name (len name)))
    = Ret (Hit s)
    /\ cellMatches ctx (eltAt ctx pi) name (len name) (keyHashOf pi name (len name))
         (cellAt (_entries ctx) s) = true.
Proof.
  intros (Hwf1 & Hwf2) Hsize Hkey (pre & slot & post & Hpath & Hcell & Hpre).
  pose proof Hkey as (Hp & Ht & Hc & Hck & Hname).
  pose proof (keyHashOf_valid pi (len name) name Hp) as Hv.
  assert (Hm : cellMatches ctx (eltAt ctx pi) name (len name) (keyHashOf pi name (len name))
                 (cellAt (_entries ctx) slot) = true).
  { rewrite Hcell. apply cellMatches_keyAt; [exact Hkey| |exact Hsize].
    apply Hwf2. exact Hck. }
  destruct (search_hits_within Tombstone
              (cellMatches ctx (eltAt ctx pi) name (len name) (keyHashOf pi name (len name)))
              (_entries ctx) pre post slot) as (s & Hs).
  - exact Hpre.
  - rewrite Hcell. cbn [hash]. unfold FirstValid, Tombstone in *. lia.
  - exact Hm.
  - exists s. rewrite Hpath. split; [exact Hs|].
    apply search_result in Hs.
    destruct Hs as (pre' & post' & s' & Hp' & _ & [(Heq & _ & Hm')|(Heq & _)]);
      [|discriminate Heq].
    injection Heq as <-. exact Hm'.
Qed.

(** An entry that matches a key gives the position of a key child of
    that name. *)
Lemma match_keyAt (ctx : Context) (p h : Z) (name : list ascii) (e : Entry) :
  0 <= p -> getType (eltAt ctx p) = MAP -> ~ In NUL name -> len name < 2 ^ 31 ->
  0 <= childIndex e ->
  cellMatches ctx (eltAt ctx p) name (len name) h e = true ->
  hash e = h /\ keyAt ctx p (childIndex e) name.
Proof.
  intros Hp Ht Hnn Hlen Hc Hm.
  pose proof (cellMatches_childNamed _ _ _ _ _ Hnn Hlen Hm) as Hnamed.
  pose proof (cellMatches_spec _ _ _ _ _ _ Hm) as (Hh & Hlt & _).
  split; [exact Hh|]. apply childNamed_keyAt; [exact Hp|exact Ht|lia|exact Hnamed].
Qed.

(** Without a key child of that name, the lookup answers [UINT_MAX]. *)
Lemma lookup_none (ctx : Context) (p : Z) (name : list ascii) :
  tableShape ctx -> 0 <= p -> getType (eltAt ctx p) = MAP ->
  ~ In NUL name -> len name < 2 ^ 31 ->
  (forall c, ~ keyAt ctx p c name) ->
  getMapChildIndex p name (len name) (eltAt ctx p) ctx = Ret UINT_MAX.
Proof.
  intros Htab Hp Ht Hnn Hlen Habs.
  set (h := keyHashOf p name (len name)).
  destruct (tableShape_search ctx Tombstone h
              (cellMatches ctx (eltAt ctx p) name (len name) h) Htab) as (r & Hr);
    [reflexivity|].
  unfold getMapChildIndex. fold h. rewrite probe_search.
  fold (homePath (_maxEntryQty ctx) h). rewrite Hr. cbn [bind].
  destruct r as [s|s]; [exfalso|reflexivity].
  apply search_result in Hr.
  destruct Hr as (pre & post & s' & _ & _ & [(_ & _ & Hm)|(Heq & _)]); [|discriminate Heq].
  destruct Htab as (_ & _ & Hun & _).
  destruct (match_keyAt ctx p h name _ Hp Ht Hnn Hlen (proj2 (Hun s')) Hm) as (_ & Hk).
  exact (Habs _ Hk).
Qed.

(** With a key child of that name reachable, the lookup answers the
    position of a key child of that name. *)
Lemma lookup_some (ctx : Context) (p c : Z) (name : list ascii) :
  tableShape ctx -> wfElements ctx -> len (arena ctx) <= 2 ^ 28 -> ~ In NUL name ->
  keyAt ctx p c name ->
  reachableIn (_entries ctx) (_maxEntryQty ctx) (keyHashOf p name (len name)) c ->
  exists c',
    getMapChildIndex p name (len name) (eltAt ctx p) ctx = Ret c'
    /\ keyAt ctx p c' name.
Proof.
  intros Htab Hwf Ha Hnn Hkey Hreach.
  destruct (reach_finds_one ctx p c name Hwf Ha Hkey Hreach) as (s & Hs & Hm).
  unfold getMapChildIndex. rewrite probe_search.
  fold (homePath (_maxEntryQty ctx) (keyHashOf p name (len name))).
  rewrite Hs. cbn [bind]. change (entryAt ctx s) with (cellAt (_entries ctx) s).
  eexists. split; [reflexivity|].
  destruct Htab as (_ & _ & Hun & _). pose proof Hkey as (Hp & Ht & _).
  apply (match_keyAt ctx p _ name _ Hp Ht Hnn (keyAt_short _ _ _ _ Ha Hkey) (proj2 (Hun s)) Hm).
Qed.

(** *** The children of one map are changed *)

Section ChildrenChanged.

Variables (ctx ctxB : Context) (p : Z) (newSubs : list Z).
Hypothesis wf : wfElements ctx.
Hypothesis p_unsigned : 0 <= p.
Hypothesis p_map : getType (eltAt ctx p) = MAP.
Hypothesis arenaB : arena ctxB = arena ctx.
Hypothesis lenB : len (elements ctxB) = len (elements ctx).
Hypothesis typeB : getType (eltAt ctxB p) = MAP.
Hypothesis subsB : subs (eltAt ctxB p) = newSubs.
Hypothesis othersB : forall j, 0 <= j -> j <> p -> eltAt ctxB j = eltAt ctx j.
Hypothesis rangeB : forall x, In x newSubs -> 0 <= x < len (elements ctx).

Lemma changed_isKeyNamed (x : Z) (name : list ascii) :
  0 <= x -> isKeyNamed ctxB x name = isKeyNamed ctx x name.
Proof.
  intros Hx. unfold isKeyNamed. destruct (Z.eq_dec x p) as [->|Hne].
  - rewrite typeB, p_map. reflexivity.
  - rewrite (othersB x Hx Hne). unfold nameOf. rewrite arenaB. reflexivity.
Qed.

Lemma changed_other (pi c : Z) (name : list ascii) :
  pi <> p -> keyAt ctxB pi c name <-> keyAt ctx pi c name.
Proof.
  intros Hne. destruct wf as (Hwf1 & _). unfold keyAt.
  split; intros (Hpi & Ht & Hc & Hk).
  - rewrite (othersB pi Hpi Hne) in *.
    assert (Hx : 0 <= getSub c (eltAt ctx pi)).
    { apply (Hwf1 pi); [exact Ht|]. apply getSub_In. rewrite <- (getSubQty_MAP _ Ht). exact Hc. }
    apply isKeyNamed_spec in Hk. rewrite changed_isKeyNamed in Hk by exact Hx.
    apply isKeyNamed_spec in Hk. auto.
  - rewrite (othersB pi Hpi Hne).
    assert (Hx : 0 <= getSub c (eltAt ctx pi)).
    { apply (Hwf1 pi); [exact Ht|]. apply getSub_In. rewrite <- (getSubQty_MAP _ Ht). exact Hc. }
    apply isKeyNamed_spec in Hk. rewrite <- changed_isKeyNamed in Hk by exact Hx.
    apply isKeyNamed_spec in Hk. auto.
Qed.

Lemma changed_map (c : Z) (name : list ascii) :
  keyAt ctxB p c name <->
  0 <= c < len newSubs /\ isKeyNamed ctx (nth (Z.to_nat c) newSubs 0) name = true.
Proof.
  unfold keyAt. rewrite (getSubQty_MAP _ typeB), subsB. unfold getSub. rewrite subsB.
  split.
  - intros (_ & _ & Hc & Hk). split; [exact Hc|].
    apply isKeyNamed_spec in Hk. rewrite changed_isKeyNamed in Hk; [exact Hk|].
    apply rangeB. apply nth_In. unfold len in Hc. lia.
  - intros (Hc & Hk). split; [exact p_unsigned|]. split; [exact typeB|]. split; [exact Hc|].
    apply isKeyNamed_spec. rewrite changed_isKeyNamed; [exact Hk|].
    apply rangeB. apply nth_In. unfold len in Hc. lia.
Qed.

Lemma changed_wf : wfElements ctxB.
Proof.
  destruct wf as (Hwf1 & Hwf2). split.
  - intros j x Ht Hx. rewrite lenB.
    destruct (Z.eq_dec (Z.of_nat (Z.to_nat j)) p) as [Hjp|Hne].
    + assert (He : eltAt ctxB j = eltAt ctxB p) by (unfold eltAt; f_equal; lia).
      rewrite He, subsB in Hx. apply rangeB. exact Hx.
    + assert (He : eltAt ctxB j = eltAt ctx j).
      { transitivity (eltAt ctxB (Z.of_nat (Z.to_nat j))); [unfold eltAt; f_equal; lia|].
        rewrite othersB by lia. unfold eltAt. f_equal. lia. }
      rewrite He in Ht, Hx. apply (Hwf1 j x); assumption.
  - intros j Ht.
    destruct (Z.eq_dec (Z.of_nat (Z.to_nat j)) p) as [Hjp|Hne].
    + assert (He : eltAt ctxB j = eltAt ctxB p) by (unfold eltAt; f_equal; lia).
      rewrite He, typeB in Ht. discriminate Ht.
    + assert (He : eltAt ctxB j = eltAt ctx j).
      { transitivity (eltAt ctxB (Z.of_nat (Z.to_nat j))); [unfold eltAt; f_equal; lia|].
        rewrite othersB by lia. unfold eltAt. f_equal. lia. }
      rewrite He in *. specialize (Hwf2 j Ht). unfold keyStringOk in *. rewrite arenaB.
      exact Hwf2.
Qed.

End ChildrenChanged.

(** *** The keys of a map of keys *)

Section PlainMap.

Variables (ctx : Context) (p : Z).
Hypothesis p_unsigned : 0 <= p.
Hypothesis p_map : getType (eltAt ctx p) = MAP.
Hypothesis plain : plainMap ctx (eltAt ctx p) = true.

Lemma plain_position (c : Z) :
  0 <= c < getSubQty (eltAt ctx p) ->
  keyAt ctx p c (nameOf ctx (eltAt ctx (getSub c (eltAt ctx p)))).
Proof.
  intros Hc. destruct (proj1 (plainMap_spec _ _) plain) as (Hk & _).
  unfold keyAt. split; [exact p_unsigned|]. split; [exact p_map|]. split; [exact Hc|].
  split; [|reflexivity]. apply Hk. apply getSub_In.
  rewrite <- (getSubQty_MAP _ p_map). exact Hc.
Qed.

Lemma plain_unique (c1 c2 : Z) (name : list ascii) :
  keyAt ctx p c1 name -> keyAt ctx p c2 name -> c1 = c2.
Proof.
  intros (_ & _ & H1 & _ & N1) (_ & _ & H2 & _ & N2).
  destruct (proj1 (plainMap_spec _ _) plain) as (_ & _ & Hd).
  rewrite (getSubQty_MAP _ p_map) in H1, H2. unfold len in H1, H2.
  assert (Heq : Z.to_nat c1 = Z.to_nat c2).
  { apply Hd; [lia|lia|]. unfold getSub in N1, N2. rewrite N1, N2. reflexivity. }
  lia.
Qed.

Lemma plain_no_NUL (c : Z) (name : list ascii) : keyAt ctx p c name -> ~ In NUL name.
Proof.
  intros (_ & _ & Hc & _ & <-).
  destruct (proj1 (plainMap_spec _ _) plain) as (_ & Hn & _).
  apply Hn. apply getSub_In. rewrite <- (getSubQty_MAP _ p_map). exact Hc.
Qed.

End PlainMap.

Lemma plainMap_same_store (ctx ctx' : Context) (elt : Element) :
  elements ctx' = elements ctx -> arena ctx' = arena ctx ->
  plainMap ctx' elt = plainMap ctx elt.
Proof.
  intros He Ha. unfold plainMap, childNames, nameOf, eltAt. rewrite He, Ha. reflexivity.
Qed.

Lemma keyAt_same_store_iff (ctx ctx' : Context) (pi c : Z) (name : list ascii) :
  elements ctx' = elements ctx -> arena ctx' = arena ctx ->
  keyAt ctx' pi c name <-> keyAt ctx pi c name.
Proof.
  intros He Ha. split; apply keyAt_same_store; congruence.
Qed.

(** *** One removal from the index *)

(** The entry of a key of a map of keys is removed: the removal finds
    the position of the key, and the entries of the other keys stay
    reachable. *)
Lemma remove_index_step (ctx : Context) (p c : Z) (key : list ascii) :
  tableShape ctx -> wfElements ctx -> 0 <= p -> getType (eltAt ctx p) = MAP ->
  plainMap ctx (eltAt ctx p) = true -> ownEntries ctx p ->
  len (arena ctx) <= 2 ^ 28 ->
  keyAt ctx p c key ->
  reachableIn (_entries ctx) (_maxEntryQty ctx) (keyHashOf p key (len key)) c ->
  exists ctx1,
    removeMapChildIndex p key (len key) (eltAt ctx p) ctx = Ret (c, ctx1)
    /\ elements ctx1 = elements ctx /\ arena ctx1 = arena ctx
    /\ _entryQty ctx1 = _entryQty ctx
    /\ tableShape ctx1
    /\ (forall pi c' name',
          keyAt ctx pi c' name' -> pi <> p \/ c' <> c ->
          reachableIn (_entries ctx) (_maxEntryQty ctx) (keyHashOf pi name' (len name')) c' ->
          reachableIn (_entries ctx1) (_maxEntryQty ctx1) (keyHashOf pi name' (len name')) c').
Proof.
  intros Htab Hwf Hp Hmap Hplain Hown Ha Hkey Hreach.
  pose proof (plain_no_NUL ctx p Hmap Hplain c key Hkey) as Hnn.
  pose proof (keyAt_short _ _ _ _ Ha Hkey) as Hlen.
  destruct (reach_finds_one ctx p c key Hwf Ha Hkey Hreach) as (s & Hs & Hm).
  destruct (removeMapChildIndex_reach ctx p (len key) key (eltAt ctx p) s Htab Hs)
    as (ctx1 & Hrun & He1 & Ha1 & Hq1 & _ & Htab1 & Hkeep).
  pose proof Htab as (_ & _ & Hun & _).
  assert (Hmatch : forall e, 0 <= childIndex e ->
            cellMatches ctx (eltAt ctx p) key (len key) (keyHashOf p key (len key)) e = true ->
            hash e = keyHashOf p key (len key) /\ childIndex e = c).
  { intros e He Hme.
    destruct (match_keyAt ctx p _ key e Hp Hmap Hnn Hlen He Hme) as (Hh & Hk).
    split; [exact Hh|]. apply (plain_unique ctx p Hmap Hplain _ _ key); assumption. }
  destruct (Hmatch _ (proj2 (Hun s)) Hm) as (_ & Hc).
  exists ctx1. rewrite Hrun, Hc. split; [reflexivity|].
  split; [exact He1|]. split; [exact Ha1|]. split; [exact Hq1|]. split; [exact Htab1|].
  intros pi c' name' Hk' Hdiff Hr'. apply Hkeep; [exact Hr'|].
  destruct (cellMatches ctx (eltAt ctx p) key (len key) (keyHashOf p key (len key))
              (mkEntry (keyHashOf pi name' (len name')) c')) eqn:Hme; [exfalso|reflexivity].
  pose proof Hk' as (_ & _ & Hc' & _).
  destruct (Hmatch (mkEntry (keyHashOf pi name' (len name')) c') ltac:(cbn; lia) Hme) as (Hh & Hcc). cbn [hash childIndex] in Hh, Hcc.
  subst c'. pose proof (Hown c key pi c name' Hkey Hk' Hh) as Hpi.
  destruct Hdiff as [H|H]; [exact (H Hpi)|exact (H eq_refl)].
Qed.

(** *** [remove(key)] on a map of keys *)

Lemma setNth_same {A : Type} (n : nat) (d : A) (l : list A) :
  setNth n (nth n l d) l = l.
Proof.
  revert n. induction l as [|x r IH]; intros n; [destruct n; reflexivity|].
  destruct n as [|n]; cbn [setNth nth]; [reflexivity|]. rewrite IH. reflexivity.
Qed.

Lemma length_removelast_pred {A : Type} (l : list A) :
  List.length (removelast l) = pred (List.length l).
Proof.
  rewrite removelast_firstn_len, length_firstn. lia.
Qed.

Lemma nth_removelast {A : Type} (i : nat) (d : A) (l : list A) :
  (i < pred (List.length l))%nat -> nth i (removelast l) d = nth i l d.
Proof.
  intros Hi. rewrite removelast_firstn_len, nth_firstn.
  destruct (Nat.ltb_spec i (pred (List.length l))); [reflexivity|lia].
Qed.

Lemma In_removelast {A : Type} (x : A) (l : list A) : In x (removelast l) -> In x l.
Proof.
  rewrite removelast_firstn_len. intros H.
  rewrite <- (firstn_skipn (pred (List.length l)) l). apply in_or_app. left. exact H.
Qed.

Lemma In_setNth {A : Type} (n : nat) (x y : A) (l : list A) :
  In y (setNth n x l) -> y = x \/ In y l.
Proof.
  revert n. induction l as [|a r IH]; intros n; [destruct n; intros []|].
  destruct n as [|n]; cbn [setNth].
  - intros [<-|H]; [left; reflexivity|right; right; exact H].
  - intros [<-|H]; [right; left; reflexivity|].
    destruct (IH n H) as [->|H']; [left; reflexivity|right; right; exact H'].
Qed.

Lemma updElt_facts (ctx : Context) (p : Z) (f : Element -> Element) :
  0 <= p < len (elements ctx) ->
  eltAt (updElt p f ctx) p = f (eltAt ctx p)
  /\ (forall j, 0 <= j -> j <> p -> eltAt (updElt p f ctx) j = eltAt ctx j)
  /\ arena (updElt p f ctx) = arena ctx
  /\ len (elements (updElt p f ctx)) = len (elements ctx)
  /\ _entries (updElt p f ctx) = _entries ctx
  /\ _entryQty (updElt p f ctx) = _entryQty ctx
  /\ _maxEntryQty (updElt p f ctx) = _maxEntryQty ctx.
Proof.
  intros Hp.
  assert (Hin : (Z.to_nat p <? List.length (elements ctx))%nat = true)
    by (apply Nat.ltb_lt; unfold len in Hp; lia).
  split; [|split; [|split; [reflexivity|split; [apply len_elements_updElt|repeat split]]]].
  - rewrite eltAt_updElt, Nat.eqb_refl, Hin. reflexivity.
  - intros j Hj Hne. rewrite eltAt_updElt.
    destruct (Nat.eqb_spec (Z.to_nat p) (Z.to_nat j)); [lia|reflexivity].
Qed.

Lemma wfElements_same_store (ctx ctx' : Context) :
  elements ctx' = elements ctx -> arena ctx' = arena ctx -> wfElements ctx -> wfElements ctx'.
Proof.
  intros He Ha. unfold wfElements, keyStringOk, eltAt. rewrite He, Ha. auto.
Qed.

Lemma ownEntries_same_store (ctx ctx' : Context) (p : Z) :
  elements ctx' = elements ctx -> arena ctx' = arena ctx -> ownEntries ctx p -> ownEntries ctx' p.
Proof.
  intros He Ha Hown c name pi c' name' H1 H2.
  apply (Hown c name pi c' name'); apply (keyAt_same_store_iff ctx ctx'); assumption.
Qed.

Section RemoveKey.

Variables (ctx : Context) (p c : Z) (key : list ascii).
Hypothesis inv : indexInv ctx.
Hypothesis p_unsigned : 0 <= p.
Hypothesis p_map : getType (eltAt ctx p) = MAP.
Hypothesis plain : plainMap ctx (eltAt ctx p) = true.
Hypothesis own : ownEntries ctx p.
Hypothesis key_at : keyAt ctx p c key.
Hypothesis arena_small : len (arena ctx) <= 2 ^ 28.
Hypothesis qty_small : getSubQty (eltAt ctx p) <= 2 ^ 28.
Hypothesis entries_small : _entryQty ctx + 1 <= 2 ^ 28.

Let elt : Element := eltAt ctx p.
Let qty : Z := getSubQty elt.
Let lastIdx : Z := getSub (qty - 1) elt.
Let lastName : list ascii := nameOf ctx (eltAt ctx lastIdx).
Let subs3 : list Z := setNth (Z.to_nat c) lastIdx (subs elt).
Let newSubs : list Z := removelast subs3.

Lemma removeKey_positions :
  qty = len (subs elt) /\ 0 <= c < qty /\ p < len (elements ctx)
  /\ len subs3 = qty /\ len newSubs = qty - 1
  /\ keyAt ctx p (qty - 1) lastName.
Proof.
  assert (Hq : qty = len (subs elt)) by apply (getSubQty_MAP _ p_map).
  pose proof key_at as (_ & _ & Hc & _). change (0 <= c < qty) in Hc.
  assert (Hl3 : len subs3 = qty).
  { unfold subs3, len. rewrite length_setNth. exact (eq_sym Hq). }
  split; [exact Hq|]. split; [exact Hc|].
  split; [apply getType_in_range; [exact p_unsigned|rewrite p_map; discriminate]|].
  split; [exact Hl3|].
  split; [unfold newSubs, len in *; rewrite length_removelast_pred; lia|].
  apply (plain_position ctx p p_unsigned p_map plain). change (0 <= qty - 1 < qty). lia.
Qed.

Lemma removeKey_nth (i : Z) :
  0 <= i < qty - 1 ->
  nth (Z.to_nat i) newSubs 0 = if i =? c then lastIdx else getSub i elt.
Proof.
  intros Hi. destruct removeKey_positions as (Hq & Hc & _ & Hl3 & _).
  unfold newSubs. rewrite nth_removelast by (unfold len in Hl3; lia).
  unfold subs3. destruct (Z.eqb_spec i c) as [->|Hne].
  - apply nth_setNth_eq. unfold len in Hq. lia.
  - apply nth_setNth_ne. lia.
Qed.

Lemma removeKey_nth3 (i : Z) :
  0 <= i < qty ->
  nth (Z.to_nat i) subs3 0 = if i =? c then lastIdx else getSub i elt.
Proof.
  intros Hi. destruct removeKey_positions as (Hq & Hc & _ & Hl3 & _).
  unfold subs3. destruct (Z.eqb_spec i c) as [->|Hne].
  - apply nth_setNth_eq. unfold len in Hq. lia.
  - apply nth_setNth_ne. lia.
Qed.

Lemma removeKey_range (x : Z) : In x subs3 -> 0 <= x < len (elements ctx).
Proof.
  destruct inv as (_ & _ & Hwf1 & _).
  destruct removeKey_positions as (Hq & Hc & _).
  intros H. apply In_setNth in H. destruct H as [->|H].
  - apply (Hwf1 p); [exact p_map|]. apply getSub_In. fold elt. lia.
  - apply (Hwf1 p); [exact p_map|exact H].
Qed.

(** The keys of the map once the child at [c] has been replaced by the
    last one. *)
Lemma removeKey_keys3 (ctxB : Context) (c' : Z) (name : list ascii) :
  arena ctxB = arena ctx -> len (elements ctxB) = len (elements ctx) ->
  getType (eltAt ctxB p) = MAP -> subs (eltAt ctxB p) = subs3 ->
  (forall j, 0 <= j -> j <> p -> eltAt ctxB j = eltAt ctx j) ->
  keyAt ctxB p c' name ->
  0 <= c' < qty /\ ((c' = c /\ name = lastName) \/ (c' <> c /\ keyAt ctx p c' name)).
Proof.
  intros Ha Hl Ht Hs Ho Hk.
  destruct inv as (_ & _ & Hwf).
  destruct removeKey_positions as (Hq & Hc & _ & Hl3 & _).
  apply (changed_map ctx ctxB p subs3 p_unsigned p_map Ha Ht Hs Ho removeKey_range) in Hk.
  destruct Hk as (Hc' & Hnamed). rewrite Hl3 in Hc'. split; [exact Hc'|].
  rewrite removeKey_nth3 in Hnamed by exact Hc'.
  destruct (Z.eqb_spec c' c) as [->|Hne].
  - left. split; [reflexivity|]. apply isKeyNamed_spec in Hnamed. symmetry. apply Hnamed.
  - right. split; [exact Hne|]. apply childNamed_keyAt; try assumption.
Qed.

(** An entry that matches the name of the last key, once that key is
    also at the position [c]. *)
Lemma removeKey_match3 (ctxB : Context) (h' c' : Z) :
  arena ctxB = arena ctx -> len (elements ctxB) = len (elements ctx) ->
  getType (eltAt ctxB p) = MAP -> subs (eltAt ctxB p) = subs3 ->
  (forall j, 0 <= j -> j <> p -> eltAt ctxB j = eltAt ctx j) ->
  0 <= c' ->
  cellMatches ctxB (eltAt ctxB p) lastName (len lastName)
    (keyHashOf p lastName (len lastName)) (mkEntry h' c') = true ->
  h' = keyHashOf p lastName (len lastName) /\ (c' = c \/ c' = qty - 1).
Proof.
  intros Ha Hl Ht Hs Ho Hc' Hm.
  destruct removeKey_positions as (Hq & Hc & Hp & Hl3 & Hl5 & Hlast).
  pose proof (plain_no_NUL ctx p p_map plain _ _ Hlast) as Hnn.
  pose proof (keyAt_short _ _ _ _ arena_small Hlast) as Hshort.
  destruct (match_keyAt ctxB p _ lastName (mkEntry h' c') p_unsigned Ht Hnn Hshort Hc' Hm)
    as (Hh & Hk).
  cbn [hash childIndex] in Hh, Hk. split; [exact Hh|].
  destruct (removeKey_keys3 ctxB c' lastName Ha Hl Ht Hs Ho Hk) as (_ & [(-> & _)|(_ & Hk0)]).
  - left. reflexivity.
  - right. apply (plain_unique ctx p p_map plain _ _ lastName); assumption.
Qed.

Variable n : Node.
Hypothesis n_p : _eltIdx n = p.

Lemma removeKey_run :
  exists ctx5,
    remove ctx n key = Ret (true, ctx5)
    /\ arena ctx5 = arena ctx /\ len (elements ctx5) = len (elements ctx)
    /\ getType (eltAt ctx5 p) = MAP /\ subs (eltAt ctx5 p) = newSubs
    /\ (forall j, 0 <= j -> j <> p -> eltAt ctx5 j = eltAt ctx j)
    /\ tableShape ctx5 /\ _entryQty ctx5 <= _entryQty ctx + 1
    /\ (forall pi c' name',
          keyAt ctx pi c' name' -> pi <> p \/ (c' <> c /\ c' <> qty - 1) ->
          reachableIn (_entries ctx5) (_maxEntryQty ctx5) (keyHashOf pi name' (len name')) c')
    /\ (c < qty - 1 ->
        reachableIn (_entries ctx5) (_maxEntryQty ctx5) (keyHashOf p lastName (len lastName)) c).
Proof.
  pose proof inv as (Htab & Hidx & Hwf).
  destruct removeKey_positions as (Hq & Hc & Hp & Hl3 & Hl5 & Hlast).
  destruct (remove_index_step ctx p c key Htab Hwf p_unsigned p_map plain own arena_small
              key_at (Hidx _ _ _ key_at))
    as (ctx1 & Hrun1 & He1 & Ha1 & Hq1 & Htab1 & Hkeep1).
  assert (Hmax : (c =? UINT_MAX) = false).
  { apply Z.eqb_neq. unfold UINT_MAX. change (2 ^ 28) with 268435456 in qty_small.
    fold elt qty in qty_small. lia. }
  assert (Hmap : getType elt = MAP) by exact p_map.
  change (eltAt ctx p) with elt in Hrun1.
  unfold remove. rewrite n_p. change (eltAt ctx p) with elt. rewrite Hmap.
  cbn [NodeType_eqb negb].
  rewrite Hrun1. cbn [bind]. rewrite Hmax.
  change (getSubQty elt) with qty. rewrite (u32_small (qty - 1)) by (fold elt qty in qty_small; lia).
  destruct (Z.ltb_spec c (qty - 1)) as [Hswap|Hlastc].
  - (* the last child takes the place of the removed one *)
    change (getSub (qty - 1) elt) with lastIdx.
    assert (Hlast1 : eltAt ctx1 lastIdx = eltAt ctx lastIdx)
      by (apply eltAt_same_elements; exact He1).
    assert (Hname1 : nameOf ctx1 (eltAt ctx1 lastIdx) = lastName).
    { rewrite Hlast1. unfold lastName, nameOf. rewrite Ha1. reflexivity. }
    rewrite Hname1.
    assert (Hp1 : eltAt ctx1 p = elt) by (apply eltAt_same_elements; exact He1).
    assert (Hlastk1 : keyAt ctx1 p (qty - 1) lastName)
      by (apply (keyAt_same_store_iff ctx ctx1); assumption).
    destruct (remove_index_step ctx1 p (qty - 1) lastName Htab1
                (wfElements_same_store ctx ctx1 He1 Ha1 Hwf) p_unsigned
                ltac:(rewrite Hp1; exact p_map)
                ltac:(rewrite Hp1, (plainMap_same_store ctx ctx1) by assumption; exact plain)
                (ownEntries_same_store ctx ctx1 p He1 Ha1 own)
                ltac:(rewrite Ha1; exact arena_small) Hlastk1)
      as (ctx2 & Hrun2 & He2 & Ha2 & Hq2 & Htab2 & Hkeep2).
    { apply Hkeep1; [exact Hlast|right; lia|apply Hidx; exact Hlast]. }
    rewrite Hp1 in Hrun2. rewrite Hrun2. cbn [bind].
    assert (Hp2 : 0 <= p < len (elements ctx2)).
    { unfold len. rewrite He2, He1. exact (conj p_unsigned Hp). }
    destruct (updElt_facts ctx2 p (replace c lastIdx) Hp2)
      as (Hp3 & Ho3 & Ha3 & Hl3' & Hes3 & Hq3 & Hm3).
    set (ctx3 := updElt p (replace c lastIdx) ctx2) in *.
    assert (Hp2e : eltAt ctx2 p = elt).
    { rewrite (eltAt_same_elements ctx1 ctx2 p He2). exact Hp1. }
    rewrite Hp2e in Hp3.
    assert (Ht3 : getType (eltAt ctx3 p) = MAP) by (rewrite Hp3; exact Hmap).
    assert (Hs3 : subs (eltAt ctx3 p) = subs3) by (rewrite Hp3; reflexivity).
    assert (Ha3' : arena ctx3 = arena ctx) by congruence.
    assert (Hl3'' : len (elements ctx3) = len (elements ctx)).
    { rewrite Hl3'. unfold len. rewrite He2, He1. reflexivity. }
    assert (Ho3' : forall j, 0 <= j -> j <> p -> eltAt ctx3 j = eltAt ctx j).
    { intros j Hj Hne. rewrite (Ho3 j Hj Hne), (eltAt_same_elements ctx1 ctx2 j He2).
      apply eltAt_same_elements. exact He1. }
    assert (Htab3 : tableShape ctx3) by (apply (tableShape_same_table ctx2); assumption).
    destruct (addMapChildIndex_reach ctx3 p (len lastName) c lastName (eltAt ctx3 p) Htab3
                ltac:(lia) p_unsigned ltac:(lia))
      as (b & ctx4 & Hrun4 & Htab4 & Hq4 & Hnew4 & Hkeep4).
    destruct (addMapChildIndex_frame _ _ _ _ _ _ _ _ Hrun4) as (He4 & Ha4).
    rewrite Hrun4. cbn [bind].
    assert (Hp4 : 0 <= p < len (elements ctx4)).
    { unfold len. rewrite He4. fold (len (elements ctx3)). rewrite Hl3''. exact (conj p_unsigned Hp). }
    destruct (updElt_facts ctx4 p (erase (getSubQty (eltAt ctx4 p) - 1)) Hp4)
      as (Hp5 & Ho5 & Ha5 & Hl5' & Hes5 & Hq5 & Hm5).
    set (ctx5 := updElt p (erase (getSubQty (eltAt ctx4 p) - 1)) ctx4) in *.
    assert (Hp4e : eltAt ctx4 p = eltAt ctx3 p) by (apply eltAt_same_elements; exact He4).
    assert (Hqty4 : getSubQty (eltAt ctx4 p) = qty).
    { rewrite Hp4e, (getSubQty_MAP _ Ht3), Hs3. exact Hl3. }
    exists ctx5. split; [reflexivity|].
    split; [congruence|].
    split; [rewrite Hl5'; unfold len; rewrite He4; exact Hl3''|].
    split; [rewrite Hp5, Hp4e; unfold erase, getType; cbn [etype]; exact Ht3|].
    split.
    { rewrite Hp5, Hqty4, Hp4e. unfold erase. cbn [subs]. rewrite Hs3.
      destruct (Z.ltb_spec (qty - 1) (len subs3 - 1)); [lia|reflexivity]. }
    split.
    { intros j Hj Hne. rewrite (Ho5 j Hj Hne), (eltAt_same_elements ctx3 ctx4 j He4).
      apply Ho3'; assumption. }
    split; [apply (tableShape_same_table ctx4); assumption|].
    split; [rewrite Hq5; lia|].
    rewrite Hes5, Hm5.
    split.
    + intros pi c' name' Hk' Hdiff.
      pose proof Hk' as (Hpi & _ & Hc'r & _).
      apply Hkeep4.
      * apply keyHashOf_valid. exact Hpi.
      * rewrite Hes3, Hm3. apply Hkeep2.
        -- apply (keyAt_same_store_iff ctx ctx1); assumption.
        -- destruct Hdiff as [H|[_ H]]; [left; exact H|right; exact H].
        -- apply Hkeep1; [exact Hk'| |apply Hidx; exact Hk'].
           destruct Hdiff as [H|[H _]]; [left; exact H|right; exact H].
      * destruct (cellMatches ctx3 (eltAt ctx3 p) lastName (len lastName)
                    (keyHashOf p lastName (len lastName))
                    (mkEntry (keyHashOf pi name' (len name')) c')) eqn:Hme;
          [|left; reflexivity].
        right.
        destruct (removeKey_match3 ctx3 _ c' Ha3' Hl3'' Ht3 Hs3 Ho3' ltac:(lia) Hme)
          as (Hh & [Hcc|Hcl]); [exact Hcc|exfalso].
        subst c'. pose proof (own _ _ _ _ _ Hlast Hk' Hh) as Hpp.
        destruct Hdiff as [H|[_ H]]; [exact (H Hpp)|exact (H eq_refl)].
    + intros _. exact Hnew4.
  - (* the removed child is the last one *)
    cbn [bind].
    assert (Hp1 : eltAt ctx1 p = elt) by (apply eltAt_same_elements; exact He1).
    assert (Hp1r : 0 <= p < len (elements ctx1)).
    { unfold len. rewrite He1. exact (conj p_unsigned Hp). }
    destruct (updElt_facts ctx1 p (erase (getSubQty (eltAt ctx1 p) - 1)) Hp1r)
      as (Hp5 & Ho5 & Ha5 & Hl5' & Hes5 & Hq5 & Hm5).
    set (ctx5 := updElt p (erase (getSubQty (eltAt ctx1 p) - 1)) ctx1) in *.
    assert (Hce : c = qty - 1) by lia.
    assert (Hsame : subs3 = subs elt).
    { unfold subs3. rewrite Hce. unfold lastIdx, getSub. apply setNth_same. }
    exists ctx5. split; [reflexivity|].
    split; [congruence|].
    split; [rewrite Hl5'; unfold len; rewrite He1; reflexivity|].
    split; [rewrite Hp5, Hp1; unfold erase, getType; cbn [etype]; exact Hmap|].
    split.
    { rewrite Hp5, Hp1. change (getSubQty elt) with qty. unfold erase. cbn [subs].
      unfold newSubs. rewrite Hsame.
      destruct (Z.ltb_spec (qty - 1) (len (subs elt) - 1)); [lia|reflexivity]. }
    split.
    { intros j Hj Hne. rewrite (Ho5 j Hj Hne). apply eltAt_same_elements. exact He1. }
    split; [apply (tableShape_same_table ctx1); assumption|].
    split; [rewrite Hq5; lia|].
    rewrite Hes5, Hm5.
    split; [|intros H; lia].
    intros pi c' name' Hk' Hdiff.
    apply Hkeep1; [exact Hk'| |apply Hidx; exact Hk'].
    destruct Hdiff as [H|[H _]]; [left; exact H|right; exact H].
Qed.

(** The position in the map of before of the child at a position of the
    map of after. *)
Let from (c' : Z) : Z := if c' =? c then qty - 1 else c'.

Lemma removeKey_newSubs_range (x : Z) : In x newSubs -> 0 <= x < len (elements ctx).
Proof. intros H. apply removeKey_range. apply In_removelast. exact H. Qed.

Section After.

Variable ctxB : Context.
Hypothesis arenaB : arena ctxB = arena ctx.
Hypothesis lenB : len (elements ctxB) = len (elements ctx).
Hypothesis typeB : getType (eltAt ctxB p) = MAP.
Hypothesis subsB : subs (eltAt ctxB p) = newSubs.
Hypothesis othersB : forall j, 0 <= j -> j <> p -> eltAt ctxB j = eltAt ctx j.

Lemma removeKey_keys5 (c' : Z) (name : list ascii) :
  keyAt ctxB p c' name <-> 0 <= c' < qty - 1 /\ keyAt ctx p (from c') name.
Proof.
  destruct removeKey_positions as (Hq & Hc & Hp & Hl3 & Hl5 & Hlast).
  pose proof inv as (_ & _ & Hwf).
  rewrite (changed_map ctx ctxB p newSubs p_unsigned p_map arenaB typeB subsB othersB
             removeKey_newSubs_range).
  rewrite Hl5.
  split; intros (Hc' & H); (split; [exact Hc'|]).
  - rewrite removeKey_nth in H by exact Hc'. unfold from.
    apply childNamed_keyAt; [exact p_unsigned|exact p_map| |].
    + change (getSubQty (eltAt ctx p)) with qty. destruct (c' =? c); lia.
    + rewrite childNamed_isKeyNamed. destruct (c' =? c); exact H.
  - rewrite removeKey_nth by exact Hc'. unfold from in H.
    apply childNamed_keyAt in H; [|exact p_unsigned|exact p_map|].
    + rewrite childNamed_isKeyNamed in H. destruct (c' =? c); exact H.
    + change (getSubQty (eltAt ctx p)) with qty. destruct (c' =? c); lia.
Qed.

Lemma removeKey_from_inj (a b : Z) :
  0 <= a < qty - 1 -> 0 <= b < qty - 1 -> from a = from b -> a = b.
Proof. unfold from. intros Ha Hb. destruct (Z.eqb_spec a c), (Z.eqb_spec b c); lia. Qed.

Lemma removeKey_child5 (c' : Z) :
  0 <= c' < qty - 1 -> getSub c' (eltAt ctxB p) = getSub (from c') elt.
Proof.
  intros Hc'. unfold getSub at 1. rewrite subsB, removeKey_nth by exact Hc'.
  unfold from. destruct (c' =? c); reflexivity.
Qed.

Lemma removeKey_wf5 : wfElements ctxB.
Proof.
  pose proof inv as (_ & _ & Hwf).
  apply (changed_wf ctx ctxB p newSubs Hwf arenaB lenB typeB subsB othersB
           removeKey_newSubs_range).
Qed.

Lemma removeKey_plain5 : plainMap ctxB (eltAt ctxB p) = true.
Proof.
  destruct removeKey_positions as (Hq & Hc & Hp & Hl3 & Hl5 & Hlast).
  destruct (proj1 (plainMap_spec _ _) plain) as (Hk & Hn & Hd).
  assert (Hold : forall x, In x newSubs -> In x (subs elt) /\ eltAt ctxB x = eltAt ctx x).
  { intros x Hx.
    assert (Hin : In x (subs elt)).
    { apply In_removelast in Hx. apply In_setNth in Hx. destruct Hx as [->|H]; [|exact H].
      apply getSub_In. lia. }
    split; [exact Hin|]. apply othersB; [apply (removeKey_newSubs_range x Hx)|].
    intros ->. specialize (Hk p Hin). rewrite p_map in Hk. discriminate Hk. }
  assert (Hname : forall x, In x newSubs ->
            nameOf ctxB (eltAt ctxB x) = nameOf ctx (eltAt ctx x)).
  { intros x Hx. rewrite (proj2 (Hold x Hx)). unfold nameOf. rewrite arenaB. reflexivity. }
  apply plainMap_spec. rewrite subsB. split; [|split].
  - intros x Hx. destruct (Hold x Hx) as (Hin & ->). apply Hk. exact Hin.
  - intros x Hx. rewrite (Hname x Hx). apply Hn. apply (Hold x Hx).
  - intros i j Hi Hj Heq.
    assert (Hli : List.length newSubs = Z.to_nat (qty - 1)) by (unfold len in Hl5; lia).
    rewrite !Hname in Heq by (apply nth_In; assumption).
    assert (Hii : 0 <= Z.of_nat i < qty - 1) by lia.
    assert (Hjj : 0 <= Z.of_nat j < qty - 1) by lia.
    pose proof (removeKey_nth (Z.of_nat i) Hii) as Hni.
    pose proof (removeKey_nth (Z.of_nat j) Hjj) as Hnj.
    rewrite Nat2Z.id in Hni, Hnj.
    assert (Hfi : nth i newSubs 0 = getSub (from (Z.of_nat i)) elt).
    { rewrite Hni. unfold from. destruct (Z.of_nat i =? c); reflexivity. }
    assert (Hfj : nth j newSubs 0 = getSub (from (Z.of_nat j)) elt).
    { rewrite Hnj. unfold from. destruct (Z.of_nat j =? c); reflexivity. }
    rewrite Hfi, Hfj in Heq.
    assert (Hfr : forall a, 0 <= a < qty - 1 -> 0 <= from a < qty).
    { intros a Ha. unfold from. destruct (a =? c); lia. }
    assert (Hff : from (Z.of_nat i) = from (Z.of_nat j)).
    { apply (plain_unique ctx p p_map plain _ _
               (nameOf ctx (eltAt ctx (getSub (from (Z.of_nat i)) elt)))).
      - apply (plain_position ctx p p_unsigned p_map plain). apply Hfr. exact Hii.
      - rewrite Heq. apply (plain_position ctx p p_unsigned p_map plain). apply Hfr. exact Hjj. }
    apply removeKey_from_inj in Hff; [lia|exact Hii|exact Hjj].
Qed.

Lemma removeKey_own5 : ownEntries ctxB p.
Proof.
  pose proof inv as (_ & _ & Hwf).
  intros c1 name pi c' name' H1 H2 Hh.
  destruct (Z.eq_dec pi p) as [Hpp|Hne]; [exact Hpp|].
  apply removeKey_keys5 in H1. destruct H1 as (_ & H1).
  apply (changed_other ctx ctxB p Hwf p_map arenaB typeB othersB pi c' name' Hne) in H2.
  exact (own _ _ _ _ _ H1 H2 Hh).
Qed.

Lemma removeKey_absent5 (c' : Z) : ~ keyAt ctxB p c' key.
Proof.
  intros H. apply removeKey_keys5 in H. destruct H as (Hc' & H).
  pose proof (plain_unique ctx p p_map plain _ _ key H key_at) as Heq.
  unfold from in Heq. destruct (Z.eqb_spec c' c); lia.
Qed.

End After.

(** The document after the removal. *)
Lemma removeKey_spec :
  exists ctx5,
    remove ctx n key = Ret (true, ctx5)
    /\ arena ctx5 = arena ctx
    /\ (forall j, 0 <= j -> j <> p -> eltAt ctx5 j = eltAt ctx j)
    /\ indexInv ctx5
    /\ plainMap ctx5 (eltAt ctx5 p) = true
    /\ ownEntries ctx5 p
    /\ _entryQty ctx5 <= _entryQty ctx + 1
    /\ getType (eltAt ctx5 p) = MAP
    /\ getSubQty (eltAt ctx5 p) = qty - 1
    /\ (forall c', ~ keyAt ctx5 p c' key)
    /\ (forall c2 key2,
          keyAt ctx p c2 key2 -> key2 <> key ->
          exists c2', keyAt ctx5 p c2' key2
                      /\ getSub c2' (eltAt ctx5 p) = getSub c2 (eltAt ctx p)).
Proof.
  destruct removeKey_run
    as (ctx5 & Hrun & Ha5 & Hl5 & Ht5 & Hs5 & Ho5 & Htab5 & Hq5 & Hkeep & Hnew).
  destruct removeKey_positions as (Hq & Hc & Hp & Hl3 & Hlen5 & Hlast).
  pose proof inv as (_ & _ & Hwf).
  assert (K5 : forall c' name,
            keyAt ctx5 p c' name <-> 0 <= c' < qty - 1 /\ keyAt ctx p (from c') name)
    by (intros; apply removeKey_keys5; assumption).
  assert (C5 : forall c', 0 <= c' < qty - 1 -> getSub c' (eltAt ctx5 p) = getSub (from c') elt)
    by (intros; apply removeKey_child5; assumption).
  exists ctx5. split; [exact Hrun|]. split; [exact Ha5|]. split; [exact Ho5|].
  split.
  { split; [exact Htab5|]. split; [|apply removeKey_wf5; assumption].
    intros pi c' name' Hk.
    destruct (Z.eq_dec pi p) as [->|Hne].
    - apply K5 in Hk. destruct Hk as (Hc' & Hk).
      unfold from in Hk. destruct (Z.eqb_spec c' c) as [->|Hnc].
      + assert (Hn : name' = lastName).
        { destruct Hk as (_ & _ & _ & _ & <-). reflexivity. }
        rewrite Hn. apply Hnew. lia.
      + apply Hkeep; [exact Hk|right; lia].
    - apply (changed_other ctx ctx5 p Hwf p_map Ha5 Ht5 Ho5 pi c' name' Hne) in Hk.
      apply Hkeep; [exact Hk|left; exact Hne]. }
  split; [apply removeKey_plain5; assumption|].
  split; [apply removeKey_own5; assumption|].
  split; [exact Hq5|]. split; [exact Ht5|].
  split; [rewrite (getSubQty_MAP _ Ht5), Hs5; exact Hlen5|].
  split; [apply removeKey_absent5; assumption|].
  intros c2 key2 Hk2 Hne.
  pose proof Hk2 as (_ & _ & Hc2 & _). change (0 <= c2 < qty) in Hc2.
  assert (Hc2c : c2 <> c).
  { intros ->. apply Hne. destruct Hk2 as (_ & _ & _ & _ & <-).
    destruct key_at as (_ & _ & _ & _ & <-). reflexivity. }
  set (c2' := if c2 =? qty - 1 then c else c2).
  assert (Hr : 0 <= c2' < qty - 1) by (unfold c2'; destruct (Z.eqb_spec c2 (qty - 1)); lia).
  assert (Hf : from c2' = c2).
  { unfold from, c2'. destruct (Z.eqb_spec c2 (qty - 1)) as [->|H1].
    - rewrite Z.eqb_refl. reflexivity.
    - destruct (Z.eqb_spec c2 c); [contradiction|reflexivity]. }
  exists c2'. split.
  - apply K5. split; [exact Hr|]. rewrite Hf. exact Hk2.
  - rewrite (C5 c2' Hr), Hf. reflexivity.
Qed.

End RemoveKey.

Lemma ownEntries_onlyMap (ctx : Context) (p : Z) : onlyMap ctx p = true -> ownEntries ctx p.
Proof.
  unfold onlyMap. rewrite forallb_forall.
  intros H c name pi c' name' _ (Hpi & Ht & _) _.
  assert (Hin : pi < len (elements ctx)).
  { apply getType_in_range; [exact Hpi|]. rewrite Ht. discriminate. }
  specialize (H pi ltac:(apply in_zseq; unfold len in Hin; lia)).
  rewrite Ht in H. cbn [NodeType_eqb negb orb] in H. apply Z.eqb_eq. exact H.
Qed.

(** X17: removing a key from a map whose children are keys with
    distinct names (no comment among them) removes it and nothing else:
    [remove(key)] returns true, the map has one child less, [hasKey(key)] is
    false afterwards, and every other key of the map is still found, with
    [map[key2]] the same node as before; no other element and no string of
    the document changes. The document, the map and the index are afterwards
    as the theorem requires them, so that the removals can go on. *)
Theorem remove_key_removes (ctx : Context) (n : Node) (key : list ascii) :
  indexInv ctx ->
  0 <= _eltIdx n -> getType (eltAt ctx (_eltIdx n)) = MAP ->
  plainMap ctx (eltAt ctx (_eltIdx n)) = true ->
  ownEntries ctx (_eltIdx n) ->
  len (arena ctx) <= 2 ^ 28 ->
  getSubQty (eltAt ctx (_eltIdx n)) <= 2 ^ 28 ->
  _entryQty ctx + 1 <= 2 ^ 28 ->
  key <> [] ->
  hasKeyChild ctx (eltAt ctx (_eltIdx n)) key = true ->
  exists ctx',
    remove ctx n key = Ret (true, ctx')
    /\ Node_size ctx' n = Ret (getSubQty (eltAt ctx (_eltIdx n)) - 1)
    /\ hasKey ctx' n key = Ret false
    /\ (forall key2,
          key2 <> [] -> key2 <> key -> _nonExistingKey n = [] ->
          hasKeyChild ctx (eltAt ctx (_eltIdx n)) key2 = true ->
          exists h,
            at_key ctx n key2 = Ret h /\ at_key ctx' n key2 = Ret h
            /\ _nonExistingKey h = [] /\ hasKey ctx' n key2 = Ret true)
    /\ arena ctx' = arena ctx
    /\ (forall j, 0 <= j -> j <> _eltIdx n -> eltAt ctx' j = eltAt ctx j)
    /\ indexInv ctx'
    /\ plainMap ctx' (eltAt ctx' (_eltIdx n)) = true
    /\ ownEntries ctx' (_eltIdx n)
    /\ _entryQty ctx' <= _entryQty ctx + 1.
Proof.
  intros Hinv Hp Hmap Hplain Hown Ha Hq He Hne Hhas.
  destruct (hasKeyChild_keyAt ctx (_eltIdx n) key Hp Hmap Hhas) as (c & Hkey).
  destruct (removeKey_spec ctx (_eltIdx n) c key Hinv Hp Hmap Hplain Hown Hkey Ha Hq He
              n eq_refl)
    as (ctx' & Hrun & Ha' & Ho' & Hinv' & Hplain' & Hown' & He' & Hmap' & Hq' & Habs & Hkeep).
  pose proof Hinv as (Htab & Hidx & Hwf). pose proof Hinv' as (Htab' & Hidx' & Hwf').
  assert (Hnil : isNil key = false) by (destruct key; [congruence|reflexivity]).
  exists ctx'. split; [exact Hrun|].
  split.
  { unfold Node_size. rewrite Hmap'. cbn [isStructural negb]. rewrite Hq'. reflexivity. }
  split.
  { unfold hasKey. rewrite Hmap', Hnil. cbn [NodeType_eqb negb].
    rewrite (lookup_none ctx' (_eltIdx n) key Htab' Hp Hmap'
               (plain_no_NUL ctx _ Hmap Hplain c key Hkey)
               (keyAt_short _ _ _ _ Ha Hkey) Habs).
    reflexivity. }
  split.
  { intros key2 Hne2 Hdiff Hpend Hhas2.
    destruct (hasKeyChild_keyAt ctx (_eltIdx n) key2 Hp Hmap Hhas2) as (c2 & Hkey2).
    pose proof (plain_no_NUL ctx _ Hmap Hplain c2 key2 Hkey2) as Hnn2.
    assert (Hnil2 : isNil key2 = false) by (destruct key2; [congruence|reflexivity]).
    destruct (lookup_some ctx (_eltIdx n) c2 key2 Htab Hwf Ha Hnn2 Hkey2 (Hidx _ _ _ Hkey2))
      as (c1 & Hfind1 & Hk1).
    pose proof (plain_unique ctx _ Hmap Hplain _ _ key2 Hk1 Hkey2) as E1. subst c1.
    destruct (Hkeep c2 key2 Hkey2 Hdiff) as (c2' & Hkey2' & Hsub2').
    destruct (lookup_some ctx' (_eltIdx n) c2' key2 Htab' Hwf' ltac:(rewrite Ha'; exact Ha)
                Hnn2 Hkey2' (Hidx' _ _ _ Hkey2'))
      as (c3 & Hfind3 & Hk3).
    pose proof (plain_unique ctx' _ Hmap' Hplain' _ _ key2 Hk3 Hkey2') as E3. subst c3.
    pose proof Hkey2 as (_ & _ & Hc2 & Hck2 & _).
    pose proof Hkey2' as (_ & _ & Hc2' & _).
    set (x := getSub c2 (eltAt ctx (_eltIdx n))) in *.
    assert (Hx : 0 <= x).
    { destruct Hwf as (Hwf1 & _).
      apply (Hwf1 (_eltIdx n)); [exact Hmap|]. apply getSub_In.
      rewrite <- (getSubQty_MAP _ Hmap). exact Hc2. }
    assert (Hxe : eltAt ctx' x = eltAt ctx x).
    { apply Ho'; [exact Hx|]. intros Hxp. rewrite Hxp, Hmap in Hck2. discriminate Hck2. }
    assert (Hmax : (c2 =? UINT_MAX) = false).
    { apply Z.eqb_neq. unfold UINT_MAX. change (2 ^ 28) with 268435456 in Hq. lia. }
    assert (Hmax' : (c2' =? UINT_MAX) = false).
    { apply Z.eqb_neq. unfold UINT_MAX. change (2 ^ 28) with 268435456 in Hq. lia. }
    exists (Node_of (getKeyValue (eltAt ctx x))).
    split.
    { unfold at_key. rewrite Hmap, Hnil2, Hpend. cbn [NodeType_eqb negb isNil].
      rewrite Hfind1. cbn [bind]. rewrite Hmax. reflexivity. }
    split.
    { unfold at_key. rewrite Hmap', Hnil2, Hpend. cbn [NodeType_eqb negb isNil].
      rewrite Hfind3. cbn [bind]. rewrite Hmax', Hsub2', Hxe. reflexivity. }
    split; [reflexivity|].
    unfold hasKey. rewrite Hmap', Hnil2. cbn [NodeType_eqb negb].
    rewrite Hfind3. cbn [bind]. rewrite Hmax'. reflexivity. }
  split; [exact Ha'|]. split; [exact Ho'|]. split; [exact Hinv'|].
  split; [exact Hplain'|]. split; [exact Hown'|exact He'].
Qed.

Lemma remove_key_removes_witness :
  exists ctx',
    remove (doc_context twoKeysDoc) (doc_root twoKeysDoc) (chars "a") = Ret (true, ctx')
    /\ Node_size ctx' (doc_root twoKeysDoc)
       = Ret (getSubQty (eltAt (doc_context twoKeysDoc) (_eltIdx (doc_root twoKeysDoc))) - 1)
    /\ hasKey ctx' (doc_root twoKeysDoc) (chars "a") = Ret false.
Proof.
  destruct (remove_key_removes (doc_context twoKeysDoc) (doc_root twoKeysDoc) (chars "a"))
    as (ctx' & Hrun & Hsize & Hhas & _).
  - apply indexInv_of_parseInv; [|vm_compute; reflexivity].
    apply (parse_inv twoKeys); [vm_compute; reflexivity|].
    split; vm_compute; discriminate.
  - vm_compute. discriminate.
  - vm_compute. reflexivity.
  - vm_compute. reflexivity.
  - apply ownEntries_onlyMap. vm_compute. reflexivity.
  - vm_compute. discriminate.
  - vm_compute. discriminate.
  - vm_compute. discriminate.
  - discriminate.
  - vm_compute. reflexivity.
  - exists ctx'. split; [exact Hrun|]. split; [exact Hsize|exact Hhas].
Defined.

(** ** Insertions in a document where keys have been removed *)

Lemma indexReaches_same_table (ctx ctx' : Context) :
  _entries ctx' = _entries ctx -> _maxEntryQty ctx' = _maxEntryQty ctx ->
  (forall pi c name, keyAt ctx' pi c name -> keyAt ctx pi c name) ->
  indexReaches ctx -> indexReaches ctx'.
Proof.
  intros He Hc Hkeys Hidx pi c name Hk. rewrite He, Hc. apply Hidx. apply Hkeys. exact Hk.
Qed.

(** A new element without children. *)
Lemma indexInv_emplace_back (ctx : Context) (e0 : Element) :
  subs e0 = [] -> (getType e0 = KEY -> keyStringOk ctx e0) ->
  indexInv ctx ->
  indexInv (emplace_back e0 ctx)
  /\ (forall pi c name, keyAt (emplace_back e0 ctx) pi c name -> keyAt ctx pi c name).
Proof.
  intros Hsubs Hkey (Htab & Hidx & Hwf1 & Hwf2).
  assert (Hold : forall j, 0 <= j -> getType (eltAt (emplace_back e0 ctx) j) = MAP ->
            0 < getSubQty (eltAt (emplace_back e0 ctx) j) ->
            eltAt (emplace_back e0 ctx) j = eltAt ctx j).
  { intros j Hj Ht Hq. rewrite eltAt_emplace_back in *.
    destruct (Nat.eqb_spec (Z.to_nat j) (List.length (elements ctx))); [|reflexivity].
    rewrite (getSubQty_MAP e0 Ht), Hsubs in Hq. cbn in Hq. lia. }
  assert (Hchild : forall x, 0 <= x < len (elements ctx) ->
            eltAt (emplace_back e0 ctx) x = eltAt ctx x).
  { intros x Hx. rewrite eltAt_emplace_back.
    destruct (Nat.eqb_spec (Z.to_nat x) (List.length (elements ctx))) as [Heq|_];
      [unfold len in Hx; lia|reflexivity]. }
  assert (Hkeys : forall pi c name,
            keyAt (emplace_back e0 ctx) pi c name -> keyAt ctx pi c name).
  { intros pi c name (Hpi & Ht & Hc & Hck & Hname).
    pose proof (Hold pi Hpi Ht ltac:(lia)) as Heq.
    rewrite Heq in Ht, Hc, Hck, Hname.
    assert (Hin : 0 <= getSub c (eltAt ctx pi) < len (elements ctx)).
    { apply (Hwf1 pi); [exact Ht|]. apply getSub_In.
      rewrite <- (getSubQty_MAP _ Ht). exact Hc. }
    rewrite (Hchild _ Hin) in Hck, Hname.
    repeat split; try assumption; lia. }
  split; [|exact Hkeys].
  split; [|split; [|split]].
  - apply (tableShape_same_table ctx); try reflexivity. exact Htab.
  - apply (indexReaches_same_table ctx); try reflexivity; assumption.
  - intros j x Ht Hx. rewrite len_elements_emplace_back.
    rewrite eltAt_emplace_back in Ht, Hx.
    destruct (Nat.eqb_spec (Z.to_nat j) (List.length (elements ctx))).
    + rewrite Hsubs in Hx. destruct Hx.
    + specialize (Hwf1 j x Ht Hx). lia.
  - intros j Ht. rewrite eltAt_emplace_back in *.
    destruct (Nat.eqb_spec (Z.to_nat j) (List.length (elements ctx))).
    + apply Hkey. exact Ht.
    + apply Hwf2. exact Ht.
Qed.

(** More characters in the arena. *)
Lemma indexInv_arena (ctx ctx' : Context) (suffix : list ascii) :
  elements ctx' = elements ctx -> arena ctx' = arena ctx ++ suffix ->
  _entries ctx' = _entries ctx -> _entryQty ctx' = _entryQty ctx ->
  _maxEntryQty ctx' = _maxEntryQty ctx ->
  len (arena ctx) <= 2 ^ 28 ->
  indexInv ctx ->
  indexInv ctx'
  /\ (forall pi c name, keyAt ctx' pi c name -> keyAt ctx pi c name).
Proof.
  intros He Ha Hes Hq Hc Hlen (Htab & Hidx & Hwf1 & Hwf2).
  assert (Hkeys : forall pi c name, keyAt ctx' pi c name -> keyAt ctx pi c name).
  { intros pi c name (Hpi & Ht & Hcq & Hck & Hname).
    rewrite !(eltAt_same_elements ctx ctx') in * by exact He.
    unfold keyAt. repeat split; try assumption; try lia.
    rewrite nameOf_KEY in * by exact Hck.
    rewrite Ha in Hname. destruct (Hwf2 _ Hck) as (H0 & H1 & H2).
    rewrite u32_small in * by lia.
    rewrite slice_app_l in Hname by lia. exact Hname. }
  split; [|exact Hkeys].
  split; [|split; [|split]].
  - apply (tableShape_same_table ctx); assumption.
  - apply (indexReaches_same_table ctx); assumption.
  - intros j x Ht Hx. rewrite (eltAt_same_elements ctx ctx') in * by exact He.
    rewrite He. apply (Hwf1 j x); assumption.
  - intros j Ht. rewrite (eltAt_same_elements ctx ctx') in * by exact He.
    destruct (Hwf2 j Ht) as (H0 & H1 & H2). unfold keyStringOk.
    rewrite Ha, len_app. pose proof (len_nonneg suffix). lia.
Qed.

Section MaterializeAll.

Variables (ctx : Context) (p : Z) (key enc : list ascii).
Hypothesis inv : indexInv ctx.
Hypothesis p_unsigned : 0 <= p.
Hypothesis p_map : getType (eltAt ctx p) = MAP.
Hypothesis key_no_NUL : ~ In NUL key.
Hypothesis key_absent : forall c, ~ keyAt ctx p c key.
Hypothesis elements_small : len (elements ctx) + 2 <= 2 ^ 28.
Hypothesis arena_small : len (arena ctx) + len enc + len key + 2 <= 2 ^ 28.
Hypothesis entries_small : _entryQty ctx + 1 <= 2 ^ 28.

Let n : Z := len (elements ctx).
Let a1 : list ascii := arena ctx ++ enc ++ [NUL].
Let valueElt : Element := Element_string VALUE (len (arena ctx)) (len enc + 1).
Let keyElt : Element := Element_key KEY (len a1) (len key + 1) n.
Let ctx1 : Context := setArena a1 ctx.
Let ctx2 : Context := emplace_back valueElt ctx1.
Let ctx3 : Context := setArena (a1 ++ key ++ [NUL]) ctx2.
Let ctx4 : Context := emplace_back keyElt ctx3.
Let ctx5 : Context := updElt p (add (n + 1)) ctx4.

Lemma materializeAll_inv4 :
  indexInv ctx4 /\ (forall pi c name, keyAt ctx4 pi c name -> keyAt ctx pi c name).
Proof.
  pose proof (len_nonneg (arena ctx)) as L0. pose proof (len_nonneg enc) as L1.
  pose proof (len_nonneg key) as L2.
  assert (Hl1 : len a1 = len (arena ctx) + len enc + 1).
  { unfold a1. rewrite !len_app. change (len [NUL]) with 1. lia. }
  destruct (indexInv_arena ctx ctx1 (enc ++ [NUL])) as (I1 & K1); try reflexivity;
    [lia|exact inv|].
  destruct (indexInv_emplace_back ctx1 valueElt eq_refl) as (I2 & K2);
    [discriminate|exact I1|]. fold ctx2 in I2, K2.
  destruct (indexInv_arena ctx2 ctx3 (key ++ [NUL])) as (I3 & K3); try reflexivity;
    [change (arena ctx2) with a1; lia|exact I2|].
  destruct (indexInv_emplace_back ctx3 keyElt eq_refl) as (I4 & K4); [|exact I3|].
  { intros _. unfold keyStringOk, keyElt, Element_key. cbn [typed0 compound].
    rewrite land_CompoundMask by lia.
    change (arena ctx3) with (a1 ++ key ++ [NUL]). rewrite !len_app.
    change (len [NUL]) with 1.
    split; [apply len_nonneg|]. split; [lia|apply Z.le_refl]. }
  fold ctx4 in I4, K4. split; [exact I4|].
  intros pi c name H. apply K1, K2, K3, K4. exact H.
Qed.

(** The result of the insertion. *)
Lemma materializeAll_spec :
  exists ctx',
    materialize ctx p key enc = Ret ctx'
    /\ indexInv ctx'
    /\ _entryQty ctx' <= _entryQty ctx + 1
    /\ len (elements ctx') = n + 2
    /\ arena ctx' = arena ctx ++ enc ++ [NUL] ++ key ++ [NUL]
    /\ eltAt ctx' p = add (n + 1) (eltAt ctx p)
    /\ eltAt ctx' n = Element_string VALUE (len (arena ctx)) (len enc + 1)
    /\ eltAt ctx' (n + 1) = Element_key KEY (len (arena ctx) + len enc + 1) (len key + 1) n
    /\ (forall j, 0 <= j < n -> j <> p -> eltAt ctx' j = eltAt ctx j)
    /\ exists c',
         getMapChildIndex p key (len key) (eltAt ctx' p) ctx' = Ret c'
         /\ c' < getSubQty (eltAt ctx' p)
         /\ getSub c' (eltAt ctx' p) = n + 1.
Proof.
  pose proof (len_nonneg (arena ctx)) as L0. pose proof (len_nonneg enc) as L1.
  pose proof (len_nonneg key) as L2. pose proof (len_nonneg (elements ctx)) as L3.
  fold n in L3, elements_small.
  destruct materializeAll_inv4 as (I4 & K4).
  pose proof I4 as (Htab4 & Hidx4 & Hwf4).
  assert (E5 : forall j, 0 <= j ->
            eltAt ctx5 j = if j =? p then add (n + 1) (eltAt ctx p) else eltAt ctx4 j)
    by exact (materialize_elt5 ctx p key enc p_unsigned p_map).
  assert (Eold : forall j, 0 <= j < n -> eltAt ctx4 j = eltAt ctx j)
    by exact (materialize_old ctx key enc).
  assert (Enew : eltAt ctx4 n = valueElt /\ eltAt ctx4 (n + 1) = keyElt)
    by exact (materialize_new ctx key enc).
  assert (Ep : p < n /\ eltAt ctx4 p = eltAt ctx p)
    by exact (materialize_p ctx p key enc p_unsigned p_map).
  assert (Ename : nameOf ctx4 keyElt = key)
    by exact (materialize_name ctx key enc arena_small).
  assert (Hl4 : len (elements ctx4) = n + 2).
  { unfold ctx4. rewrite len_elements_emplace_back.
    change (elements ctx3) with (elements ctx2). unfold ctx2.
    rewrite len_elements_emplace_back. change (elements ctx1) with (elements ctx).
    fold n. lia. }
  assert (Hl1 : len a1 = len (arena ctx) + len enc + 1).
  { unfold a1. rewrite !len_app. change (len [NUL]) with 1. lia. }
  destruct Enew as (Ev & Ek). destruct Ep as (Hpn & Hpe).
  destruct (keyAt_add_key ctx4 p (n + 1) Hwf4 p_unsigned ltac:(lia)
              ltac:(rewrite Ek; reflexivity)) as (Hwf5 & Hkeys5).
  fold ctx5 in Hwf5, Hkeys5. rewrite Ek, Ename in Hkeys5.
  set (elt5 := eltAt ctx5 p) in *.
  set (cnew := getSubQty elt5 - 1) in *.
  assert (He5 : elt5 = add (n + 1) (eltAt ctx p)).
  { unfold elt5. rewrite E5 by exact p_unsigned. rewrite Z.eqb_refl. reflexivity. }
  assert (Ht5 : getType elt5 = MAP) by (rewrite He5, getType_add; exact p_map).
  assert (Hs5 : subs elt5 = subs (eltAt ctx p) ++ [n + 1]).
  { rewrite He5. apply subs_add. rewrite p_map. discriminate. }
  assert (Hcn : cnew = len (subs (eltAt ctx p))).
  { unfold cnew. rewrite (getSubQty_MAP _ Ht5), Hs5, len_app. change (len [n + 1]) with 1. lia. }
  pose proof (len_nonneg (subs (eltAt ctx p))) as Lq.
  assert (Hsubnew : getSub cnew elt5 = n + 1).
  { unfold getSub. rewrite Hs5, Hcn. unfold len. rewrite Nat2Z.id. apply nth_middle. }
  assert (Habs4 : forall c, ~ keyAt ctx4 p c key).
  { intros c Hk. exact (key_absent c (K4 _ _ _ Hk)). }
  assert (Hknew : keyAt ctx5 p cnew key).
  { unfold keyAt. fold elt5. rewrite Hsubnew.
    assert (Hchild : eltAt ctx5 (n + 1) = keyElt).
    { rewrite E5 by lia. destruct (Z.eqb_spec (n + 1) p); [lia|exact Ek]. }
    rewrite Hchild.
    split; [exact p_unsigned|]. split; [exact Ht5|]. split; [fold cnew; lia|].
    split; [reflexivity|].
    change (nameOf ctx5 keyElt) with (nameOf ctx4 keyElt). exact Ename. }
  assert (Hshort : len key < 2 ^ 31).
  { change (2 ^ 28) with 268435456 in arena_small. change (2 ^ 31) with 2147483648. lia. }
  assert (Htab5 : tableShape ctx5) by (apply (tableShape_same_table ctx4); try reflexivity; exact Htab4).
  destruct (addMapChildIndex_reach ctx5 p (len key) cnew key elt5 Htab5
              entries_small p_unsigned ltac:(lia))
    as (b & ctx6 & Hadd & Htab6 & Hq6 & Hnew6 & Hkeep6).
  destruct (addMapChildIndex_frame _ _ _ _ _ _ _ _ Hadd) as (He6 & Ha6).
  assert (Hsame : forall j, eltAt ctx6 j = eltAt ctx5 j)
    by (intros j; apply eltAt_same_elements; exact He6).
  assert (Hkeys6 : forall pi c name, keyAt ctx6 pi c name <-> keyAt ctx5 pi c name)
    by (intros; apply keyAt_same_store_iff; assumption).
  assert (Hinv6 : indexInv ctx6).
  { split; [exact Htab6|]. split; [|apply (wfElements_same_store ctx5); assumption].
    intros pi c name Hk. apply Hkeys6 in Hk.
    destruct (Hkeys5 pi c name Hk) as [Hold|(-> & Hcc & ->)].
    - apply Hkeep6.
      + apply keyHashOf_valid. destruct Hold. assumption.
      + change (_entries ctx5) with (_entries ctx4).
        change (_maxEntryQty ctx5) with (_maxEntryQty ctx4). apply Hidx4. exact Hold.
      + destruct (cellMatches ctx5 elt5 key (len key) (keyHashOf p key (len key))
                    (mkEntry (keyHashOf pi name (len name)) c)) eqn:Hm; [|left; reflexivity].
        right. pose proof Hold as (_ & _ & Hc & _).
        destruct (match_keyAt ctx5 p (keyHashOf p key (len key)) key
                    (mkEntry (keyHashOf pi name (len name)) c) p_unsigned Ht5 key_no_NUL Hshort
                    ltac:(cbn; lia) Hm) as (_ & Hk5).
        cbn [childIndex] in Hk5.
        destruct (Hkeys5 p c key Hk5) as [Hold5|(_ & Hcc & _)]; [|exact Hcc].
        exfalso. exact (Habs4 c Hold5).
    - fold elt5 cnew in Hcc. rewrite Hcc. exact Hnew6. }
  exists ctx6.
  rewrite (materialize_unfold ctx p key enc elements_small arena_small).
  change (addMapChildIndex p key (len key) _ _ _)
    with (addMapChildIndex p key (len key) elt5 cnew ctx5).
  rewrite Hadd. cbn [bind snd].
  split; [reflexivity|]. split; [exact Hinv6|].
  split; [change (_entryQty ctx5) with (_entryQty ctx) in Hq6; exact Hq6|].
  split; [unfold len; rewrite He6; fold (len (elements ctx5)); unfold ctx5;
          rewrite len_elements_updElt; exact Hl4|].
  split.
  { rewrite Ha6. change (arena ctx5) with (a1 ++ key ++ [NUL]). unfold a1.
    rewrite <- !app_assoc. reflexivity. }
  split; [rewrite Hsame; exact He5|].
  split.
  { rewrite Hsame, E5 by exact L3. destruct (Z.eqb_spec n p); [lia|exact Ev]. }
  split.
  { rewrite Hsame, E5 by lia. destruct (Z.eqb_spec (n + 1) p); [lia|].
    rewrite Ek. unfold keyElt. rewrite Hl1. reflexivity. }
  split.
  { intros j Hj Hne. rewrite Hsame, E5 by lia.
    destruct (Z.eqb_spec j p); [contradiction|]. apply Eold. exact Hj. }
  rewrite Hsame. fold elt5.
  destruct (lookup_some ctx6 p cnew key Htab6 (wfElements_same_store ctx5 ctx6 He6 Ha6 Hwf5)
              ltac:(rewrite Ha6; change (arena ctx5) with (a1 ++ key ++ [NUL]);
                    rewrite !len_app, Hl1; change (len [NUL]) with 1; lia)
              key_no_NUL (proj2 (Hkeys6 _ _ _) Hknew))
    as (c' & Hfind & Hk').
  { destruct Hinv6 as (_ & Hidx6 & _). apply Hidx6. apply Hkeys6. exact Hknew. }
  rewrite Hsame in Hfind. fold elt5 in Hfind.
  exists c'. split; [exact Hfind|].
  apply Hkeys6 in Hk'.
  destruct (Hkeys5 p c' key Hk') as [Hold5|(_ & Hcc & _)]; [exfalso; exact (Habs4 c' Hold5)|].
  fold elt5 cnew in Hcc. rewrite Hcc. split; [unfold cnew; lia|exact Hsubnew].
Qed.

End MaterializeAll.

(** A key that the lookup does not find is not a key of the map. *)
Lemma absent_of_none (ctx : Context) (p : Z) (key : list ascii) :
  indexInv ctx -> len (arena ctx) <= 2 ^ 28 -> ~ In NUL key ->
  getSubQty (eltAt ctx p) <= 2 ^ 28 ->
  getMapChildIndex p key (len key) (eltAt ctx p) ctx = Ret UINT_MAX ->
  forall c, ~ keyAt ctx p c key.
Proof.
  intros (Htab & Hidx & Hwf) Ha Hnn Hq Hfind c Hkey.
  destruct (lookup_some ctx p c key Htab Hwf Ha Hnn Hkey (Hidx _ _ _ Hkey))
    as (c' & Hfind' & (_ & _ & Hc' & _)).
  rewrite Hfind in Hfind'. injection Hfind' as <-.
  unfold UINT_MAX in Hc'. change (2 ^ 28) with 268435456 in Hq. lia.
Qed.

(** The map is still a map of keys with distinct names after a new key
    has been added to it. *)
Lemma plainMap_after_insert (ctx ctx' : Context) (p : Z) (key enc : list ascii) :
  wfElements ctx -> 0 <= p -> getType (eltAt ctx p) = MAP ->
  ~ In NUL key -> (forall c, ~ keyAt ctx p c key) ->
  len (arena ctx) + len enc + len key + 2 <= 2 ^ 28 ->
  arena ctx' = arena ctx ++ enc ++ [NUL] ++ key ++ [NUL] ->
  eltAt ctx' p = add (len (elements ctx) + 1) (eltAt ctx p) ->
  eltAt ctx' (len (elements ctx) + 1)
  = Element_key KEY (len (arena ctx) + len enc + 1) (len key + 1) (len (elements ctx)) ->
  (forall j, 0 <= j < len (elements ctx) -> j <> p -> eltAt ctx' j = eltAt ctx j) ->
  plainMap ctx (eltAt ctx p) = true ->
  plainMap ctx' (eltAt ctx' p) = true.
Proof.
  intros Hwf Hp Hmap Hnn Habs Hsmall Har' Hp' Hk' Hold' Hplain.
  pose proof (len_nonneg (arena ctx)) as L0. pose proof (len_nonneg enc) as L1.
  pose proof (len_nonneg key) as L2.
  destruct (proj1 (plainMap_spec _ _) Hplain) as (Hk & Hn & Hd).
  pose proof Hwf as (Hwf1 & Hwf2).
  set (n := len (elements ctx)) in *.
  assert (Hs' : subs (eltAt ctx' p) = subs (eltAt ctx p) ++ [n + 1]).
  { rewrite Hp'. apply subs_add. rewrite Hmap. discriminate. }
  assert (Hchild : forall x, In x (subs (eltAt ctx p)) ->
            eltAt ctx' x = eltAt ctx x
            /\ nameOf ctx' (eltAt ctx x) = nameOf ctx (eltAt ctx x)).
  { intros x Hx. pose proof (Hwf1 p x Hmap Hx) as Hr. pose proof (Hk x Hx) as Hkx.
    split.
    - apply Hold'; [exact Hr|]. intros ->. rewrite Hmap in Hkx. discriminate Hkx.
    - apply (after_name ctx ctx' key enc ltac:(lia) Har' _ Hkx). apply Hwf2. exact Hkx. }
  assert (Hnewname : nameOf ctx' (eltAt ctx' (n + 1)) = key).
  { rewrite Hk'.
    unfold nameOf, Element_key, getStringIdx, getStringSize, getCompound.
    cbn [etype typed0 compound]. rewrite land_CompoundMask by lia.
    replace (len key + 1 - 1) with (len key) by lia. rewrite u32_small by lia.
    rewrite Har'.
    replace (arena ctx ++ enc ++ [NUL] ++ key ++ [NUL])
      with ((arena ctx ++ enc ++ [NUL]) ++ key ++ [NUL]) by (rewrite <- !app_assoc; reflexivity).
    replace (len (arena ctx) + len enc + 1) with (len (arena ctx ++ enc ++ [NUL]))
      by (rewrite !len_app; change (len [NUL]) with 1; lia).
    apply slice_middle. }
  assert (Hname : forall i, (i < List.length (subs (eltAt ctx p) ++ [(n + 1)%Z]))%nat ->
            nameOf ctx' (eltAt ctx' (nth i (subs (eltAt ctx p) ++ [n + 1]) 0))
            = if (i <? List.length (subs (eltAt ctx p)))%nat
              then nameOf ctx (eltAt ctx (nth i (subs (eltAt ctx p)) 0)) else key).
  { intros i Hi. rewrite length_app in Hi. cbn [List.length] in Hi.
    destruct (Nat.ltb_spec i (List.length (subs (eltAt ctx p)))) as [Hlt|Hge].
    - rewrite app_nth1 by exact Hlt.
      destruct (Hchild _ (nth_In _ 0 Hlt)) as (E1 & E2). rewrite E1. exact E2.
    - assert (Hie : i = List.length (subs (eltAt ctx p))) by lia. subst i.
      rewrite nth_middle. exact Hnewname. }
  apply plainMap_spec. rewrite Hs'. split; [|split].
  - intros x Hx. apply in_app_or in Hx. destruct Hx as [Hx|[<-|[]]].
    + rewrite (proj1 (Hchild x Hx)). apply Hk. exact Hx.
    + rewrite Hk'. reflexivity.
  - intros x Hx. apply in_app_or in Hx. destruct Hx as [Hx|[<-|[]]].
    + destruct (Hchild x Hx) as (E1 & E2). rewrite E1, E2. apply Hn. exact Hx.
    + rewrite Hnewname. exact Hnn.
  - intros i j Hi Hj Heq. rewrite (Hname i Hi), (Hname j Hj) in Heq.
    rewrite length_app in Hi, Hj. cbn [List.length] in Hi, Hj.
    assert (Hno : forall m, (m < List.length (subs (eltAt ctx p)))%nat ->
              nameOf ctx (eltAt ctx (nth m (subs (eltAt ctx p)) 0)) <> key).
    { intros m Hm Hx. apply (Habs (Z.of_nat m)). unfold keyAt.
      split; [exact Hp|]. split; [exact Hmap|].
      split; [rewrite (getSubQty_MAP _ Hmap); unfold len; lia|].
      unfold getSub. rewrite Nat2Z.id.
      split; [apply Hk; apply nth_In; exact Hm|exact Hx]. }
    destruct (Nat.ltb_spec i (List.length (subs (eltAt ctx p)))) as [Hli|Hgi],
             (Nat.ltb_spec j (List.length (subs (eltAt ctx p)))) as [Hlj|Hgj].
    + apply Hd; assumption.
    + exfalso. exact (Hno i Hli Heq).
    + exfalso. exact (Hno j Hlj (eq_sym Heq)).
    + lia.
Qed.

Section MapInsertAll.

Variable T : Type.
Variable encode : T -> outcome (list ascii).
Variable decode : list ascii -> outcome T.
Variable typeName : string.

(** X18: the insertion of a key works in the same way once keys have
    been removed from the document, when the table holds tombstones: after
    [map.insert(key, v)] for a key that the map does not have, [hasKey(key)] is
    true and [map[key].as<T>()] is [v] (the codec gives back [v] from its
    encoding; neither the key nor the encoding holds a NUL character). The
    document keeps the invariant under which keys are inserted and removed,
    and a map of keys with distinct names stays one. *)
Theorem insert_key_after_removals (ctx : Context) (n : Node) (key : list ascii) (v : T)
    (enc : list ascii) :
  indexInv ctx ->
  len (elements ctx) + 2 <= 2 ^ 28 ->
  len (arena ctx) + len enc + len key + 2 <= 2 ^ 28 ->
  _entryQty ctx + 1 <= 2 ^ 28 ->
  0 <= _eltIdx n -> _nonExistingKey n = [] ->
  getSubQty (eltAt ctx (_eltIdx n)) < 2 ^ 28 ->
  ~ In NUL key ->
  hasKey ctx n key = Ret false ->
  encode v = Ret enc -> ~ In NUL enc -> decode enc = Ret v ->
  exists ctx',
    insert_key T encode ctx n key v = Ret ctx'
    /\ indexInv ctx'
    /\ _entryQty ctx' <= _entryQty ctx + 1
    /\ hasKey ctx' n key = Ret true
    /\ Node_size ctx' n = Ret (getSubQty (eltAt ctx (_eltIdx n)) + 1)
    /\ (exists h,
          at_key ctx' n key = Ret h
          /\ Node_type ctx' h = VALUE
          /\ as_ T decode typeName ctx' h = Ret v)
    /\ (plainMap ctx (eltAt ctx (_eltIdx n)) = true ->
        plainMap ctx' (eltAt ctx' (_eltIdx n)) = true).
Proof.
  intros Hinv He Ha Hent Hn Hpend Hq Hnn Hhas Henc Hencnn Hdec.
  destruct (hasKey_false ctx n key Hhas) as (Hmap & Hnil & Hfind).
  pose proof (len_nonneg enc) as L1. pose proof (len_nonneg key) as L2.
  pose proof (len_nonneg (arena ctx)) as L0.
  assert (Habs : forall c, ~ keyAt ctx (_eltIdx n) c key).
  { apply absent_of_none; [exact Hinv|lia|exact Hnn|lia|exact Hfind]. }
  destruct (materializeAll_spec ctx (_eltIdx n) key enc Hinv Hn Hmap Hnn Habs He Ha Hent)
    as (ctx' & Hmat & Hinv' & Hent' & Hlen' & Har' & Hp' & Hv' & Hk' & Hold'
        & c' & Hfind' & Hlt' & Hsub').
  exists ctx'.
  split.
  { unfold insert_key. rewrite Hmap, Hnil, Hpend. cbn [NodeType_eqb negb isNil].
    rewrite Hfind. cbn [bind]. rewrite Z.eqb_refl. cbn [negb].
    unfold encodeValue. rewrite Henc. cbn [bind]. exact Hmat. }
  split; [exact Hinv'|]. split; [exact Hent'|].
  assert (Hmap' : getType (eltAt ctx' (_eltIdx n)) = MAP).
  { rewrite Hp', getType_add. exact Hmap. }
  assert (Hqty' : getSubQty (eltAt ctx' (_eltIdx n)) = getSubQty (eltAt ctx (_eltIdx n)) + 1).
  { rewrite (getSubQty_MAP _ Hmap'), (getSubQty_MAP _ Hmap), Hp', subs_add
      by (rewrite Hmap; discriminate).
    rewrite len_app. reflexivity. }
  assert (Hmax : (c' =? UINT_MAX) = false).
  { apply Z.eqb_neq. unfold UINT_MAX. change (2 ^ 28) with 268435456 in Hq. lia. }
  split.
  { unfold hasKey. rewrite Hmap', Hnil. cbn [NodeType_eqb negb].
    rewrite Hfind'. cbn [bind]. rewrite Hmax. reflexivity. }
  split.
  { unfold Node_size. rewrite Hmap'. cbn. rewrite Hqty'. reflexivity. }
  split.
  { exists (Node_of (len (elements ctx))).
    split.
    { unfold at_key. rewrite Hmap', Hnil, Hpend. cbn [NodeType_eqb negb isNil].
      rewrite Hfind'. cbn [bind]. rewrite Hmax, Hsub', Hk'. reflexivity. }
    split.
    { unfold Node_type, Node_of. cbn [_eltIdx]. rewrite Hv'. reflexivity. }
    unfold as_, Node_of. cbn [_eltIdx]. rewrite Hv'.
    cbn [Element_string getType etype NodeType_eqb negb andb].
    unfold decodeValue. cbn [_eltIdx]. rewrite Hv'.
    cbn [Element_string getType etype getStringIdx typed0].
    rewrite Har'. change ([NUL] ++ key ++ [NUL]) with (NUL :: key ++ [NUL]).
    rewrite (cstrAt_within (arena ctx) enc _ Hencnn), Hdec. reflexivity. }
  intros Hplain. destruct Hinv as (_ & _ & Hwf).
  apply (plainMap_after_insert ctx ctx' (_eltIdx n) key enc); assumption.
Qed.

End MapInsertAll.

(** The document of the example after the removal. *)
Lemma afterRemoval_inv : indexInv afterRemoval.
Proof.
  assert (Hplain : plainMap (doc_context twoKeysDoc)
                     (eltAt (doc_context twoKeysDoc) (_eltIdx (doc_root twoKeysDoc))) = true)
    by (vm_compute; reflexivity).
  assert (Hhas : hasKeyChild (doc_context twoKeysDoc)
                   (eltAt (doc_context twoKeysDoc) (_eltIdx (doc_root twoKeysDoc))) (chars "a")
                 = true) by (vm_compute; reflexivity).
  assert (Hmap : getType (eltAt (doc_context twoKeysDoc) (_eltIdx (doc_root twoKeysDoc))) = MAP)
    by (vm_compute; reflexivity).
  assert (Hp : 0 <= _eltIdx (doc_root twoKeysDoc)) by (vm_compute; discriminate).
  destruct (hasKeyChild_keyAt _ _ _ Hp Hmap Hhas) as (c & Hkey).
  assert (Hinv : indexInv (doc_context twoKeysDoc)).
  { apply indexInv_of_parseInv; [|vm_compute; reflexivity].
    apply (parse_inv twoKeys); [vm_compute; reflexivity|].
    split; vm_compute; discriminate. }
  assert (Hown : ownEntries (doc_context twoKeysDoc) (_eltIdx (doc_root twoKeysDoc)))
    by (apply ownEntries_onlyMap; vm_compute; reflexivity).
  assert (Ha : len (arena (doc_context twoKeysDoc)) <= 2 ^ 28) by (vm_compute; discriminate).
  assert (Hq : getSubQty (eltAt (doc_context twoKeysDoc) (_eltIdx (doc_root twoKeysDoc)))
               <= 2 ^ 28) by (vm_compute; discriminate).
  assert (He : _entryQty (doc_context twoKeysDoc) + 1 <= 2 ^ 28) by (vm_compute; discriminate).
  destruct (removeKey_spec (doc_context twoKeysDoc) (_eltIdx (doc_root twoKeysDoc)) c (chars "a")
              Hinv Hp Hmap Hplain Hown Hkey Ha Hq He (doc_root twoKeysDoc) eq_refl)
    as (ctx5 & Hrun & _ & _ & Hinv5 & _).
  assert (Hc : remove (doc_context twoKeysDoc) (doc_root twoKeysDoc) (chars "a")
               = Ret (true, afterRemoval)) by (vm_compute; reflexivity).
  rewrite Hc in Hrun. injection Hrun as <-. exact Hinv5.
Qed.

Lemma insert_key_after_removals_witness :
  exists ctx',
    insert_key (list ascii) encodeString afterRemoval (doc_root twoKeysDoc)
      (chars "a") (chars "e") = Ret ctx'
    /\ hasKey ctx' (doc_root twoKeysDoc) (chars "a") = Ret true
    /\ exists h,
         at_key ctx' (doc_root twoKeysDoc) (chars "a") = Ret h
         /\ Node_type ctx' h = VALUE
         /\ as_ (list ascii) decodeString "std::string" ctx' h = Ret (chars "e").
Proof.
  destruct (insert_key_after_removals (list ascii) encodeString decodeString "std::string"
              afterRemoval (doc_root twoKeysDoc) (chars "a") (chars "e") (chars "e"))
    as (ctx' & Hrun & _ & _ & Hhas & _ & Hread & _).
  - exact afterRemoval_inv.
  - vm_compute. discriminate.
  - vm_compute. discriminate.
  - vm_compute. discriminate.
  - vm_compute. discriminate.
  - reflexivity.
  - vm_compute. reflexivity.
  - cbn. intros [H|[]]. discriminate H.
  - vm_compute. reflexivity.
  - reflexivity.
  - cbn. intros [H|[]]. discriminate H.
  - reflexivity.
  - exists ctx'. split; [exact Hrun|]. split; [exact Hhas|exact Hread].
Defined.

(** ** Single-quoted scalars: written by [emitScalar], read by [getToken] *)

Lemma doubled_app (a b : list ascii) : doubled (a ++ b) = doubled a ++ doubled b.
Proof. unfold doubled. apply flat_map_app. Qed.

Lemma doubled_plain (a : list ascii) : ~ In SQUOTE a -> doubled a = a.
Proof.
  induction a as [|c r IH]; intros Hno; [reflexivity|].
  unfold doubled in *. cbn [flat_map].
  destruct (Ascii.eqb_spec c SQUOTE) as [->|_]; [exfalso; apply Hno; left; reflexivity|].
  cbn [app]. f_equal. apply IH. intros Hin. apply Hno. right. exact Hin.
Qed.

Lemma firstn_plus {A : Type} (n m : nat) :
  forall l : list A, firstn (n + m) l = firstn n l ++ firstn m (skipn n l).
Proof.
  induction n as [|n IH]; intros l; [reflexivity|].
  destruct l as [|x r]; cbn [Nat.add firstn skipn app].
  - rewrite firstn_nil. reflexivity.
  - rewrite IH. reflexivity.
Qed.

Lemma skipn_plus {A : Type} (n m : nat) :
  forall l : list A, skipn (n + m) l = skipn m (skipn n l).
Proof.
  induction n as [|n IH]; intros l; [reflexivity|].
  destruct l as [|x r]; cbn [Nat.add skipn].
  - rewrite skipn_nil. reflexivity.
  - apply IH.
Qed.

Lemma slice_split (a : list ascii) (i n m : Z) :
  0 <= i -> 0 <= n -> 0 <= m -> slice a i (n + m) = slice a i n ++ slice a (i + n) m.
Proof.
  intros Hi Hn Hm. unfold slice.
  rewrite Z2Nat.inj_add by lia. rewrite (Z2Nat.inj_add i n) by lia.
  rewrite firstn_plus, skipn_plus. reflexivity.
Qed.

Lemma slice_one (a : list ascii) (i : Z) :
  0 <= i < len a -> slice a i 1 = [at_ a i].
Proof.
  intros Hi. unfold slice, at_, len in *.
  destruct (Z.ltb_spec i 0) as [Hneg|_]; [lia|].
  change (Z.to_nat 1) with 1%nat.
  rewrite <- (firstn_skipn (Z.to_nat i) a) at 2.
  rewrite app_nth2 by (rewrite length_firstn; lia).
  rewrite length_firstn, Nat.min_l by lia. rewrite Nat.sub_diag.
  destruct (skipn (Z.to_nat i) a) as [|c r] eqn:Hs.
  - exfalso. assert (H : List.length (skipn (Z.to_nat i) a) = 0%nat) by (rewrite Hs; reflexivity).
    rewrite length_skipn in H. lia.
  - reflexivity.
Qed.

Lemma findFirstOf_one (text : Z -> ascii) (textSize : Z) (c : ascii) (startPos : Z) :
  0 <= startPos <= textSize -> textSize <= UINT_MAX ->
  (findFirstOf text textSize [c] startPos = UINT_MAX
   /\ forall j, startPos <= j < textSize -> text j <> c)
  \/ (startPos <= findFirstOf text textSize [c] startPos < textSize
      /\ text (findFirstOf text textSize [c] startPos) = c
      /\ forall j, startPos <= j < findFirstOf text textSize [c] startPos -> text j <> c).
Proof.
  intros Hs Hmax. unfold findFirstOf.
  destruct (scanFwd_spec (fun j => (textSize <=? j) || existsb (Ascii.eqb (text j)) [c])
              (Z.to_nat (textSize - startPos)) startPos) as (Hr & Hbefore & Hat).
  rewrite Z2Nat.id in Hr, Hat by lia.
  set (idx := scanFwd _ _ startPos) in *.
  assert (Hno : forall j, startPos <= j < idx -> text j <> c).
  { intros j Hj E. specialize (Hbefore j Hj). apply orb_false_elim in Hbefore.
    destruct Hbefore as [_ Hb]. cbn [existsb] in Hb. rewrite E, Ascii.eqb_refl in Hb.
    discriminate Hb. }
  destruct (Z.ltb_spec idx textSize) as [Hlt|Hge].
  - right. split; [lia|]. split; [|exact Hno].
    specialize (Hat ltac:(lia)). apply orb_true_iff in Hat. destruct Hat as [Hle|Hex].
    + apply Z.leb_le in Hle. lia.
    + cbn [existsb] in Hex. rewrite orb_false_r in Hex. apply Ascii.eqb_eq in Hex. exact Hex.
  - left. split; [reflexivity|]. intros j Hj. apply Hno. lia.
Qed.

Lemma singleQuoteLoop_doubled (buf : list ascii) (base textSize : Z) (fuel : nat) :
  0 <= base -> base + textSize <= len buf -> textSize <= UINT_MAX ->
  forall lastPos sh,
    0 <= lastPos <= textSize -> textSize - lastPos < Z.of_nat fuel ->
    sh_arena (singleQuoteLoop fuel buf base textSize lastPos sh)
    = sh_arena sh ++ doubled (slice buf (base + lastPos) (textSize - lastPos)).
Proof.
  intros Hbase Hfit Hmax. induction fuel as [|f IH]; intros lastPos sh Hpos Hfuel; [lia|].
  cbn [singleQuoteLoop].
  assert (Hplain : forall a n, 0 <= a -> (forall j, a <= j < a + n -> at_ buf j <> SQUOTE) ->
                               doubled (slice buf a n) = slice buf a n).
  { intros a n Ha Hall. apply doubled_plain. intros Hin.
    destruct (In_slice buf a n SQUOTE Ha Hin) as (j & Hj & E). apply (Hall j Hj). auto. }
  destruct (findFirstOf_one (fun i => at_ buf (base + i)) textSize SQUOTE lastPos Hpos Hmax)
    as [(Hnone & Hall)|(Hin & Hat & Hall)].
  - rewrite Hnone, Z.eqb_refl. cbn [addChunk sh_arena]. f_equal. symmetry.
    apply Hplain; [lia|]. intros j Hj. replace j with (base + (j - base)) by lia.
    apply Hall. lia.
  - set (findPos := findFirstOf _ textSize [SQUOTE] lastPos) in *.
    destruct (Z.eqb_spec findPos UINT_MAX) as [E|_]; [lia|].
    rewrite IH by (try lia; nia).
    cbn [addChar addChunk sh_arena]. rewrite <- !app_assoc. f_equal.
    replace (textSize - lastPos) with ((findPos - lastPos) + (1 + (textSize - (findPos + 1))))
      by lia.
    rewrite slice_split by lia. rewrite slice_split by lia.
    rewrite !doubled_app. rewrite slice_one by lia.
    replace (base + lastPos + (findPos - lastPos)) with (base + findPos) by lia.
    rewrite Hat. rewrite (Hplain (base + lastPos) (findPos - lastPos)).
    + f_equal. unfold doubled at 2. cbn [flat_map]. rewrite Ascii.eqb_refl. cbn [app].
      replace (base + findPos + 1) with (base + (findPos + 1)) by lia. reflexivity.
    + lia.
    + intros j Hj. replace j with (base + (j - base)) by lia. apply Hall. lia.
Qed.

Lemma at_after (text a : list ascii) (c : ascii) (rest : list ascii) (i : Z) :
  text = a ++ c :: rest -> i = len a -> at_ text i = c.
Proof. intros -> ->. apply at_app_len. Qed.

Lemma len_repeat {A : Type} (x : A) (n : nat) : len (repeat x n) = Z.of_nat n.
Proof. unfold len. rewrite repeat_length. reflexivity. Qed.

Ltac lens :=
  repeat (rewrite len_app || rewrite len_cons || rewrite len_repeat);
  change (len (@nil ascii)) with 0; lia.

Lemma slice_after (text pre t post : list ascii) (i n : Z) :
  text = pre ++ t ++ post -> i = len pre -> n = len t -> slice text i n = t.
Proof. intros -> -> ->. apply slice_middle. Qed.

(** The scan of the line of a single-quoted scalar: over the doubled
    characters of [r] it stops on the closing quote, and what it has added
    to the helper, with the chunk left to add, are the characters of [r]. *)
Lemma singleQuoteScan_doubled (r : list ascii) :
  forall (fuel : nat) (text pre c0 : list ascii) (lineEndIdx chunkStartIdx : Z)
         (sh : StringHelper),
    ~ In LF r -> ~ In CR r ->
    (List.length (doubled r) < fuel)%nat ->
    text = pre ++ c0 ++ doubled r ++ [SQUOTE] ->
    lineEndIdx = len pre + len c0 -> chunkStartIdx = len pre ->
    exists chunkStart sh',
      singleQuoteScan fuel text (len text) lineEndIdx chunkStartIdx false sh
      = (len text - 1, chunkStart, false, sh', true)
      /\ 0 <= chunkStart <= len text - 1
      /\ sh_arena sh' ++ slice text chunkStart (len text - 1 - chunkStart)
         = sh_arena sh ++ c0 ++ r
      /\ chunks sh' = chunks sh /\ startLineIdx sh' = startLineIdx sh.
Proof.
  induction r as [|c r IH]; intros fuel text pre c0 lineEndIdx chunkStartIdx sh
    HLF HCR Hfuel Htext Hline Hchunk.
  - destruct fuel as [|f]; [inversion Hfuel|]. cbn [doubled flat_map app] in Htext.
    assert (Hlen : len text = len pre + len c0 + 1).
    { rewrite Htext. lens. }
    assert (Hat : at_ text lineEndIdx = SQUOTE).
    { apply (at_after text (pre ++ c0) _ _ _ ltac:(rewrite Htext, <- app_assoc; reflexivity)). lens. }
    cbn [singleQuoteScan]. rewrite Hat.
    destruct (Z.ltb_spec lineEndIdx (len text)) as [_|Hge]; [|lia].
    destruct (Z.ltb_spec (lineEndIdx + 1) (len text)) as [Hlt|_]; [lia|].
    cbn. exists chunkStartIdx, sh. split; [f_equal; f_equal; f_equal; f_equal; lia|].
    pose proof (len_nonneg pre). pose proof (len_nonneg c0).
    split; [lia|]. split; [|split; reflexivity].
    rewrite app_nil_r. f_equal. apply (slice_after text pre c0 [SQUOTE]); [exact Htext|lia|lia].
  - destruct fuel as [|f]; [inversion Hfuel|].
    assert (HLF' : ~ In LF r) by (intros H; apply HLF; right; exact H).
    assert (HCR' : ~ In CR r) by (intros H; apply HCR; right; exact H).
    assert (Heol : isEol c = false).
    { unfold isEol. destruct (Ascii.eqb_spec c LF) as [->|_];
        [exfalso; apply HLF; left; reflexivity|].
      destruct (Ascii.eqb_spec c CR) as [->|_]; [exfalso; apply HCR; left; reflexivity|].
      reflexivity. }
    pose proof (len_nonneg pre) as Hp0. pose proof (len_nonneg c0) as Hc0.
    pose proof (len_nonneg (doubled r)) as Hd0.
    destruct (Ascii.eqb_spec c SQUOTE) as [->|Hne].
    + (* a doubled quote *)
      assert (Hd : doubled (SQUOTE :: r) = SQUOTE :: SQUOTE :: doubled r) by reflexivity.
      rewrite Hd in Htext, Hfuel. cbn [List.length] in Hfuel.
      assert (Hlen : len text = len pre + len c0 + 2 + len (doubled r) + 1).
      { rewrite Htext. lens. }
      assert (Hat : at_ text lineEndIdx = SQUOTE).
      { apply (at_after text (pre ++ c0) _ _ _ ltac:(rewrite Htext, <- app_assoc; reflexivity)). lens. }
      assert (Hat1 : at_ text (lineEndIdx + 1) = SQUOTE).
      { apply (at_after text (pre ++ c0 ++ [SQUOTE]) SQUOTE (doubled r ++ [SQUOTE])).
        - rewrite Htext, <- !app_assoc. reflexivity.
        - lens. }
      destruct (IH f text (pre ++ c0 ++ [SQUOTE; SQUOTE]) [] (lineEndIdx + 2) (lineEndIdx + 2)
                  (addChunk (slice text chunkStartIdx (lineEndIdx + 1 - chunkStartIdx)) sh)
                  HLF' HCR' ltac:(lia))
        as (chunkStart & sh' & Hrun & Hrange & Harena & Hchunks & Hstart).
      * rewrite Htext, <- !app_assoc. reflexivity.
      * lens.
      * lens.
      * cbn [singleQuoteScan]. rewrite Hat, Hat1.
        destruct (Z.ltb_spec lineEndIdx (len text)) as [_|Hge]; [|lia].
        destruct (Z.ltb_spec (lineEndIdx + 1) (len text)) as [_|Hge]; [|lia].
        cbn [isEol]. change (negb (isEol SQUOTE)) with true.
        change (negb (Ascii.eqb SQUOTE SQUOTE)) with false.
        cbn [andb negb]. rewrite Ascii.eqb_refl.
        exists chunkStart, sh'. split; [exact Hrun|]. split; [exact Hrange|].
        split; [|split; [rewrite Hchunks|rewrite Hstart]; reflexivity].
        rewrite Harena. cbn [addChunk sh_arena app].
        rewrite <- app_assoc. f_equal.
        replace (slice text chunkStartIdx (lineEndIdx + 1 - chunkStartIdx)) with (c0 ++ [SQUOTE]).
        { rewrite <- app_assoc. reflexivity. }
        symmetry.
        apply (slice_after text pre (c0 ++ [SQUOTE]) (SQUOTE :: doubled r ++ [SQUOTE])).
        -- rewrite Htext, <- app_assoc. reflexivity.
        -- lia.
        -- lens.
    + (* another character *)
      assert (Hd : doubled (c :: r) = c :: doubled r).
      { unfold doubled. cbn [flat_map]. destruct (Ascii.eqb_spec c SQUOTE); [contradiction|].
        reflexivity. }
      rewrite Hd in Htext, Hfuel. cbn [List.length] in Hfuel.
      assert (Hlen : len text = len pre + len c0 + 1 + len (doubled r) + 1).
      { rewrite Htext. lens. }
      assert (Hat : at_ text lineEndIdx = c).
      { apply (at_after text (pre ++ c0) _ _ _ ltac:(rewrite Htext, <- app_assoc; reflexivity)). lens. }
      destruct (IH f text pre (c0 ++ [c]) (lineEndIdx + 1) chunkStartIdx sh
                  HLF' HCR' ltac:(lia))
        as (chunkStart & sh' & Hrun & Hrange & Harena & Hchunks & Hstart).
      * rewrite Htext, <- !app_assoc. reflexivity.
      * lens.
      * exact Hchunk.
      * cbn [singleQuoteScan]. rewrite Hat, Heol.
        destruct (Z.ltb_spec lineEndIdx (len text)) as [_|Hge]; [|lia].
        destruct (Ascii.eqb_spec c SQUOTE) as [E|_]; [contradiction|].
        cbn [andb negb].
        exists chunkStart, sh'. split; [exact Hrun|]. split; [exact Hrange|].
        split; [|split; assumption].
        rewrite Harena, <- !app_assoc. reflexivity.
Qed.

(** The line of a single-quoted scalar that holds the whole scalar. *)
Lemma lineSingleQuote_doubled (text pre r : list ascii) (initIdx lineNbr : Z)
    (sh : StringHelper) :
  ~ In LF r -> ~ In CR r -> text = pre ++ doubled r ++ [SQUOTE] -> chunks sh = [] ->
  exists sh',
    lineSingleQuote text (len text) initIdx lineNbr (len pre) sh
    = Ret (mkLineResult sh' (len text) true false)
    /\ sh_arena sh' = sh_arena sh ++ r
    /\ chunks sh' = [] /\ startLineIdx sh' = startLineIdx sh.
Proof.
  intros HLF HCR Htext Hchunks.
  assert (Hlen : len text = len pre + len (doubled r) + 1) by (rewrite Htext; lens).
  pose proof (len_nonneg pre) as Hp0. pose proof (len_nonneg (doubled r)) as Hd0.
  destruct (singleQuoteScan_doubled r (S (Z.to_nat (len text - len pre))) text pre []
              (len pre) (len pre) sh HLF HCR)
    as (chunkStart & sh1 & Hrun & Hrange & Harena & Hch & Hst).
  { unfold len in *. lia. }
  { exact Htext. }
  { lens. }
  { reflexivity. }
  unfold lineSingleQuote. unfold empty. rewrite Hchunks. cbn [negb]. rewrite Hrun.
  cbn [andb].
  destruct (Z.leb_spec (len text) (len text - 1)) as [Hle|_]; [lia|].
  assert (Hat : at_ text (len text - 1) = SQUOTE).
  { apply (at_after text (pre ++ doubled r) SQUOTE []).
    - rewrite Htext, <- app_assoc. reflexivity.
    - lens. }
  rewrite Hat, Ascii.eqb_refl. cbn [negb andb].
  assert (Hskip : skipWhileNoBound text isSpaceOrTab (len text - 1 + 1) = len text).
  { unfold skipWhileNoBound. replace (len text - (len text - 1 + 1)) with 0 by lia.
    cbn [Z.to_nat scanFwd]. lia. }
  rewrite Hskip.
  eexists. split; [reflexivity|].
  cbn [app] in Harena.
  destruct (Z.ltb_spec chunkStart (len text - 1)) as [Hlt|Hge].
  - cbn [addChunk sh_arena chunks startLineIdx]. rewrite Harena, Hch, Hst, Hchunks.
    repeat split.
  - replace (len text - 1 - chunkStart) with 0 in Harena by lia.
    unfold slice in Harena. cbn [Z.to_nat firstn] in Harena. rewrite app_nil_r in Harena.
    rewrite Harena, Hch, Hst, Hchunks. repeat split.
Qed.

Lemma leading_spaces (s : list ascii) :
  exists (k : nat) (r : list ascii), s = repeat SP k ++ r /\ forall r', r <> SP :: r'.
Proof.
  induction s as [|c s IH].
  - exists 0%nat, []. split; [reflexivity|]. intros r' H. discriminate H.
  - destruct (Ascii.eqb_spec c SP) as [->|Hne].
    + destruct IH as (k & r & -> & Hr). exists (S k), r. split; [reflexivity|exact Hr].
    + exists 0%nat, (c :: s). split; [reflexivity|]. intros r' H. injection H as H _.
      contradiction.
Qed.

Lemma skipWhile_spaces (p : ascii -> bool) (text pre rest : list ascii) (k : nat) (c : ascii)
    (endIdx i : Z) :
  p SP = true -> p c = false ->
  text = pre ++ repeat SP k ++ c :: rest -> len pre + Z.of_nat k < endIdx -> i = len pre ->
  skipWhile text endIdx p i = len pre + Z.of_nat k.
Proof.
  intros HpSP Hsp Htext Hend ->.
  pose proof (len_nonneg pre) as Hp0.
  destruct (skipWhile_spec text endIdx p (len pre) ltac:(lia)) as (Hr & Hbefore & Hat).
  set (j := skipWhile text endIdx p (len pre)) in *.
  assert (Hin : forall i, 0 <= i < Z.of_nat k -> at_ text (len pre + i) = SP).
  { intros i Hi. rewrite Htext.
    rewrite (at_middle pre (repeat SP k) (c :: rest) i)
      by (rewrite len_repeat; exact Hi).
    apply nth_repeat_lt. lia. }
  assert (Hci : at_ text (len pre + Z.of_nat k) = c).
  { apply (at_after text (pre ++ repeat SP k) c rest).
    - rewrite Htext, <- app_assoc. reflexivity.
    - lens. }
  destruct (Z.lt_trichotomy j (len pre + Z.of_nat k)) as [Hlt|[E|Hgt]].
  - specialize (Hat ltac:(lia)).
    replace j with (len pre + (j - len pre)) in Hat by lia.
    rewrite Hin, HpSP in Hat by lia. discriminate Hat.
  - exact E.
  - specialize (Hbefore (len pre + Z.of_nat k) ltac:(lia)). rewrite Hci, Hsp in Hbefore.
    discriminate Hbefore.
Qed.

Lemma doubled_spaces (k : nat) (r : list ascii) :
  doubled (repeat SP k ++ r) = repeat SP k ++ doubled r.
Proof.
  rewrite doubled_app. f_equal. apply doubled_plain. intros Hin.
  apply repeat_spec in Hin. discriminate Hin.
Qed.

(** The first character after the spaces that follow the opening quote. *)
Lemma quoted_head (r : list ascii) :
  (forall r', r <> SP :: r') ->
  exists c rest, doubled r ++ [SQUOTE] = c :: rest /\ c <> SP
    /\ ((forall r', r <> TAB :: r') -> c <> TAB).
Proof.
  intros Hr. destruct r as [|c r'].
  - exists SQUOTE, []. split; [reflexivity|]. split; [discriminate|]. intros _. discriminate.
  - destruct (Ascii.eqb_spec c SQUOTE) as [->|Hne].
    + exists SQUOTE, (SQUOTE :: doubled r' ++ [SQUOTE]). split; [reflexivity|].
      split; [discriminate|]. intros _. discriminate.
    + exists c, (doubled r' ++ [SQUOTE]). split.
      * unfold doubled. cbn [flat_map]. destruct (Ascii.eqb_spec c SQUOTE); [contradiction|].
        reflexivity.
      * split.
        -- intros ->. apply (Hr r'). reflexivity.
        -- intros Ht ->. apply (Ht r'). reflexivity.
Qed.

(** ** Double-quoted scalars *)

Lemma findFirstOf_spec (text : Z -> ascii) (textSize : Z) (cs : list ascii) (startPos : Z) :
  0 <= startPos <= textSize -> textSize <= UINT_MAX ->
  (findFirstOf text textSize cs startPos = UINT_MAX
   /\ forall j, startPos <= j < textSize -> existsb (Ascii.eqb (text j)) cs = false)
  \/ (startPos <= findFirstOf text textSize cs startPos < textSize
      /\ existsb (Ascii.eqb (text (findFirstOf text textSize cs startPos))) cs = true
      /\ forall j, startPos <= j < findFirstOf text textSize cs startPos ->
                   existsb (Ascii.eqb (text j)) cs = false).
Proof.
  intros Hs Hmax. unfold findFirstOf.
  destruct (scanFwd_spec (fun j => (textSize <=? j) || existsb (Ascii.eqb (text j)) cs)
              (Z.to_nat (textSize - startPos)) startPos) as (Hr & Hbefore & Hat).
  rewrite Z2Nat.id in Hr, Hat by lia.
  set (idx := scanFwd _ _ startPos) in *.
  assert (Hno : forall j, startPos <= j < idx -> existsb (Ascii.eqb (text j)) cs = false).
  { intros j Hj. specialize (Hbefore j Hj). apply orb_false_elim in Hbefore.
    exact (proj2 Hbefore). }
  destruct (Z.ltb_spec idx textSize) as [Hlt|Hge].
  - right. split; [lia|]. split; [|exact Hno].
    specialize (Hat ltac:(lia)). apply orb_true_iff in Hat. destruct Hat as [Hle|Hex].
    + apply Z.leb_le in Hle. lia.
    + exact Hex.
  - left. split; [reflexivity|]. intros j Hj. apply Hno. lia.
Qed.

Lemma escaped_plain_cons (c : ascii) (r : list ascii) :
  isEscaped c = false -> escaped (c :: r) = c :: escaped r.
Proof.
  unfold isEscaped, pyEscapes. cbn [existsb escaped]. intros H.
  destruct (Ascii.eqb c BACKSLASH); [discriminate H|].
  destruct (Ascii.eqb c LF); [discriminate H|].
  destruct (Ascii.eqb c CR); [discriminate H|].
  destruct (Ascii.eqb c TAB); [discriminate H|].
  destruct (Ascii.eqb c DQUOTE); [discriminate H|].
  reflexivity.
Qed.

Lemma escaped_plain_app (a b : list ascii) :
  (forall c, In c a -> isEscaped c = false) -> escaped (a ++ b) = a ++ escaped b.
Proof.
  induction a as [|c a IH]; intros Hall; [reflexivity|].
  cbn [app]. rewrite escaped_plain_cons by (apply Hall; left; reflexivity).
  f_equal. apply IH. intros x Hx. apply Hall. right. exact Hx.
Qed.

Lemma slice_head (buf : list ascii) (i n : Z) :
  0 <= i -> 0 < n -> i + n <= len buf ->
  slice buf i n = at_ buf i :: slice buf (i + 1) (n - 1).
Proof.
  intros Hi Hn Hfit. replace n with (1 + (n - 1)) at 1 by lia.
  rewrite slice_split by lia. rewrite slice_one by lia. reflexivity.
Qed.

Lemma slice_none (buf : list ascii) (i n : Z) : n <= 0 -> slice buf i n = [].
Proof.
  intros Hn. unfold slice. replace (Z.to_nat n) with 0%nat by lia. reflexivity.
Qed.

(** What [addEscaped] writes for the character at [findPos]. *)
Lemma addEscaped_spec (buf : list ascii) (base textSize findPos : Z) (sh : StringHelper) :
  0 <= base -> 0 <= findPos < textSize -> base + textSize <= len buf ->
  isEscaped (at_ buf (base + findPos)) = true ->
  sh_arena (addEscaped (fun i => at_ buf (base + i)) textSize findPos sh)
  ++ escaped (slice buf (base + (findPos + 1)) (textSize - (findPos + 1)))
  = sh_arena sh ++ escaped (slice buf (base + findPos) (textSize - findPos)).
Proof.
  intros Hbase Hpos Hfit Hesc.
  rewrite (slice_head buf (base + findPos) (textSize - findPos)) by lia.
  replace (base + findPos + 1) with (base + (findPos + 1)) by lia.
  replace (textSize - findPos - 1) with (textSize - (findPos + 1)) by lia.
  set (c := at_ buf (base + findPos)) in *.
  set (rest := slice buf (base + (findPos + 1)) (textSize - (findPos + 1))).
  unfold addEscaped. fold c. cbn [escaped].
  destruct (Ascii.eqb c DQUOTE) eqn:E1;
    [cbn [addChar sh_arena]; rewrite <- !app_assoc; reflexivity|].
  destruct (Ascii.eqb c LF) eqn:E2;
    [cbn [addChar sh_arena]; rewrite <- !app_assoc; reflexivity|].
  destruct (Ascii.eqb c CR) eqn:E3;
    [cbn [addChar sh_arena]; rewrite <- !app_assoc; reflexivity|].
  destruct (Ascii.eqb c TAB) eqn:E4;
    [cbn [addChar sh_arena]; rewrite <- !app_assoc; reflexivity|].
  destruct (Ascii.eqb c BACKSLASH) eqn:E5.
  - destruct (Z.leb_spec textSize (findPos + 1)) as [Hle|Hgt].
    + assert (Hrest : rest = []) by (apply slice_none; lia).
      rewrite Hrest. cbn [orb addChar sh_arena]. rewrite <- !app_assoc. reflexivity.
    + assert (Hrest : rest = at_ buf (base + (findPos + 1))
                             :: slice buf (base + (findPos + 1) + 1) (textSize - (findPos + 1) - 1))
        by (apply slice_head; lia).
      rewrite Hrest. cbn [orb].
      destruct (negb (Ascii.eqb (at_ buf (base + (findPos + 1))) "u"%char)
                && negb (Ascii.eqb (at_ buf (base + (findPos + 1))) "U"%char)
                && negb (Ascii.eqb (at_ buf (base + (findPos + 1))) "x"%char));
        cbn [addChar sh_arena]; rewrite <- !app_assoc; reflexivity.
  - exfalso. unfold isEscaped, pyEscapes in Hesc. cbn [existsb] in Hesc.
    rewrite E1, E2, E3, E4, E5 in Hesc. discriminate Hesc.
Qed.

Lemma escapeLoop_escaped (buf : list ascii) (base textSize : Z) (fuel : nat) :
  0 <= base -> base + textSize <= len buf -> textSize <= UINT_MAX ->
  forall lastPos sh,
    0 <= lastPos <= textSize -> textSize - lastPos < Z.of_nat fuel ->
    sh_arena (escapeLoop fuel buf base textSize lastPos sh)
    = sh_arena sh ++ escaped (slice buf (base + lastPos) (textSize - lastPos)).
Proof.
  intros Hbase Hfit Hmax. induction fuel as [|f IH]; intros lastPos sh Hpos Hfuel; [lia|].
  cbn [escapeLoop].
  assert (Hplain : forall n, 0 <= n ->
            (forall j, lastPos <= j < lastPos + n ->
                       existsb (Ascii.eqb (at_ buf (base + j))) pyEscapes = false) ->
            forall c, In c (slice buf (base + lastPos) n) -> isEscaped c = false).
  { intros n Hn Hall c Hin.
    destruct (In_slice buf (base + lastPos) n c ltac:(lia) Hin) as (j & Hj & ->).
    replace j with (base + (j - base)) by lia. apply Hall. lia. }
  destruct (findFirstOf_spec (fun i => at_ buf (base + i)) textSize pyEscapes lastPos Hpos Hmax)
    as [(Hnone & Hall)|(Hin & Hat & Hall)].
  - rewrite Hnone, Z.eqb_refl. cbn [addChunk sh_arena]. f_equal.
    rewrite <- (app_nil_r (slice buf (base + lastPos) (textSize - lastPos))) at 2.
    rewrite escaped_plain_app; [cbn [escaped]; rewrite app_nil_r; reflexivity|].
    apply Hplain; [lia|]. intros j Hj. apply Hall. lia.
  - set (findPos := findFirstOf _ textSize pyEscapes lastPos) in *.
    destruct (Z.eqb_spec findPos UINT_MAX) as [E|_]; [lia|].
    rewrite IH by lia.
    rewrite addEscaped_spec by (try assumption; lia).
    cbn [addChunk sh_arena]. rewrite <- app_assoc. f_equal.
    replace (textSize - lastPos) with ((findPos - lastPos) + (textSize - findPos)) by lia.
    rewrite slice_split by lia.
    replace (base + lastPos + (findPos - lastPos)) with (base + findPos) by lia.
    symmetry. apply escaped_plain_app.
    apply Hplain; [lia|]. intros j Hj. apply Hall. lia.
Qed.

(** The text written for [r] starts with a character of [r] left as it
    is, or with an escape. *)
Lemma escaped_view (r : list ascii) :
  r = []
  \/ (exists c r', r = c :: r' /\ isEscaped c = false /\ escaped r = c :: escaped r')
  \/ (exists e out r2, In (e, out) escTable /\ r = out ++ r2
                       /\ escaped r = BACKSLASH :: e :: escaped r2).
Proof.
  destruct r as [|c r']; [left; reflexivity|]. right.
  destruct (isEscaped c) eqn:Hesc.
  - right. unfold isEscaped, pyEscapes in Hesc. cbn [existsb] in Hesc.
    destruct (Ascii.eqb_spec c BACKSLASH) as [->|_].
    + destruct r' as [|n r''].
      * exists BACKSLASH, [BACKSLASH], []. split; [cbn; tauto|]. split; reflexivity.
      * destruct (negb (Ascii.eqb n "u"%char) && negb (Ascii.eqb n "U"%char)
                  && negb (Ascii.eqb n "x"%char)) eqn:Hn.
        -- exists BACKSLASH, [BACKSLASH], (n :: r''). split; [cbn; tauto|].
           split; [reflexivity|].
           change (escaped (BACKSLASH :: n :: r''))
             with ((if negb (Ascii.eqb n "u"%char) && negb (Ascii.eqb n "U"%char)
                       && negb (Ascii.eqb n "x"%char)
                    then [BACKSLASH; BACKSLASH] else [BACKSLASH]) ++ escaped (n :: r'')).
           rewrite Hn. reflexivity.
        -- assert (Hx : n = "u"%char \/ n = "U"%char \/ n = "x"%char).
           { destruct (Ascii.eqb_spec n "u"%char); [tauto|].
             destruct (Ascii.eqb_spec n "U"%char); [tauto|].
             destruct (Ascii.eqb_spec n "x"%char); [tauto|]. discriminate Hn. }
           exists n, [BACKSLASH; n], r''. split.
           { destruct Hx as [-> | [-> | ->] ]; cbn; tauto. }
           split; [reflexivity|].
           change (escaped (BACKSLASH :: n :: r''))
             with ((if negb (Ascii.eqb n "u"%char) && negb (Ascii.eqb n "U"%char)
                       && negb (Ascii.eqb n "x"%char)
                    then [BACKSLASH; BACKSLASH] else [BACKSLASH]) ++ escaped (n :: r'')).
           rewrite Hn. cbn [app]. f_equal. apply escaped_plain_cons.
           destruct Hx as [-> | [-> | ->] ]; reflexivity.
    + destruct (Ascii.eqb_spec c LF) as [->|_].
      { exists "n"%char, [LF], r'. split; [cbn; tauto|]. split; reflexivity. }
      destruct (Ascii.eqb_spec c CR) as [->|_].
      { exists "r"%char, [CR], r'. split; [cbn; tauto|]. split; reflexivity. }
      destruct (Ascii.eqb_spec c TAB) as [->|_].
      { exists "t"%char, [TAB], r'. split; [cbn; tauto|]. split; reflexivity. }
      destruct (Ascii.eqb_spec c DQUOTE) as [->|_].
      { exists DQUOTE, [DQUOTE], r'. split; [cbn; tauto|]. split; reflexivity. }
      discriminate Hesc.
  - left. exists c, r'. split; [reflexivity|]. split; [exact Hesc|].
    apply escaped_plain_cons. exact Hesc.
Qed.

(** One step of the scan on an escape of the table. *)
Lemma doubleQuoteScan_escape (e : ascii) (out : list ascii) :
  In (e, out) escTable ->
  forall (f : nat) (text : list ascii) (endIdx lineEndIdx chunkStartIdx : Z)
         (sh : StringHelper),
    at_ text lineEndIdx = BACKSLASH -> at_ text (lineEndIdx + 1) = e ->
    lineEndIdx + 1 < endIdx ->
    exists sh3,
      doubleQuoteScan (S f) text endIdx lineEndIdx chunkStartIdx false sh
      = doubleQuoteScan f text endIdx (lineEndIdx + 1 + 1) (lineEndIdx + 1 + 1) false sh3
      /\ sh_arena sh3
         = sh_arena sh ++ slice text chunkStartIdx (lineEndIdx - chunkStartIdx) ++ out
      /\ chunks sh3 = chunks sh /\ startLineIdx sh3 = startLineIdx sh.
Proof.
  intros Hin f text endIdx lineEndIdx chunkStartIdx sh Hat Hat1 Hlt.
  assert (Hsh2 : exists sh2,
             (if chunkStartIdx <? lineEndIdx
              then addChunk (slice text chunkStartIdx (lineEndIdx - chunkStartIdx)) sh
              else sh) = sh2
             /\ sh_arena sh2
                = sh_arena sh ++ slice text chunkStartIdx (lineEndIdx - chunkStartIdx)
             /\ chunks sh2 = chunks sh /\ startLineIdx sh2 = startLineIdx sh).
  { eexists. split; [reflexivity|].
    destruct (Z.ltb_spec chunkStartIdx lineEndIdx) as [H|H].
    - repeat split.
    - rewrite slice_none by lia. rewrite app_nil_r. repeat split. }
  destruct Hsh2 as (sh2 & Hsh2 & Ha2 & Hc2 & Hs2).
  cbn [doubleQuoteScan]. rewrite Hat, Hat1.
  destruct (Z.ltb_spec lineEndIdx endIdx) as [_|Hge]; [|lia].
  destruct (Z.ltb_spec (lineEndIdx + 1) endIdx) as [_|Hge]; [|lia].
  change (negb (isEol BACKSLASH)) with true.
  change (negb (Ascii.eqb BACKSLASH DQUOTE)) with true.
  change (negb (Ascii.eqb BACKSLASH BACKSLASH)) with false.
  cbn [andb]. cbv iota beta. rewrite Hsh2.
  unfold escTable in Hin. cbn [In] in Hin.
  repeat (destruct Hin as [Hin|Hin]; [injection Hin as <- <-|]); try contradiction.
  all: cbv [Ascii.eqb Bool.eqb isEol DQUOTE BACKSLASH LF CR TAB andb orb].
  all: eexists; split; [reflexivity|].
  all: cbn [addChar sh_arena chunks startLineIdx]; rewrite Ha2, Hc2, Hs2, <- ?app_assoc.
  all: repeat split.
Qed.

Lemma escTable_out (e : ascii) (out : list ascii) :
  In (e, out) escTable -> (0 < List.length out)%nat.
Proof.
  unfold escTable. cbn [In].
  intros H. repeat (destruct H as [H|H]; [injection H as <- <-; cbn; lia|]). contradiction.
Qed.

(** The scan of the line of a double-quoted scalar: over the text written
    for [r] it stops on the closing quote, and what it has added to the
    helper, with the chunk left to add, are the characters of [r]. *)
Lemma doubleQuoteScan_escaped (n : nat) :
  forall (r : list ascii), (List.length r <= n)%nat ->
  forall (fuel : nat) (text pre c0 : list ascii) (lineEndIdx chunkStartIdx : Z)
         (sh : StringHelper),
    (List.length (escaped r) < fuel)%nat ->
    text = pre ++ c0 ++ escaped r ++ [DQUOTE] ->
    lineEndIdx = len pre + len c0 -> chunkStartIdx = len pre ->
    exists chunkStart sh',
      doubleQuoteScan fuel text (len text) lineEndIdx chunkStartIdx false sh
      = (len text - 1, chunkStart, false, sh')
      /\ 0 <= chunkStart <= len text - 1
      /\ sh_arena sh' ++ slice text chunkStart (len text - 1 - chunkStart)
         = sh_arena sh ++ c0 ++ r
      /\ chunks sh' = chunks sh /\ startLineIdx sh' = startLineIdx sh.
Proof.
  induction n as [|n IH]; intros r Hn fuel text pre c0 lineEndIdx chunkStartIdx sh
    Hfuel Htext Hline Hchunk.
  all: pose proof (len_nonneg pre) as Hp0; pose proof (len_nonneg c0) as Hc0.
  all: destruct fuel as [|f]; [inversion Hfuel|].
  all: destruct (escaped_view r) as [->|[(c & r' & -> & Hplain & Hesc)
                                         |(e & out & r2 & Hin & -> & Hesc)]].
  (* the closing quote *)
  1, 4: cbn [escaped app] in Htext;
    assert (Hlen : len text = len pre + len c0 + 1) by (rewrite Htext; lens);
    assert (Hat : at_ text lineEndIdx = DQUOTE)
      by (apply (at_after text (pre ++ c0) DQUOTE []);
          [rewrite Htext, <- app_assoc; reflexivity|lens]);
    cbn [doubleQuoteScan]; rewrite Hat, Ascii.eqb_refl; cbn [negb]; rewrite andb_false_r;
    exists chunkStartIdx, sh; split; [f_equal; f_equal; f_equal; lia|];
    split; [lia|]; split; [|split; reflexivity];
    rewrite app_nil_r; f_equal;
    apply (slice_after text pre c0 [DQUOTE]); [exact Htext|lia|lia].
  (* no character left although the list is not empty *)
  1, 2: cbn [List.length] in Hn; try rewrite length_app in Hn;
    try (pose proof (escTable_out e out Hin)); lia.
  - (* a character left as it is *)
    rewrite Hesc in Htext, Hfuel. cbn [List.length] in Hfuel, Hn.
    pose proof (len_nonneg (escaped r')) as Hd0.
    assert (Hlen : len text = len pre + len c0 + 1 + len (escaped r') + 1)
      by (rewrite Htext; lens).
    assert (Hat : at_ text lineEndIdx = c).
    { apply (at_after text (pre ++ c0) c (escaped r' ++ [DQUOTE]));
        [rewrite Htext, <- app_assoc; reflexivity|lens]. }
    unfold isEscaped, pyEscapes in Hplain. cbn [existsb] in Hplain.
    destruct (Ascii.eqb c BACKSLASH) eqn:E1; [discriminate Hplain|].
    destruct (Ascii.eqb c LF) eqn:E2; [discriminate Hplain|].
    destruct (Ascii.eqb c CR) eqn:E3; [discriminate Hplain|].
    destruct (Ascii.eqb c TAB) eqn:E4; [discriminate Hplain|].
    destruct (Ascii.eqb c DQUOTE) eqn:E5; [discriminate Hplain|].
    destruct (IH r' ltac:(lia) f text pre (c0 ++ [c]) (lineEndIdx + 1) chunkStartIdx sh
                ltac:(lia))
      as (chunkStart & sh' & Hrun & Hrange & Harena & Hchunks & Hstart).
    + rewrite Htext, <- !app_assoc. reflexivity.
    + lens.
    + exact Hchunk.
    + cbn [doubleQuoteScan]. rewrite Hat. unfold isEol. rewrite E1, E2, E3, E5.
      destruct (Z.ltb_spec lineEndIdx (len text)) as [_|Hge]; [|lia].
      cbn [andb negb orb].
      exists chunkStart, sh'. split; [exact Hrun|]. split; [exact Hrange|].
      split; [|split; assumption].
      rewrite Harena, <- !app_assoc. reflexivity.
  - (* an escape *)
    rewrite Hesc in Htext, Hfuel. cbn [List.length] in Hfuel.
    rewrite length_app in Hn. pose proof (escTable_out e out Hin) as Hout.
    pose proof (len_nonneg (escaped r2)) as Hd0.
    assert (Hlen : len text = len pre + len c0 + 2 + len (escaped r2) + 1)
      by (rewrite Htext; lens).
    assert (Hat : at_ text lineEndIdx = BACKSLASH).
    { apply (at_after text (pre ++ c0) BACKSLASH (e :: escaped r2 ++ [DQUOTE]));
        [rewrite Htext, <- app_assoc; reflexivity|lens]. }
    assert (Hat1 : at_ text (lineEndIdx + 1) = e).
    { apply (at_after text (pre ++ c0 ++ [BACKSLASH]) e (escaped r2 ++ [DQUOTE]));
        [rewrite Htext, <- !app_assoc; reflexivity|lens]. }
    destruct (doubleQuoteScan_escape e out Hin f text (len text) lineEndIdx chunkStartIdx sh
                Hat Hat1 ltac:(lia))
      as (sh3 & Hstep & Ha3 & Hc3 & Hs3).
    assert (Hslice : slice text chunkStartIdx (lineEndIdx - chunkStartIdx) = c0).
    { apply (slice_after text pre c0 (BACKSLASH :: e :: escaped r2 ++ [DQUOTE]));
        [exact Htext|lia|lia]. }
    rewrite Hslice in Ha3.
    destruct (IH r2 ltac:(lia) f text (pre ++ c0 ++ [BACKSLASH; e]) [] (lineEndIdx + 1 + 1)
                (lineEndIdx + 1 + 1) sh3 ltac:(lia))
      as (chunkStart & sh' & Hrun & Hrange & Harena & Hchunks & Hstart).
    + rewrite Htext, <- !app_assoc. reflexivity.
    + lens.
    + lens.
    + rewrite Hstep. exists chunkStart, sh'. split; [exact Hrun|]. split; [exact Hrange|].
      split; [|split; [rewrite Hchunks, Hc3|rewrite Hstart, Hs3]; reflexivity].
      rewrite Harena, Ha3. cbn [app]. rewrite <- !app_assoc. reflexivity.
Qed.


(** The line of a double-quoted scalar that holds the whole scalar. *)
Lemma lineDoubleQuote_escaped (text pre r : list ascii) (initIdx lineNbr : Z)
    (sh : StringHelper) :
  text = pre ++ escaped r ++ [DQUOTE] -> chunks sh = [] ->
  exists sh',
    lineDoubleQuote text (len text) initIdx lineNbr (len pre) sh
    = Ret (mkLineResult sh' (len text) true false)
    /\ sh_arena sh' = sh_arena sh ++ r
    /\ chunks sh' = [] /\ startLineIdx sh' = startLineIdx sh.
Proof.
  intros Htext Hchunks.
  assert (Hlen : len text = len pre + len (escaped r) + 1) by (rewrite Htext; lens).
  pose proof (len_nonneg pre) as Hp0. pose proof (len_nonneg (escaped r)) as Hd0.
  destruct (doubleQuoteScan_escaped (List.length r) r (Nat.le_refl _)
              (S (Z.to_nat (len text - len pre))) text pre [] (len pre) (len pre) sh)
    as (chunkStart & sh1 & Hrun & Hrange & Harena & Hch & Hst).
  { unfold len in *. lia. }
  { exact Htext. }
  { lens. }
  { reflexivity. }
  unfold lineDoubleQuote. unfold empty. rewrite Hchunks. cbn [negb]. rewrite Hrun.
  cbn [andb].
  destruct (Z.leb_spec (len text) (len text - 1)) as [Hle|_]; [lia|].
  assert (Hat : at_ text (len text - 1) = DQUOTE).
  { apply (at_after text (pre ++ escaped r) DQUOTE []).
    - rewrite Htext, <- app_assoc. reflexivity.
    - lens. }
  rewrite Hat, Ascii.eqb_refl. cbn [negb andb].
  assert (Hskip : skipWhileNoBound text isSpaceOrTab (len text - 1 + 1) = len text).
  { unfold skipWhileNoBound. replace (len text - (len text - 1 + 1)) with 0 by lia.
    cbn [Z.to_nat scanFwd]. lia. }
  rewrite Hskip.
  eexists. split; [reflexivity|].
  cbn [app] in Harena.
  destruct (Z.ltb_spec chunkStart (len text - 1)) as [Hlt|Hge].
  - cbn [addChunk sh_arena chunks startLineIdx]. rewrite Harena, Hch, Hst, Hchunks.
    repeat split.
  - rewrite slice_none in Harena by lia. rewrite app_nil_r in Harena.
    rewrite Harena, Hch, Hst, Hchunks. repeat split.
Qed.

Lemma escaped_spaces (k : nat) (r : list ascii) :
  escaped (repeat SP k ++ r) = repeat SP k ++ escaped r.
Proof.
  apply escaped_plain_app. intros c Hin. apply repeat_spec in Hin. rewrite Hin. reflexivity.
Qed.

(** The first character after the spaces that follow the opening quote. *)
Lemma escaped_head (r : list ascii) :
  (forall r', r <> SP :: r') ->
  exists c rest, escaped r ++ [DQUOTE] = c :: rest /\ c <> SP /\ c <> TAB.
Proof.
  intros Hr.
  destruct (escaped_view r) as [->|[(c & r' & -> & Hplain & Hesc)
                                    |(e & out & r2 & _ & _ & Hesc)]].
  - exists DQUOTE, []. split; [reflexivity|]. split; discriminate.
  - exists c, (escaped r' ++ [DQUOTE]). rewrite Hesc. split; [reflexivity|]. split.
    + intros ->. apply (Hr r'). reflexivity.
    + intros ->. discriminate Hplain.
  - exists BACKSLASH, (e :: escaped r2 ++ [DQUOTE]). rewrite Hesc.
    split; [reflexivity|]. split; discriminate.
Qed.
(** ** The token of a quoted scalar that holds on one line *)

Section QuotedToken.

(** [text] ends with a scalar between two [quote] characters: after the
    opening quote come [k] spaces and the characters [body], which the
    line function of the quote reads as [r]; [c] is the first character
    after the [k] spaces. *)
Variables (text pre body r rest : list ascii) (j k : nat) (quote c : ascii).

Hypothesis Hquote : quote = SQUOTE \/ quote = DQUOTE.
Hypothesis Htext :
  text = pre ++ repeat SP j ++ quote :: repeat SP k ++ body ++ [quote].
Hypothesis Hhead : body ++ [quote] = c :: rest.
Hypothesis Hc : c <> SP.

(** The position of the opening quote. *)
Let q : Z := len pre + Z.of_nat j.

Hypothesis Hline :
  forall (initIdx lineNbr : Z) (sh : StringHelper),
    chunks sh = [] ->
    exists sh',
      (if Ascii.eqb quote SQUOTE
       then lineSingleQuote text (len text) initIdx lineNbr (q + 1 + Z.of_nat k) sh
       else lineDoubleQuote text (len text) initIdx lineNbr (q + 1 + Z.of_nat k) sh)
      = Ret (mkLineResult sh' (len text) true false)
      /\ sh_arena sh' = sh_arena sh ++ r
      /\ chunks sh' = [] /\ startLineIdx sh' = startLineIdx sh.

Lemma quoted_len : len text = q + 1 + Z.of_nat k + len body + 1.
Proof. unfold q. rewrite Htext. lens. Qed.

Lemma quoted_at : at_ text q = quote.
Proof.
  apply (at_after text (pre ++ repeat SP j) quote (repeat SP k ++ body ++ [quote])).
  - rewrite Htext, <- app_assoc. reflexivity.
  - unfold q. lens.
Qed.

Lemma quoted_start (p : ascii -> bool) :
  p SP = true -> p quote = false -> skipWhile text (len text) p (len pre) = q.
Proof.
  intros HpSP Hpq. pose proof quoted_len as Hlen. pose proof (len_nonneg body).
  apply (skipWhile_spaces p text pre (repeat SP k ++ body ++ [quote]) j quote);
    [exact HpSP|exact Hpq|exact Htext|fold q; lia|reflexivity].
Qed.

Lemma quoted_nonSpace :
  skipWhile text (len text) isSpace (q + 1) = q + 1 + Z.of_nat k.
Proof.
  pose proof quoted_len as Hlen. pose proof (len_nonneg body).
  assert (Hq1 : q + 1 = len (pre ++ repeat SP j ++ [quote])) by (unfold q; lens).
  rewrite Hq1 at 2.
  apply (skipWhile_spaces isSpace text (pre ++ repeat SP j ++ [quote]) rest k c).
  - reflexivity.
  - unfold isSpace. destruct (Ascii.eqb_spec c SP); [contradiction|reflexivity].
  - rewrite Htext, <- Hhead, <- !app_assoc. reflexivity.
  - rewrite <- Hq1. lia.
  - exact Hq1.
Qed.

Lemma quoted_first_char (isNewLine : bool) :
  (isNewLine = true -> c <> TAB) ->
  isNewLine && Ascii.eqb (at_ text (q + 1 + Z.of_nat k)) TAB = false.
Proof.
  intros Htab. destruct isNewLine; [|reflexivity]. cbn [andb].
  assert (Hat : at_ text (q + 1 + Z.of_nat k) = c).
  { apply (at_after text (pre ++ repeat SP j ++ quote :: repeat SP k) c rest).
    - rewrite Htext, <- Hhead, <- !app_assoc. cbn [app]. rewrite <- ?app_assoc. reflexivity.
    - unfold q. lens. }
  rewrite Hat. destruct (Ascii.eqb_spec c TAB) as [E|_]; [|reflexivity].
  exfalso. apply (Htab eq_refl). exact E.
Qed.

(** The line loop reads the whole scalar as one line. *)
Lemma lineLoop_quoted (f : nat) (initIdx col lineNbr : Z) (isNewLine : bool) :
  (isNewLine = true -> c <> TAB) ->
  exists sh' col',
    lineLoop (S f) text (len text) initIdx isNewLine quote
      (mkLineLoop (addChunk (repeat SP k) (mkStringHelper [] [] 0)) (q + 1) col lineNbr 0
         false false)
    = Ret (mkLineLoop sh' (len text) col' lineNbr 0 false false)
    /\ sh_arena sh' = repeat SP k ++ r
    /\ chunks sh' = [mkLineChunk 0 (len (repeat SP k ++ r))].
Proof.
  intros Htab. pose proof quoted_len as Hlen. pose proof (len_nonneg body) as Hd0.
  assert (Hq0 : 0 <= q) by (unfold q; pose proof (len_nonneg pre); lia).
  destruct (Hline initIdx lineNbr (addChunk (repeat SP k) (mkStringHelper [] [] 0)) eq_refl)
    as (sh1 & Hrun & Harena & Hchunks & Hstart).
  assert (Hdispatch :
            (if Ascii.eqb quote SQUOTE
             then lineSingleQuote text (len text) initIdx lineNbr (q + 1 + Z.of_nat k)
                    (addChunk (repeat SP k) (mkStringHelper [] [] 0))
             else if Ascii.eqb quote DQUOTE
             then lineDoubleQuote text (len text) initIdx lineNbr (q + 1 + Z.of_nat k)
                    (addChunk (repeat SP k) (mkStringHelper [] [] 0))
             else if Ascii.eqb quote "|"%char
             then Ret (lineLiteral text (len text) (q + 1) (q + 1 + Z.of_nat k)
                         (col + (q + 1 + Z.of_nat k - (q + 1))) 0
                         (addChunk (repeat SP k) (mkStringHelper [] [] 0)))
             else if Ascii.eqb quote ">"%char
             then Ret (lineFolded text (len text) (q + 1) (q + 1 + Z.of_nat k)
                         (col + (q + 1 + Z.of_nat k - (q + 1))) 0 false
                         (addChunk (repeat SP k) (mkStringHelper [] [] 0)))
             else Ret (linePlain text (len text) (q + 1) (q + 1 + Z.of_nat k)
                         (col + (q + 1 + Z.of_nat k - (q + 1))) 0
                         (addChunk (repeat SP k) (mkStringHelper [] [] 0))))
            = Ret (mkLineResult sh1 (len text) true false)).
  { rewrite <- Hrun. destruct Hquote as [E|E]; rewrite E; reflexivity. }
  cbn [lineLoop ll_idx ll_sh ll_colNbr ll_lineNbr ll_targetIndent ll_isKey
       ll_indentedFoldedLine].
  destruct (Z.ltb_spec (q + 1) (len text)) as [_|Hge]; [|lia]. cbn [negb].
  rewrite quoted_nonSpace.
  destruct (Z.ltb_spec (q + 1 + Z.of_nat k) (len text)) as [_|Hge]; [|lia].
  rewrite andb_true_r. rewrite (quoted_first_char isNewLine Htab).
  change (0 <? 0) with false. cbn [andb].
  rewrite Hdispatch. cbn [bind lr_isEndOfStringReached lr_lineEndIdx lr_sh andb orb].
  assert (Hkey : endsAsKey text (len text) (len text) = false).
  { unfold endsAsKey. unfold at_ at 1.
    destruct (Z.ltb_spec (len text) 0) as [_|_]; [reflexivity|].
    rewrite nth_overflow by (unfold len; lia). reflexivity. }
  assert (Hgt : Ascii.eqb quote ">"%char = false)
    by (destruct Hquote as [E|E]; rewrite E; reflexivity).
  rewrite Hkey, Hgt. eexists _, _. split; [reflexivity|].
  cbn [endLine sh_arena chunks]. rewrite Harena, Hchunks, Hstart.
  cbn [addChunk sh_arena startLineIdx app]. split; [reflexivity|].
  rewrite Z.sub_0_r. reflexivity.
Qed.

(** The token of the scalar. *)
Lemma getToken_quoted (st : TokState) (parentIndent : Z) :
  ts_idx st = len pre ->
  (ts_colNbr st = 0 -> c <> TAB) ->
  len (arena (ts_context st)) + len (repeat SP k ++ r) + 1 <= UINT_MAX ->
  exists tok st',
    getToken text (len text) parentIndent st = Ret (tok, st')
    /\ type tok = TokStringValue
    /\ startColNbr tok = ts_colNbr st + Z.of_nat j
    /\ tokenText (ts_context st') tok = repeat SP k ++ r
    /\ ts_idx st' = len text
    /\ ts_lineNbr st' = ts_lineNbr st
    /\ sameButArena (ts_context st) (ts_context st')
    /\ tokenStored (ts_context st) (ts_context st') tok.
Proof.
  intros Hidx Htab Hroom.
  pose proof quoted_len as Hlen. pose proof (len_nonneg body) as Hd0.
  assert (Hq0 : 0 <= q) by (unfold q; pose proof (len_nonneg pre); lia).
  assert (Hfnp : (if ts_colNbr st =? 0 then skipWhile text (len text) isSpace (ts_idx st)
                  else skipWhile text (len text) isSpaceOrTab (ts_idx st)) = q).
  { rewrite Hidx.
    destruct (ts_colNbr st =? 0); apply quoted_start; try reflexivity;
      destruct Hquote as [E|E]; rewrite E; reflexivity. }
  destruct (lineLoop_quoted (Z.to_nat (len text - (q + 1))) (ts_idx st)
              (ts_colNbr st + (q - ts_idx st) + 1 + (q + 1 + Z.of_nat k - (q + 1)))
              (ts_lineNbr st) (ts_colNbr st =? 0))
    as (sh' & col' & Hloop & Harena & Hchunks).
  { intros E. apply Htab. apply Z.eqb_eq. exact E. }
  assert (Hq1 : Ascii.eqb quote TAB = false)
    by (destruct Hquote as [E|E]; rewrite E; reflexivity).
  assert (Hq2 : isEol quote = false) by (destruct Hquote as [E|E]; rewrite E; reflexivity).
  assert (Hq3 : Ascii.eqb quote "-"%char = false)
    by (destruct Hquote as [E|E]; rewrite E; reflexivity).
  assert (Hq4 : Ascii.eqb quote "#"%char = false)
    by (destruct Hquote as [E|E]; rewrite E; reflexivity).
  assert (Hq5 : Ascii.eqb quote SQUOTE || Ascii.eqb quote DQUOTE = true)
    by (destruct Hquote as [E|E]; rewrite E; reflexivity).
  assert (Hq6 : negb (Ascii.eqb quote SQUOTE) && negb (Ascii.eqb quote DQUOTE) = false)
    by (destruct Hquote as [E|E]; rewrite E; reflexivity).
  assert (Hq7 : Ascii.eqb quote "|"%char || Ascii.eqb quote ">"%char = false)
    by (destruct Hquote as [E|E]; rewrite E; reflexivity).
  unfold getToken. cbv zeta. rewrite Hfnp, quoted_at.
  rewrite Hq1, andb_false_r.
  destruct (Z.leb_spec (len text) q) as [Hle|_]; [lia|].
  rewrite Hq2, Hq3, Hq4, Hq5. cbn [andb bind].
  rewrite quoted_nonSpace. unfold scalarToken.
  replace (Z.to_nat (q + 1 + Z.of_nat k - (q + 1))) with k by lia.
  change (startSession (ts_sh st)) with (mkStringHelper [] [] 0).
  rewrite Hloop. cbn [bind ll_sh ll_isKey ll_colNbr ll_lineNbr ll_idx].
  unfold applyChomp. rewrite Hq6. cbn [andb].
  destruct (storeChunks quote SP sh' (ts_context st)) as [[i n] ctx'] eqn:Hstore.
  destruct (storeChunks_context _ _ _ _ _ _ _ Hstore) as (Hsame & Hstored).
  exists (mkToken true TokStringValue (ts_colNbr st + (q - ts_idx st)) i n),
         (mkTokState ctx' sh' col' (ts_lineNbr st) (len text)).
  split; [reflexivity|]. split; [reflexivity|].
  split; [cbn [startColNbr]; unfold q; lia|].
  split; [|split; [reflexivity|split; [reflexivity|split; [exact Hsame|]]]].
  - cbn [ts_context]. unfold tokenText. cbn [stringIdx stringSize].
    unfold storeChunks in Hstore. rewrite Hchunks in Hstore. cbn [fold_left] in Hstore.
    unfold chunkText in Hstore. cbn [startIdx size] in Hstore. rewrite Harena in Hstore.
    set (a := repeat SP k ++ r) in *.
    assert (Ha : slice a 0 (len a) = a).
    { apply (slice_after a [] a []); [rewrite app_nil_r; reflexivity|reflexivity|reflexivity]. }
    rewrite Ha, Hq7 in Hstore. cbn [andb] in Hstore.
    unfold commitSession, addToSession, startStringSession in Hstore.
    cbn [setArena arena sessionStartIdx elements _entries _entryQty _maxEntryQty] in Hstore.
    injection Hstore as <- <- <-. cbn [arena].
    pose proof (len_nonneg (arena (ts_context st))) as Hn0. pose proof (len_nonneg a) as Ha0.
    assert (Hu : u32 (len (arena (ts_context st))) = len (arena (ts_context st))).
    { apply u32_id. unfold UINT_MAX in Hroom. change (2 ^ 32) with 4294967296. lia. }
    rewrite Hu.
    assert (Hsz : u32 (len ((arena (ts_context st) ++ a) ++ [NUL])
                       - len (arena (ts_context st))) = len a + 1).
    { replace (len ((arena (ts_context st) ++ a) ++ [NUL]) - len (arena (ts_context st)))
        with (len a + 1) by lens.
      apply u32_id. unfold UINT_MAX in Hroom. change (2 ^ 32) with 4294967296. lia. }
    rewrite Hsz. apply (slice_after _ (arena (ts_context st)) a [NUL]).
    + rewrite <- app_assoc. reflexivity.
    + reflexivity.
    + lia.
  - exact Hstored.
Qed.

End QuotedToken.

Lemma tabAfterSpaces_spec (k : nat) (r : list ascii) :
  tabAfterSpaces (repeat SP k ++ r) = false -> forall r', r <> TAB :: r'.
Proof.
  induction k as [|k IH]; cbn [repeat app tabAfterSpaces].
  - intros H r' ->. cbn in H. discriminate H.
  - exact IH.
Qed.

(** X19: a string written by [emitScalar] in single quotes is read back
    by [getToken] as the same string. For the string [s] of the value [v],
    without carriage return, for which the emitter selects the
    single-quoted style, the tokenizer, placed where the scalar was written
    (and, at the start of a line, if the first character of [s] after its
    leading spaces is not a tabulation), returns one string-value token
    whose text is [s] and stops at the end of the written text. *)
Theorem single_quoted_round_trip (ctx : Context) (v : Element) (s : list ascii)
    (indent_ parentIndent : Z) (lastIsKey_ : bool) (sh : StringHelper) (st : TokState) :
  0 <= getStringIdx v -> getStringSize v - 1 = len s ->
  getStringIdx v + len s <= len (arena ctx) ->
  slice (arena ctx) (getStringIdx v) (len s) = s ->
  scalarStyle (getString ctx (getStringIdx v)) (len s) = SingleQuoted ->
  hasChar CR s = false ->
  (ts_colNbr st = 0 -> tabAfterSpaces s = false) ->
  ts_idx st = len (sh_arena sh) ->
  len (arena (ts_context st)) + len s + 1 <= UINT_MAX ->
  exists tok st',
    getToken (sh_arena (emitScalar ctx v indent_ lastIsKey_ sh))
      (len (sh_arena (emitScalar ctx v indent_ lastIsKey_ sh))) parentIndent st
    = Ret (tok, st')
    /\ type tok = TokStringValue
    /\ tokenText (ts_context st') tok = s
    /\ ts_idx st' = len (sh_arena (emitScalar ctx v indent_ lastIsKey_ sh))
    /\ ts_lineNbr st' = ts_lineNbr st
    /\ sameButArena (ts_context st) (ts_context st').
Proof.
  intros Hbase Hsize Hfit Hs Hstyle HCR Htab Hidx Hroom.
  pose proof (len_nonneg s) as Hs0.
  pose proof (len_nonneg (arena (ts_context st))) as Ha0.
  assert (HnoCR : ~ In CR s).
  { intros Hin. apply hasChar_In in Hin. rewrite Hin in HCR. discriminate HCR. }
  assert (HnoLF : ~ In LF s).
  { destruct s as [|c0 s0] eqn:Es; [intros []|]. rewrite <- Es in *.
    intros Hin. apply hasChar_In in Hin.
    rewrite (scalarStyle_scan (getString ctx (getStringIdx v)) s) in Hstyle.
    - rewrite Hin in Hstyle. cbn [negb] in Hstyle. rewrite andb_false_r in Hstyle.
      discriminate Hstyle.
    - rewrite Es. discriminate.
    - intros i Hi. unfold getString.
      transitivity (at_ (slice (arena ctx) (getStringIdx v) (len s)) i);
        [symmetry; apply at_slice; lia|rewrite Hs; reflexivity]. }
  (* what the emitter writes *)
  assert (Hout : sh_arena (emitScalar ctx v indent_ lastIsKey_ sh)
                 = sh_arena sh ++ repeat SP (if lastIsKey_ then 1 else 0)
                   ++ SQUOTE :: doubled s ++ [SQUOTE]).
  { unfold emitScalar. rewrite Hsize, Hstyle. cbn [addChar sh_arena].
    rewrite (singleQuoteLoop_doubled (arena ctx) (getStringIdx v) (len s)) by
      (try assumption; try lia).
    rewrite Z.add_0_r, Z.sub_0_r, Hs.
    destruct lastIsKey_; cbn [addChar sh_arena repeat app]; rewrite <- !app_assoc;
      reflexivity. }
  destruct (leading_spaces s) as (k & r & Hsplit & Hr).
  assert (HLFr : ~ In LF r).
  { intros H. apply HnoLF. rewrite Hsplit. apply in_or_app. right. exact H. }
  assert (HCRr : ~ In CR r).
  { intros H. apply HnoCR. rewrite Hsplit. apply in_or_app. right. exact H. }
  assert (Htext : sh_arena (emitScalar ctx v indent_ lastIsKey_ sh)
                  = sh_arena sh ++ repeat SP (if lastIsKey_ then 1 else 0)
                    ++ SQUOTE :: repeat SP k ++ doubled r ++ [SQUOTE]).
  { rewrite Hout, Hsplit, doubled_spaces, <- app_assoc. reflexivity. }
  destruct (quoted_head r Hr) as (c & rest & Hhead & Hc & Hctab).
  destruct (getToken_quoted _ (sh_arena sh) (doubled r) r rest
              (if lastIsKey_ then 1%nat else 0%nat) k SQUOTE c (or_introl eq_refl) Htext Hhead Hc)
    with (st := st) (parentIndent := parentIndent)
    as (tok & st' & Hrun & Htype & _ & Htok & Hend & Hline & Hsame & _).
  - intros initIdx lineNbr sh0 Hsh0. change (Ascii.eqb SQUOTE SQUOTE) with true. cbv iota.
    replace (len (sh_arena sh) + Z.of_nat (if lastIsKey_ then 1%nat else 0%nat) + 1 + Z.of_nat k)
      with (len (sh_arena sh ++ repeat SP (if lastIsKey_ then 1 else 0)
                 ++ SQUOTE :: repeat SP k)) by lens.
    apply lineSingleQuote_doubled; [exact HLFr|exact HCRr| |exact Hsh0].
    rewrite Htext, <- !app_assoc. cbn [app]. rewrite <- ?app_assoc. reflexivity.
  - exact Hidx.
  - intros E. apply Hctab. apply (tabAfterSpaces_spec k r). rewrite <- Hsplit. exact (Htab E).
  - rewrite <- Hsplit. exact Hroom.
  - exists tok, st'. rewrite <- Hsplit in Htok.
    exact (conj Hrun (conj Htype (conj Htok (conj Hend (conj Hline Hsame))))).
Qed.

Lemma single_quoted_round_trip_witness :
  exists tok st',
    getToken
      (sh_arena (emitScalar (mkContext [Element_string VALUE 0 7] (chars " it's " ++ [NUL]) 0 [] 0 0)
                   (Element_string VALUE 0 7) 0 false (mkStringHelper [] [] 0)))
      (len (sh_arena (emitScalar
                        (mkContext [Element_string VALUE 0 7] (chars " it's " ++ [NUL]) 0 [] 0 0)
                        (Element_string VALUE 0 7) 0 false (mkStringHelper [] [] 0))))
      (-1) (mkTokState (mkContext [] [] 0 [] 0 0) (mkStringHelper [] [] 0) 0 1 0)
    = Ret (tok, st')
    /\ type tok = TokStringValue
    /\ tokenText (ts_context st') tok = chars " it's "
    /\ ts_idx st'
       = len (sh_arena (emitScalar
                          (mkContext [Element_string VALUE 0 7] (chars " it's " ++ [NUL]) 0 [] 0 0)
                          (Element_string VALUE 0 7) 0 false (mkStringHelper [] [] 0)))
    /\ ts_lineNbr st' = 1
    /\ sameButArena (mkContext [] [] 0 [] 0 0) (ts_context st').
Proof.
  apply (single_quoted_round_trip
           (mkContext [Element_string VALUE 0 7] (chars " it's " ++ [NUL]) 0 [] 0 0)
           (Element_string VALUE 0 7) (chars " it's ") 0 (-1) false (mkStringHelper [] [] 0)
           (mkTokState (mkContext [] [] 0 [] 0 0) (mkStringHelper [] [] 0) 0 1 0)).
  - vm_compute. discriminate.
  - reflexivity.
  - vm_compute. discriminate.
  - reflexivity.
  - reflexivity.
  - reflexivity.
  - intros _. reflexivity.
  - reflexivity.
  - vm_compute. discriminate.
Defined.


(** X20: a string written by [emitScalar] in double quotes, the style of
    the strings that hold a line feed, is read back by [getToken] as the
    same string, whatever its characters: the tokenizer, placed where the
    scalar was written, returns one string-value token whose text is the
    string [s] of the value [v], stops at the end of the written text and
    stays on the same line. *)
Theorem double_quoted_round_trip (ctx : Context) (v : Element) (s : list ascii)
    (indent_ parentIndent : Z) (lastIsKey_ : bool) (sh : StringHelper) (st : TokState) :
  0 <= getStringIdx v -> getStringSize v - 1 = len s ->
  getStringIdx v + len s <= len (arena ctx) ->
  slice (arena ctx) (getStringIdx v) (len s) = s ->
  scalarStyle (getString ctx (getStringIdx v)) (len s) = DoubleQuoted ->
  ts_idx st = len (sh_arena sh) ->
  len (arena (ts_context st)) + len s + 1 <= UINT_MAX ->
  exists tok st',
    getToken (sh_arena (emitScalar ctx v indent_ lastIsKey_ sh))
      (len (sh_arena (emitScalar ctx v indent_ lastIsKey_ sh))) parentIndent st
    = Ret (tok, st')
    /\ type tok = TokStringValue
    /\ tokenText (ts_context st') tok = s
    /\ ts_idx st' = len (sh_arena (emitScalar ctx v indent_ lastIsKey_ sh))
    /\ ts_lineNbr st' = ts_lineNbr st
    /\ sameButArena (ts_context st) (ts_context st').
Proof.
  intros Hbase Hsize Hfit Hs Hstyle Hidx Hroom.
  pose proof (len_nonneg s) as Hs0.
  pose proof (len_nonneg (arena (ts_context st))) as Ha0.
  (* what the emitter writes *)
  assert (Hout : sh_arena (emitScalar ctx v indent_ lastIsKey_ sh)
                 = sh_arena sh ++ repeat SP (if lastIsKey_ then 1 else 0)
                   ++ DQUOTE :: escaped s ++ [DQUOTE]).
  { unfold emitScalar. rewrite Hsize, Hstyle. cbn [addChar sh_arena].
    rewrite (escapeLoop_escaped (arena ctx) (getStringIdx v) (len s)) by
      (try assumption; try lia).
    rewrite Z.add_0_r, Z.sub_0_r, Hs.
    destruct lastIsKey_; cbn [addChar sh_arena repeat app]; rewrite <- !app_assoc;
      reflexivity. }
  destruct (leading_spaces s) as (k & r & Hsplit & Hr).
  assert (Htext : sh_arena (emitScalar ctx v indent_ lastIsKey_ sh)
                  = sh_arena sh ++ repeat SP (if lastIsKey_ then 1 else 0)
                    ++ DQUOTE :: repeat SP k ++ escaped r ++ [DQUOTE]).
  { rewrite Hout, Hsplit, escaped_spaces, <- app_assoc. reflexivity. }
  destruct (escaped_head r Hr) as (c & rest & Hhead & Hc & Hctab).
  destruct (getToken_quoted _ (sh_arena sh) (escaped r) r rest
              (if lastIsKey_ then 1%nat else 0%nat) k DQUOTE c (or_intror eq_refl) Htext Hhead Hc)
    with (st := st) (parentIndent := parentIndent)
    as (tok & st' & Hrun & Htype & _ & Htok & Hend & Hline & Hsame & _).
  - intros initIdx lineNbr sh0 Hsh0. change (Ascii.eqb DQUOTE SQUOTE) with false. cbv iota.
    replace (len (sh_arena sh) + Z.of_nat (if lastIsKey_ then 1%nat else 0%nat) + 1 + Z.of_nat k)
      with (len (sh_arena sh ++ repeat SP (if lastIsKey_ then 1 else 0)
                 ++ DQUOTE :: repeat SP k)) by lens.
    apply lineDoubleQuote_escaped; [|exact Hsh0].
    rewrite Htext, <- !app_assoc. cbn [app]. rewrite <- ?app_assoc. reflexivity.
  - exact Hidx.
  - intros _. exact Hctab.
  - rewrite <- Hsplit. exact Hroom.
  - exists tok, st'. rewrite <- Hsplit in Htok.
    exact (conj Hrun (conj Htype (conj Htok (conj Hend (conj Hline Hsame))))).
Qed.

Lemma double_quoted_round_trip_witness :
  exists tok st',
    getToken
      (sh_arena (emitScalar
                   (mkContext [Element_string VALUE 0 9]
                      ([SP; "a"%char; LF; TAB; DQUOTE; BACKSLASH; "u"%char; BACKSLASH] ++ [NUL])
                      0 [] 0 0)
                   (Element_string VALUE 0 9) 0 false (mkStringHelper [] [] 0)))
      (len (sh_arena (emitScalar
                        (mkContext [Element_string VALUE 0 9]
                           ([SP; "a"%char; LF; TAB; DQUOTE; BACKSLASH; "u"%char; BACKSLASH]
                            ++ [NUL]) 0 [] 0 0)
                        (Element_string VALUE 0 9) 0 false (mkStringHelper [] [] 0))))
      (-1) (mkTokState (mkContext [] [] 0 [] 0 0) (mkStringHelper [] [] 0) 0 1 0)
    = Ret (tok, st')
    /\ type tok = TokStringValue
    /\ tokenText (ts_context st') tok
       = [SP; "a"%char; LF; TAB; DQUOTE; BACKSLASH; "u"%char; BACKSLASH]
    /\ ts_idx st'
       = len (sh_arena (emitScalar
                          (mkContext [Element_string VALUE 0 9]
                             ([SP; "a"%char; LF; TAB; DQUOTE; BACKSLASH; "u"%char; BACKSLASH]
                              ++ [NUL]) 0 [] 0 0)
                          (Element_string VALUE 0 9) 0 false (mkStringHelper [] [] 0)))
    /\ ts_lineNbr st' = 1
    /\ sameButArena (mkContext [] [] 0 [] 0 0) (ts_context st').
Proof.
  apply (double_quoted_round_trip
           (mkContext [Element_string VALUE 0 9]
              ([SP; "a"%char; LF; TAB; DQUOTE; BACKSLASH; "u"%char; BACKSLASH] ++ [NUL])
              0 [] 0 0)
           (Element_string VALUE 0 9)
           [SP; "a"%char; LF; TAB; DQUOTE; BACKSLASH; "u"%char; BACKSLASH]
           0 (-1) false (mkStringHelper [] [] 0)
           (mkTokState (mkContext [] [] 0 [] 0 0) (mkStringHelper [] [] 0) 0 1 0)).
  - vm_compute. discriminate.
  - reflexivity.
  - vm_compute. discriminate.
  - reflexivity.
  - reflexivity.
  - reflexivity.
  - vm_compute. discriminate.
Defined.

(** ** Plain scalars *)

Lemma at_cons_succ (c : ascii) (l : list ascii) (i : Z) :
  0 <= i -> at_ (c :: l) (i + 1) = at_ l i.
Proof.
  intros Hi. unfold at_.
  destruct (Z.ltb_spec (i + 1) 0) as [H|_]; [lia|].
  destruct (Z.ltb_spec i 0) as [H|_]; [lia|].
  replace (Z.to_nat (i + 1)) with (S (Z.to_nat i)) by lia. reflexivity.
Qed.

Lemma colonScan_at (s : list ascii) :
  colonScan s = false ->
  forall i, 0 <= i -> i + 1 < len s -> at_ s i = ":"%char ->
    Ascii.eqb (at_ s (i + 1)) SP || Ascii.eqb (at_ s (i + 1)) CR
    || Ascii.eqb (at_ s (i + 1)) LF = false.
Proof.
  induction s as [|c s IH]; intros Hscan i Hi Hlt Hat.
  - change (len (@nil ascii)) with 0 in Hlt. lia.
  - destruct s as [|d r].
    + rewrite len_cons in Hlt. change (len (@nil ascii)) with 0 in Hlt. lia.
    + cbn [colonScan] in Hscan. apply orb_false_elim in Hscan. destruct Hscan as [H0 Hrest].
      destruct (Z.eq_dec i 0) as [->|Hne].
      * change (at_ (c :: d :: r) 0) with c in Hat.
        change (at_ (c :: d :: r) (0 + 1)) with d.
        rewrite Hat in H0. exact H0.
      * replace i with ((i - 1) + 1) in Hat by lia.
        rewrite at_cons_succ in Hat by lia.
        replace (i + 1) with ((i - 1 + 1) + 1) by lia.
        rewrite (at_cons_succ c (d :: r)) by lia.
        apply IH; [exact Hrest|lia| |exact Hat].
        rewrite len_cons in Hlt. lia.
Qed.

Lemma hashScan_at (s : list ascii) :
  forall prev, hashScan prev s = false ->
  forall i, 0 <= i < len s -> at_ s i = "#"%char ->
    (i = 0 -> exists p, prev = Some p /\ p <> SP)
    /\ (0 < i -> at_ s (i - 1) <> SP).
Proof.
  induction s as [|c s IH]; intros prev Hscan i Hi Hat.
  - change (len (@nil ascii)) with 0 in Hi. lia.
  - cbn [hashScan] in Hscan. apply orb_false_elim in Hscan. destruct Hscan as [H0 Hrest].
    destruct (Z.eq_dec i 0) as [->|Hne].
    + split; [intros _|lia].
      change (at_ (c :: s) 0) with c in Hat. rewrite Hat in H0. cbn [andb Ascii.eqb] in H0.
      destruct prev as [p|]; [|discriminate H0].
      exists p. split; [reflexivity|]. intros ->. discriminate H0.
    + split; [lia|intros _].
      replace i with ((i - 1) + 1) in Hat by lia. rewrite at_cons_succ in Hat by lia.
      rewrite len_cons in Hi.
      destruct (IH (Some c) Hrest (i - 1) ltac:(lia) Hat) as (Hzero & Hpos).
      destruct (Z.eq_dec (i - 1) 0) as [E|Hne1].
      * rewrite E. change (at_ (c :: s) 0) with c.
        destruct (Hzero E) as (p & Hp & Hsp). injection Hp as <-. exact Hsp.
      * replace (i - 1) with ((i - 1 - 1) + 1) by lia. rewrite at_cons_succ by lia.
        apply Hpos. lia.
Qed.

Lemma endsWith_at (x : ascii) (s : list ascii) :
  s <> [] -> endsWith x s = Ascii.eqb (at_ s (len s - 1)) x.
Proof.
  intros Hne. destruct s as [|c r _] using rev_ind; [congruence|].
  rewrite endsWith_snoc, at_last. reflexivity.
Qed.

Lemma addChunkNoTrail_all (s : list ascii) (sh : StringHelper) :
  endsWith SP s = false -> endsWith TAB s = false ->
  addChunkNoTrail s sh = addChunk s sh.
Proof.
  unfold endsWith, addChunkNoTrail. intros Hsp Htab. f_equal.
  rewrite <- (rev_involutive s) at 2. f_equal.
  destruct (rev s) as [|x r]; [reflexivity|].
  cbn [stripTrail]. rewrite Hsp, Htab. reflexivity.
Qed.

Lemma lineLoop_done (fuel : nat) (text : list ascii) (endIdx initIdx : Z) (isNewLine : bool)
    (mlType : ascii) (s : LineLoop) :
  endIdx <= ll_idx s -> lineLoop fuel text endIdx initIdx isNewLine mlType s = Ret s.
Proof.
  intros Hge. destruct fuel; cbn [lineLoop];
    destruct (Z.ltb_spec (ll_idx s) endIdx); try lia; reflexivity.
Qed.

(** The string of the helper that holds one line is stored as it is. *)
Lemma storeChunks_single (mlType chomp : ascii) (sh : StringHelper) (ctx : Context)
    (a : list ascii) :
  sh_arena sh = a -> chunks sh = [mkLineChunk 0 (len a)] ->
  Ascii.eqb mlType "|"%char || Ascii.eqb mlType ">"%char = false ->
  len (arena ctx) + len a + 1 <= UINT_MAX ->
  forall i n ctx', storeChunks mlType chomp sh ctx = (i, n, ctx') ->
    slice (arena ctx') i (n - 1) = a.
Proof.
  intros Harena Hchunks Hml Hroom i n ctx' Hstore.
  unfold storeChunks in Hstore. rewrite Hchunks in Hstore. cbn [fold_left] in Hstore.
  unfold chunkText in Hstore. cbn [startIdx size] in Hstore. rewrite Harena in Hstore.
  assert (Ha : slice a 0 (len a) = a).
  { apply (slice_after a [] a []); [rewrite app_nil_r; reflexivity|reflexivity|reflexivity]. }
  rewrite Ha, Hml in Hstore. cbn [andb] in Hstore.
  unfold commitSession, addToSession, startStringSession in Hstore.
  cbn [setArena arena sessionStartIdx elements _entries _entryQty _maxEntryQty] in Hstore.
  injection Hstore as <- <- <-. cbn [arena].
  pose proof (len_nonneg (arena ctx)) as Hn0. pose proof (len_nonneg a) as Ha0.
  assert (Hu : u32 (len (arena ctx)) = len (arena ctx)).
  { apply u32_id. unfold UINT_MAX in Hroom. change (2 ^ 32) with 4294967296. lia. }
  rewrite Hu.
  assert (Hsz : u32 (len ((arena ctx ++ a) ++ [NUL]) - len (arena ctx)) = len a + 1).
  { replace (len ((arena ctx ++ a) ++ [NUL]) - len (arena ctx)) with (len a + 1) by lens.
    apply u32_id. unfold UINT_MAX in Hroom. change (2 ^ 32) with 4294967296. lia. }
  rewrite Hsz. apply (slice_after _ (arena ctx) a [NUL]).
  - rewrite <- app_assoc. reflexivity.
  - reflexivity.
  - lia.
Qed.

Lemma removeTrailingLines_single (sh : StringHelper) (a : list ascii) :
  sh_arena sh = a -> chunks sh = [mkLineChunk 0 (len a)] -> len a <= UINT_MAX ->
  isBlankText a = false ->
  sh_arena (removeTrailingLines sh) = a
  /\ chunks (removeTrailingLines sh) = [mkLineChunk 0 (len a)].
Proof.
  intros Harena Hchunks Hbound Hblank. unfold removeTrailingLines.
  cbn [sh_arena chunks]. rewrite Harena, Hchunks. cbn [rev app dropBlankChunks].
  destruct (isBlankChunk a (mkLineChunk 0 (len a))) eqn:Hb; [|split; reflexivity].
  exfalso. pose proof (isBlankChunk_text [] a []) as H.
  cbn [app] in H. rewrite app_nil_r in H. change (len (@nil ascii)) with 0 in H.
  rewrite H in Hblank; [discriminate Hblank|lia|exact Hb].
Qed.

Lemma startsAsCaret_false (c : ascii) (rest : list ascii) :
  startsAsCaret (c :: rest) = false ->
  Ascii.eqb c "-"%char
  && ((len rest =? 0) || Ascii.eqb (at_ (c :: rest) 1) SP
      || Ascii.eqb (at_ (c :: rest) 1) CR || Ascii.eqb (at_ (c :: rest) 1) LF) = false.
Proof.
  unfold startsAsCaret. destruct rest as [|d r]; intros H.
  - rewrite andb_true_r in H. rewrite H. reflexivity.
  - rewrite len_cons. pose proof (len_nonneg r).
    destruct (Z.eqb_spec (1 + len r) 0) as [E|_]; [lia|].
    change (at_ (c :: d :: r) 1) with d. exact H.
Qed.

Lemma at_app_l (a b : list ascii) (i : Z) : 0 <= i < len a -> at_ (a ++ b) i = at_ a i.
Proof.
  intros Hi. unfold at_. destruct (Z.ltb_spec i 0); [lia|].
  apply app_nth1. unfold len in Hi. lia.
Qed.

Lemma list_case {A : Type} (l : list A) : l = [] \/ exists x r, l = x :: r.
Proof. destruct l as [|x r]; [left; reflexivity|right; exists x, r; reflexivity]. Qed.

Section PlainToken.

(** [text] holds, after [j] spaces, the plain scalar [c :: rest]; it is
    followed by [post]: nothing, for a value that ends the text, or the
    colon of a key, itself at the end of the text or followed by a space
    or an end of line. *)
Variables (text pre rest post : list ascii) (j : nat) (c : ascii).

Hypothesis Htext : text = pre ++ repeat SP j ++ (c :: rest) ++ post.
Hypothesis Hpost :
  post = []
  \/ exists post', post = ":"%char :: post'
       /\ (post' = [] \/ exists d r, post' = d :: r /\ (d = SP \/ d = LF \/ d = CR)).
Hypothesis HLF : hasChar LF (c :: rest) = false.
Hypothesis HCR : hasChar CR (c :: rest) = false.
Hypothesis Hstart :
  startsWithAny [SP; ">"%char; "|"%char; SQUOTE; DQUOTE] (c :: rest) = false.
Hypothesis Htab : c <> TAB.
Hypothesis Hcaret : startsAsCaret ((c :: rest) ++ post) = false.
Hypothesis Hcolon : colonScan ((c :: rest) ++ firstn 1 post) = false.
Hypothesis Hhash : hashScan None (c :: rest) = false.
Hypothesis HendColon : post = [] -> endsWith ":"%char (c :: rest) = false.
Hypothesis HendSP : endsWith SP (c :: rest) = false.
Hypothesis HendTAB : endsWith TAB (c :: rest) = false.

(** The positions of the first character of the scalar and of the
    character after its last one. *)
Let q : Z := len pre + Z.of_nat j.
Let e : Z := len pre + Z.of_nat j + len (c :: rest).

Lemma plain_len : len text = e + len post.
Proof. unfold e. rewrite Htext. lens. Qed.

Lemma plain_at (i : Z) : 0 <= i < len (c :: rest) -> at_ text (q + i) = at_ (c :: rest) i.
Proof.
  intros Hi. rewrite Htext, app_assoc.
  replace q with (len (pre ++ repeat SP j)) by (unfold q; lens).
  rewrite (at_middle (pre ++ repeat SP j) (c :: rest) post i Hi).
  unfold at_. destruct (Z.ltb_spec i 0); [lia|reflexivity].
Qed.

Lemma plain_at_post (d : ascii) (r : list ascii) : post = d :: r -> at_ text e = d.
Proof.
  intros Hp. apply (at_after text (pre ++ repeat SP j ++ c :: rest) d r).
  - rewrite Htext, Hp, <- !app_assoc. reflexivity.
  - unfold e. lens.
Qed.

Lemma plain_not_eol (i : Z) : 0 <= i < len (c :: rest) -> isEol (at_ (c :: rest) i) = false.
Proof.
  intros Hi. unfold isEol.
  assert (Hin : In (at_ (c :: rest) i) (c :: rest)).
  { unfold at_. destruct (Z.ltb_spec i 0); [lia|]. apply nth_In. unfold len in Hi. lia. }
  destruct (Ascii.eqb_spec (at_ (c :: rest) i) LF) as [E|_].
  { rewrite E in Hin. apply hasChar_In in Hin. rewrite Hin in HLF. discriminate HLF. }
  destruct (Ascii.eqb_spec (at_ (c :: rest) i) CR) as [E|_].
  { rewrite E in Hin. apply hasChar_In in Hin. rewrite Hin in HCR. discriminate HCR. }
  reflexivity.
Qed.

(** The scan of the line does not stop inside the scalar. *)
Lemma plain_no_stop (i : Z) :
  0 <= i < len (c :: rest) -> plainStop text (len text) q (q + i) = false.
Proof.
  intros Hi. pose proof plain_len as Hlen. pose proof (len_nonneg post) as Hp0.
  unfold plainStop.
  rewrite (plain_at i Hi), (plain_not_eol i Hi).
  destruct (Z.leb_spec (len text) (q + i)) as [Hle|_]; [unfold q, e in *; lia|]. cbn [orb].
  apply orb_false_intro.
  - (* a comment sign *)
    destruct (Ascii.eqb_spec (at_ (c :: rest) i) "#"%char) as [E|_]; [|reflexivity].
    cbn [negb orb].
    destruct (hashScan_at (c :: rest) None Hhash i Hi E) as (Hzero & Hpos).
    destruct (Z.eq_dec i 0) as [E0|Hne].
    { destruct (Hzero E0) as (p & Hp & _). discriminate Hp. }
    destruct (Z.eqb_spec (q + i) q) as [Heq|_]; [lia|]. cbn [orb].
    replace (q + i - 1) with (q + (i - 1)) by lia.
    rewrite plain_at by lia.
    destruct (Ascii.eqb_spec (at_ (c :: rest) (i - 1)) SP) as [E1|_]; [|reflexivity].
    exfalso. apply (Hpos ltac:(lia)). exact E1.
  - (* a colon *)
    destruct (Ascii.eqb_spec (at_ (c :: rest) i) ":"%char) as [E|_]; [|reflexivity].
    cbn [negb orb].
    destruct (Z.eqb_spec (q + i + 1) (len text)) as [Hlast|Hmore].
    { exfalso. assert (Hnil : post = []).
      { destruct post; [reflexivity|]. rewrite len_cons in Hlen.
        pose proof (len_nonneg l). unfold q, e in *. lia. }
      specialize (HendColon Hnil). rewrite endsWith_at in HendColon by discriminate.
      replace (len (c :: rest) - 1) with i in HendColon
        by (rewrite Hnil in Hlen; change (len (@nil ascii)) with 0 in Hlen;
            unfold q, e in *; lia).
      rewrite E in HendColon. discriminate HendColon. }
    cbn [negb andb].
    assert (Hnext : at_ text (q + i + 1) = at_ ((c :: rest) ++ firstn 1 post) (i + 1)
                    /\ i + 1 < len ((c :: rest) ++ firstn 1 post)).
    { destruct (Z.eq_dec (i + 1) (len (c :: rest))) as [Eend|Hin].
      - destruct (list_case post) as [Hnil|(d & r & Hp)].
        { rewrite Hnil in Hlen. change (len (@nil ascii)) with 0 in Hlen.
          unfold q, e in *. lia. }
        replace (q + i + 1) with e by (unfold q, e; lia).
        rewrite (plain_at_post d r Hp), Hp. cbn [firstn]. split.
        + symmetry. apply (at_after _ (c :: rest) d []); [reflexivity|exact Eend].
        + rewrite len_app, (len_cons d). change (len (@nil ascii)) with 0. lia.
      - split; [|rewrite len_app; pose proof (len_nonneg (firstn 1 post)); lia].
        replace (q + i + 1) with (q + (i + 1)) by lia.
        rewrite plain_at by lia. symmetry. apply at_app_l. lia. }
    destruct Hnext as (Hnext & Hin).
    rewrite Hnext.
    assert (Hati : at_ ((c :: rest) ++ firstn 1 post) i = ":"%char).
    { rewrite at_app_l by lia. exact E. }
    pose proof (colonScan_at _ Hcolon i ltac:(lia) Hin Hati) as Hno.
    destruct (Ascii.eqb (at_ ((c :: rest) ++ firstn 1 post) (i + 1)) SP);
      [discriminate Hno|].
    destruct (Ascii.eqb (at_ ((c :: rest) ++ firstn 1 post) (i + 1)) CR);
      [discriminate Hno|].
    destruct (Ascii.eqb (at_ ((c :: rest) ++ firstn 1 post) (i + 1)) LF);
      [discriminate Hno|].
    reflexivity.
Qed.

(** The colon of a key stops the scan, and ends a key. *)
Lemma plain_key_colon :
  post <> [] -> plainStop text (len text) q e = true /\ endsAsKey text (len text) e = true
                /\ at_ text e = ":"%char.
Proof.
  intros Hne. pose proof plain_len as Hlen.
  destruct Hpost as [Hnil|(post' & Hp & Hnext)]; [contradiction|].
  pose proof (plain_at_post _ _ Hp) as Hat.
  assert (Hafter : (e + 1 =? len text) || Ascii.eqb (at_ text (e + 1)) SP
                   || Ascii.eqb (at_ text (e + 1)) LF || Ascii.eqb (at_ text (e + 1)) CR
                   = true).
  { destruct Hnext as [Hnil|(d & r & Hd & Hsep)].
    - rewrite Hp, Hnil, len_cons in Hlen. change (len (@nil ascii)) with 0 in Hlen.
      destruct (Z.eqb_spec (e + 1) (len text)); [reflexivity|lia].
    - assert (Hat1 : at_ text (e + 1) = d).
      { apply (at_after text (pre ++ repeat SP j ++ (c :: rest) ++ [":"%char]) d r).
        - rewrite Htext, Hp, Hd, <- !app_assoc. reflexivity.
        - unfold e. lens. }
      rewrite Hat1. destruct Hsep as [-> | [-> | ->] ]; cbn; rewrite ?orb_true_r; reflexivity. }
  split; [|split; [|exact Hat]].
  - unfold plainStop. rewrite Hat.
    change (Ascii.eqb ":"%char "#"%char) with false.
    change (Ascii.eqb ":"%char ":"%char) with true. cbn [negb orb].
    apply orb_true_iff. right. apply negb_true_iff. apply andb_false_iff.
    apply orb_true_iff in Hafter. destruct Hafter as [Hafter|Hcr].
    2: { right. rewrite Hcr. reflexivity. }
    apply orb_true_iff in Hafter. destruct Hafter as [Hafter|Hlf].
    2: { left. rewrite Hlf. apply andb_false_r. }
    apply orb_true_iff in Hafter. destruct Hafter as [Hend|Hsp].
    + left. rewrite Hend. reflexivity.
    + left. rewrite Hsp. cbn [negb]. rewrite andb_false_r. reflexivity.
  - unfold endsAsKey. rewrite Hat. change (Ascii.eqb ":"%char ":"%char) with true.
    cbn [andb].
    destruct (e + 1 =? len text), (Ascii.eqb (at_ text (e + 1)) SP),
      (Ascii.eqb (at_ text (e + 1)) LF), (Ascii.eqb (at_ text (e + 1)) CR);
      try reflexivity; discriminate Hafter.
Qed.

Lemma plain_scan :
  scanFwd (Z.to_nat (len text - q)) (plainStop text (len text) q) q = e.
Proof.
  pose proof plain_len as Hlen. pose proof (len_nonneg (c :: rest)) as Hs0.
  pose proof (len_nonneg post) as Hp0.
  assert (Hqe : e = q + len (c :: rest)) by reflexivity.
  destruct (scanFwd_spec (plainStop text (len text) q) (Z.to_nat (len text - q)) q)
    as (Hr & Hbefore & Hat).
  rewrite Z2Nat.id in Hr, Hat by lia.
  set (r := scanFwd _ _ q) in *.
  destruct (Z.lt_trichotomy r e) as [Hlt|[E|Hgt]]; [|exact E|].
  - specialize (Hat ltac:(lia)).
    replace r with (q + (r - q)) in Hat by lia.
    rewrite plain_no_stop in Hat by lia. discriminate Hat.
  - assert (Hne : post <> []).
    { intros Hnil. rewrite Hnil in Hlen. change (len (@nil ascii)) with 0 in Hlen. lia. }
    destruct (plain_key_colon Hne) as (Hstop & _).
    rewrite (Hbefore e ltac:(lia)) in Hstop. discriminate Hstop.
Qed.

Lemma plain_first : c <> SP /\ isEol c = false /\ Ascii.eqb c "#"%char = false
  /\ Ascii.eqb c SQUOTE || Ascii.eqb c DQUOTE = false
  /\ Ascii.eqb c "|"%char || Ascii.eqb c ">"%char = false.
Proof.
  unfold startsWithAny in Hstart. cbn [existsb] in Hstart.
  cbn [hashScan] in Hhash. apply orb_false_elim in Hhash. destruct Hhash as [Hh _].
  rewrite andb_true_r in Hh.
  pose proof (plain_not_eol 0 ltac:(rewrite len_cons; pose proof (len_nonneg rest); lia))
    as Heol.
  change (at_ (c :: rest) 0) with c in Heol.
  destruct (Ascii.eqb_spec c SP) as [E|Hsp]; [discriminate Hstart|].
  destruct (Ascii.eqb c ">"%char); [discriminate Hstart|].
  destruct (Ascii.eqb c "|"%char); [discriminate Hstart|].
  destruct (Ascii.eqb c SQUOTE); [discriminate Hstart|].
  destruct (Ascii.eqb c DQUOTE); [discriminate Hstart|].
  repeat split; assumption.
Qed.

Lemma plain_at_q : at_ text q = c.
Proof.
  replace q with (q + 0) by lia.
  rewrite plain_at by (rewrite len_cons; pose proof (len_nonneg rest); lia).
  reflexivity.
Qed.

Lemma linePlain_plain (colNbr targetIndent : Z) (sh : StringHelper) :
  targetIndent <= colNbr -> chunks sh = [] ->
  linePlain text (len text) q q colNbr targetIndent sh
  = mkLineResult (addChunk (c :: rest) sh) e (negb (isNil post)) false.
Proof.
  intros Hind Hchunks. pose proof plain_len as Hlen. pose proof (len_nonneg rest) as Hr0.
  pose proof (len_nonneg post) as Hp0.
  assert (Hqe : e = q + len (c :: rest)) by reflexivity.
  rewrite len_cons in Hqe.
  unfold linePlain. rewrite plain_scan.
  assert (Hend : (e <? len text) && negb (isEol (at_ text e)) = negb (isNil post)).
  { destruct (list_case post) as [Hnil|(d & r & Hp)].
    - rewrite Hnil in Hlen |- *. change (len (@nil ascii)) with 0 in Hlen.
      destruct (Z.ltb_spec e (len text)); [lia|reflexivity].
    - destruct (plain_key_colon ltac:(rewrite Hp; discriminate)) as (_ & _ & Hat).
      rewrite Hp, len_cons in Hlen. pose proof (len_nonneg r). rewrite Hp.
      destruct (Z.ltb_spec e (len text)); [|lia]. rewrite Hat. reflexivity. }
  rewrite Hend.
  destruct (Z.ltb_spec colNbr targetIndent) as [H|_]; [lia|]. rewrite andb_false_r.
  unfold empty. rewrite Hchunks. cbn [negb andb].
  destruct (Z.eqb_spec q e) as [E|_]; [lia|]. rewrite andb_false_r.
  f_equal.
  replace (slice text (q + (q - q)) (e - (q + (q - q)))) with (c :: rest).
  - apply addChunkNoTrail_all; assumption.
  - symmetry. apply (slice_after text (pre ++ repeat SP j) (c :: rest) post).
    + rewrite Htext, <- app_assoc. reflexivity.
    + unfold q. lens.
    + rewrite len_cons. lia.
Qed.

(** The line loop reads the scalar as one line: it stops after the colon
    of a key, or after the end of the text. *)
Lemma lineLoop_plain (f : nat) (initIdx col lineNbr targetIndent : Z) (isNewLine : bool) :
  targetIndent <= col ->
  exists col' targetIndent',
    lineLoop (S f) text (len text) initIdx isNewLine SP
      (mkLineLoop (mkStringHelper [] [] 0) q col lineNbr targetIndent false false)
    = Ret (mkLineLoop (endLine (addChunk (c :: rest) (mkStringHelper [] [] 0)))
             (e + 1) col' (lineNbr + (if isNil post then 1 else 0)) targetIndent'
             (negb (isNil post)) false).
Proof.
  intros Hind. pose proof plain_len as Hlen. pose proof (len_nonneg rest) as Hr0.
  pose proof (len_nonneg post) as Hp0.
  assert (Hqe : e = q + len (c :: rest)) by reflexivity.
  rewrite len_cons in Hqe.
  destruct plain_first as (Hsp & Heol & _).
  assert (Hspace : isSpace (at_ text q) = false).
  { rewrite plain_at_q. unfold isSpace. destruct (Ascii.eqb_spec c SP); [contradiction|].
    reflexivity. }
  cbn [lineLoop ll_idx ll_sh ll_colNbr ll_lineNbr ll_targetIndent ll_isKey
       ll_indentedFoldedLine].
  destruct (Z.ltb_spec q (len text)) as [_|Hge]; [|lia]. cbn [negb].
  rewrite (skipWhile_stay text (len text) isSpace q Hspace).
  rewrite plain_at_q, Heol.
  destruct (Ascii.eqb_spec c TAB) as [E|_]; [contradiction|].
  rewrite !andb_false_r.
  change (Ascii.eqb SP SQUOTE) with false. change (Ascii.eqb SP DQUOTE) with false.
  change (Ascii.eqb SP "|"%char) with false. change (Ascii.eqb SP ">"%char) with false.
  cbv iota.
  rewrite linePlain_plain; [| destruct (Z.ltb_spec targetIndent 0); lia | reflexivity].
  cbn [bind lr_isEndOfStringReached lr_lineEndIdx lr_sh].
  destruct (list_case post) as [Hnil|(d & r & Hp)].
  - (* a value that ends the text *)
    rewrite Hnil in Hlen |- *.
    change (len (@nil ascii)) with 0 in Hlen. cbn [isNil negb andb orb].
    assert (Heols : eolSize text (len text) e = 1).
    { unfold eolSize. destruct (Z.ltb_spec (e + 1) (len text)); [lia|reflexivity]. }
    rewrite Heols. rewrite !andb_false_r.
    rewrite lineLoop_done by (cbn [ll_idx]; lia).
    eexists _, _. reflexivity.
  - (* a key *)
    destruct (plain_key_colon ltac:(rewrite Hp; discriminate)) as (_ & Hkey & _).
    rewrite Hkey, Hp. cbn [isNil negb andb orb].
    eexists _, _. rewrite Z.add_0_r. reflexivity.
Qed.

(** The token of the scalar. *)
Lemma getToken_plain (st : TokState) (parentIndent : Z) :
  ts_idx st = len pre ->
  len (arena (ts_context st)) + len (c :: rest) + 1 <= UINT_MAX ->
  exists tok st',
    getToken text (len text) parentIndent st = Ret (tok, st')
    /\ type tok = (if isNil post then TokStringValue else TokKey)
    /\ startColNbr tok = ts_colNbr st + Z.of_nat j
    /\ tokenText (ts_context st') tok = c :: rest
    /\ ts_idx st' = e + 1
    /\ ts_lineNbr st' = ts_lineNbr st + (if isNil post then 1 else 0)
    /\ sameButArena (ts_context st) (ts_context st').
Proof.
  intros Hidx Hroom.
  pose proof plain_len as Hlen. pose proof (len_nonneg rest) as Hr0.
  pose proof (len_nonneg post) as Hp0.
  pose proof (len_nonneg (arena (ts_context st))) as Ha0.
  assert (Hqe : e = q + len (c :: rest)) by reflexivity.
  rewrite len_cons in Hqe.
  destruct plain_first as (Hsp & Heol & Hnohash & Hnoquote & Hnoblock).
  assert (Hq0 : 0 <= q) by (unfold q; pose proof (len_nonneg pre); lia).
  assert (Hfnp : (if ts_colNbr st =? 0 then skipWhile text (len text) isSpace (ts_idx st)
                  else skipWhile text (len text) isSpaceOrTab (ts_idx st)) = q).
  { rewrite Hidx.
    destruct (ts_colNbr st =? 0);
      apply (skipWhile_spaces _ text pre (rest ++ post) j c); try reflexivity;
      try exact Htext; try (fold q; lia).
    - unfold isSpace. destruct (Ascii.eqb_spec c SP); [contradiction|reflexivity].
    - unfold isSpaceOrTab. destruct (Ascii.eqb_spec c SP); [contradiction|].
      destruct (Ascii.eqb_spec c TAB); [contradiction|reflexivity]. }
  assert (Hnocaret :
            Ascii.eqb c "-"%char
            && ((q + 1 =? len text) || Ascii.eqb (at_ text (q + 1)) SP
                || Ascii.eqb (at_ text (q + 1)) CR || Ascii.eqb (at_ text (q + 1)) LF)
            = false).
  { pose proof (startsAsCaret_false c (rest ++ post) Hcaret) as Hno.
    rewrite len_app in Hno.
    destruct (Z.eqb_spec (q + 1) (len text)) as [E|Hne].
    - destruct (Z.eqb_spec (len rest + len post) 0) as [_|Hne]; [|lia].
      cbn [orb] in Hno. cbn [orb]. exact Hno.
    - destruct (Z.eqb_spec (len rest + len post) 0) as [E|_]; [lia|].
      assert (Hat1 : at_ text (q + 1) = at_ (c :: rest ++ post) 1).
      { rewrite Htext, app_assoc.
        replace (q + 1) with (len (pre ++ repeat SP j) + 1) by (unfold q; lens).
        rewrite <- (app_nil_r ((c :: rest) ++ post)).
        rewrite (at_middle (pre ++ repeat SP j) ((c :: rest) ++ post) [] 1)
          by (rewrite len_app, len_cons; lia).
        unfold at_. reflexivity. }
      rewrite Hat1. exact Hno. }
  destruct (lineLoop_plain (Z.to_nat (len text - q)) (ts_idx st)
              (ts_colNbr st + (q - ts_idx st)) (ts_lineNbr st)
              (if parentIndent <? ts_colNbr st + (q - ts_idx st)
               then parentIndent + 1 else ts_colNbr st + (q - ts_idx st))
              (ts_colNbr st =? 0))
    as (col' & targetIndent' & Hloop).
  { destruct (Z.ltb_spec parentIndent (ts_colNbr st + (q - ts_idx st))); lia. }
  unfold getToken. cbv zeta. rewrite Hfnp, plain_at_q.
  destruct (Ascii.eqb_spec c TAB) as [E|_]; [contradiction|]. rewrite andb_false_r.
  destruct (Z.leb_spec (len text) q) as [Hle|_]; [lia|].
  rewrite Heol, Hnocaret, Hnohash, Hnoquote, Hnoblock. cbn [bind].
  unfold scalarToken.
  change (startSession (ts_sh st)) with (mkStringHelper [] [] 0).
  rewrite Hloop. cbn [bind ll_sh ll_isKey ll_colNbr ll_lineNbr ll_idx].
  unfold applyChomp.
  change (negb (Ascii.eqb SP SQUOTE) && negb (Ascii.eqb SP DQUOTE)
          && (Ascii.eqb SP "-"%char || Ascii.eqb SP SP)) with true.
  cbv iota.
  set (sh1 := endLine (addChunk (c :: rest) (mkStringHelper [] [] 0))).
  assert (Hblank : isBlankText (c :: rest) = false).
  { unfold isBlankText. cbn [forallb]. unfold isBlankChar, blankChars. cbn [existsb].
    unfold isEol in Heol.
    destruct (Ascii.eqb_spec c SP); [contradiction|].
    destruct (Ascii.eqb_spec c TAB); [contradiction|].
    rewrite (Ascii.eqb_sym c CR), (Ascii.eqb_sym c LF).
    rewrite (Ascii.eqb_sym c LF), (Ascii.eqb_sym c CR) in Heol.
    destruct (Ascii.eqb LF c); [discriminate Heol|].
    destruct (Ascii.eqb CR c); [discriminate Heol|]. reflexivity. }
  destruct (removeTrailingLines_single sh1 (c :: rest)) as (Ha2 & Hc2);
    [reflexivity|unfold sh1; cbn [endLine addChunk sh_arena chunks startLineIdx app];
                 rewrite Z.sub_0_r; reflexivity|lia|exact Hblank|].
  destruct (storeChunks SP SP (removeTrailingLines sh1) (ts_context st))
    as [[i n] ctx'] eqn:Hstore.
  destruct (storeChunks_context _ _ _ _ _ _ _ Hstore) as (Hsame & _).
  eexists _, _. split; [reflexivity|].
  cbn [type startColNbr ts_context ts_idx ts_lineNbr].
  split; [destruct post; reflexivity|].
  split; [unfold q; lia|].
  split; [|split; [reflexivity|split; [reflexivity|exact Hsame]]].
  unfold tokenText. cbn [stringIdx stringSize].
  apply (storeChunks_single SP SP (removeTrailingLines sh1) (ts_context st) (c :: rest)
           Ha2 Hc2 eq_refl Hroom i n ctx' Hstore).
Qed.

End PlainToken.


(** X21: a string written by [emitScalar] in the plain style is read back
    by [getToken] as the same string when it holds no carriage return,
    does not start with a tabulation, does not start as a caret (['-']
    alone or followed by a space) and does not end with [':'] or with a
    tabulation: the tokenizer, placed where the scalar was written,
    returns one string-value token whose text is the string [s] of the
    value [v]; it stops one position after the end of the written text,
    on the next line. *)
Theorem plain_round_trip (ctx : Context) (v : Element) (s : list ascii)
    (indent_ parentIndent : Z) (lastIsKey_ : bool) (sh : StringHelper) (st : TokState) :
  0 <= getStringIdx v -> getStringSize v - 1 = len s ->
  getStringIdx v + len s <= len (arena ctx) ->
  slice (arena ctx) (getStringIdx v) (len s) = s -> s <> [] ->
  scalarStyle (getString ctx (getStringIdx v)) (len s) = Plain ->
  hasChar CR s = false -> startsWithAny [TAB] s = false -> startsAsCaret s = false ->
  endsWith ":"%char s = false -> endsWith TAB s = false ->
  ts_idx st = len (sh_arena sh) ->
  len (arena (ts_context st)) + len s + 1 <= UINT_MAX ->
  exists tok st',
    getToken (sh_arena (emitScalar ctx v indent_ lastIsKey_ sh))
      (len (sh_arena (emitScalar ctx v indent_ lastIsKey_ sh))) parentIndent st
    = Ret (tok, st')
    /\ type tok = TokStringValue
    /\ tokenText (ts_context st') tok = s
    /\ ts_idx st' = len (sh_arena (emitScalar ctx v indent_ lastIsKey_ sh)) + 1
    /\ ts_lineNbr st' = ts_lineNbr st + 1
    /\ sameButArena (ts_context st) (ts_context st').
Proof.
  intros Hbase Hsize Hfit Hs Hne Hstyle HCR Htab Hcaret HendColon HendTAB Hidx Hroom.
  pose proof (len_nonneg s) as Hs0.
  (* what the style tells *)
  rewrite (scalarStyle_scan (getString ctx (getStringIdx v)) s Hne) in Hstyle.
  2: { intros i Hi. unfold getString.
       transitivity (at_ (slice (arena ctx) (getStringIdx v) (len s)) i);
         [symmetry; apply at_slice; lia|rewrite Hs; reflexivity]. }
  destruct (negb (startsWithAny [SP; ">"%char; "|"%char; SQUOTE; DQUOTE] s)
            && negb (endsWith SP s) && negb (colonScan s) && negb (hashScan None s)
            && negb (hasChar LF s)) eqn:Hplain;
    [|destruct (negb (hasChar LF s)); discriminate Hstyle].
  apply andb_true_iff in Hplain. destruct Hplain as [Hplain HLF].
  apply andb_true_iff in Hplain. destruct Hplain as [Hplain Hhash].
  apply andb_true_iff in Hplain. destruct Hplain as [Hplain Hcolon].
  apply andb_true_iff in Hplain. destruct Hplain as [Hstart HendSP].
  apply negb_true_iff in HLF, Hhash, Hcolon, Hstart, HendSP.
  (* what the emitter writes *)
  assert (Hout : sh_arena (emitScalar ctx v indent_ lastIsKey_ sh)
                 = sh_arena sh ++ repeat SP (if lastIsKey_ then 1 else 0) ++ s).
  { unfold emitScalar. rewrite Hsize.
    rewrite (scalarStyle_scan (getString ctx (getStringIdx v)) s Hne).
    - rewrite Hstart, HendSP, Hcolon, Hhash, HLF. cbn [negb andb]. rewrite Hs.
      destruct lastIsKey_; cbn [addChunk addChar sh_arena repeat app];
        rewrite <- ?app_assoc; reflexivity.
    - intros i Hi. unfold getString.
      transitivity (at_ (slice (arena ctx) (getStringIdx v) (len s)) i);
        [symmetry; apply at_slice; lia|rewrite Hs; reflexivity]. }
  destruct s as [|c rest]; [congruence|].
  assert (Hc : c <> TAB).
  { intros ->. discriminate Htab. }
  destruct (getToken_plain (sh_arena (emitScalar ctx v indent_ lastIsKey_ sh)) (sh_arena sh) rest []
              (if lastIsKey_ then 1%nat else 0%nat) c)
    with (st := st) (parentIndent := parentIndent)
    as (tok & st' & Hrun & Htype & _ & Htok & Hend & Hline & Hsame);
    rewrite ?app_nil_r; try assumption.
  - left. reflexivity.
  - intros _. exact HendColon.
  - exists tok, st'. rewrite Hout.
    split; [rewrite <- Hout; exact Hrun|]. split; [exact Htype|]. split; [exact Htok|].
    split; [rewrite Hend; lens|]. split; [exact Hline|exact Hsame].
Qed.

Lemma plain_round_trip_witness :
  exists tok st',
    getToken
      (sh_arena (emitScalar (mkContext [Element_string VALUE 0 8] (chars "-a:b c#" ++ [NUL]) 0 [] 0 0)
                   (Element_string VALUE 0 8) 0 true (mkStringHelper (chars "k:") [] 0)))
      (len (sh_arena (emitScalar
                        (mkContext [Element_string VALUE 0 8] (chars "-a:b c#" ++ [NUL]) 0 [] 0 0)
                        (Element_string VALUE 0 8) 0 true (mkStringHelper (chars "k:") [] 0))))
      0 (mkTokState (mkContext [] [] 0 [] 0 0) (mkStringHelper [] [] 0) 2 1 2)
    = Ret (tok, st')
    /\ type tok = TokStringValue
    /\ tokenText (ts_context st') tok = chars "-a:b c#"
    /\ ts_idx st'
       = len (sh_arena (emitScalar
                          (mkContext [Element_string VALUE 0 8] (chars "-a:b c#" ++ [NUL]) 0 [] 0 0)
                          (Element_string VALUE 0 8) 0 true (mkStringHelper (chars "k:") [] 0)))
         + 1
    /\ ts_lineNbr st' = 1 + 1
    /\ sameButArena (mkContext [] [] 0 [] 0 0) (ts_context st').
Proof.
  apply (plain_round_trip
           (mkContext [Element_string VALUE 0 8] (chars "-a:b c#" ++ [NUL]) 0 [] 0 0)
           (Element_string VALUE 0 8) (chars "-a:b c#") 0 0 true
           (mkStringHelper (chars "k:") [] 0)
           (mkTokState (mkContext [] [] 0 [] 0 0) (mkStringHelper [] [] 0) 2 1 2)).
  - vm_compute. discriminate.
  - reflexivity.
  - vm_compute. discriminate.
  - reflexivity.
  - discriminate.
  - reflexivity.
  - reflexivity.
  - reflexivity.
  - reflexivity.
  - reflexivity.
  - reflexivity.
  - reflexivity.
  - vm_compute. discriminate.
Defined.

(** ** Comments *)

Lemma addIndent_arena (n : nat) :
  forall sh, sh_arena (addIndent n sh) = sh_arena sh ++ repeat SP (2 * n).
Proof.
  induction n as [|n IH]; intros sh; cbn [addIndent].
  - cbn [Nat.mul repeat]. rewrite app_nil_r. reflexivity.
  - rewrite IH. cbn [addChunk sh_arena]. rewrite <- app_assoc. f_equal.
    replace (2 * S n)%nat with (S (S (2 * n))) by lia. cbn [repeat app].
    change (SP :: SP :: repeat SP (2 * n)) with (repeat SP 2 ++ repeat SP (2 * n)).
    rewrite <- !repeat_app. f_equal.
Qed.

(** The token of a comment that ends the text. *)
Lemma getToken_comment (text pre s : list ascii) (j : nat) (st : TokState) (parentIndent : Z) :
  text = pre ++ repeat SP j ++ "#"%char :: s ->
  hasChar LF s = false -> hasChar CR s = false ->
  ts_idx st = len pre ->
  len (arena (ts_context st)) + len s + 1 <= UINT_MAX ->
  exists tok st',
    getToken text (len text) parentIndent st = Ret (tok, st')
    /\ type tok = TokComment
    /\ tokenText (ts_context st') tok = s
    /\ ts_idx st' = len text
    /\ ts_lineNbr st' = ts_lineNbr st
    /\ sameButArena (ts_context st) (ts_context st').
Proof.
  intros Htext HLF HCR Hidx Hroom.
  pose proof (len_nonneg pre) as Hp0. pose proof (len_nonneg s) as Hs0.
  pose proof (len_nonneg (arena (ts_context st))) as Ha0.
  set (q := len pre + Z.of_nat j).
  assert (Hlen : len text = q + 1 + len s) by (unfold q; rewrite Htext; lens).
  assert (Hat : at_ text q = "#"%char).
  { apply (at_after text (pre ++ repeat SP j) "#"%char s).
    - rewrite Htext, <- app_assoc. reflexivity.
    - unfold q. lens. }
  assert (Hfnp : (if ts_colNbr st =? 0 then skipWhile text (len text) isSpace (ts_idx st)
                  else skipWhile text (len text) isSpaceOrTab (ts_idx st)) = q).
  { rewrite Hidx.
    destruct (ts_colNbr st =? 0);
      apply (skipWhile_spaces _ text pre s j "#"%char); try reflexivity;
      try exact Htext; fold q; lia. }
  assert (Hbody : forall i, 0 <= i < len s -> isEol (at_ text (q + 1 + i)) = false).
  { intros i Hi.
    assert (Hati : at_ text (q + 1 + i) = at_ s i).
    { rewrite Htext.
      replace (pre ++ repeat SP j ++ "#"%char :: s)
        with ((pre ++ repeat SP j ++ ["#"%char]) ++ s ++ []).
      - replace (q + 1) with (len (pre ++ repeat SP j ++ ["#"%char])) by (unfold q; lens).
        rewrite (at_middle _ s [] i Hi).
        unfold at_. destruct (Z.ltb_spec i 0); [lia|reflexivity].
      - rewrite app_nil_r, <- !app_assoc. reflexivity. }
    rewrite Hati.
    assert (Hin : In (at_ s i) s).
    { unfold at_. destruct (Z.ltb_spec i 0); [lia|]. apply nth_In. unfold len in Hi. lia. }
    unfold isEol.
    destruct (Ascii.eqb_spec (at_ s i) LF) as [E|_].
    { rewrite E in Hin. apply hasChar_In in Hin. rewrite Hin in HLF. discriminate HLF. }
    destruct (Ascii.eqb_spec (at_ s i) CR) as [E|_].
    { rewrite E in Hin. apply hasChar_In in Hin. rewrite Hin in HCR. discriminate HCR. }
    reflexivity. }
  assert (Hskip : skipWhile text (len text) (fun c => negb (isEol c)) q = len text).
  { destruct (skipWhile_spec text (len text) (fun c => negb (isEol c)) q ltac:(lia))
      as (Hr & _ & Hstop).
    set (e := skipWhile _ _ _ q) in *.
    destruct (Z.eq_dec e (len text)) as [E|Hne]; [exact E|].
    specialize (Hstop ltac:(lia)). apply negb_false_iff in Hstop.
    destruct (Z.eq_dec e q) as [Eq|Hneq].
    - rewrite Eq, Hat in Hstop. discriminate Hstop.
    - replace e with (q + 1 + (e - q - 1)) in Hstop by lia.
      rewrite Hbody in Hstop by lia. discriminate Hstop. }
  unfold getToken. cbv zeta. rewrite Hfnp, Hat.
  change (Ascii.eqb "#"%char TAB) with false. rewrite andb_false_r.
  destruct (Z.leb_spec (len text) q) as [Hle|_]; [lia|].
  change (isEol "#"%char) with false. cbv iota.
  change (Ascii.eqb "#"%char "-"%char) with false. cbn [andb].
  change (Ascii.eqb "#"%char "#"%char) with true. cbv iota.
  rewrite Hskip.
  assert (Hslice : slice text (q + 1) (len text - (q + 1)) = s).
  { apply (slice_after text (pre ++ repeat SP j ++ ["#"%char]) s []).
    - rewrite Htext, app_nil_r, <- !app_assoc. reflexivity.
    - unfold q. lens.
    - lia. }
  rewrite Hslice. unfold addString.
  eexists _, _. split; [reflexivity|].
  cbn [type ts_context ts_idx ts_lineNbr]. split; [reflexivity|].
  split; [|split; [reflexivity|split; [reflexivity|]]].
  - unfold tokenText. cbn [stringIdx stringSize setArena arena].
    rewrite !u32_id by (unfold UINT_MAX in Hroom; change (2 ^ 32) with 4294967296; lia).
    replace (len s + 1 - 1) with (len s) by lia.
    apply (slice_after _ (arena (ts_context st)) s [NUL]); reflexivity.
  - unfold sameButArena. cbn [setArena elements _entries _entryQty _maxEntryQty arena].
    repeat split. exists (s ++ [NUL]). reflexivity.
Qed.

(** X22: a comment written by [emitComment], after the previous construct
    or on its own line, is read back by [getToken] as the same comment:
    for a comment text [s] without line feed and carriage return, the
    tokenizer, placed at the start of the line of the comment or right
    after the previous construct, returns one comment token whose text is
    [s] and stops at the end of the written text. *)
Theorem comment_round_trip (ctx : Context) (cm : Element) (s : list ascii)
    (ownLine : bool) (indent_ parentIndent : Z) (dst : DumpState) (st : TokState) :
  getStringSize cm - 1 = len s ->
  slice (arena ctx) (getStringIdx cm) (len s) = s ->
  hasChar LF s = false -> hasChar CR s = false ->
  ts_idx st = len (sh_arena (out dst)) + (if ownLine && negb (isFirst dst) then 1 else 0) ->
  len (arena (ts_context st)) + len s + 1 <= UINT_MAX ->
  exists tok st',
    getToken (sh_arena (out (emitComment ctx cm ownLine indent_ dst)))
      (len (sh_arena (out (emitComment ctx cm ownLine indent_ dst)))) parentIndent st
    = Ret (tok, st')
    /\ type tok = TokComment
    /\ tokenText (ts_context st') tok = s
    /\ ts_idx st' = len (sh_arena (out (emitComment ctx cm ownLine indent_ dst)))
    /\ ts_lineNbr st' = ts_lineNbr st
    /\ sameButArena (ts_context st) (ts_context st').
Proof.
  intros Hsize Hs HLF HCR Hidx Hroom.
  assert (Hout : exists pre j,
             sh_arena (out (emitComment ctx cm ownLine indent_ dst))
             = pre ++ repeat SP j ++ "#"%char :: s
             /\ ts_idx st = len pre).
  { unfold emitComment. cbn [out]. rewrite Hsize, Hs. cbn [addChunk addChar sh_arena].
    destruct ownLine.
    - unfold newLineIndent. rewrite addIndent_arena. cbn [andb] in Hidx.
      destruct (isFirst dst); cbn [negb] in Hidx.
      + exists (sh_arena (out dst)), (2 * Z.to_nat indent_)%nat.
        split; [rewrite <- !app_assoc; reflexivity|]. rewrite Hidx. lia.
      + exists (sh_arena (out dst) ++ [LF]), (2 * Z.to_nat indent_)%nat.
        cbn [addChar sh_arena]. split; [rewrite <- !app_assoc; reflexivity|].
        rewrite Hidx. lens.
    - exists (sh_arena (out dst)), 1%nat. cbn [andb] in Hidx.
      cbn [addChar sh_arena repeat app].
      split; [rewrite <- ?app_assoc; reflexivity|]. rewrite Hidx. lia. }
  destruct Hout as (pre & j & Hout & Hpre).
  exact (getToken_comment _ pre s j st parentIndent Hout HLF HCR Hpre Hroom).
Qed.

Lemma comment_round_trip_witness :
  exists tok st',
    getToken
      (sh_arena (out (emitComment
                        (mkContext [Element_string COMMENT 0 6] (chars " note" ++ [NUL]) 0 [] 0 0)
                        (Element_string COMMENT 0 6) true 1
                        (mkDumpState false false false (mkStringHelper (chars "a: b") [] 0)))))
      (len (sh_arena (out (emitComment
                             (mkContext [Element_string COMMENT 0 6] (chars " note" ++ [NUL])
                                0 [] 0 0)
                             (Element_string COMMENT 0 6) true 1
                             (mkDumpState false false false
                                (mkStringHelper (chars "a: b") [] 0))))))
      0 (mkTokState (mkContext [] [] 0 [] 0 0) (mkStringHelper [] [] 0) 0 2 5)
    = Ret (tok, st')
    /\ type tok = TokComment
    /\ tokenText (ts_context st') tok = chars " note"
    /\ ts_idx st'
       = len (sh_arena (out (emitComment
                               (mkContext [Element_string COMMENT 0 6] (chars " note" ++ [NUL])
                                  0 [] 0 0)
                               (Element_string COMMENT 0 6) true 1
                               (mkDumpState false false false
                                  (mkStringHelper (chars "a: b") [] 0)))))
    /\ ts_lineNbr st' = 2
    /\ sameButArena (mkContext [] [] 0 [] 0 0) (ts_context st').
Proof.
  apply (comment_round_trip
           (mkContext [Element_string COMMENT 0 6] (chars " note" ++ [NUL]) 0 [] 0 0)
           (Element_string COMMENT 0 6) (chars " note") true 1 0
           (mkDumpState false false false (mkStringHelper (chars "a: b") [] 0))
           (mkTokState (mkContext [] [] 0 [] 0 0) (mkStringHelper [] [] 0) 0 2 5)).
  - reflexivity.
  - reflexivity.
  - reflexivity.
  - reflexivity.
  - reflexivity.
  - vm_compute. discriminate.
Defined.

(** X23: a key written by the YAML emitter is read back by [getToken] as
    a key of the same name. For a KEY element without comment whose name
    [s] can be written as it is ([plainName]), one step of the emitter
    writes the name and a colon, on a new line or after the caret of a
    sequence; the tokenizer, placed at the start of what was written for
    the key, returns one key token whose text is [s], and stops after the
    colon, on the same line. *)
Theorem key_round_trip (ctx : Context) (it : DumpItem) (stack : list DumpItem)
    (dst : DumpState) (s : list ascii) (st : TokState) (parentIndent : Z) :
  getType (eltAt ctx (node it)) = KEY ->
  getNextCommentIndex (eltAt ctx (node it)) = 0 ->
  getStringSize (eltAt ctx (node it)) - 1 = len s ->
  slice (arena ctx) (getStringIdx (eltAt ctx (node it))) (len s) = s ->
  plainName s = true ->
  ts_idx st = len (sh_arena (out dst))
              + (if NodeType_eqb (parentType it) SEQUENCE || isFirst dst then 0 else 1) ->
  len (arena (ts_context st)) + len s + 1 <= UINT_MAX ->
  exists stack' dst' tok st',
    dumpYamlStep ctx it stack dst = Ret (stack', dst')
    /\ getToken (sh_arena (out dst')) (len (sh_arena (out dst'))) parentIndent st
       = Ret (tok, st')
    /\ type tok = TokKey
    /\ tokenText (ts_context st') tok = s
    /\ ts_idx st' = len (sh_arena (out dst'))
    /\ ts_lineNbr st' = ts_lineNbr st
    /\ sameButArena (ts_context st) (ts_context st').
Proof.
  intros Htype Hnext Hsize Hs Hname Hidx Hroom.
  pose proof (len_nonneg s) as Hs0.
  unfold plainName in Hname.
  apply andb_true_iff in Hname. destruct Hname as [Hname HendTAB].
  apply andb_true_iff in Hname. destruct Hname as [Hname HendSP].
  apply andb_true_iff in Hname. destruct Hname as [Hname Hhash].
  apply andb_true_iff in Hname. destruct Hname as [Hname Hcolon].
  apply andb_true_iff in Hname. destruct Hname as [Hname Hcaret].
  apply andb_true_iff in Hname. destruct Hname as [Hname Hstart0].
  apply andb_true_iff in Hname. destruct Hname as [Hname HCR].
  apply andb_true_iff in Hname. destruct Hname as [Hname HLF].
  apply negb_true_iff in HendTAB, HendSP, Hhash, Hcolon, Hcaret, Hstart0, HCR, HLF.
  destruct s as [|c rest]; [discriminate Hname|].
  (* what the emitter writes *)
  assert (Hout : exists stack' dst' pre j,
             dumpYamlStep ctx it stack dst = Ret (stack', dst')
             /\ sh_arena (out dst') = pre ++ repeat SP j ++ (c :: rest) ++ [":"%char]
             /\ ts_idx st = len pre).
  { unfold dumpYamlStep. rewrite Htype, Hnext, Hsize.
    assert (Hbig : (1 <? len (c :: rest) + 1) = true).
    { rewrite len_cons. pose proof (len_nonneg rest). apply Z.ltb_lt. lia. }
    replace (getStringSize (eltAt ctx (node it))) with (len (c :: rest) + 1) by lia.
    rewrite Hbig. replace (len (c :: rest) + 1 - 1) with (len (c :: rest)) by lia.
    rewrite Hs. cbn [NodeType_eqb]. cbn [commentChain Z.eqb bind].
    destruct (NodeType_eqb (parentType it) SEQUENCE).
    - cbn [orb] in Hidx. eexists _, _, (sh_arena (out dst)), 0%nat.
      split; [reflexivity|]. cbn [out addChar addChunk sh_arena repeat app].
      split; [rewrite <- !app_assoc; reflexivity|]. rewrite Hidx. lia.
    - cbn [orb] in Hidx. unfold newLineIndent.
      destruct (isFirst dst).
      + eexists _, _, (sh_arena (out dst)), (2 * Z.to_nat (indent it))%nat.
        split; [reflexivity|]. cbn [out addChar addChunk sh_arena].
        rewrite addIndent_arena.
        split; [rewrite <- !app_assoc; reflexivity|]. rewrite Hidx. lia.
      + eexists _, _, (sh_arena (out dst) ++ [LF]), (2 * Z.to_nat (indent it))%nat.
        split; [reflexivity|]. cbn [out addChar addChunk sh_arena].
        rewrite addIndent_arena. cbn [addChar sh_arena].
        split; [rewrite <- !app_assoc; reflexivity|]. rewrite Hidx. lens. }
  destruct Hout as (stack' & dst' & pre & j & Hstep & Hout & Hpre).
  assert (Hc : c <> TAB).
  { intros ->. discriminate Hstart0. }
  assert (Hstart : startsWithAny [SP; ">"%char; "|"%char; SQUOTE; DQUOTE] (c :: rest) = false).
  { revert Hstart0. unfold startsWithAny. cbn [existsb].
    destruct (Ascii.eqb c SP), (Ascii.eqb c ">"%char), (Ascii.eqb c "|"%char),
      (Ascii.eqb c SQUOTE), (Ascii.eqb c DQUOTE); cbn [orb]; intros Hx;
      try reflexivity; discriminate Hx. }
  destruct (getToken_plain (sh_arena (out dst')) pre rest [":"%char] j c Hout)
    with (st := st) (parentIndent := parentIndent)
    as (tok & st' & Hrun & Htok & _ & Htext & Hend & Hline & Hsame);
    try assumption.
  - right. exists []. split; [reflexivity|left; reflexivity].
  - intros H0. discriminate H0.
  - exists stack', dst', tok, st'.
    split; [exact Hstep|]. split; [exact Hrun|]. split; [exact Htok|].
    split; [exact Htext|]. split; [rewrite Hend, Hout; lens|].
    split; [rewrite Hline; cbn [isNil]; lia|exact Hsame].
Qed.

Lemma key_round_trip_witness :
  exists stack' dst' tok st',
    dumpYamlStep
      (mkContext [Element_key KEY 0 8 0] (chars "my-key:" ++ [NUL]) 0 [] 0 0)
      (mkDumpItem 0 1 MAP) []
      (mkDumpState false false false (mkStringHelper (chars "a:") [] 0))
    = Ret (stack', dst')
    /\ getToken (sh_arena (out dst')) (len (sh_arena (out dst'))) 0
         (mkTokState (mkContext [] [] 0 [] 0 0) (mkStringHelper [] [] 0) 0 2 3)
       = Ret (tok, st')
    /\ type tok = TokKey
    /\ tokenText (ts_context st') tok = chars "my-key:"
    /\ ts_idx st' = len (sh_arena (out dst'))
    /\ ts_lineNbr st' = 2
    /\ sameButArena (mkContext [] [] 0 [] 0 0) (ts_context st').
Proof.
  apply (key_round_trip
           (mkContext [Element_key KEY 0 8 0] (chars "my-key:" ++ [NUL]) 0 [] 0 0)
           (mkDumpItem 0 1 MAP) []
           (mkDumpState false false false (mkStringHelper (chars "a:") [] 0))
           (chars "my-key:")
           (mkTokState (mkContext [] [] 0 [] 0 0) (mkStringHelper [] [] 0) 0 2 3) 0).
  - reflexivity.
  - reflexivity.
  - reflexivity.
  - reflexivity.
  - reflexivity.
  - reflexivity.
  - vm_compute. discriminate.
Defined.
